(** * Clustering algorithms of mathics/algorithm/clusters.py

    A shallow embedding of the agglomerative (heap based) and the partitional
    (CLARANS with an AGORAS seed) clustering engines, of the distance
    providers, the shuffled samplers and the merge / split criteria, followed
    by the properties established about them.

    Conventions of the embedding.
    - Python numbers that carry distances and costs are rationals [Q]; [==]
      on them is [Qeq], decided by [Qeq_bool].  These are the exact numbers
      of Python, and the idealisation of its floats, whose rounding is left
      out.  Division follows the numbers the module divides, mpmath's and
      Python's own: a zero divisor raises [ZeroDivisionError].  Where
      rounding alone decides what a function answers, the function is given
      for every kind of number, floats among them ([PyNumber]).
    - Python exceptions are values of [exn]; a computation that may raise
      returns an [outcome].  [OutOfFuel] is the outcome of a loop whose
      iteration bound was exhausted; it stands for a call that has not
      returned.
    - The process-wide random stream and the cache of a lazy distance provider
      form the [World] threaded through the partitional engine. *)

From Stdlib Require Import ZArith QArith Qround Lia Lqa List Permutation.
From Stdlib Require SpecFloat.
From stdpp Require Import base option list gmap numbers sorting.

Local Open Scope Q_scope.
Local Open Scope nat_scope.

(** ** Exceptions and outcomes *)

Inductive exn : Set :=
| ValueError
| IndexError
| TypeError
| AttributeError
| AssertionError
| ZeroDivisionError
| NotImplementedError
| StopIteration
| InfiniteSilhouette.

Inductive outcome (A : Type) : Type :=
| Ok (a : A)
| Raise (e : exn)
| OutOfFuel.
Arguments Ok {A} a.
Arguments Raise {A} e.
Arguments OutOfFuel {A}.

#[global] Instance outcome_ret : MRet outcome := fun A a => Ok a.
#[global] Instance outcome_bind : MBind outcome := fun A B f m =>
  match m with
  | Ok a => f a
  | Raise e => Raise e
  | OutOfFuel => OutOfFuel
  end.

Definition returns {A} (m : outcome A) : Prop := exists a, m = Ok a.

(** [l[i]] for a non-negative index. *)
Definition getitem {A} (l : list A) (i : nat) : outcome A :=
  match l !! i with
  | Some x => Ok x
  | None => Raise IndexError
  end.

(** [l[i] = x] for a non-negative index. *)
Definition setitem {A} (l : list A) (i : nat) (x : A) : outcome (list A) :=
  if decide (i < length l) then Ok (<[i:=x]> l) else Raise IndexError.

(** [for x in l: s = body(s, x)] *)
Fixpoint for_each {A S} (l : list A) (body : S -> A -> outcome S) (s : S) : outcome S :=
  match l with
  | [] => Ok s
  | x :: l' => s' ← body s x; for_each l' body s'
  end.

(** ** Comparisons on rationals *)

Definition Qltb (x y : Q) : bool :=
  match Qcompare x y with Lt => true | _ => false end.
Definition Qleb (x y : Q) : bool :=
  match Qcompare x y with Gt => false | _ => true end.
Definition Qgtb (x y : Q) : bool := Qltb y x.
Definition Qgeb (x y : Q) : bool := Qleb y x.

(** Python's [max(a, b)] and [min(a, b)]: the first argument wins a tie. *)
Definition pymax (a b : Q) : Q := if Qgtb b a then b else a.
Definition pymin (a b : Q) : Q := if Qltb b a then b else a.

(** [fsum] of mpmath, idealised as the exact sum. *)
Definition fsum (l : list Q) : Q := foldr Qplus 0%Q l.

(** ** Python floats

    A Python float is an IEEE 754 binary64 number.  Its operations are those
    of the Standard Library's [SpecFloat] at precision 53, which round to
    the nearest float, ties to even. *)

Definition float : Type := SpecFloat.spec_float.

(** [x * y] and [x > y] on floats *)
Definition float_mul (x y : float) : float := SpecFloat.SFmul 53 1024 x y.
Definition float_gt (x y : float) : bool := SpecFloat.SFltb y x.

(** [1.0], the float next above it and the float next below it:
    [1 + 2**-52] and [1 - 2**-53]. *)
Definition float_one : float := SpecFloat.SFone 53 1024.
Definition float_above_one : float := SpecFloat.SFsucc 53 1024 float_one.
Definition float_below_one : float := SpecFloat.SFpred 53 1024 float_one.

(** The number a finite float stands for. *)
Definition float_value (x : float) : option Q :=
  match x with
  | SpecFloat.S754_zero _ => Some 0%Q
  | SpecFloat.S754_finite s m e =>
      Some ((if s : bool then -1 else 1) * inject_Z (Z.pos m) * Qpower 2 e)%Q
  | _ => None
  end.

(** ** Numbers as the functions take them

    A function of the module that only multiplies and compares works on
    whatever numbers it is given.  The interface lists these operations;
    its instances are the exact numbers and the floats. *)

Class PyNumber (N : Type) : Type := {
  (** [x * y] *)
  py_mul : N -> N -> N;
  (** [x > y] *)
  py_gt : N -> N -> bool
}.

#[global] Instance exact_numbers : PyNumber Q := {| py_mul := Qmult; py_gt := Qgtb |}.
#[global] Instance float_numbers : PyNumber float :=
  {| py_mul := float_mul; py_gt := float_gt |}.

(** ** Module level helpers *)

(** [_index(i, j)], for [i > j]: [j + ((i - 1) * i) // 2]. *)
Definition _index (i j : nat) : nat := j + ((i - 1) * i) / 2.

Fixpoint _robust_min_from (minimum : option Q) (l : list Q) : option Q :=
  match l with
  | [] => minimum
  | i :: l' =>
      match minimum with
      | None => _robust_min_from (Some i) l'
      | Some m => _robust_min_from (Some (if Qltb i m then i else m)) l'
      end
  end.

Definition _robust_min (iterable : list Q) : option Q := _robust_min_from None iterable.

(** [_components(clusters, n)]: position [j] receives the 1-based number of
    the (last) cluster that lists it; writing past [n] raises. *)
Definition _components (clusters : list (list nat)) (n : nat) : outcome (list nat) :=
  for_each (imap (fun i c => (i, c)) clusters)
    (fun components '(i, c) =>
       let component_index := i + 1 in
       for_each c (fun components j => setitem components j component_index) components)
    (replicate n 0).

(** [_ratio_bigger_than(a, b)]: [a1 * b2 > b1 * a2], on the numbers it is
    given. *)
Definition _ratio_bigger_than {N : Type} `{PyNumber N} (a b : N * N) : bool :=
  let '(a1, a2) := a in
  let '(b1, b2) := b in
  py_gt (py_mul a1 b2) (py_mul b1 a2).

(** ** The index-addressable binary heap of [agglomerate]

    A heap entry is the tuple [(distance, pair identifier, pair of points)].
    Python compares such tuples lexicographically.  The identifiers of the
    entries of one heap are pairwise different, so a comparison is decided by
    the first two components; [node_compare] compares these and reports [Eq]
    when both coincide. *)

Section Heap.
Context {U : Type}.

Definition node : Type := Q * nat * U.
Definition dist (a : node) : Q := a.1.1.
Definition pid (a : node) : nat := a.1.2.

Definition node_compare (a b : node) : comparison :=
  match Qcompare (dist a) (dist b) with
  | Eq => Nat.compare (pid a) (pid b)
  | c => c
  end.
Definition node_gt (a b : node) : bool :=
  match node_compare a b with Gt => true | _ => false end.
Definition node_le (a b : node) : bool :=
  match node_compare a b with Gt => false | _ => true end.
Definition node_ne (a b : node) : bool :=
  match node_compare a b with Eq => false | _ => true end.

(** The [while j <= e] loop of [shiftdown]; it returns the final [i]. *)
Fixpoint shiftdown_loop (fuel : nat) (e : nat) (xp : node) (i j : nat)
    (heap : list node) (where_ : list nat) : outcome (nat * list node * list nat) :=
  if decide (j <= e) then
    match fuel with
    | 0 => OutOfFuel
    | S fuel' =>
        j ← (if decide (j < e) then
               hj ← getitem heap j;
               hj1 ← getitem heap (j + 1);
               Ok (if node_gt hj hj1 then j + 1 else j)
             else Ok j);
        hj ← getitem heap j;
        if node_le xp hj then Ok (i, heap, where_)
        else
          heap ← setitem heap i hj;
          where_ ← setitem where_ (pid hj) i;
          shiftdown_loop fuel' e xp j (2 * j + 1) heap where_
    end
  else Ok (i, heap, where_).

(** [shiftdown(s, heap, where)].  [e = len(heap) - 1] is [-1] for an empty
    heap; [j >= 1] exceeds it as it exceeds the truncated [0]. *)
Definition shiftdown (s : nat) (heap : list node) (where_ : list nat)
    : outcome (list node * list nat) :=
  let e := length heap - 1 in
  let i := s in
  let j := 2 * i + 1 in
  if decide (e < j) then Ok (heap, where_)
  else
    xp ← getitem heap i;
    '(i, heap, where_) ← shiftdown_loop (length heap) e xp i j heap where_;
    heap ← setitem heap i xp;
    where_ ← setitem where_ (pid xp) i;
    Ok (heap, where_).

(** The [while j >= 0] loop of [shiftup]; [j] becomes [-1] at the root. *)
Fixpoint shiftup_loop (fuel : nat) (xp : node) (i : nat) (j : Z)
    (heap : list node) (where_ : list nat) : outcome (nat * list node * list nat) :=
  if decide (0 <= j)%Z then
    match fuel with
    | 0 => OutOfFuel
    | S fuel' =>
        hj ← getitem heap (Z.to_nat j);
        if node_le hj xp then Ok (i, heap, where_)
        else
          heap ← setitem heap i hj;
          where_ ← setitem where_ (pid hj) i;
          let i := Z.to_nat j in
          shiftup_loop fuel' xp i ((Z.of_nat i + 1) / 2 - 1)%Z heap where_
    end
  else Ok (i, heap, where_).

(** [shiftup(s, heap, where)]. *)
Definition shiftup (s : nat) (heap : list node) (where_ : list nat)
    : outcome (list node * list nat) :=
  let i := s in
  let j := ((Z.of_nat i + 1) / 2 - 1)%Z in
  if decide (j < 0)%Z then Ok (heap, where_)
  else
    xp ← getitem heap i;
    '(i, heap, where_) ← shiftup_loop (length heap) xp i j heap where_;
    heap ← setitem heap i xp;
    where_ ← setitem where_ (pid xp) i;
    Ok (heap, where_).

(** [update(s, xp, heap, where)]. *)
Definition update (s : nat) (xp : node) (heap : list node) (where_ : list nat)
    : outcome (list node * list nat) :=
  xxpp ← getitem heap s;
  if negb (node_ne xp xxpp) then Raise AssertionError
  else if node_gt xp xxpp then
    heap ← setitem heap s xp;
    shiftdown s heap where_
  else
    heap ← setitem heap s xp;
    shiftup s heap where_.

(** [heap[:-1]] *)
Definition drop_last {A} (l : list A) : list A := take (length l - 1) l.

(** [remove(s, heap, where)]: the new heap is returned, [where] is updated
    in place. *)
Definition remove (s : nat) (heap : list node) (where_ : list nat)
    : outcome (list node * list nat) :=
  if decide (Z.of_nat s = Z.of_nat (length heap) - 1)%Z then
    Ok (drop_last heap, where_)
  else
    xxpp ← match last heap with Some x => Ok x | None => Raise IndexError end;
    let heap := drop_last heap in
    where_ ← setitem where_ (pid xxpp) s;
    update s xxpp heap where_.

End Heap.

(** ** Sorting as Python's [sorted]: stable, ascending in the key *)

Fixpoint insert_by {A} (key : A -> nat) (x : A) (l : list A) : list A :=
  match l with
  | [] => [x]
  | y :: l' => if decide (key x <= key y) then x :: l else y :: insert_by key x l'
  end.

Definition sorted_by {A} (key : A -> nat) (l : list A) : list A :=
  foldr (insert_by key) [] l.

Definition sorted (l : list nat) : list nat := sorted_by (fun x => x) l.

(** ** Distance providers *)

Module PrecomputedDistances.

(** [distance(i, j)]: [self._distances[_index(max(i, j), min(i, j))]]. *)
Definition distance (_distances : list Q) (i j : nat) : outcome Q :=
  getitem _distances (_index (Nat.max i j) (Nat.min i j)).

Definition matrix (_distances : list Q) : outcome (list Q) := Ok _distances.

End PrecomputedDistances.

(** ** Merge criteria *)

(** What [result] may hold at the end of [reduce]: [None], the list of
    clusters (a merged cluster is [None]) or the list of dominant points. *)
Inductive partition_value : Type :=
| PyNone
| PyClusters (cs : list (option (list nat)))
| PyDominant (ds : list (option nat)).

(** Truth value of an entry of [clusters]. *)
Definition truthy (c : option (list nat)) : bool :=
  match c with
  | Some (_ :: _) => true
  | _ => false
  end.

(** The interface [MergeCriterion]: an object with a state, [save_and_merge]
    and [best]. *)
Record MergeCriterion : Type := {
  mc_state : Type;
  mc_save_and_merge :
    mc_state -> list (option (list nat)) -> nat -> nat -> Q -> outcome (bool * mc_state);
  mc_best : mc_state -> partition_value -> partition_value
}.

Module DunnMergeCriterion.

Record state : Type := {
  distances : list Q;
  n : nat;
  _diameters : list (option Q);
  _max_diameter : Q;
  _best_dunn : option (Q * Q);
  _best_partition : option (list (list nat));
  _merge_limit : option Q
}.

(** [__init__(distances, n, merge_limit=None)] *)
Definition init (distances : list Q) (n : nat) (merge_limit : option Q) : state :=
  {| distances := distances; n := n;
     _diameters := replicate n (Some 0%Q);
     _max_diameter := 0%Q;
     _best_dunn := None;
     _best_partition := None;
     _merge_limit := merge_limit |}.

Definition best (self : state) (clusters : partition_value) : partition_value :=
  match _best_partition self with
  | Some p => PyClusters (Some <$> p)
  | None => PyNone
  end.

(** [_fast_distance()] *)
Definition _fast_distance (self : state) (x y : nat) : outcome Q :=
  getitem (distances self) (_index (Nat.max x y) (Nat.min x y)).

(** [max] of a non-empty sequence; of an empty one it raises. *)
Definition max_of (l : list Q) : outcome Q :=
  match l with
  | [] => Raise ValueError
  | x :: l' => Ok (foldl pymax x l')
  end.

(** The members of an entry of [clusters], as iterated. *)
Definition members_of (c : option (list nat)) : outcome (list nat) :=
  match c with
  | Some l => Ok l
  | None => Raise TypeError
  end.

Definition number_of (d : option Q) : outcome Q :=
  match d with
  | Some q => Ok q
  | None => Raise TypeError
  end.

(** [mapM] in [outcome]. *)
Fixpoint collect {A B} (f : A -> outcome B) (l : list A) : outcome (list B) :=
  match l with
  | [] => Ok []
  | x :: l' => y ← f x; ys ← collect f l'; Ok (y :: ys)
  end.

Definition save_and_merge (self : state) (clusters : list (option (list nat)))
    (i j : nat) (d_min : Q) : outcome (bool * state) :=
  let dunn := (d_min, _max_diameter self) in
  let self :=
    if match _best_dunn self with
       | None => true
       | Some b => _ratio_bigger_than dunn b
       end
    then
      {| distances := distances self; n := n self;
         _diameters := _diameters self;
         _max_diameter := _max_diameter self;
         _best_dunn := if Qgtb (_max_diameter self) 0 then Some dunn else _best_dunn self;
         _best_partition :=
           Some (omap (fun c => if truthy c then c else None) clusters);
         _merge_limit := _merge_limit self |}
    else self in
  if match _merge_limit self with
     | Some limit => Qgtb d_min limit
     | None => false
     end
  then Ok (false, self)
  else
    ci ← getitem clusters i;
    ci ← members_of ci;
    ds ← collect (fun x =>
                    cj ← getitem clusters j;
                    cj ← members_of cj;
                    collect (fun y => _fast_distance self x y) cj) ci;
    new_diameter ← max_of (concat ds);
    di ← getitem (_diameters self) i;
    dj ← getitem (_diameters self) j;
    di ← number_of di;
    dj ← number_of dj;
    let di := pymax (pymax di dj) new_diameter in
    diameters ← setitem (_diameters self) i (Some di);
    diameters ← setitem diameters j None;
    Ok (true,
        {| distances := distances self; n := n self;
           _diameters := diameters;
           _max_diameter := pymax (_max_diameter self) di;
           _best_dunn := _best_dunn self;
           _best_partition := _best_partition self;
           _merge_limit := _merge_limit self |}).

Definition criterion : MergeCriterion :=
  {| mc_state := state; mc_save_and_merge := save_and_merge; mc_best := best |}.

End DunnMergeCriterion.

(** ** The agglomerative engine *)

Inductive mode : Set :=
| mode_clusters
| mode_dominant
| mode_components
| mode_other.

(** The argument [k]: a pair (criterion constructor, options), an integer,
    or anything else. *)
Inductive k_arg (C : Type) : Type :=
| KTuple (c : C)
| KInt (k : Z)
| KOther.
Arguments KTuple {C} c.
Arguments KInt {C} k.
Arguments KOther {C}.

(** A merge criterion together with its constructor call
    [k[0](triangular_distance_matrix, n, **k[1])]. *)
Record merge_factory : Type := {
  mf_criterion : MergeCriterion;
  mf_make : list Q -> nat -> outcome (mc_state mf_criterion)
}.

Definition dunn_factory (merge_limit : option Q) : merge_factory :=
  {| mf_criterion := DunnMergeCriterion.criterion;
     mf_make := fun distances n => Ok (DunnMergeCriterion.init distances n merge_limit) |}.

Section Agglomerate.
Context {Point : Type}.

Inductive output : Type :=
| OutClusters (cs : list (list Point))
| OutComponents (components : list nat).

(** [unmerged_pairs(i, j, n)]; [r] stays below [n = len(clusters)]. *)
Definition unmerged_pairs (clusters : list (option (list nat))) (i j n : nat) : list nat :=
  ((fun r => _index i r) <$>
     filter (fun r => r <> j /\ truthy (default None (clusters !! r)) = true) (seq 0 i))
  ++
  ((fun r => _index r i) <$>
     filter (fun r => r <> j /\ truthy (default None (clusters !! r)) = true)
       (seq (i + 1) (n - (i + 1)))).

(** [[(i, j) for i in range(n) for j in range(i)]] *)
Definition lookup_table (n : nat) : list (nat * nat) :=
  i ← seq 0 n; j ← seq 0 i; [(i, j)].

Record reduce_state (S : Type) : Type := {
  r_clusters : list (option (list nat));
  r_heap : list (@node (Point * Point));
  r_where : list nat;
  r_dominant : option (list (option nat));
  r_n_clusters : Z;
  r_criterion : option S
}.
Arguments r_clusters {S}.
Arguments r_heap {S}.
Arguments r_where {S}.
Arguments r_dominant {S}.
Arguments r_n_clusters {S}.
Arguments r_criterion {S}.

(** One pass of [for a, b in zip(unmerged_pairs(i, j, n), unmerged_pairs(j, i, n))]. *)
Definition merge_distances (hw : list (@node (Point * Point)) * list nat) (ab : nat * nat)
    : outcome (list (@node (Point * Point)) * list nat) :=
  let '(heap, where_) := hw in
  let '(a, b) := ab in
  wb ← getitem where_ b;
  '(y, py, u) ← getitem heap wb;
  wb ← getitem where_ b;
  '(heap, where_) ← remove wb heap where_;
  wa ← getitem where_ a;
  '(x, px, _) ← getitem heap wa;
  if Qltb y x then
    wa ← getitem where_ a;
    update wa (y, px, u) heap where_
  else Ok (heap, where_).

(** The heap part of a merge: the popped pair [p] is removed, then the
    distances to [j] are folded into those to [i]. *)
Definition merge_heap (clusters : list (option (list nat))) (n i j p : nat)
    (heap : list (@node (Point * Point))) (where_ : list nat)
    : outcome (list (@node (Point * Point)) * list nat) :=
  wp ← getitem where_ p;
  '(heap, where_) ← remove wp heap where_;
  for_each (zip (unmerged_pairs clusters i j n) (unmerged_pairs clusters j i n))
    merge_distances (heap, where_).

Definition len_of (c : option (list nat)) : outcome nat :=
  match c with
  | Some l => Ok (length l)
  | None => Raise TypeError
  end.

(** [if dominant: ...] *)
Definition merge_dominant (dominant : option (list (option nat)))
    (clusters : list (option (list nat))) (i j : nat)
    : outcome (option (list (option nat))) :=
  match dominant with
  | Some ((_ :: _) as dominant) =>
      cj ← getitem clusters j;
      lj ← len_of cj;
      ci ← getitem clusters i;
      li ← len_of ci;
      dominant ← (if decide (li < lj) then
                    dj ← getitem dominant j;
                    setitem dominant i dj
                  else Ok dominant);
      dominant ← setitem dominant j None;
      Ok (Some dominant)
  | other => Ok other
  end.

(** [clusters[i].extend(clusters[j]); clusters[j] = None] *)
Definition merge_clusters (clusters : list (option (list nat))) (i j : nat)
    : outcome (list (option (list nat))) :=
  ci ← getitem clusters i;
  ci ← match ci with Some l => Ok l | None => Raise AttributeError end;
  cj ← getitem clusters j;
  cj ← match cj with Some l => Ok l | None => Raise TypeError end;
  clusters ← setitem clusters i (Some (ci ++ cj));
  setitem clusters j None.

(** [criterion and not criterion.save_and_merge(clusters, i, j, d)]: whether
    to go on, and the criterion afterwards. *)
Definition consult (C : MergeCriterion) (criterion : option (mc_state C))
    (clusters : list (option (list nat))) (i j : nat) (d : Q)
    : outcome (bool * option (mc_state C)) :=
  match criterion with
  | Some c =>
      '(b, c') ← mc_save_and_merge C c clusters i j d;
      Ok (b, Some c')
  | None => Ok (true, None)
  end.

(** The pair popped from the heap: its distance, its identifier and the two
    cluster indices, the smaller first. *)
Definition popped (lookup : list (nat * nat)) (heap : list (@node (Point * Point)))
    : outcome (Q * nat * nat * nat) :=
  '(d, p, _) ← getitem heap 0;
  '(i, j) ← getitem lookup p;
  let '(i, j) := if decide (j < i) then (j, i) else (i, j) in
  Ok (d, p, i, j).

(** The body of the [while] loop of [reduce]; the flag is [false] after
    [break]. *)
Definition reduce_body (C : MergeCriterion) (n : nat) (lookup : list (nat * nat))
    (st : reduce_state (mc_state C)) : outcome (bool * reduce_state (mc_state C)) :=
  '(d, p, i, j) ← popped lookup (r_heap st);
  '(go_on, criterion) ← consult C (r_criterion st) (r_clusters st) i j d;
  if negb go_on then
    Ok (false,
        {| r_clusters := r_clusters st; r_heap := r_heap st; r_where := r_where st;
           r_dominant := r_dominant st; r_n_clusters := r_n_clusters st;
           r_criterion := criterion |})
  else
    '(heap, where_) ← merge_heap (r_clusters st) n i j p (r_heap st) (r_where st);
    dominant ← merge_dominant (r_dominant st) (r_clusters st) i j;
    clusters ← merge_clusters (r_clusters st) i j;
    Ok (true,
        {| r_clusters := clusters; r_heap := heap; r_where := where_;
           r_dominant := dominant; r_n_clusters := r_n_clusters st - 1;
           r_criterion := criterion |}).

(** [while len(heap) > 0 and n_clusters > n_clusters_target] *)
Fixpoint reduce_loop (fuel : nat) (C : MergeCriterion) (n : nat) (lookup : list (nat * nat))
    (n_clusters_target : Z) (st : reduce_state (mc_state C))
    : outcome (reduce_state (mc_state C)) :=
  if decide (0 < length (r_heap st) /\ (n_clusters_target < r_n_clusters st)%Z) then
    match fuel with
    | 0 => OutOfFuel
    | S fuel' =>
        match reduce_body C n lookup st with
        | Ok (true, st') => reduce_loop fuel' C n lookup n_clusters_target st'
        | Ok (false, st') => Ok st'
        | Raise e => Raise e
        | OutOfFuel => OutOfFuel
        end
    end
  else Ok st.

(** [sorted([sorted(c) for c in result if c], key=lambda c: c[0])] *)
Definition sorted_result (result : partition_value) : outcome (list (list nat)) :=
  match result with
  | PyNone => Raise TypeError
  | PyClusters cs =>
      Ok (sorted_by (fun c => default 0 (head c))
            (sorted <$> omap (fun c => if truthy c then c else None) cs))
  | PyDominant ds =>
      if forallb (fun d => match d with Some (S _) => false | _ => true end) ds
      then Ok []
      else Raise TypeError
  end.

(** A criterion that is never consulted: the case [criterion = None]. *)
Definition no_criterion : MergeCriterion :=
  {| mc_state := Empty_set;
     mc_save_and_merge := fun c _ _ _ _ => match c with end;
     mc_best := fun c _ => match c with end |}.

Definition heapify (heap : list (@node (Point * Point))) (where_ : list nat)
    : outcome (list (@node (Point * Point)) * list nat) :=
  for_each (rev (seq 0 (length heap / 2)))
    (fun '(heap, where_) s => shiftdown s heap where_) (heap, where_).

(** [[(points[i], points[j]) for i in range(n) for j in range(i)]] *)
Definition initial_pairs (points : list Point) (n : nat) : outcome (list (Point * Point)) :=
  DunnMergeCriterion.collect
    (fun '(i, j) => pi ← getitem points i; pj ← getitem points j; Ok (pi, pj))
    (lookup_table n).

(** [[(d, z, u) for d, z, u in zip(triangular_distance_matrix, where, pairs)]] *)
Definition initial_heap (triangular_distance_matrix : list Q) (where_ : list nat)
    (pairs : list (Point * Point)) : list (@node (Point * Point)) :=
  zip (zip triangular_distance_matrix where_) pairs.

(** The choice of [dominant] by the mode. *)
Definition initial_dominant (m : mode) (n : nat) : outcome (option (list (option nat))) :=
  match m with
  | mode_dominant => Ok (Some (Some <$> seq 0 n))
  | mode_clusters | mode_components => Ok None
  | mode_other => Raise ValueError
  end.

(** [result], after [if criterion: result = criterion.best(result)]. *)
Definition final_result (C : MergeCriterion) (st : reduce_state (mc_state C))
    : partition_value :=
  let result := match r_dominant st with
                | Some dominant => PyDominant dominant
                | None => PyClusters (r_clusters st)
                end in
  match r_criterion st with
  | Some c => mc_best C c result
  | None => result
  end.

(** The closing [if mode == ...] of [reduce]. *)
Definition render (points : list Point) (m : mode) (n : nat) (result : list (list nat))
    : outcome output :=
  match m with
  | mode_components => comps ← _components result n; Ok (OutComponents comps)
  | mode_clusters =>
      cs ← DunnMergeCriterion.collect
             (fun c => DunnMergeCriterion.collect (getitem points) c) result;
      Ok (OutClusters cs)
  | _ => Raise ValueError
  end.

(** [reduce()] from the line [pairs = ...] on. *)
Definition reduce_run (points : list Point) (m : mode) (C : MergeCriterion)
    (criterion : option (mc_state C)) (n_clusters_target : Z)
    (triangular_distance_matrix : list Q) : outcome output :=
  let n := length points in
  pairs ← initial_pairs points n;
  let lookup := lookup_table n in
  let where_ := seq 0 (length triangular_distance_matrix) in
  let heap := initial_heap triangular_distance_matrix where_ pairs in
  '(heap, where_) ← heapify heap where_;
  let clusters := (fun i => Some [i]) <$> seq 0 n in
  dominant ← initial_dominant m n;
  st ← reduce_loop (S (length heap)) C n lookup n_clusters_target
         {| r_clusters := clusters; r_heap := heap; r_where := where_;
            r_dominant := dominant; r_n_clusters := Z.of_nat n;
            r_criterion := criterion |};
  result ← sorted_result (final_result C st);
  render points m n result.

(** [reduce()], given the result of [distances.matrix()]. *)
Definition reduce (points : list Point) (k : k_arg merge_factory)
    (matrix : outcome (list Q)) (m : mode) : outcome output :=
  let n := length points in
  triangular_distance_matrix ← matrix;
  match k with
  | KTuple f =>
      criterion ← mf_make f triangular_distance_matrix n;
      reduce_run points m (mf_criterion f) (Some criterion) 1%Z triangular_distance_matrix
  | KInt k => reduce_run points m no_criterion None k triangular_distance_matrix
  | KOther => Raise ValueError
  end.

End Agglomerate.

Arguments r_clusters {Point S}.
Arguments r_heap {Point S}.
Arguments r_where {Point S}.
Arguments r_dominant {Point S}.
Arguments r_n_clusters {Point S}.
Arguments r_criterion {Point S}.

(** ** Library interfaces: [random] and [math]

    The two modules are not part of the repository; their functions are taken
    as operations of a class together with the part of their contract the
    code relies on. *)

Class RandomModule : Type := {
  (** what [random.getstate()] returns *)
  rstate : Type;
  (** the state [random.seed(seed)] installs *)
  seed_state : Z -> rstate;
  (** [random.randint(a, b)] for [a <= b] *)
  randint_raw : Z -> Z -> rstate -> Z * rstate;
  (** [random.sample(population, k)] for [k <= len(population)] *)
  sample_raw : list nat -> nat -> rstate -> list nat * rstate;
  randint_range : forall a b g, (a <= b)%Z -> (a <= (randint_raw a b g).1 <= b)%Z;
  sample_sub : forall p k g, k <= length p -> (sample_raw p k g).1 ⊆+ p;
  sample_length : forall p k g, k <= length p -> length (sample_raw p k g).1 = k
}.

Class MathModule : Type := {
  (** [math.log(k)] for an integer [k > 0] *)
  math_log : Z -> Q
}.

(** A linear congruential generator as an instance of the interface. *)
Definition lcg_next (g : Z) : Z := (g * 1103515245 + 12345) mod 2147483648.

Definition rotate_left {A} (k : nat) (l : list A) : list A := drop k l ++ take k l.

Program Definition lcg_random : RandomModule :=
  {| rstate := Z;
     seed_state := fun seed => lcg_next seed;
     randint_raw := fun a b g => ((a + (lcg_next g) mod (b - a + 1))%Z, lcg_next g);
     sample_raw := fun p k g =>
       (take k (rotate_left (Z.to_nat (lcg_next g mod Z.of_nat (length p))) p), lcg_next g) |}.
Next Obligation.
  intros a b g Hab. simpl.
  pose proof (Z.mod_pos_bound (lcg_next g) (b - a + 1)). lia.
Qed.
Next Obligation.
  intros p k g Hk. simpl.
  etransitivity; [apply sublist_submseteq, sublist_take|].
  unfold rotate_left.
  rewrite Permutation_app_comm, take_drop. done.
Qed.
Next Obligation.
  intros p k g Hk. simpl.
  rewrite length_take. unfold rotate_left.
  rewrite length_app, length_drop, length_take. lia.
Qed.

(** Rational stand-ins for [math.log]: exact at 1, 2 and 3 up to six digits. *)
Definition table_math : MathModule :=
  {| math_log := fun k =>
       match k with
       | 1%Z => 0
       | 2%Z => 693147 # 1000000
       | 3%Z => 1098612 # 1000000
       | _ => inject_Z (Z.log2 k) * (693147 # 1000000)
       end%Q |}.

(** ** The world of the partitional engine and its monad *)

Section World.
Context {RM : RandomModule}.

Record World : Type := {
  (** the state of the process-wide random stream *)
  w_random : rstate;
  (** [LazyDistances._computed] of the provider in use *)
  w_computed : gmap nat Q
}.

Definition M (A : Type) : Type := World -> outcome A * World.

#[global] Instance M_ret : MRet M := fun A a w => (Ok a, w).
#[global] Instance M_bind : MBind M := fun A B f m w =>
  match m w with
  | (Ok a, w') => f a w'
  | (Raise e, w') => (Raise e, w')
  | (OutOfFuel, w') => (OutOfFuel, w')
  end.

Definition raise {A} (e : exn) : M A := fun w => (Raise e, w).
Definition out_of_fuel {A} : M A := fun w => (OutOfFuel, w).
Definition lift {A} (o : outcome A) : M A := fun w => (o, w).

(** [random.getstate()], [random.setstate(s)], [random.seed(seed)] *)
Definition getstate : M rstate := fun w => (Ok (w_random w), w).
Definition setstate (s : rstate) : M unit :=
  fun w => (Ok tt, {| w_random := s; w_computed := w_computed w |}).
Definition seed (sd : Z) : M unit := setstate (seed_state sd).

(** [random.randint(a, b)]: an empty range raises. *)
Definition randint (a b : Z) : M Z :=
  if decide (a <= b)%Z then
    fun w => let '(x, g) := randint_raw a b (w_random w) in
             (Ok x, {| w_random := g; w_computed := w_computed w |})
  else raise ValueError.

(** [random.sample(population, k)]: a sample larger than the population or
    of negative size raises. *)
Definition sample (population : list nat) (k : Z) : M (list nat) :=
  if decide (0 <= k <= Z.of_nat (length population))%Z then
    fun w => let '(x, g) := sample_raw population (Z.to_nat k) (w_random w) in
             (Ok x, {| w_random := g; w_computed := w_computed w |})
  else raise ValueError.

(** [try: body finally: final]; a body that has not returned runs no
    [finally] clause. *)
Definition try_finally {A} (body : M A) (final : M unit) : M A := fun w =>
  match body w with
  | (OutOfFuel, w') => (OutOfFuel, w')
  | (r, w') =>
      match final w' with
      | (Ok _, w'') => (r, w'')
      | (Raise e, w'') => (Raise e, w'')
      | (OutOfFuel, w'') => (OutOfFuel, w'')
      end
  end.

(** [for x in l: s = body(s, x)] in [M] *)
Fixpoint forM {A S} (l : list A) (body : S -> A -> M S) (s : S) : M S :=
  match l with
  | [] => mret s
  | x :: l' => s' ← body s x; forM l' body s'
  end.

(** [[f(x) for x in l]] in [M] *)
Fixpoint mapM {A B} (f : A -> M B) (l : list A) : M (list B) :=
  match l with
  | [] => mret []
  | x :: l' => y ← f x; ys ← mapM f l'; mret (y :: ys)
  end.

(** *** Distance providers *)

Inductive Distances : Type :=
| Precomputed (_distances : list Q)
| Lazy (_compute_distance : nat -> nat -> rstate -> outcome Q * rstate).

(** [LazyDistances._compute_distance] of the base class *)
Definition base_compute_distance (i j : nat) (g : rstate) : outcome Q * rstate :=
  (Raise ValueError, g).

(** [computed.get(index, None)] and [computed[index] = d] *)
Definition computed_get (index : nat) : M (option Q) :=
  fun w => (Ok (w_computed w !! index), w).
Definition computed_set (index : nat) (d : Q) : M unit :=
  fun w => (Ok tt, {| w_random := w_random w; w_computed := <[index := d]> (w_computed w) |}).

(** a call of [self._compute_distance(i, j)], which reads and advances the
    random stream *)
Definition call_compute (_compute_distance : nat -> nat -> rstate -> outcome Q * rstate)
    (i j : nat) : M Q :=
  fun w => let '(r, g) := _compute_distance i j (w_random w) in
           (r, {| w_random := g; w_computed := w_computed w |}).

(** [LazyDistances.distance(i, j)] *)
Definition lazy_distance (_compute_distance : nat -> nat -> rstate -> outcome Q * rstate)
    (i j : nat) : M Q :=
  let index := _index (Nat.max i j) (Nat.min i j) in
  d ← computed_get index;
  match d with
  | None =>
      random_state ← getstate;
      d ← try_finally (call_compute _compute_distance i j) (setstate random_state);
      _ ← computed_set index d;
      mret d
  | Some d => mret d
  end.

(** [distances.distance] *)
Definition distance_of (distances : Distances) (i j : nat) : M Q :=
  match distances with
  | Precomputed ds => lift (PrecomputedDistances.distance ds i j)
  | Lazy compute => lazy_distance compute i j
  end.

(** [distances.matrix()] *)
Definition matrix_of (distances : Distances) : outcome (list Q) :=
  match distances with
  | Precomputed ds => PrecomputedDistances.matrix ds
  | Lazy _ => Raise ValueError
  end.

(** [agglomerate(points, k, distances, mode)] *)
Definition agglomerate {Point} (points : list Point) (k : k_arg merge_factory)
    (distances : Distances) (m : mode) : outcome (@output Point) :=
  reduce points k (matrix_of distances) m.

(** *** The shuffled samplers

    A generator is a state together with a step: [Some x] is a value yielded,
    [None] is [StopIteration]. *)

Record range_gen : Type := {
  sr_n : Z;
  sr_a : gmap Z Z;
  sr_i : Z;
  sr_done : bool
}.

(** the generator object [_shuffled_range(n)] before its first [next] *)
Definition _shuffled_range (n : Z) : range_gen :=
  {| sr_n := n; sr_a := ∅; sr_i := 0; sr_done := false |}.

Definition nth_of (a : gmap Z Z) (k : Z) : Z := default k (a !! k).

Definition range_next (g : range_gen) : M (option Z * range_gen) :=
  if sr_done g then mret (None, g)
  else if decide (sr_i g < sr_n g - 1)%Z then
    let i := sr_i g in
    let ai := nth_of (sr_a g) i in
    j ← randint i (sr_n g - 1);
    let aj := nth_of (sr_a g) j in
    mret (Some aj,
          {| sr_n := sr_n g; sr_a := <[j := ai]> (sr_a g); sr_i := (i + 1)%Z;
             sr_done := false |})
  else
    mret (Some (nth_of (sr_a g) (sr_n g - 1)),
          {| sr_n := sr_n g; sr_a := sr_a g; sr_i := sr_i g; sr_done := true |}).

(** [list(gen)], giving up after [fuel] values *)
Fixpoint drain (fuel : nat) (g : range_gen) : M (list Z) :=
  match fuel with
  | 0 => out_of_fuel
  | S fuel' =>
      '(x, g') ← range_next g;
      match x with
      | None => mret []
      | Some v => vs ← drain fuel' g'; mret (v :: vs)
      end
  end.

(** the generator object [_shuffled_tuples] of the ranges [t]; [indices] is created on the
    first [next], after [n] was multiplied up *)
Record tuples_gen : Type := {
  st_t : list Z;
  st_indices : option range_gen
}.

Definition _shuffled_tuples (t : list Z) : tuples_gen :=
  {| st_t := t; st_indices := None |}.

(** [r.append(n % x); n = n // x] for every [x] of [t] *)
Fixpoint decode (t : list Z) (n : Z) : outcome (list Z) :=
  match t with
  | [] => Ok []
  | x :: t' =>
      if decide (x = 0)%Z then Raise ZeroDivisionError
      else r ← decode t' (n / x)%Z; Ok ((n mod x)%Z :: r)
  end.

(** [next] on a [_shuffled_tuples] generator.  A [StopIteration] of
    [next(indices)] ends the generator, which the caller sees as
    [StopIteration] (the behaviour [_Medoids.swap] is written for). *)
Definition tuples_next (g : tuples_gen) : M (option (list Z) * tuples_gen) :=
  let indices := match st_indices g with
                 | Some indices => indices
                 | None => _shuffled_range (foldl Z.mul 1%Z (st_t g))
                 end in
  '(n, indices) ← range_next indices;
  let g := {| st_t := st_t g; st_indices := Some indices |} in
  match n with
  | None => mret (None, g)
  | Some n => r ← lift (decode (st_t g) n); mret (Some r, g)
  end.

End World.

(** ** The partitional engine *)

(** [l[i]] for a Python integer: a negative index counts from the end. *)
Definition getitemZ {A} (l : list A) (i : Z) : outcome A :=
  if decide (0 <= i)%Z then getitem l (Z.to_nat i)
  else if decide (- Z.of_nat (length l) <= i)%Z then
    getitem l (Z.to_nat (Z.of_nat (length l) + i))
  else Raise IndexError.

(** [bisect.insort(l, x)]: after the entries not above [x]. *)
Fixpoint insort (x : nat) (l : list nat) : list nat :=
  match l with
  | [] => [x]
  | y :: l' => if decide (x < y) then x :: l else y :: insort x l'
  end.

(** [del l[l.index(x)]] *)
Fixpoint del_first (x : nat) (l : list nat) : outcome (list nat) :=
  match l with
  | [] => Raise ValueError
  | y :: l' => if decide (x = y) then Ok l' else l'' ← del_first x l'; Ok (y :: l'')
  end.

(** Order of the tuples [(distance, index)]. *)
Definition pair_lt (a b : Q * nat) : bool :=
  match Qcompare a.1 b.1 with
  | Lt => true
  | Eq => a.2 <? b.2
  | Gt => false
  end.

Fixpoint insert_pair (x : Q * nat) (l : list (Q * nat)) : list (Q * nat) :=
  match l with
  | [] => [x]
  | y :: l' => if pair_lt y x then y :: insert_pair x l' else x :: l
  end.

(** [heapq.nsmallest(n, l)], that is [sorted(l)[:n]] *)
Definition nsmallest (n : nat) (l : list (Q * nat)) : list (Q * nat) :=
  take n (foldr insert_pair [] l).

(** [int(r)]: truncation towards zero *)
Definition int_of (r : Q) : Z := Z.quot (Qnum r) (Z.pos (Qden r)).

(** Euler-Mascheroni constant as written in [_agoras] *)
Definition gamma : Q := 577215664901532 # 1000000000000000.

Record Cluster : Type := {
  medoid : nat;
  members : list nat
}.

Section Partitional.
Context {RM : RandomModule} {MM : MathModule}.

(** [_Cluster.translate(i_to_i0)] *)
Definition translate (self : Cluster) (i_to_i0 : list nat) : outcome Cluster :=
  m ← getitem i_to_i0 (medoid self);
  ms ← DunnMergeCriterion.collect (getitem i_to_i0) (members self);
  Ok {| medoid := m; members := ms |}.

(** [_Cluster.within(distance)].  The memo [_within] is left out: a pair's
    distance is the same at every call, so the memo cannot be observed. *)
Definition within (self : Cluster) (distance : nat -> nat -> M Q) : M (Q * nat) :=
  let m := medoid self in
  ds ← mapM (fun i => distance i m) (filter (fun i => i <> m) (members self));
  mret (fsum ds, length (members self)).

(** The inner loop of [_unmapped]: the position in [v] nearest to [uu]. *)
Definition nearest_position (distance : nat -> nat -> M Q) (uu : nat) (v : list nat)
    : M (option Q * option nat) :=
  forM (imap (fun i vv => (i, vv)) v)
    (fun '(min_d, min_i) '(i, vv) =>
       d ← (if decide (uu = vv) then mret 0%Q else distance uu vv);
       if match min_d with None => true | Some m => Qltb d m end
       then mret (Some d, Some i)
       else mret (min_d, min_i))
    (None, None).

(** [_unmapped(u, v, distance)] *)
Definition _unmapped (u v : list nat) (distance : nat -> nat -> M Q) : M (list nat) :=
  mapped ← forM u
    (fun mapped uu =>
       '(_, min_i) ← nearest_position distance uu v;
       match min_i with
       | Some i => lift (setitem mapped i true)
       | None => raise TypeError
       end)
    (replicate (length v) false);
  mret (snd <$> filter (fun mv => mv.1 = true) (zip mapped v)).

(** [math.log(k)]: defined on the positive integers *)
Definition log_of (k : Z) : M Q :=
  if decide (0 < k)%Z then mret (math_log k) else raise ValueError.

(** [for i in range(m - 1)] of [_agoras]: the reduced samples and the new [r] *)
Fixpoint agoras_reduce (distance : nat -> nat -> M Q) (k m : Z) (range : list nat)
    (s : list (list nat)) (r : Q) : M (list (list nat) * Q) :=
  match range with
  | [] => mret (s, r)
  | i :: range' =>
      si ← lift (getitem s i);
      si1 ← lift (getitem s (i + 1));
      si1 ← _unmapped si si1 distance;
      s ← lift (setitem s (i + 1) si1);
      if decide (Z.of_nat (length si1) < k)%Z then
        mret (s, (r + r * inject_Z (m - (Z.of_nat i + 1)) / inject_Z m)%Q)
      else agoras_reduce distance k m range' s r
  end.

(** [while True] of [_agoras] *)
Fixpoint agoras_loop (fuel : nat) (distance : nat -> nat -> M Q) (n : nat) (k m : Z)
    (p : list nat) (r : Q) : M (list nat) :=
  match fuel with
  | 0 => out_of_fuel
  | S fuel' =>
      s ← mapM (fun _ => sample p (Z.min (int_of r) (Z.of_nat n))) (seq 0 (Z.to_nat m));
      '(s, r) ← agoras_reduce distance k m (seq 0 (Z.to_nat (m - 1))) s r;
      s_last ← lift (match last s with Some x => Ok x | None => Raise IndexError end);
      if decide (k < Z.of_nat (length s_last))%Z then
        agoras_loop fuel' distance n k m p (r * (95 # 100))%Q
      else if decide (Z.of_nat (length s_last) = k) then mret s_last
      else agoras_loop fuel' distance n k m p r
  end.

(** [_agoras(n, k, distance)] *)
Definition _agoras (fuel : nat) (n : nat) (k : Z) (distance : nat -> nat -> M Q)
    : M (list nat) :=
  lk ← log_of k;
  let m := Qceiling (inject_Z k * (lk + gamma)) in
  lk ← log_of k;
  let r := (inject_Z k * lk + gamma * inject_Z k)%Q in
  let p := seq 0 n in
  if Qgtb r (inject_Z (Z.of_nat n)) then sample p k
  else agoras_loop fuel distance n k m p r.

(** The state of a [_Medoids] object. *)
Record Medoids : Type := {
  md_n : nat;
  md_k : Z;
  md_selected : list nat;
  md_clusters : list (option (nat * nat));
  md_cost : Q;
  md_random_swap : tuples_gen
}.

(** The property [_unselected], as the list it yields; [selected] is read
    in ascending order. *)
Definition unselected (n : nat) (selected : list nat) : outcome (list nat) :=
  z ← getitem selected 0;
  r ← for_each (seq 0 n)
        (fun '(z, k, acc) i =>
           if decide (Z.of_nat i = z) then
             if decide (k < length selected) then
               z ← getitem selected k; Ok (Z.of_nat z, k + 1, acc)
             else Ok ((-1)%Z, k, acc)
           else Ok (z, k, acc ++ [i]))
        (Z.of_nat z, 1, []);
  Ok r.2.

(** [_reset_random_swap()] *)
Definition reset_random_swap (k : Z) (n : nat) : tuples_gen :=
  _shuffled_tuples [k; (Z.of_nat n - k)%Z].

(** [_update_clusters(a)], consumed to its end: the new [_clusters] and the
    distances yielded. *)
Definition update_clusters (distance : nat -> nat -> M Q) (selected : list nat)
    (clusters : list (option (nat * nat))) (a : list nat)
    : M (list (option (nat * nat)) * list Q) :=
  forM a
    (fun '(clusters, ds) j =>
       cands ← mapM (fun i => d ← distance i j; mret (d, i)) selected;
       match nsmallest 2 cands with
       | [(d1, i1); (d2, i2)] =>
           if decide (i1 = i2) then raise AssertionError
           else
             clusters ← lift (setitem clusters j (Some (i1, i2)));
             mret (clusters, ds ++ [d1])
       | _ => raise ValueError
       end)
    (clusters, []).

(** [_Medoids(clusterer, k)] *)
Definition medoids_init (fuel : nat) (n : nat) (distance : nat -> nat -> M Q) (k : Z)
    : M Medoids :=
  let random_swap := reset_random_swap k n in
  selected ← _agoras fuel n k distance;
  let selected := sorted selected in
  let clusters := replicate n None in
  a ← lift (unselected n selected);
  '(clusters, ds) ← update_clusters distance selected clusters a;
  mret {| md_n := n; md_k := k; md_selected := selected; md_clusters := clusters;
          md_cost := fsum ds; md_random_swap := random_swap |}.

(** [_Medoids.clusters()] *)
Definition medoids_clusters (self : Medoids) : outcome (list Cluster) :=
  DunnMergeCriterion.collect
    (fun i =>
       a ← unselected (md_n self) (md_selected self);
       ms ← for_each a
              (fun ms j =>
                 cj ← getitem (md_clusters self) j;
                 match cj with
                 | Some (n1, _) => Ok (if decide (n1 = i) then ms ++ [j] else ms)
                 | None => Raise TypeError
                 end) [];
       Ok {| medoid := i; members := insort i ms |})
    (md_selected self).

(** [_next_random_swap()]: [None] is [StopIteration]. *)
Definition next_random_swap (self : Medoids) : M (option (nat * nat) * Medoids) :=
  '(r, gen) ← tuples_next (md_random_swap self);
  let self := {| md_n := md_n self; md_k := md_k self; md_selected := md_selected self;
                 md_clusters := md_clusters self; md_cost := md_cost self;
                 md_random_swap := gen |} in
  match r with
  | None => mret (None, self)
  | Some [n_i; h] =>
      let h := foldl (fun h j => if decide (Z.of_nat j <= h)%Z then (h + 1)%Z else h)
                 h (md_selected self) in
      i ← lift (getitemZ (md_selected self) n_i);
      if decide (0 <= h)%Z then mret (Some (i, Z.to_nat h), self)
      else raise IndexError
  | Some _ => raise ValueError
  end.

(** [min] of a non-empty sequence *)
Definition min_of (l : list Q) : outcome Q :=
  match l with
  | [] => Raise ValueError
  | x :: l' => Ok (foldl pymin x l')
  end.

(** The generator [calculate_t()] of [swap], consumed by [fsum]: the terms
    yielded and the [fast_updates] appended on the way. *)
Definition calculate_t (distance : nat -> nat -> M Q) (self : Medoids) (i h : nat)
    : M (list Q * list (nat * nat)) :=
  let clusters := md_clusters self in
  ds ← mapM (fun j => distance i j) (filter (fun j => j <> i) (md_selected self ++ [h]));
  t1 ← lift (min_of ds);
  ch ← lift (getitem clusters h);
  ch ← match ch with Some c => mret c | None => raise TypeError end;
  dh ← distance h ch.1;
  let t2 := (- dh)%Q in
  a ← lift (unselected (md_n self) (md_selected self));
  forM a
    (fun '(ts, fast_updates) j =>
       if decide (j = h) then mret (ts, fast_updates)
       else
         cj ← lift (getitem clusters j);
         '(n1, n2) ← match cj with Some c => mret c | None => raise TypeError end;
         dh ← distance j h;
         if decide (n1 = i) then
           d2 ← distance j n2;
           if Qgeb dh d2 then
             dji ← distance j i;
             mret (ts ++ [(d2 - dji)%Q], fast_updates ++ [(j, n2)])
           else
             dji ← distance j i;
             mret (ts ++ [(dh - dji)%Q], fast_updates ++ [(j, h)])
         else
           let k := n1 in
           d2 ← distance j k;
           if Qgeb dh d2 then mret (ts, fast_updates ++ [(j, k)])
           else mret (ts ++ [(dh - d2)%Q], fast_updates ++ [(j, h)]))
    ([t1; t2], []).

(** The nearest medoid of [j] other than [m] (the inner loop of the fast
    update). *)
Definition nearest_other (distance : nat -> nat -> M Q) (selected : list nat) (m j : nat)
    : M (option Q * option nat) :=
  forM selected
    (fun '(min_d, min_k) k =>
       if decide (k <> m) then
         d ← distance k j;
         if match min_d with None => true | Some md => Qltb d md end
         then mret (Some d, Some k)
         else mret (min_d, min_k)
       else mret (min_d, min_k))
    (None, None).

(** [swap()]: the flag returned and the object afterwards. *)
Definition swap (distance : nat -> nat -> M Q) (self : Medoids) : M (bool * Medoids) :=
  '(ih, self) ← next_random_swap self;
  match ih with
  | None => mret (false, self)
  | Some (i, h) =>
      '(ts, fast_updates) ← calculate_t distance self i h;
      let t := fsum ts in
      if Qltb t 0 then
        let cost := (md_cost self + t)%Q in
        selected ← lift (del_first i (md_selected self));
        let selected := insort h selected in
        '(clusters, slow_updates) ←
          forM fast_updates
            (fun '(clusters, slow_updates) '(j, m) =>
               if decide (m = i) then mret (clusters, slow_updates ++ [j])
               else
                 '(_, min_k) ← nearest_other distance selected m j;
                 match min_k with
                 | Some min_k =>
                     if decide (m = min_k) then raise AssertionError
                     else
                       clusters ← lift (setitem clusters j (Some (m, min_k)));
                       mret (clusters, slow_updates)
                 | None => raise AssertionError
                 end)
            (md_clusters self, [i]);
        '(clusters, _) ← update_clusters distance selected clusters slow_updates;
        mret (true,
              {| md_n := md_n self; md_k := md_k self; md_selected := selected;
                 md_clusters := clusters; md_cost := cost;
                 md_random_swap := reset_random_swap (md_k self) (md_n self) |})
      else mret (false, self)
  end.

(** The state of a [_Clusterer]; [_p0] is read by [debug] only, which
    prints nothing while [debug_output] is [False]. *)
Record Clusterer : Type := {
  c_n : nat;
  c_i_to_i0 : list nat;
  c_medoid0 : option nat;
  c_siblings : list Cluster;
  c_d0 : nat -> nat -> M Q
}.

(** [_distance_lambda()] *)
Definition distance_lambda (self : Clusterer) (i j : nat) : M Q :=
  i0 ← lift (getitem (c_i_to_i0 self) i);
  j0 ← lift (getitem (c_i_to_i0 self) j);
  c_d0 self i0 j0.

(** [while j <= max_neighbours] of [with_k] *)
Fixpoint local_search (fuel : nat) (distance : nat -> nat -> M Q) (max_neighbours : Q)
    (j : Z) (medoids : Medoids) : M Medoids :=
  if Qleb (inject_Z j) max_neighbours then
    match fuel with
    | 0 => out_of_fuel
    | S fuel' =>
        '(accepted, medoids) ← swap distance medoids;
        if accepted : bool then local_search fuel' distance max_neighbours 1 medoids
        else local_search fuel' distance max_neighbours (j + 1) medoids
    end
  else mret medoids.

(** [max_neighbours] of [with_k] *)
Definition max_neighbours (n : nat) (k : Z) : Q :=
  let kn := inject_Z (k * (Z.of_nat n - k)) in
  pymin (pymax ((125 # 10000) * inject_Z k * inject_Z (Z.of_nat n - k)) 250) kn.

(** [with_k(k)] *)
Definition with_k (fuel : nat) (self : Clusterer) (k : Z) : M (list Cluster) :=
  let n := c_n self in
  let num_local := 2 in
  let max_neighbours := max_neighbours n k in
  min_cost_medoids ←
    forM (seq 0 num_local)
      (fun min_cost_medoids _ =>
         medoids ← medoids_init fuel n (distance_lambda self) k;
         medoids ← local_search fuel (distance_lambda self) max_neighbours 1 medoids;
         mret (match min_cost_medoids with
               | None => Some medoids
               | Some best =>
                   if Qltb (md_cost medoids) (md_cost best) then Some medoids else Some best
               end))
      None;
  match min_cost_medoids with
  | Some medoids => lift (medoids_clusters medoids)
  | None => raise AttributeError
  end.

(** The interface [SplitCriterion]: [should_split] returns the decision and
    the criterion to continue with ([None] when there is none). *)
Record SplitCriterion : Type := {
  sc_state : Type;
  sc_should_split :
    sc_state -> list Cluster -> option nat * list nat -> list Cluster ->
    (nat -> nat -> M Q) -> M (bool * option sc_state)
}.

(** [without_k(criterion)]; [fuel] bounds the depth of the recursion and
    each search below it. *)
Fixpoint without_k (fuel : nat) (SC : SplitCriterion) (self : Clusterer)
    (criterion : option (sc_state SC)) : M (list (list nat)) :=
  match fuel with
  | 0 => out_of_fuel
  | S fuel' =>
      let n := c_n self in
      let i_to_i0 := c_i_to_i0 self in
      if decide (n < 2) then
        x ← lift (getitem i_to_i0 0); mret [[x]]
      else
        clusters ← with_k fuel self 2;
        clusters0 ← lift (DunnMergeCriterion.collect (fun c => translate c i_to_i0) clusters);
        let merged := (c_medoid0 self, concat (members <$> clusters0)) in
        criterion ← match criterion with
                    | Some c => mret c
                    | None => raise AttributeError
                    end;
        '(split, new_criterion) ←
          sc_should_split SC criterion (c_siblings self) merged clusters0 (c_d0 self);
        if negb split then
          xs ← lift (DunnMergeCriterion.collect (getitem i_to_i0) (seq 0 n));
          mret [xs]
        else
          forM (seq 0 (length clusters))
            (fun r i =>
               ci ← lift (getitem clusters0 i);
               let t := members ci in
               d ← lift (getitemZ clusters0 (1 - Z.of_nat i));
               let sub := {| c_n := length t; c_i_to_i0 := t; c_medoid0 := Some (medoid ci);
                             c_siblings := c_siblings self ++ [d]; c_d0 := c_d0 self |} in
               rs ← without_k fuel' SC sub new_criterion;
               mret (r ++ rs))
            []
  end.

End Partitional.

(** ** The approximate silhouette split criterion *)

(** [_silhouette(a, b)].  The function divides first and tests for [nan]
    afterwards.  [a] is a quotient of the result of [fsum], an mpmath
    number, so [b - a] and the quotient [(b - a) / max(a, b)] are mpmath's:
    a zero divisor raises [ZeroDivisionError] at the division, as it does
    for Python's floats and integers.  A quotient that was computed is a
    number, so the test [s == sympy.nan] fails and [s] is returned:
    [InfiniteSilhouette] is not raised.  [b] is [None] only for a lone
    cluster. *)
Definition _silhouette (a : option Q) (b : option Q) : outcome Q :=
  match a with
  | None => Ok 0%Q
  | Some a =>
      match b with
      | None => Raise TypeError
      | Some b =>
          if Qeq_bool (pymax a b) 0 then Raise ZeroDivisionError
          else Ok ((b - a) / pymax a b)%Q
      end
  end.

Section Silhouette.
Context {RM : RandomModule}.

(** one step of [_approximate_within_distances] *)
Definition approximate_within_distance (c : Cluster) (distance : nat -> nat -> M Q)
    : M (option Q) :=
  '(s, n) ← within c distance;
  if decide (n = 1) then mret None
  else mret (Some (s / inject_Z (Z.of_nat n - 1))%Q).

(** one step of [_approximate_mins_of_betweens_distances] *)
Definition approximate_min_of_betweens (clusters : list Cluster) (i : nat) (a : nat)
    (distance : nat -> nat -> M Q) : M (option Q) :=
  ds ← mapM (fun b => distance a b)
         (omap (fun '(j, c) => if decide (i <> j) then Some (medoid c) else None)
               (imap (fun j c => (j, c)) clusters));
  mret (_robust_min ds).

(** [_approximate_mean_silhouette_widths], consumed in order: both
    generators advance by one cluster, then [_silhouette] is applied. *)
Definition approximate_mean_silhouette_widths (clusters : list Cluster)
    (distance : nat -> nat -> M Q) : M (list Q) :=
  mapM (fun '(i, c) =>
          a ← approximate_within_distance c distance;
          b ← approximate_min_of_betweens clusters i (medoid c) distance;
          lift (_silhouette a b))
       (imap (fun i c => (i, c)) clusters).

(** [_approximate_global_silhouette_index(clusters, distance)] *)
Definition approximate_global_silhouette_index (clusters : list Cluster)
    (distance : nat -> nat -> M Q) : M Q :=
  if decide (length clusters <= 1) then mret (-1)%Q
  else
    ws ← approximate_mean_silhouette_widths clusters distance;
    mret (fsum ws / inject_Z (Z.of_nat (length clusters)))%Q.

(** [try: body except InfiniteSilhouette: handler] *)
Definition except_infinite {A} (body : M A) (handler : M A) : M A := fun w =>
  match body w with
  | (Raise InfiniteSilhouette, w') => handler w'
  | r => r
  end.

(** [ApproximateSilhouetteSplitCriterion.should_split]; the state is
    [_last_criterion]. *)
Definition should_split (_last_criterion : option Q) (siblings : list Cluster)
    (merged : option nat * list nat) (unmerged : list Cluster)
    (distance : nat -> nat -> M Q) : M (bool * option (option Q)) :=
  except_infinite
    (criterion ← approximate_global_silhouette_index (siblings ++ unmerged) distance;
     if match _last_criterion with
        | None => true
        | Some l => Qgtb criterion l
        end
     then mret (true, Some (Some criterion))
     else mret (false, None))
    (mret (false, None)).

Definition ApproximateSilhouetteSplitCriterion : SplitCriterion :=
  {| sc_state := option Q; sc_should_split := should_split |}.

End Silhouette.

(** ** The entry point of the partitional engine *)

Section Optimize.
Context {RM : RandomModule} {MM : MathModule} {Point : Type}.

(** A split criterion together with the call of its constructor [k[0]] on
    the options [k[1]]. *)
Record split_factory : Type := {
  sf_criterion : SplitCriterion;
  sf_make : outcome (sc_state sf_criterion)
}.

Definition silhouette_factory (last_criterion : option Q) : split_factory :=
  {| sf_criterion := ApproximateSilhouetteSplitCriterion; sf_make := Ok last_criterion |}.

(** [sorted(clusters, key=lambda c: c[0])] *)
Definition sorted_by_first (clusters : list (list nat)) : outcome (list (list nat)) :=
  if forallb (fun c => match c with [] => false | _ => true end) clusters
  then Ok (sorted_by (fun c => default 0 (head c)) clusters)
  else Raise IndexError.

(** The body of the [try] block of [optimize].  In mode [clusters] a cluster
    of the result is the sequence [map(lambda i: p[i], c)]; it is given here
    by the list of its values. *)
Definition optimize_body (fuel : nat) (p : list Point) (k : k_arg split_factory)
    (distances : Distances) (m : mode) (sd : Z) : M (@output Point) :=
  _ ← seed sd;
  let clusterer := {| c_n := length p; c_i_to_i0 := seq 0 (length p); c_medoid0 := None;
                      c_siblings := []; c_d0 := distance_of distances |} in
  clusters ← match k with
             | KTuple f =>
                 criterion ← lift (sf_make f);
                 without_k fuel (sf_criterion f) clusterer (Some criterion)
             | KInt k => cs ← with_k fuel clusterer k; mret (members <$> cs)
             | KOther => raise ValueError
             end;
  clusters ← lift (sorted_by_first clusters);
  match m with
  | mode_clusters =>
      cs ← lift (DunnMergeCriterion.collect
                   (fun c => DunnMergeCriterion.collect (getitem p) c) clusters);
      mret (OutClusters cs)
  | mode_components =>
      comps ← lift (_components clusters (length p));
      mret (OutComponents comps)
  | _ => raise ValueError
  end.

(** [optimize(p, k, distances, mode, seed)]; [granularity] is not read.
    [KOther] is a [k] that is neither a pair nor an integer and differs
    from [1]. *)
Definition optimize (fuel : nat) (p : list Point) (k : k_arg split_factory)
    (distances : Distances) (m : mode) (sd : Z) : M (@output Point) :=
  if match k with KInt 1 => true | _ => false end then mret (OutClusters [p])
  else
    random_state ← getstate;
    try_finally (optimize_body fuel p k distances m sd) (setstate random_state).

End Optimize.

(** * Specification

    The notions the properties are stated with: invariants of the data
    structures, what it is to be a partition, and the inputs of the worked
    examples. *)

(** ** Worked examples *)

(** Six points on a line and their distances, in the triangular layout. *)
Definition line_points : list Z := [0; 1; 2; 10; 11; 12]%Z.

Definition line_matrix (p : list Z) : list Q :=
  i ← seq 0 (length p); j ← seq 0 i;
  [inject_Z (Z.abs (nth i p 0%Z - nth j p 0%Z))].

(** A world whose random stream is in state [g] and whose cache is empty. *)
Definition world_of (g : Z) : @World lcg_random := @Build_World lcg_random g ∅.

(** The distance of two of the six points, read from their table. *)
Definition line_distance : nat -> nat -> @M lcg_random Q :=
  distance_of (Precomputed (line_matrix line_points)).

(** The medoids [0] and [5] of the six points on a line, as [_Medoids]
    builds them. *)
Definition line_medoids : Medoids :=
  {| md_n := 6; md_k := 2; md_selected := [0; 5];
     md_clusters := [None; Some (0, 5); Some (0, 5); Some (5, 0); Some (5, 0); None];
     md_cost := 6; md_random_swap := reset_random_swap 2 6 |}.

(** All points at distance zero of each other. *)
Definition zero_distance (i j : nat) : Q := 0.

(** A heap of two entries, its position index with one stale entry, and an
    entry with a fresh identifier. *)
Definition two_heap : list (@node unit) := [(1%Q, 0, tt); (2%Q, 1, tt)].
Definition two_where : list nat := [0; 1; 0].

(** ** The Dunn criterion *)

(** The states a Dunn criterion object goes through: as constructed, and
    after each [save_and_merge] that returned. *)
Inductive dunn_reachable : DunnMergeCriterion.state -> Prop :=
| dunn_reachable_init distances n merge_limit :
    dunn_reachable (DunnMergeCriterion.init distances n merge_limit)
| dunn_reachable_step self clusters i j d_min b self' :
    dunn_reachable self ->
    DunnMergeCriterion.save_and_merge self clusters i j d_min = Ok (b, self') ->
    dunn_reachable self'.

(** A recorded [_best_dunn] has a positive denominator, and so has the
    fraction compared with it. *)
Definition dunn_positive (self : DunnMergeCriterion.state) : Prop :=
  forall b, DunnMergeCriterion._best_dunn self = Some b ->
    (0 < b.2)%Q /\ (0 < DunnMergeCriterion._max_diameter self)%Q.

(** A Dunn criterion for three points, after one merge and after two. *)
Definition dunn_one_merge : DunnMergeCriterion.state :=
  Eval vm_compute in
  match DunnMergeCriterion.save_and_merge
          (DunnMergeCriterion.init [1; 3; 2]%Q 3 None) [Some [0]; Some [1]; Some [2]] 0 1 1%Q with
  | Ok (_, s) => s
  | _ => DunnMergeCriterion.init [] 0 None
  end.

Definition dunn_two_merges : DunnMergeCriterion.state :=
  Eval vm_compute in
  match DunnMergeCriterion.save_and_merge dunn_one_merge [Some [0; 1]; None; Some [2]] 0 2 2%Q with
  | Ok (_, s) => s
  | _ => DunnMergeCriterion.init [] 0 None
  end.

(** ** The shuffled range *)

Section ShuffledRangeSpec.
Context {RM : RandomModule}.

(** The virtual array of the generator on the positions not yet consumed. *)
Definition remaining (g : range_gen) : list Z :=
  nth_of (sr_a g) <$> seqZ (sr_i g) (sr_n g - sr_i g).

End ShuffledRangeSpec.

(** ** Silhouettes over a pure distance *)

Section SilhouetteSpec.
Context {RM : RandomModule}.

(** A distance function that only computes: it raises nothing and touches
    neither the cache nor the random stream. *)
Definition pure_distance (d : nat -> nat -> Q) : nat -> nat -> M Q :=
  fun i j => mret (d i j).

(** The within-cluster mean [a] and the nearest other medoid's distance [b]
    of a cluster, as values. *)
Definition within_mean (d : nat -> nat -> Q) (c : Cluster) : option Q :=
  let n := length (members c) in
  if decide (n = 1) then None
  else Some (fsum ((fun i => d i (medoid c)) <$> filter (fun i => i <> medoid c) (members c))
             / inject_Z (Z.of_nat n - 1))%Q.

Definition other_medoids (clusters : list Cluster) (i : nat) : list nat :=
  omap (fun '(j, c) => if decide (i <> j) then Some (medoid c) else None)
       (imap (fun j c => (j, c)) clusters).

Definition nearest_between (d : nat -> nat -> Q) (clusters : list Cluster) (i : nat)
    (c : Cluster) : option Q :=
  _robust_min (d (medoid c) <$> other_medoids clusters i).

End SilhouetteSpec.

(** ** The heap and its position index *)

Section HeapSpec.
Context {U : Type}.
Implicit Types (a b xp hj : @node U) (heap : list (@node U)) (wh : list nat).

(** The order of the entries, on distance and then identifier. *)
Definition nle a b : Prop := node_le a b = true.

(** [j] is a child of [i] in the implicit tree. *)
Definition child (i j : nat) : Prop := j = 2 * i + 1 \/ j = 2 * i + 2.

(** The min-heap property. *)
Definition heap_ordered heap : Prop :=
  forall i j a b, child i j -> heap !! i = Some a -> heap !! j = Some b -> nle a b.

(** The position index corresponds to the heap: [where[p] = s] for every
    slot [s] holding the entry with pair identifier [p]. *)
Definition where_ok heap wh : Prop :=
  forall s a, heap !! s = Some a -> wh !! pid a = Some s.

(** The heap property with the entry at [s] possibly too large: every edge
    holds except those from [s] to its children, and the parent of [s] is
    below the children of [s]. *)
Definition ordered_except_down (s : nat) heap : Prop :=
  (forall i j a b, i <> s -> child i j ->
     heap !! i = Some a -> heap !! j = Some b -> nle a b) /\
  (forall g j a b, child g s -> child s j ->
     heap !! g = Some a -> heap !! j = Some b -> nle a b).

(** The heap property with the entry at [s] possibly too small. *)
Definition ordered_except_up (s : nat) heap : Prop :=
  (forall i j a b, j <> s -> child i j ->
     heap !! i = Some a -> heap !! j = Some b -> nle a b) /\
  (forall g j a b, child g s -> child s j ->
     heap !! g = Some a -> heap !! j = Some b -> nle a b).

(** The position index corresponds to the heap on every slot but [i], and
    no other slot carries the identifier of [xp]. *)
Definition where_ok_but (i : nat) xp heap wh : Prop :=
  forall t a, t <> i -> heap !! t = Some a ->
    wh !! pid a = Some t /\ pid a <> pid xp.

End HeapSpec.

(** ** Clusters as a partition *)

(** The members of all clusters, a merged cluster ([None]) counting for
    none. *)
Definition flat (clusters : list (option (list nat))) : list nat :=
  concat (default [] <$> clusters).

(** The entries of [clusters] partition the indices below [n]. *)
Definition clusters_ok (n : nat) (clusters : list (option (list nat))) : Prop :=
  length clusters = n /\
  (forall r, clusters !! r <> Some (Some [])) /\
  flat clusters ≡ₚ seq 0 n.

(** A list of clusters partitions the indices below [n]: every index is in
    exactly one cluster, and no cluster is empty. *)
Definition partitions (n : nat) (cs : list (list nat)) : Prop :=
  concat cs ≡ₚ seq 0 n /\ Forall (fun c => c <> []) cs.

(** [out] presents the clusters [cs] in mode [m]: the points of each
    cluster, or the array giving each position its cluster number. *)
Definition renders {Point} (points : list Point) (m : mode) (cs : list (list nat))
    (out : @output Point) : Prop :=
  match m, out with
  | mode_clusters, OutClusters pcs =>
      Forall2 (Forall2 (fun i x => points !! i = Some x)) cs pcs
  | mode_components, OutComponents comps =>
      length comps = length points /\
      forall i c j, cs !! i = Some c -> j ∈ c -> comps !! j = Some (i + 1)
  | _, _ => False
  end.

(** The clusters that are true values. *)
Definition live_lists (clusters : list (option (list nat))) : list (list nat) :=
  omap (fun c => if truthy c then c else None) clusters.

(** A criterion is sound for [n] points, with invariant [P] on its state,
    when [save_and_merge] keeps [P] and [best] hands back a partition (or
    [None]). *)
Record criterion_sound (C : MergeCriterion) (n : nat) (P : mc_state C -> Prop) : Prop := {
  sound_step : forall c clusters i j d b c',
    P c -> clusters_ok n clusters ->
    mc_save_and_merge C c clusters i j d = Ok (b, c') -> P c';
  sound_best : forall c result,
    P c ->
    match mc_best C c result with
    | PyNone => True
    | PyClusters cs => flat cs ≡ₚ seq 0 n
    | PyDominant _ => False
    end
}.

(** The partition a Dunn criterion has saved covers the indices below [n]. *)
Definition dunn_keeps_partition (n : nat) (c : DunnMergeCriterion.state) : Prop :=
  forall p, DunnMergeCriterion._best_partition c = Some p -> concat p ≡ₚ seq 0 n.

(** ** The pairs kept in the heap *)

(** The identifier of the pair of the clusters [x] and [r], whichever is the
    larger. *)
Definition pair_id (x r : nat) : nat :=
  if decide (r < x) then _index x r else _index r x.

(** The cluster at [r] is a true value: it has not been merged away. *)
Definition live (clusters : list (option (list nat))) (r : nat) : Prop :=
  truthy (default None (clusters !! r)) = true.

#[global] Instance live_dec (clusters : list (option (list nat))) (r : nat) :
  Decision (live clusters r).
Proof. unfold live. apply _. Defined.

(** [p] identifies a pair of two different live clusters. *)
Definition live_pair (clusters : list (option (list nat))) (p : nat) : Prop :=
  exists x r, x <> r /\ live clusters x /\ live clusters r /\ p = pair_id x r.

(** The live clusters other than [i] and [j]. *)
Definition others (clusters : list (option (list nat))) (i j n : nat) : list nat :=
  filter (fun r => r <> i /\ r <> j /\ live clusters r) (seq 0 n).

(** ** The agglomerative loop *)

Section AgglomerateSpec.
Context {Point : Type}.
Implicit Types (heap : list (@node (Point * Point))) (wh : list nat).
Implicit Types (clusters : list (option (list nat))).

(** The invariant of the [while] loop under a sound criterion (or none). *)
Definition partial_inv (C : MergeCriterion) (n : nat) (P : mc_state C -> Prop)
    (st : @reduce_state Point (mc_state C)) : Prop :=
  clusters_ok n (r_clusters st) /\ r_dominant st = None /\
  forall c, r_criterion st = Some c -> P c.

(** While the distances to [j] are folded into those to [i], the heap holds
    the live pairs except the pair of [i] and [j] and the pairs of [j] with
    the clusters already [done]. *)
Definition merging clusters (i j : nat) (done : list nat) heap wh : Prop :=
  where_ok heap wh /\ (j ∉ done) /\
  forall p, p ∈ pid <$> heap <->
    live_pair clusters p /\ p <> pair_id j i /\ forall r, r ∈ done -> p <> pair_id j r.

(** The heap holds exactly the pairs of live clusters, each at the slot the
    position index gives. *)
Definition heap_tracks clusters heap wh : Prop :=
  where_ok heap wh /\ forall p, p ∈ pid <$> heap <-> live_pair clusters p.

(** The invariant of the [while] loop when no criterion is consulted. *)
Definition total_inv (n : nat) (st : @reduce_state Point (mc_state no_criterion)) : Prop :=
  clusters_ok n (r_clusters st) /\ r_dominant st = None /\ r_criterion st = None /\
  heap_tracks (r_clusters st) (r_heap st) (r_where st) /\
  r_n_clusters st = Z.of_nat (length (live_lists (r_clusters st))).

End AgglomerateSpec.

(** ** The medoids *)

(** Strictly ascending. *)
Definition ascending (l : list nat) : Prop := StronglySorted lt l.

(** The loop of [_unselected] from index [t] on, when [rest] are the selected
    values still ahead: [z] is the first of them and [k] is the position of
    the next. *)
Definition ahead (selected : list nat) (z : Z) (k : nat) (rest : list nat) : Prop :=
  match rest with
  | [] => True
  | z' :: rest' => z = Z.of_nat z' /\ rest' = drop k selected
  end.

(** The entry of [_clusters] for an unselected point names two selected
    medoids. *)
Definition good (selected : list nat) (c : option (option (nat * nat))) : Prop :=
  exists n1 n2, c = Some (Some (n1, n2)) /\ n1 ∈ selected /\ n2 ∈ selected.

(** The medoid [_clusters] records as the nearest of [j]. *)
Definition nearest (clusters : list (option (nat * nat))) (j : nat) : nat :=
  match clusters !! j with
  | Some (Some (n1, _)) => n1
  | _ => 0
  end.

(** The invariant of a [_Medoids] object. *)
Definition medoids_ok (md : Medoids) : Prop :=
  ascending (md_selected md) /\
  Forall (fun i => i < md_n md) (md_selected md) /\
  Z.of_nat (length (md_selected md)) = md_k md /\
  st_t (md_random_swap md) = [md_k md; (Z.of_nat (md_n md) - md_k md)%Z] /\
  forall j, j < md_n md -> j ∉ md_selected md ->
    good (md_selected md) (md_clusters md !! j).

(** The step [if h >= j: h += 1] of [_next_random_swap]. *)
Definition shift (h : Z) (j : nat) : Z :=
  if decide (Z.of_nat j <= h)%Z then (h + 1)%Z else h.

(** The values of [k] that [agglomerate] is given: an integer, or the Dunn
    merge criterion with its options. *)
Definition repository_criterion (k : k_arg merge_factory) : Prop :=
  match k with
  | KTuple f => exists merge_limit, f = dunn_factory merge_limit
  | _ => True
  end.

Section HeapifySpec.
Context {U : Type}.
Implicit Types (a b xp hj : @node U) (heap : list (@node U)) (wh : list nat).

(** The min-heap property below the slots before [lo]: every edge that
    starts at a slot from [lo] on holds. *)
Definition ordered_from (lo : nat) heap : Prop :=
  forall i j a b, lo <= i -> child i j ->
    heap !! i = Some a -> heap !! j = Some b -> nle a b.

(** The same with the entry at [s] possibly too large. *)
Definition ordered_from_except (lo s : nat) heap : Prop :=
  (forall i j a b, lo <= i -> i <> s -> child i j ->
     heap !! i = Some a -> heap !! j = Some b -> nle a b) /\
  (forall g j a b, lo <= g -> child g s -> child s j ->
     heap !! g = Some a -> heap !! j = Some b -> nle a b).

End HeapifySpec.

(** ** Single linkage *)

(** The members of the cluster at [x]; a merged cluster has none. *)
Definition members_at (clusters : list (option (list nat))) (x : nat) : list nat :=
  default [] (default None (clusters !! x)).

(** [d] is the smallest distance between a point of [cx] and a point of
    [cr], and some such pair is at that distance. *)
Definition closest (ds : list Q) (cx cr : list nat) (d : Q) : Prop :=
  (exists a b, a ∈ cx /\ b ∈ cr /\ PrecomputedDistances.distance ds a b = Ok d) /\
  (forall a b d', a ∈ cx -> b ∈ cr ->
     PrecomputedDistances.distance ds a b = Ok d' -> (d <= d')%Q).

(** While the distances to [j] are folded into those to [i]: the members
    the heap entry of the pair of [x] and [r] accounts for on the side of
    [x].  The entry of [i] and a cluster already [done] covers [j] too. *)
Definition side_of (clusters : list (option (list nat))) (i j : nat) (done : list nat)
    (x r : nat) : list nat :=
  if decide (x = i /\ r ∈ done) then members_at clusters i ++ members_at clusters j
  else members_at clusters x.

(** Two different points of [c] at a distance of at most [theta]. *)
Definition edge (ds : list Q) (theta : Q) (c : list nat) (a b : nat) : Prop :=
  a <> b /\ a ∈ c /\ b ∈ c /\
  exists d, PrecomputedDistances.distance ds a b = Ok d /\ (d <= theta)%Q.

(** Any two points of [c] are joined by a chain of points of [c] with steps
    of at most [theta]. *)
Definition connected (ds : list Q) (theta : Q) (c : list nat) : Prop :=
  forall a b, a ∈ c -> b ∈ c -> rtc (edge ds theta c) a b.

Section LinkageSpec.
Context {Point : Type}.
Implicit Types (heap : list (@node (Point * Point))) (wh : list nat).
Implicit Types (clusters : list (option (list nat))).

(** Every heap entry carries the smallest distance between the two clusters
    of its pair. *)
Definition heap_linkage (ds : list Q) (side : nat -> nat -> list nat) heap : Prop :=
  forall d p u x r, (d, p, u) ∈ heap -> x <> r -> p = pair_id x r ->
    closest ds (side x r) (side r x) d.

(** The invariant of the inner loop of a merge. *)
Definition linking (ds : list Q) clusters (i j : nat) (done : list nat) (theta : Q)
    heap wh : Prop :=
  merging clusters i j done heap wh /\ heap_ordered heap /\
  Forall (fun e => (theta <= dist e)%Q) heap /\
  heap_linkage ds (side_of clusters i j done) heap.

(** The invariant of the [while] loop of [reduce] with no criterion: the
    heap is a min-heap of the smallest distances between the live clusters,
    none of them below [theta], and every cluster is connected by steps of
    at most [theta]. *)
Definition linked_inv (ds : list Q) (n : nat) (theta : Q)
    (st : @reduce_state Point (mc_state no_criterion)) : Prop :=
  total_inv n st /\ heap_ordered (r_heap st) /\
  Forall (fun e => (theta <= dist e)%Q) (r_heap st) /\
  heap_linkage ds (fun x _ => members_at (r_clusters st) x) (r_heap st) /\
  forall x c, r_clusters st !! x = Some (Some c) -> connected ds theta c.

End LinkageSpec.

(** The first index of a cluster, the key [reduce] and [optimize] sort their
    clusters by. *)
Definition first_of (c : list nat) : nat := default 0 (head c).

(** The number of clusters [reduce] ends with when asked for [k] of [n]
    points. *)
Definition clamped (n : nat) (k : Z) : nat := Z.to_nat (Z.min (Z.of_nat n) (Z.max 1 k)).

(** A step between two different points that carry the same cluster number
    and are at a distance of at most [theta]. *)
Definition close_step (ds : list Q) (theta : Q) (components : list nat) (x y : nat) : Prop :=
  x <> y /\
  (exists c, components !! x = Some c /\ components !! y = Some c) /\
  exists d, PrecomputedDistances.distance ds x y = Ok d /\ (d <= theta)%Q.

(** ** Termination *)

(** The call has returned or raised: its loops did not exhaust their
    iteration bounds. *)
Definition halts {A} (m : outcome A) : Prop :=
  match m with
  | OutOfFuel => False
  | _ => True
  end.

(** The distance of the indices [i] and [j] taken as points on a line. *)
Definition gap_distance (i j : nat) : Q := inject_Z (Z.abs (Z.of_nat i - Z.of_nat j)).

(** ** The shuffled tuples and the swaps proposed *)

Section SamplerSpec.
Context {RM : RandomModule}.

(** The values a [_shuffled_range] generator has still to yield. *)
Definition pending (g : range_gen) : list Z :=
  if sr_done g then [] else remaining g.

(** A [_shuffled_range] generator over [0, ..., N - 1] on its way. *)
Definition range_ok (N : Z) (g : range_gen) : Prop :=
  sr_n g = N /\ (sr_done g = false -> (0 <= sr_i g <= N - 1)%Z) /\
  NoDup (pending g) /\ Forall (fun x => 0 <= x < N)%Z (pending g).

(** The numbers a [_shuffled_tuples] generator has still to decode. *)
Definition pending_tuples (g : tuples_gen) : list Z :=
  match st_indices g with
  | Some indices => pending indices
  | None => pending (_shuffled_range (foldl Z.mul 1%Z (st_t g)))
  end.

(** A [_shuffled_tuples] generator of the ranges [t] on its way. *)
Definition tuples_ok (t : list Z) (g : tuples_gen) : Prop :=
  st_t g = t /\
  match st_indices g with
  | Some indices => range_ok (foldl Z.mul 1%Z t) indices
  | None => True
  end.

(** [m] successive calls of [next] on a [_shuffled_tuples] generator: the
    tuples obtained, up to the first [StopIteration]. *)
Fixpoint tuples_take (m : nat) (g : tuples_gen) : M (list (list Z) * tuples_gen) :=
  match m with
  | 0 => mret ([], g)
  | S m' =>
      '(r, g) ← tuples_next g;
      match r with
      | None => mret ([], g)
      | Some x => '(xs, g) ← tuples_take m' g; mret (x :: xs, g)
      end
  end.

(** [m] successive calls of [_next_random_swap] on a [_Medoids] object: the
    swaps obtained, up to the first [StopIteration]. *)
Fixpoint proposals (m : nat) (self : Medoids) : M (list (nat * nat) * Medoids) :=
  match m with
  | 0 => mret ([], self)
  | S m' =>
      '(r, self) ← next_random_swap self;
      match r with
      | None => mret ([], self)
      | Some ih => '(l, self) ← proposals m' self; mret (ih :: l, self)
      end
  end.

End SamplerSpec.

(** ** The clusters of the partitional engine *)

(** The clusterer [optimize] starts from: all the points, under their own
    indices. *)
Definition root_clusterer {RM : RandomModule} (n : nat) (d0 : nat -> nat -> M Q) : Clusterer :=
  {| c_n := n; c_i_to_i0 := seq 0 n; c_medoid0 := None; c_siblings := []; c_d0 := d0 |}.

(** ** The bookkeeping of the medoids *)

(** The entry of [_clusters] for the point [j] is exact for the distance
    [d]: it names a medoid nearest to [j] and, second, a medoid nearest to
    [j] among the others. *)
Definition nearest_two (d : nat -> nat -> Q) (selected : list nat) (j : nat)
    (c : option (option (nat * nat))) : Prop :=
  exists n1 n2,
    c = Some (Some (n1, n2)) /\ n1 ∈ selected /\ n2 ∈ selected /\ n1 <> n2 /\
    (forall i, i ∈ selected -> (d n1 j <= d i j)%Q) /\
    (forall i, i ∈ selected -> i <> n1 -> (d n2 j <= d i j)%Q).

(** The sum of the distances of the points that are no medoids to the
    medoids recorded as their nearest. *)
Definition recorded_cost (d : nat -> nat -> Q) (md : Medoids) : Q :=
  fsum ((fun j => d (nearest (md_clusters md) j) j)
          <$> filter (fun j => j ∉ md_selected md) (seq 0 (md_n md))).

(** A [_Medoids] object whose entries and whose cost are exact for [d]. *)
Definition medoids_exact (d : nat -> nat -> Q) (md : Medoids) : Prop :=
  medoids_ok md /\
  (forall j, j < md_n md -> j ∉ md_selected md ->
     nearest_two d (md_selected md) j (md_clusters md !! j)) /\
  (md_cost md == recorded_cost d md)%Q.

(** The medoids after [i] was swapped for [h]. *)
Definition swapped (selected : list nat) (i h m : nat) : Prop :=
  m = h \/ (m ∈ selected /\ m <> i).

(** The distance function [distance] returns the values of [d]. *)
Definition computes {RM : RandomModule} (distance : nat -> nat -> M Q)
    (d : nat -> nat -> Q) : Prop :=
  forall (i j : nat) (w : World) (q : Q) (w' : World),
    distance i j w = (Ok q, w') -> q = d i j.

(** ** The partition saved by the Dunn criterion *)

(** The partition a Dunn criterion has saved was taken before a merge: it
    has at least two clusters, none of them empty. *)
Definition dunn_saved_two (c : DunnMergeCriterion.state) : Prop :=
  forall p, DunnMergeCriterion._best_partition c = Some p ->
    2 <= length p /\ Forall (fun c => c <> []) p.

(** The invariant of the [while] loop of [reduce] under the Dunn
    criterion. *)
Definition dunn_inv {Point : Type} (n : nat)
    (st : @reduce_state Point (mc_state DunnMergeCriterion.criterion)) : Prop :=
  clusters_ok n (r_clusters st) /\ r_dominant st = None /\
  r_n_clusters st = Z.of_nat (length (live_lists (r_clusters st))) /\
  exists c, r_criterion st = Some c /\ dunn_keeps_partition n c /\ dunn_saved_two c.

(** * Properties *)

(** ** Comparisons and basic arithmetic *)

Lemma Qltb_lt (x y : Q) : Qltb x y = true <-> (x < y)%Q.
Proof.
  unfold Qltb. rewrite Qlt_alt. destruct (x ?= y)%Q; split; congruence.
Qed.

Lemma Qltb_ge (x y : Q) : Qltb x y = false <-> (y <= x)%Q.
Proof.
  rewrite <- not_true_iff_false, Qltb_lt. split.
  - apply Qnot_lt_le.
  - apply Qle_not_lt.
Qed.

Lemma Qleb_le (x y : Q) : Qleb x y = true <-> (x <= y)%Q.
Proof.
  unfold Qleb. rewrite Qle_alt. destruct (x ?= y)%Q; split; congruence.
Qed.

Lemma Qleb_gt (x y : Q) : Qleb x y = false <-> (y < x)%Q.
Proof.
  rewrite <- not_true_iff_false, Qleb_le. split.
  - apply Qnot_le_lt.
  - apply Qlt_not_le.
Qed.

Lemma pymax_ub_l (a b : Q) : (a <= pymax a b)%Q.
Proof.
  unfold pymax, Qgtb. destruct (Qltb a b) eqn:E.
  - apply Qltb_lt in E. lra.
  - lra.
Qed.

Lemma pymax_ub_r (a b : Q) : (b <= pymax a b)%Q.
Proof.
  unfold pymax, Qgtb. destruct (Qltb a b) eqn:E.
  - lra.
  - apply Qltb_ge in E. lra.
Qed.

Lemma pymax_cases (a b : Q) : pymax a b = a \/ pymax a b = b.
Proof. unfold pymax. destruct (Qgtb b a); auto. Qed.

Lemma fsum_nonneg (l : list Q) : Forall (fun x => 0 <= x)%Q l -> (0 <= fsum l)%Q.
Proof.
  induction 1 as [|x l Hx _ IH]; unfold fsum in *; simpl.
  - apply Qle_refl.
  - set (s := foldr Qplus 0%Q l) in *. lra.
Qed.

(** ** Distance providers *)

Section ProviderFacts.
Context {RM : RandomModule}.

Lemma index_formula (i j : nat) : _index i j = j + i * (i - 1) / 2.
Proof. unfold _index. by rewrite (Nat.mul_comm (i - 1) i). Qed.

(** C7.  [matrix()] of the precomputed provider returns the stored array,
    and [distance(i, j)] reads it at [j + i*(i-1)/2] for [i > j], in either
    argument order; [matrix()] of the lazy provider raises [ValueError]
    whatever its compute function and whatever the state of its cache. *)
Theorem matrix_precomputed_lazy :
  (forall ds : list Q,
      matrix_of (Precomputed ds) = Ok ds /\
      forall i j : nat, j < i ->
        PrecomputedDistances.distance ds i j = getitem ds (j + i * (i - 1) / 2) /\
        PrecomputedDistances.distance ds j i = getitem ds (j + i * (i - 1) / 2))
  /\
  (forall compute (w : World),
      lift (matrix_of (Lazy compute)) w = (Raise ValueError, w)).
Proof.
  split.
  - intros ds. split; [reflexivity|].
    intros i j Hij. unfold PrecomputedDistances.distance.
    rewrite <- index_formula.
    rewrite (Nat.max_l i j), (Nat.min_r i j) by lia.
    rewrite (Nat.max_r j i), (Nat.min_l j i) by lia.
    done.
  - intros compute w. reflexivity.
Qed.

End ProviderFacts.

(** ** The Dunn criterion and its ratio comparison *)

Lemma ratio_bigger_than_spec (a1 a2 b1 b2 : Q) :
  (0 < a2)%Q -> (0 < b2)%Q ->
  _ratio_bigger_than (a1, a2) (b1, b2) = true <-> (b1 / b2 < a1 / a2)%Q.
Proof.
  intros Ha Hb. unfold _ratio_bigger_than. cbn [py_gt py_mul exact_numbers].
  unfold Qgtb. rewrite Qltb_lt.
  rewrite <- (Qmult_lt_r (b1 / b2) (a1 / a2) (a2 * b2)) by nra.
  assert (E1 : (b1 / b2 * (a2 * b2) == b1 * a2)%Q) by (field; lra).
  assert (E2 : (a1 / a2 * (a2 * b2) == a1 * b2)%Q) by (field; lra).
  rewrite E1, E2. tauto.
Qed.

Lemma dunn_positive_init distances n merge_limit :
  dunn_positive (DunnMergeCriterion.init distances n merge_limit).
Proof. intros b Hb. discriminate. Qed.

Lemma dunn_positive_step self clusters i j d_min b self' :
  dunn_positive self ->
  DunnMergeCriterion.save_and_merge self clusters i j d_min = Ok (b, self') ->
  dunn_positive self'.
Proof.
  intros Hinv. unfold DunnMergeCriterion.save_and_merge.
  set (self1 := if _ : bool then _ else self).
  assert (H1 : dunn_positive self1).
  { subst self1. destruct (match DunnMergeCriterion._best_dunn self with
                           | Some b0 => _ | None => true end); [|done].
    intros b0. simpl.
    destruct (Qgtb (DunnMergeCriterion._max_diameter self) 0) eqn:E.
    - intros [= <-]. simpl. apply Qltb_lt in E. done.
    - apply Hinv. }
  clearbody self1.
  destruct (match DunnMergeCriterion._merge_limit self1 with
            | Some limit => _ | None => false end).
  { intros [= <- <-]. done. }
  intros Hrun.
  repeat match type of Hrun with
         | (mbind _ ?m = Ok _) =>
             let E := fresh "E" in destruct m eqn:E; simpl in Hrun; [|discriminate..]
         end.
  injection Hrun as <- <-.
  intros b0. simpl. intros Hb0. destruct (H1 b0 Hb0) as [Hp Hm]. split; [done|].
  eapply Qlt_le_trans; [exact Hm|]. apply pymax_ub_l.
Qed.

Lemma dunn_reachable_positive self : dunn_reachable self -> dunn_positive self.
Proof.
  induction 1 as [| self clusters i j d_min b self' _ IH Hstep].
  - apply dunn_positive_init.
  - eapply dunn_positive_step; eauto.
Qed.

(** C8.  On exact numbers, wherever the Dunn criterion applies the
    comparison, that is on [dunn = (d_min, _max_diameter)] against a
    recorded [_best_dunn], the product test [a1 * b2 > b1 * a2] decides
    [a1 / a2 > b1 / b2].  On floats it does not: the products are rounded
    before they are compared. *)
Theorem ratio_bigger_than_decides_quotients
    (self : DunnMergeCriterion.state) (d_min : Q) (b : Q * Q) :
  dunn_reachable self ->
  DunnMergeCriterion._best_dunn self = Some b ->
  _ratio_bigger_than (d_min, DunnMergeCriterion._max_diameter self) b = true
  <-> (b.1 / b.2 < d_min / DunnMergeCriterion._max_diameter self)%Q.
Proof.
  intros Hr Hb. destruct (dunn_reachable_positive self Hr b Hb) as [Hp Hm].
  destruct b as [b1 b2]. simpl in *. by apply ratio_bigger_than_spec.
Qed.

Lemma ratio_bigger_than_decides_quotients_witness :
  _ratio_bigger_than (5%Q, DunnMergeCriterion._max_diameter dunn_two_merges) (2%Q, 1%Q) = true
  <-> ((2%Q, 1%Q).1 / (2%Q, 1%Q).2 < 5 / DunnMergeCriterion._max_diameter dunn_two_merges)%Q.
Proof.
  apply (ratio_bigger_than_decides_quotients dunn_two_merges 5%Q (2%Q, 1%Q)).
  - apply (dunn_reachable_step dunn_one_merge [Some [0; 1]; None; Some [2]] 0 2 2%Q true).
    + apply (dunn_reachable_step (DunnMergeCriterion.init [1; 3; 2]%Q 3 None)
               [Some [0]; Some [1]; Some [2]] 0 1 1%Q true).
      * apply dunn_reachable_init.
      * vm_compute. reflexivity.
    + vm_compute. reflexivity.
  - vm_compute. reflexivity.
Defined.

(** On floats the products of [_ratio_bigger_than] are rounded: with
    [a = (1 + 2**-52, 1.0)] and [b = (1.0, 1 - 2**-53)] both products are
    [1.0] and the answer is [False], although all four numbers are positive
    and [a1 / a2 > b1 / b2]. *)
Lemma ratio_bigger_than_rounds :
  _ratio_bigger_than (float_above_one, float_one) (float_one, float_below_one) = false /\
  py_mul float_above_one float_below_one = float_one /\
  py_mul float_one float_one = float_one /\
  exists a1 a2 b1 b2 : Q,
    float_value float_above_one = Some a1 /\ float_value float_one = Some a2 /\
    float_value float_one = Some b1 /\ float_value float_below_one = Some b2 /\
    (0 < a1)%Q /\ (0 < a2)%Q /\ (0 < b1)%Q /\ (0 < b2)%Q /\
    (b1 / b2 < a1 / a2)%Q.
Proof.
  split; [vm_compute; reflexivity|]. split; [vm_compute; reflexivity|].
  split; [vm_compute; reflexivity|].
  eexists _, _, _, _. do 4 (split; [reflexivity|]).
  repeat split; vm_compute; reflexivity.
Qed.

(** ** The entry point [optimize] *)

Section OptimizeFacts.
Context {RM : RandomModule} {MM : MathModule} {Point : Type}.

Lemma optimize_body_seeded (fuel : nat) (p : list Point) (k : k_arg split_factory)
    (distances : Distances) (m : mode) (sd : Z) (w1 w2 : World) :
  w_computed w1 = w_computed w2 ->
  optimize_body fuel p k distances m sd w1 = optimize_body fuel p k distances m sd w2.
Proof.
  intros Hc. unfold optimize_body.
  unfold mbind at 1, M_bind. unfold mbind at 2, M_bind.
  unfold seed, setstate. simpl. by rewrite Hc.
Qed.

(** C2.  Two calls of [optimize] with the same arguments, the provider in
    the same state, started from any two states of the random stream, end
    with the same result (value or exception) and leave the provider in the
    same state; and a call that returns or raises leaves the random stream
    in the state it found. *)
Theorem optimize_deterministic (fuel : nat) (p : list Point) (k : k_arg split_factory)
    (distances : Distances) (m : mode) (sd : Z) (w1 w2 : World) :
  w_computed w1 = w_computed w2 ->
  (optimize fuel p k distances m sd w1).1 <> OutOfFuel ->
  (optimize fuel p k distances m sd w1).1 = (optimize fuel p k distances m sd w2).1 /\
  w_computed (optimize fuel p k distances m sd w1).2
    = w_computed (optimize fuel p k distances m sd w2).2 /\
  w_random (optimize fuel p k distances m sd w1).2 = w_random w1 /\
  w_random (optimize fuel p k distances m sd w2).2 = w_random w2.
Proof.
  intros Hc. unfold optimize.
  destruct (match k with KInt 1 => true | _ => false end).
  { simpl. done. }
  unfold mbind, M_bind, getstate, try_finally.
  rewrite (optimize_body_seeded fuel p k distances m sd w2 w1) by done.
  destruct (optimize_body fuel p k distances m sd w1) as [[out | e |] w']; simpl; done.
Qed.

(** C4.  With [k = 1] the call returns [[p]], the list holding the one list
    of all points, whatever the mode: for mode [components] this is not the
    array of [len(p)] ones. *)
Theorem optimize_one_ignores_mode (fuel : nat) (p : list Point) (distances : Distances)
    (sd : Z) (w : World) :
  optimize fuel p (KInt 1) distances mode_components sd w = (Ok (OutClusters [p]), w) /\
  @OutClusters Point [p] <> OutComponents (replicate (length p) 1).
Proof. split; [reflexivity | discriminate]. Qed.

End OptimizeFacts.

(** ** Concrete inputs used to exercise the statements *)

Lemma optimize_deterministic_witness :
  let returns_ :=
    @optimize lcg_random table_math Z 100 line_points (KInt 2)
      (Precomputed (line_matrix line_points)) mode_components 12345 in
  let raises_ :=
    @optimize lcg_random table_math Z 100 line_points (KInt 7)
      (Precomputed (line_matrix line_points)) mode_components 12345 in
  ((returns_ (world_of 1)).1 = (returns_ (world_of 2)).1 /\
   w_computed (returns_ (world_of 1)).2 = w_computed (returns_ (world_of 2)).2 /\
   w_random (returns_ (world_of 1)).2 = w_random (world_of 1) /\
   w_random (returns_ (world_of 2)).2 = w_random (world_of 2)) /\
  ((raises_ (world_of 1)).1 = (raises_ (world_of 2)).1 /\
   w_computed (raises_ (world_of 1)).2 = w_computed (raises_ (world_of 2)).2 /\
   w_random (raises_ (world_of 1)).2 = w_random (world_of 1) /\
   w_random (raises_ (world_of 2)).2 = w_random (world_of 2)).
Proof.
  split.
  - apply (@optimize_deterministic lcg_random table_math Z 100 line_points (KInt 2)
             (Precomputed (line_matrix line_points)) mode_components 12345
             (world_of 1) (world_of 2)).
    + reflexivity.
    + vm_compute. discriminate.
  - apply (@optimize_deterministic lcg_random table_math Z 100 line_points (KInt 7)
             (Precomputed (line_matrix line_points)) mode_components 12345
             (world_of 1) (world_of 2)).
    + reflexivity.
    + vm_compute. discriminate.
Defined.

(** ** The shuffled range *)

Section ShuffledRange.
Context {RM : RandomModule}.

Lemma randint_spec (a b : Z) (w : World) :
  (a <= b)%Z ->
  exists x g,
    randint a b w = (Ok x, {| w_random := g; w_computed := w_computed w |}) /\
    (a <= x <= b)%Z.
Proof.
  intros Hab. unfold randint. destruct (decide (a <= b)%Z) as [_|]; [|lia].
  pose proof (randint_range a b (w_random w) Hab) as Hr.
  destruct (randint_raw a b (w_random w)) as [x g] eqn:E. simpl in Hr.
  by exists x, g.
Qed.

Lemma nth_of_insert (a : gmap Z Z) (j v p : Z) :
  nth_of (<[j := v]> a) p = if decide (p = j) then v else nth_of a p.
Proof.
  unfold nth_of. destruct (decide (p = j)) as [->|Hne].
  - by rewrite lookup_insert_eq.
  - by rewrite lookup_insert_ne.
Qed.

Lemma remaining_step (a : gmap Z Z) (i j n : Z) :
  (i <= j <= n - 1)%Z ->
  nth_of a j :: (nth_of (<[j := nth_of a i]> a) <$> seqZ (i + 1) (n - (i + 1)))
  ≡ₚ nth_of a <$> seqZ i (n - i).
Proof.
  intros Hj.
  rewrite (seqZ_cons i (n - i)) by lia.
  replace (Z.succ i) with (i + 1)%Z by lia.
  replace (Z.pred (n - i)) with (n - (i + 1))%Z by lia.
  rewrite fmap_cons.
  destruct (decide (j = i)) as [->|Hne].
  - f_equiv. apply Permutation_refl'. apply list_fmap_ext.
    intros k p Hp. rewrite nth_of_insert.
    apply lookup_seqZ in Hp. destruct (decide (p = i)); [lia|done].
  - replace (n - (i + 1))%Z with ((j - (i + 1)) + (1 + (n - (j + 1))))%Z by lia.
    rewrite seqZ_app by lia. rewrite (seqZ_app _ 1) by lia.
    replace (i + 1 + (j - (i + 1)))%Z with j by lia.
    rewrite !fmap_app. change (seqZ j 1) with [j]. simpl.
    rewrite nth_of_insert. destruct (decide (j = j)) as [_|]; [|done].
    assert (E1 : nth_of (<[j := nth_of a i]> a) <$> seqZ (i + 1) (j - (i + 1))
                 = nth_of a <$> seqZ (i + 1) (j - (i + 1))).
    { apply list_fmap_ext. intros k p Hp. rewrite nth_of_insert.
      apply lookup_seqZ in Hp. destruct (decide (p = j)); [lia|done]. }
    assert (E2 : nth_of (<[j := nth_of a i]> a) <$> seqZ (j + 1) (n - (j + 1))
                 = nth_of a <$> seqZ (j + 1) (n - (j + 1))).
    { apply list_fmap_ext. intros k p Hp. rewrite nth_of_insert.
      apply lookup_seqZ in Hp. destruct (decide (p = j)); [lia|done]. }
    rewrite E1, E2.
    rewrite (Permutation_middle _ _ (nth_of a i)).
    rewrite (Permutation_middle _ _ (nth_of a j)).
    apply Permutation_app_head, perm_swap.
Qed.

Lemma drain_remaining (k : nat) : forall (fuel : nat) (g : range_gen) (w : World),
  sr_done g = false ->
  (0 <= sr_i g <= sr_n g - 1)%Z ->
  k = Z.to_nat (sr_n g - 1 - sr_i g) ->
  k + 2 <= fuel ->
  exists l w',
    drain fuel g w = (Ok l, w') /\ l ≡ₚ remaining g /\ w_computed w' = w_computed w.
Proof.
  induction k as [|k IH]; intros fuel g w Hd Hi Hk Hfuel.
  - destruct fuel as [|[|fuel]]; [lia..|].
    assert (Hlast : sr_i g = (sr_n g - 1)%Z) by lia.
    exists [nth_of (sr_a g) (sr_n g - 1)], w. split; [|split; [|done]].
    + cbn [drain]. unfold mbind at 1, M_bind. unfold range_next. rewrite Hd.
      destruct (decide (sr_i g < sr_n g - 1)%Z); [lia|]. simpl.
      unfold mbind, M_bind. simpl. done.
    + unfold remaining. rewrite Hlast.
      replace (sr_n g - (sr_n g - 1))%Z with 1%Z by lia. done.
  - destruct fuel as [|fuel]; [lia|].
    assert (Hlt : (sr_i g < sr_n g - 1)%Z) by lia.
    destruct (randint_spec (sr_i g) (sr_n g - 1) w) as (j & r & Hrand & Hj); [lia|].
    set (g' := {| sr_n := sr_n g;
                  sr_a := <[j := nth_of (sr_a g) (sr_i g)]> (sr_a g);
                  sr_i := (sr_i g + 1)%Z; sr_done := false |}).
    destruct (IH fuel g' {| w_random := r; w_computed := w_computed w |})
      as (l & w' & Hrun & Hperm & Hw); [done | simpl; lia | simpl; lia | lia |].
    exists (nth_of (sr_a g) j :: l), w'. split; [|split; [|done]].
    + cbn [drain]. unfold mbind at 1, M_bind. unfold range_next. rewrite Hd.
      destruct (decide (sr_i g < sr_n g - 1)%Z); [|lia].
      unfold mbind at 1, M_bind. rewrite Hrand. simpl.
      fold g'. unfold mbind, M_bind. rewrite Hrun. done.
    + rewrite Hperm. unfold remaining. simpl. by apply remaining_step.
Qed.

Lemma nth_of_empty (p : Z) : nth_of ∅ p = p.
Proof. unfold nth_of. by rewrite lookup_empty. Qed.

(** For [n = 0] the generator yields the one value [-1]. *)
Lemma shuffled_range_zero (w : World) :
  drain 2 (_shuffled_range 0) w = (Ok [(-1)%Z], w).
Proof. reflexivity. Qed.

(** C9 (for [n >= 1]).  The generator [_shuffled_range(n)] yields exactly
    [n] values, none of them twice: a permutation of [0, ..., n - 1]; this
    for every random source and every state of it.  (For [n = 0] see
    [shuffled_range_zero].) *)
Theorem shuffled_range_permutation (n : Z) (fuel : nat) (w : World) :
  (1 <= n)%Z ->
  Z.to_nat n < fuel ->
  exists l w',
    drain fuel (_shuffled_range n) w = (Ok l, w') /\
    length l = Z.to_nat n /\ NoDup l /\ l ≡ₚ seqZ 0 n.
Proof.
  intros Hn Hfuel.
  destruct (drain_remaining (Z.to_nat (n - 1)) fuel (_shuffled_range n) w)
    as (l & w' & Hrun & Hperm & _); [done | simpl; lia | simpl; f_equal; lia | lia |].
  assert (Hrem : remaining (_shuffled_range n) = seqZ 0 n).
  { unfold remaining. simpl. replace (n - 0)%Z with n by lia.
    rewrite <- (list_fmap_id (seqZ 0 n)) at 2.
    apply list_fmap_ext. intros k p _. apply nth_of_empty. }
  rewrite Hrem in Hperm.
  exists l, w'. split; [done|]. split; [|split; [|done]].
  - by rewrite Hperm, length_seqZ.
  - rewrite Hperm. apply NoDup_seqZ.
Qed.

End ShuffledRange.

Lemma shuffled_range_permutation_witness :
  exists l w',
    drain 4 (_shuffled_range 3) (world_of 1) = (Ok l, w') /\
    length l = Z.to_nat 3 /\ NoDup l /\ l ≡ₚ seqZ 0 3.
Proof.
  apply (@shuffled_range_permutation lcg_random 3 4 (world_of 1)); [lia | cbn; lia].
Defined.

(** For [n = 0] the values yielded are not the empty range. *)
Lemma shuffled_range_zero_not_empty :
  exists l w',
    drain 2 (_shuffled_range 0) (world_of 1) = (Ok l, w') /\
    length l <> Z.to_nat 0 /\ ~ l ≡ₚ seqZ 0 0.
Proof.
  exists [(-1)%Z], (world_of 1). split; [apply shuffled_range_zero|].
  split; [done|]. intros H. apply Permutation_length in H. done.
Qed.

(** ** Reasoning in the monad [M] *)

Section MonadFacts.
Context {RM : RandomModule}.

Lemma bind_Ok {A B} (m : M A) (f : A -> M B) (w : World) (b : B) (w' : World) :
  (m ≫= f) w = (Ok b, w') ->
  exists a w1, m w = (Ok a, w1) /\ f a w1 = (Ok b, w').
Proof.
  unfold mbind, M_bind. destruct (m w) as [[a | e |] w1]; intros H; try discriminate.
  by exists a, w1.
Qed.

Lemma lift_Ok {A} (o : outcome A) (w : World) (a : A) (w' : World) :
  lift o w = (Ok a, w') -> o = Ok a /\ w' = w.
Proof. unfold lift. intros [= -> ->]. done. Qed.

Lemma ret_Ok {A} (x : A) (w : World) (a : A) (w' : World) :
  mret (M := M) x w = (Ok a, w') -> a = x /\ w' = w.
Proof. unfold mret, M_ret. intros [= -> ->]. done. Qed.

End MonadFacts.

Ltac case_dec H :=
  match type of H with
  | context [decide ?P] => destruct (decide P)
  end.

Ltac inv_bind H :=
  let a := fresh "a" in
  let w := fresh "w" in
  let E := fresh "E" in
  apply bind_Ok in H; destruct H as (a & w & E & H).

Section SwapFacts.
Context {RM : RandomModule} {MM : MathModule}.

Lemma next_random_swap_cost (self : Medoids) (w : World) r (self1 : Medoids) (w1 : World) :
  next_random_swap self w = (Ok (r, self1), w1) ->
  md_cost self1 = md_cost self /\ md_selected self1 = md_selected self /\
  md_clusters self1 = md_clusters self /\ md_n self1 = md_n self /\ md_k self1 = md_k self.
Proof.
  unfold next_random_swap. intros H. inv_bind H. destruct a as [r0 gen].
  destruct r0 as [[|n_i [|h [|? ?]]]|]; simpl in H.
  - discriminate.
  - discriminate.
  - inv_bind H.
    simpl in H. case_dec H; [|discriminate].
    apply ret_Ok in H as [[= -> ->] _]. done.
  - discriminate.
  - apply ret_Ok in H as [[= -> ->] _]. done.
Qed.



End SwapFacts.



(** ** The approximate silhouette criterion *)

Section SilhouetteFacts.
Context {RM : RandomModule}.

Lemma mapM_pure {A B} (f : A -> B) (l : list A) (w : World) :
  mapM (fun x => mret (M := M) (f x)) l w = (Ok (f <$> l), w).
Proof.
  induction l as [|x l IH]; [done|].
  simpl. unfold mbind, M_bind, mret, M_ret in *. by rewrite IH.
Qed.

Lemma mapM_lift {A B} (f : A -> outcome B) (l : list A) (w : World) :
  mapM (fun x => lift (f x)) l w = (DunnMergeCriterion.collect f l, w).
Proof.
  induction l as [|x l IH]; [done|].
  cbn [mapM DunnMergeCriterion.collect].
  unfold mbind at 1. unfold M_bind at 1. unfold lift at 1.
  destruct (f x) as [y | e |]; [|done..].
  unfold mbind at 1. unfold M_bind at 1. rewrite IH.
  destruct (DunnMergeCriterion.collect f l); done.
Qed.

Lemma mapM_ext {A B} (f g : A -> M B) (l : list A) (w : World) :
  (forall x w, f x w = g x w) -> mapM f l w = mapM g l w.
Proof.
  intros Hfg. revert w. induction l as [|x l IH]; intros w; [done|].
  simpl. unfold mbind at 1 3, M_bind. rewrite Hfg.
  destruct (g x w) as [[y | e |] w1]; [|done..].
  unfold mbind, M_bind. rewrite IH. done.
Qed.

Lemma within_pure (d : nat -> nat -> Q) (c : Cluster) (w : World) :
  approximate_within_distance c (pure_distance d) w = (Ok (within_mean d c), w).
Proof.
  unfold approximate_within_distance, within, within_mean, pure_distance. cbv zeta.
  unfold mbind at 1, M_bind. unfold mbind at 1, M_bind.
  rewrite (mapM_pure (fun i => d i (medoid c))). simpl.
  destruct (decide (length (members c) = 1)); done.
Qed.

Lemma between_pure (d : nat -> nat -> Q) (clusters : list Cluster) (i : nat) (c : Cluster)
    (w : World) :
  approximate_min_of_betweens clusters i (medoid c) (pure_distance d) w
  = (Ok (nearest_between d clusters i c), w).
Proof.
  unfold approximate_min_of_betweens, nearest_between, other_medoids, pure_distance.
  unfold mbind at 1, M_bind.
  rewrite (mapM_pure (fun b => d (medoid c) b)). done.
Qed.

Lemma widths_pure (d : nat -> nat -> Q) (clusters : list Cluster) (w : World) :
  approximate_mean_silhouette_widths clusters (pure_distance d) w
  = (DunnMergeCriterion.collect
       (fun ic => _silhouette (within_mean d ic.2) (nearest_between d clusters ic.1 ic.2))
       (imap (fun i c => (i, c)) clusters), w).
Proof.
  unfold approximate_mean_silhouette_widths.
  rewrite <- mapM_lift. apply mapM_ext.
  intros [i c] w0. unfold mbind at 1, M_bind. rewrite within_pure.
  unfold mbind at 1, M_bind. rewrite between_pure. done.
Qed.

Lemma robust_min_from_Forall (P : Q -> Prop) (l : list Q) :
  forall (m0 : option Q) (m : Q),
  (forall x, m0 = Some x -> P x) -> Forall P l ->
  _robust_min_from m0 l = Some m -> P m.
Proof.
  induction l as [|x l IH]; intros m0 m H0 Hl H; simpl in H.
  - by apply H0.
  - apply Forall_cons in Hl as [Hx Hl].
    destruct m0 as [m1|]; (eapply IH; [|exact Hl|exact H]).
    + intros y [= <-]. destruct (Qltb x m1); [done|]. by apply H0.
    + by intros y [= <-].
Qed.

Lemma robust_min_from_Some (l : list Q) : forall m0 : Q,
  exists m, _robust_min_from (Some m0) l = Some m.
Proof.
  induction l as [|x l IH]; intros m0; simpl; [by eexists|]. apply IH.
Qed.

Lemma robust_min_is_Some (l : list Q) : l <> [] -> exists m, _robust_min l = Some m.
Proof.
  destruct l as [|x l]; [done|]. intros _. unfold _robust_min. simpl.
  apply robust_min_from_Some.
Qed.

Lemma other_medoids_nonempty (clusters : list Cluster) (i j : nat) :
  j < length clusters -> i <> j -> other_medoids clusters i <> [].
Proof.
  intros Hj Hij. destruct (lookup_lt_is_Some_2 clusters j Hj) as [c Hc].
  assert (Hin : medoid c ∈ other_medoids clusters i).
  { unfold other_medoids. apply list_elem_of_omap. exists (j, c). split.
    - apply elem_of_lookup_imap. by exists j, c.
    - simpl. destruct (decide (i <> j)); done. }
  intros E. rewrite E in Hin. by apply elem_of_nil in Hin.
Qed.

Lemma other_medoids_two (clusters : list Cluster) (i : nat) :
  other_medoids clusters i <> [] -> 2 <= length clusters \/ length clusters <= i.
Proof.
  intros Hne. destruct (other_medoids clusters i) as [|m ms] eqn:E; [done|].
  assert (Hin : m ∈ other_medoids clusters i) by (rewrite E; left).
  unfold other_medoids in Hin. apply list_elem_of_omap in Hin as ([j c] & Hin & Hf).
  apply elem_of_lookup_imap in Hin as (j' & c' & [= -> ->] & Hc).
  simpl in Hf. destruct (decide (i <> j')) as [Hij|]; [|done].
  apply lookup_lt_Some in Hc.
  destruct (decide (i < length clusters)); lia.
Qed.

Section NonNegative.
Variable d : nat -> nat -> Q.
Hypothesis d_nonneg : forall i j, (0 <= d i j)%Q.

Lemma within_mean_nonneg (c : Cluster) (a : Q) :
  within_mean d c = Some a -> (0 <= a)%Q.
Proof.
  unfold within_mean. destruct (decide (length (members c) = 1)) as [|Hn]; [done|].
  intros [= <-].
  set (l := (fun i => d i (medoid c)) <$> filter (fun i => i <> medoid c) (members c)).
  assert (Hs : (0 <= fsum l)%Q).
  { apply fsum_nonneg. subst l. apply Forall_fmap, Forall_forall. intros x _. apply d_nonneg. }
  destruct (members c) as [|x [|y ms]] eqn:Em; simpl in Hn; [|done|].
  - subst l. simpl. vm_compute. discriminate.
  - apply Qle_shift_div_l.
    + unfold Qlt. simpl. lia.
    + lra.
Qed.

Lemma nearest_between_nonneg (clusters : list Cluster) (i : nat) (c : Cluster) (b : Q) :
  nearest_between d clusters i c = Some b -> (0 <= b)%Q.
Proof.
  unfold nearest_between, _robust_min. apply robust_min_from_Forall; [done|].
  apply Forall_fmap, Forall_forall. intros x _. apply d_nonneg.
Qed.

(** Every cluster of a configuration of two or more either has a silhouette
    or stops at the division by zero. *)
Lemma silhouette_scored_or_zero_division (clusters : list Cluster) (i : nat) (c : Cluster) :
  2 <= length clusters -> i < length clusters ->
  (exists s, _silhouette (within_mean d c) (nearest_between d clusters i c) = Ok s) \/
  _silhouette (within_mean d c) (nearest_between d clusters i c) = Raise ZeroDivisionError.
Proof.
  intros H2 Hi. unfold _silhouette.
  destruct (within_mean d c) as [a|] eqn:Ea; [|left; by eexists].
  destruct (robust_min_is_Some (d (medoid c) <$> other_medoids clusters i)) as [b Eb].
  { intros E. apply fmap_nil_inv in E. revert E.
    destruct (decide (i = 0)) as [->|].
    - apply (other_medoids_nonempty clusters 0 1); lia.
    - apply (other_medoids_nonempty clusters i 0); lia. }
  fold (nearest_between d clusters i c) in Eb. rewrite Eb.
  destruct (Qeq_bool (pymax a b) 0); [by right | left; by eexists].
Qed.

Lemma collect_raises {A B} (f : A -> outcome B) (e : exn) (l : list A) (i : nat) (x : A) :
  (forall y, y ∈ l -> (exists s, f y = Ok s) \/ f y = Raise e) ->
  l !! i = Some x -> f x = Raise e ->
  DunnMergeCriterion.collect f l = Raise e.
Proof.
  revert i. induction l as [|y l IH]; intros i Hall Hi Hx; [done|].
  simpl. destruct i as [|i]; simpl in Hi.
  - injection Hi as ->. by rewrite Hx.
  - destruct (Hall y) as [[s Hs] | Hinf]; [left| |].
    + rewrite Hs. simpl. erewrite IH; eauto. intros z Hz. apply Hall. by right.
    + by rewrite Hinf.
Qed.

(** A cluster with [max(a, b) == 0] makes [should_split] raise
    [ZeroDivisionError], which its [except InfiniteSilhouette] lets
    through. *)
Lemma unscorable_raises (_last_criterion : option Q) (siblings : list Cluster)
    (merged : option nat * list nat) (unmerged : list Cluster) (w : World)
    (i : nat) (c : Cluster) (a b : Q) :
  (siblings ++ unmerged) !! i = Some c ->
  within_mean d c = Some a ->
  nearest_between d (siblings ++ unmerged) i c = Some b ->
  (pymax a b == 0)%Q ->
  should_split _last_criterion siblings merged unmerged (pure_distance d) w
  = (Raise ZeroDivisionError, w).
Proof.
  intros Hc Ha Hb Hmax.
  set (clusters := siblings ++ unmerged) in *.
  assert (Hi : i < length clusters) by (by eapply lookup_lt_Some).
  assert (H2 : 2 <= length clusters).
  { destruct (other_medoids_two clusters i); [|done|lia].
    intros E. unfold nearest_between in Hb. rewrite E in Hb. done. }
  unfold should_split, except_infinite.
  unfold mbind at 1, M_bind. unfold approximate_global_silhouette_index.
  fold clusters. destruct (decide (length clusters <= 1)); [lia|].
  unfold mbind at 1, M_bind. rewrite widths_pure.
  rewrite (collect_raises _ ZeroDivisionError _ i (i, c)); [done| | |].
  - intros [j cj] Hin. apply elem_of_lookup_imap in Hin as (j' & c' & [= -> ->] & Hj).
    simpl. apply silhouette_scored_or_zero_division; [done|]. by eapply lookup_lt_Some.
  - by rewrite list_lookup_imap, Hc.
  - simpl. unfold _silhouette. rewrite Ha, Hb.
    apply Qeq_bool_iff in Hmax as Hmax'. by rewrite Hmax'.
Qed.

End NonNegative.

(** What the two generators of [_approximate_mean_silhouette_widths] hand
    to [_silhouette], read back from a run. *)
Lemma within_read (d : nat -> nat -> Q) (c : Cluster) (a : option Q) (w w' : World) :
  approximate_within_distance c (pure_distance d) w = (Ok a, w') -> within_mean d c = a.
Proof. rewrite within_pure. by intros [= <- _]. Qed.

Lemma between_read (d : nat -> nat -> Q) (clusters : list Cluster) (i : nat) (c : Cluster)
    (b : option Q) (w w' : World) :
  approximate_min_of_betweens clusters i (medoid c) (pure_distance d) w = (Ok b, w') ->
  nearest_between d clusters i c = b.
Proof. rewrite between_pure. by intros [= <- _]. Qed.

Lemma within_singleton (d : nat -> nat -> Q) (c : Cluster) (w : World) :
  length (members c) = 1 ->
  approximate_within_distance c (pure_distance d) w = (Ok None, w).
Proof.
  intros Hn. rewrite within_pure. unfold within_mean.
  by destruct (decide (length (members c) = 1)).
Qed.

End SilhouetteFacts.

(** C6.  A cluster of one member has no within-cluster mean
    ([_approximate_within_distances] yields [None]) and its silhouette is
    [0].  But a cluster with [max(a, b) == 0] is not answered by a
    rejection: if for some cluster of [siblings + unmerged] the two
    generators yield [a] and [b] with [max(a, b) == 0], then [should_split]
    raises [ZeroDivisionError], whatever the distance function (the
    non-negative ones among them), the criterion's state, the clusters, the
    cache and the random stream.  The division of [_silhouette] raises
    before its test for [nan], and [should_split] catches
    [InfiniteSilhouette] only. *)
Theorem zero_distance_split_raises {RM : RandomModule} (d : nat -> nat -> Q)
    (_last_criterion : option Q) (siblings : list Cluster)
    (merged : option nat * list nat) (unmerged : list Cluster) (w : World)
    (i : nat) (c : Cluster) (a b : Q) :
  (siblings ++ unmerged) !! i = Some c ->
  approximate_within_distance c (pure_distance d) w = (Ok (Some a), w) ->
  approximate_min_of_betweens (siblings ++ unmerged) i (medoid c) (pure_distance d) w
  = (Ok (Some b), w) ->
  (pymax a b == 0)%Q ->
  (forall b', _silhouette None b' = Ok 0%Q) /\
  (forall c' w', length (members c') = 1 ->
     approximate_within_distance c' (pure_distance d) w' = (Ok None, w')) /\
  should_split _last_criterion siblings merged unmerged (pure_distance d) w
  = (Raise ZeroDivisionError, w).
Proof.
  intros Hc Ha Hb Hmax. split; [done|]. split.
  - intros c' w' Hn. by apply within_singleton.
  - apply within_read in Ha. apply between_read in Hb. by eapply unscorable_raises.
Qed.

Lemma zero_distance_split_raises_witness :
  (forall b', _silhouette None b' = Ok 0%Q) /\
  (forall c' w', length (members c') = 1 ->
     @approximate_within_distance lcg_random c' (pure_distance zero_distance) w'
     = (Ok None, w')) /\
  @should_split lcg_random (Some (1 # 2)) []
    (None, [0; 1; 2; 3])
    [{| medoid := 0; members := [0; 1] |}; {| medoid := 2; members := [2; 3] |}]
    (pure_distance zero_distance) (world_of 7)
  = (Raise ZeroDivisionError, world_of 7).
Proof.
  apply (@zero_distance_split_raises lcg_random zero_distance (Some (1 # 2)) []
           (None, [0; 1; 2; 3])
           [{| medoid := 0; members := [0; 1] |}; {| medoid := 2; members := [2; 3] |}]
           (world_of 7) 0 {| medoid := 0; members := [0; 1] |} 0%Q 0%Q).
  - reflexivity.
  - rewrite within_pure. reflexivity.
  - rewrite between_pure. reflexivity.
  - vm_compute. reflexivity.
Defined.

(** ** The binary heap and its position index *)

Lemma insert_swap_out {A} (l : list A) (i : nat) (x y : A) :
  l !! i = Some x -> y :: l ≡ₚ x :: <[i := y]> l.
Proof.
  revert i. induction l as [|z l IH]; intros i Hi; [done|].
  destruct i as [|i]; simpl in *.
  - injection Hi as ->. apply perm_swap.
  - transitivity (z :: y :: l); [apply perm_swap|].
    transitivity (z :: x :: <[i := y]> l); [apply perm_skip, IH, Hi | apply perm_swap].
Qed.

Lemma insert_exchange {A} (l : list A) (i j : nat) (x y : A) :
  i <> j -> l !! i = Some x -> l !! j = Some y ->
  <[j := x]> (<[i := y]> l) ≡ₚ l.
Proof.
  intros Hij Hi Hj.
  apply (inj (cons y)).
  rewrite (insert_swap_out l i x y Hi).
  symmetry. apply insert_swap_out.
  by rewrite list_lookup_insert_ne.
Qed.

Lemma outcome_bind_Ok {A B} (m : outcome A) (f : A -> outcome B) (b : B) :
  m ≫= f = Ok b -> exists a, m = Ok a /\ f a = Ok b.
Proof. destruct m as [a| |]; simpl; [|done..]. intros H. by exists a. Qed.

Lemma outcome_bind_ret {A B} (a : A) (f : A -> outcome B) : Ok a ≫= f = f a.
Proof. reflexivity. Qed.

Lemma getitem_Ok {A} (l : list A) (i : nat) (x : A) :
  getitem l i = Ok x <-> l !! i = Some x.
Proof. unfold getitem. destruct (l !! i); split; congruence. Qed.

Lemma getitem_lt {A} (l : list A) (i : nat) :
  i < length l -> exists x, getitem l i = Ok x /\ l !! i = Some x.
Proof.
  intros Hi. destruct (lookup_lt_is_Some_2 l i Hi) as [x Hx].
  exists x. split; [by apply getitem_Ok | done].
Qed.

Lemma setitem_Ok {A} (l : list A) (i : nat) (x : A) (l' : list A) :
  setitem l i x = Ok l' <-> i < length l /\ l' = <[i := x]> l.
Proof.
  unfold setitem. destruct (decide (i < length l)); split.
  - intros [= <-]. done.
  - intros [_ ->]. done.
  - done.
  - intros [? _]. lia.
Qed.

Lemma setitem_lt {A} (l : list A) (i : nat) (x : A) :
  i < length l -> setitem l i x = Ok (<[i := x]> l).
Proof. intros. by apply setitem_Ok. Qed.

Section HeapFacts.
Context {U : Type}.
Implicit Types (a b xp hj : @node U) (heap : list (@node U)) (wh : list nat).

Lemma node_compare_Lt a b :
  node_compare a b = Lt <->
  (dist a < dist b)%Q \/ ((dist a == dist b)%Q /\ pid a < pid b).
Proof.
  unfold node_compare.
  destruct (Qcompare (dist a) (dist b)) eqn:E.
  - apply Qeq_alt in E. rewrite Nat.compare_lt_iff. split; [auto|].
    intros [H|[_ H]]; [lra | done].
  - apply Qlt_alt in E. split; auto.
  - apply Qgt_alt in E. split; [done|]. intros [H|[H _]]; lra.
Qed.

Lemma node_compare_Eq a b :
  node_compare a b = Eq <-> (dist a == dist b)%Q /\ pid a = pid b.
Proof.
  unfold node_compare.
  destruct (Qcompare (dist a) (dist b)) eqn:E.
  - apply Qeq_alt in E. rewrite Nat.compare_eq_iff. tauto.
  - apply Qlt_alt in E. split; [done|]. intros [H _]; lra.
  - apply Qgt_alt in E. split; [done|]. intros [H _]; lra.
Qed.

Lemma node_compare_Gt a b :
  node_compare a b = Gt <->
  (dist b < dist a)%Q \/ ((dist a == dist b)%Q /\ pid b < pid a).
Proof.
  unfold node_compare.
  destruct (Qcompare (dist a) (dist b)) eqn:E.
  - apply Qeq_alt in E. rewrite Nat.compare_gt_iff. split; [auto|].
    intros [H|[_ H]]; [lra | done].
  - apply Qlt_alt in E. split; [done|]. intros [H|[H _]]; lra.
  - apply Qgt_alt in E. split; auto.
Qed.

Lemma nle_spec a b :
  nle a b <-> (dist a < dist b)%Q \/ ((dist a == dist b)%Q /\ pid a <= pid b).
Proof.
  unfold nle, node_le. destruct (node_compare a b) eqn:E.
  - apply node_compare_Eq in E as [E1 E2]. split; [|done]. intros _. right. split; [done|lia].
  - apply node_compare_Lt in E. split; [|done]. intros _.
    destruct E as [E|[E1 E2]]; [by left | right; split; [done|lia]].
  - apply node_compare_Gt in E. split; [done|].
    intros [H|[H1 H2]]; destruct E as [E|[E1 E2]]; try lra; lia.
Qed.

Lemma nle_refl a : nle a a.
Proof. apply nle_spec. right. split; [reflexivity | lia]. Qed.

Lemma nle_trans a b (c : @node U) : nle a b -> nle b c -> nle a c.
Proof.
  rewrite !nle_spec. intros [H1|[H1 H1']] [H2|[H2 H2']].
  - left. lra.
  - left. lra.
  - left. lra.
  - right. split; [lra | lia].
Qed.

Lemma node_gt_false a b : node_gt a b = false -> nle a b.
Proof. unfold nle, node_gt, node_le. by destruct (node_compare a b). Qed.

Lemma node_gt_true a b : node_gt a b = true -> nle b a.
Proof.
  unfold node_gt. destruct (node_compare a b) eqn:E; try done. intros _.
  apply node_compare_Gt in E. apply nle_spec.
  destruct E as [E|[E1 E2]]; [by left|]. right. split; [lra | lia].
Qed.

Lemma node_le_false a b : node_le a b = false -> nle b a.
Proof.
  intros H. apply node_gt_true. unfold node_gt, node_le in *.
  by destruct (node_compare a b).
Qed.

Lemma node_ne_pid a b : pid a <> pid b -> node_ne a b = true.
Proof.
  intros Hne. unfold node_ne. destruct (node_compare a b) eqn:E; try done.
  apply node_compare_Eq in E as [_ E]. done.
Qed.

Lemma where_ok_but_move (i j : nat) xp heap wh hj :
  i <> j -> heap !! j = Some hj -> i < length heap ->
  where_ok_but i xp heap wh ->
  where_ok_but j xp (<[i := hj]> heap) (<[pid hj := i]> wh).
Proof.
  intros Hij Hj Hi Hok t a Ht Ha.
  destruct (Hok j hj) as [Hwj Hpj]; [done..|].
  destruct (decide (t = i)) as [->|Hti].
  - rewrite list_lookup_insert_eq in Ha by done. injection Ha as <-.
    split; [|done]. apply list_lookup_insert_eq. by eapply lookup_lt_Some.
  - rewrite list_lookup_insert_ne in Ha by done.
    destruct (Hok t a Hti Ha) as [Hwt Hpt]. split; [|done].
    rewrite list_lookup_insert_ne; [done|].
    intros E. rewrite E in Hwj. congruence.
Qed.

Lemma where_ok_but_fill (i : nat) xp heap wh :
  i < length heap -> pid xp < length wh ->
  where_ok_but i xp heap wh ->
  where_ok (<[i := xp]> heap) (<[pid xp := i]> wh).
Proof.
  intros Hi Hp Hok t a Ha.
  destruct (decide (t = i)) as [->|Hti].
  - rewrite list_lookup_insert_eq in Ha by done. injection Ha as <-.
    by apply list_lookup_insert_eq.
  - rewrite list_lookup_insert_ne in Ha by done.
    destruct (Hok t a Hti Ha) as [Hwt Hpt].
    by rewrite list_lookup_insert_ne.
Qed.

Lemma where_ok_but_of_ok (i : nat) xp heap wh :
  where_ok heap wh -> wh !! pid xp = Some i ->
  where_ok_but i xp heap wh.
Proof.
  intros Hok Hxp t a Hti Ha. pose proof (Hok t a Ha) as Hw. split; [done|].
  intros E. rewrite E in Hw. congruence.
Qed.

(** *** [shiftdown] *)

Lemma shiftdown_loop_where (fuel : nat) (e : nat) xp :
  forall (i : nat) heap wh,
  e = length heap - 1 -> i < length heap -> length heap <= fuel + i ->
  pid xp < length wh ->
  where_ok_but i xp heap wh ->
  exists i' heap' where',
    shiftdown_loop fuel e xp i (2 * i + 1) heap wh = Ok (i', heap', where') /\
    i' < length heap' /\ length heap' = length heap /\ length where' = length wh /\
    where_ok_but i' xp heap' where' /\
    <[i' := xp]> heap' ≡ₚ <[i := xp]> heap.
Proof.
  induction fuel as [|fuel IH]; intros i heap wh He Hi Hfuel Hp Hok.
  { lia. }
  cbn [shiftdown_loop].
  destruct (decide (2 * i + 1 <= e)) as [Hj|Hj]; [|by exists i, heap, wh].
  assert (exists j hj, (j = 2 * i + 1 \/ j = 2 * i + 2) /\ j <= e /\ heap !! j = Some hj /\
            (if decide (2 * i + 1 < e) then
               hj ← getitem heap (2 * i + 1);
               hj1 ← getitem heap (2 * i + 1 + 1);
               Ok (if node_gt hj hj1 then 2 * i + 1 + 1 else 2 * i + 1)
             else Ok (2 * i + 1)) = Ok j) as (j & hj & Hjc & Hje & Hhj & ->).
  { destruct (decide (2 * i + 1 < e)) as [Hlt|Hlt].
    - destruct (getitem_lt heap (2 * i + 1)) as (h1 & -> & Hh1); [lia|].
      destruct (getitem_lt heap (2 * i + 1 + 1)) as (h2 & -> & Hh2); [lia|].
      simpl. destruct (node_gt h1 h2).
      + exists (2 * i + 1 + 1), h2. repeat split; [lia | lia | done].
      + exists (2 * i + 1), h1. repeat split; [lia | lia | done].
    - destruct (getitem_lt heap (2 * i + 1)) as (h1 & _ & Hh1); [lia|].
      exists (2 * i + 1), h1. repeat split; [lia | lia | done]. }
  simpl. rewrite (proj2 (getitem_Ok heap j hj) Hhj). simpl.
  destruct (node_le xp hj); [by exists i, heap, wh|].
  assert (Hij : i <> j) by lia.
  destruct (Hok j hj) as [Hwj Hpj]; [lia | done |].
  rewrite (setitem_lt heap i hj) by done. simpl.
  rewrite (setitem_lt wh (pid hj) i) by (by eapply lookup_lt_Some). simpl.
  destruct (IH j (<[i := hj]> heap) (<[pid hj := i]> wh))
    as (i' & heap' & where' & Hrun & Hi' & Hlen & Hlenw & Hok' & Hperm).
  - rewrite length_insert. lia.
  - rewrite length_insert. lia.
  - rewrite length_insert. lia.
  - by rewrite length_insert.
  - by apply where_ok_but_move.
  - exists i', heap', where'. split; [exact Hrun|].
    split; [done|]. split; [by rewrite Hlen, length_insert|].
    split; [by rewrite Hlenw, length_insert|]. split; [done|].
    rewrite Hperm.
    rewrite <- (list_insert_insert_eq heap i hj xp).
    apply insert_exchange; [done | |].
    + by apply list_lookup_insert_eq.
    + by rewrite list_lookup_insert_ne.
Qed.

Lemma lookup_insert2 heap (i j t : nat) a b :
  i < length heap -> j < length heap -> i <> j ->
  <[j := b]> (<[i := a]> heap) !! t =
  if decide (t = j) then Some b else if decide (t = i) then Some a else heap !! t.
Proof.
  intros Hi Hj Hij. destruct (decide (t = j)) as [->|Htj].
  - apply list_lookup_insert_eq. by rewrite length_insert.
  - rewrite list_lookup_insert_ne by done.
    destruct (decide (t = i)) as [->|Hti].
    + by apply list_lookup_insert_eq.
    + by rewrite list_lookup_insert_ne.
Qed.

Lemma lookup_insert1 heap (i t : nat) a :
  i < length heap ->
  <[i := a]> heap !! t = if decide (t = i) then Some a else heap !! t.
Proof.
  intros Hi. destruct (decide (t = i)) as [->|Hti].
  - by apply list_lookup_insert_eq.
  - by rewrite list_lookup_insert_ne.
Qed.

Lemma ordered_except_down_move (i j : nat) xp hj heap :
  i < length heap -> child i j -> heap !! j = Some hj ->
  (forall c b, child i c -> heap !! c = Some b -> nle hj b) ->
  nle hj xp ->
  ordered_except_down i (<[i := xp]> heap) ->
  ordered_except_down j (<[j := xp]> (<[i := hj]> heap)).
Proof.
  intros Hi Hc Hj Hmin Hlt [Hedges Hgrand].
  assert (Hjl : j < length heap) by (by eapply lookup_lt_Some).
  assert (Hij : i <> j) by (unfold child in Hc; lia).
  split.
  - intros p c a b Hp Hpc. rewrite !lookup_insert2 by done.
    destruct (decide (p = j)) as [|_]; [done|].
    destruct (decide (p = i)) as [->|Hpi].
    + intros [= <-]. destruct (decide (c = j)) as [->|Hcj]; [by intros [= <-]|].
      destruct (decide (c = i)) as [->|]; [unfold child in Hpc; lia|].
      by apply Hmin.
    + intros Ha. destruct (decide (c = j)) as [->|Hcj].
      { unfold child in *. lia. }
      destruct (decide (c = i)) as [->|Hci].
      * intros [= <-]. apply (Hgrand p j a hj Hpc Hc).
        -- by rewrite lookup_insert1, decide_False.
        -- by rewrite lookup_insert1, decide_False.
      * intros Hb. apply (Hedges p c a b Hpi Hpc).
        -- by rewrite lookup_insert1, decide_False.
        -- by rewrite lookup_insert1, decide_False.
  - intros g c a b Hg Hjc. rewrite !lookup_insert2 by done.
    assert (g = i) as -> by (unfold child in *; lia).
    rewrite decide_False by done. rewrite decide_True by done. intros [= <-].
    rewrite decide_False by (unfold child in *; lia).
    rewrite decide_False by (unfold child in *; lia).
    intros Hb. apply (Hedges j c hj b); [done | done | |].
    + by rewrite lookup_insert1, decide_False.
    + rewrite lookup_insert1 by done.
      rewrite decide_False by (unfold child in *; lia). done.
Qed.

Lemma ordered_except_down_leaf (i : nat) heap :
  (forall c, child i c -> length heap <= c) ->
  ordered_except_down i heap -> heap_ordered heap.
Proof.
  intros Hleaf [Hedges _] p c a b Hpc Ha Hb.
  destruct (decide (p = i)) as [->|Hpi]; [|by eapply Hedges].
  apply lookup_lt_Some in Hb. specialize (Hleaf c Hpc). lia.
Qed.

Lemma ordered_except_down_settled (i : nat) xp heap :
  i < length heap ->
  (forall c b, child i c -> heap !! c = Some b -> nle xp b) ->
  ordered_except_down i (<[i := xp]> heap) -> heap_ordered (<[i := xp]> heap).
Proof.
  intros Hi Hmin [Hedges _] p c a b Hpc Ha Hb.
  destruct (decide (p = i)) as [->|Hpi]; [|by eapply Hedges].
  rewrite list_lookup_insert_eq in Ha by done. injection Ha as <-.
  rewrite list_lookup_insert_ne in Hb by (unfold child in Hpc; lia).
  by eapply Hmin.
Qed.

Lemma shiftdown_loop_ordered (fuel : nat) (e : nat) xp :
  forall (i : nat) heap wh (i' : nat) heap' wh',
  e = length heap - 1 -> i < length heap ->
  shiftdown_loop fuel e xp i (2 * i + 1) heap wh = Ok (i', heap', wh') ->
  ordered_except_down i (<[i := xp]> heap) ->
  heap_ordered (<[i' := xp]> heap').
Proof.
  induction fuel as [|fuel IH]; intros i heap wh i' heap' wh' He Hi Hrun Hord;
    cbn [shiftdown_loop] in Hrun.
  { destruct (decide (2 * i + 1 <= e)); [done|]. injection Hrun as <- <- <-.
    apply (ordered_except_down_leaf i); [|done].
    intros c Hc. rewrite length_insert. unfold child in Hc. lia. }
  destruct (decide (2 * i + 1 <= e)) as [Hj|Hj].
  2: { injection Hrun as <- <- <-.
       apply (ordered_except_down_leaf i); [|done].
       intros c Hc. rewrite length_insert. unfold child in Hc. lia. }
  apply outcome_bind_Ok in Hrun as (j & Hsel & Hrun).
  assert (exists hj, child i j /\ heap !! j = Some hj /\
            forall c b, child i c -> heap !! c = Some b -> nle hj b) as (hj & Hc & Hhj & Hmin).
  { destruct (decide (2 * i + 1 < e)) as [Hlt|Hlt].
    - apply outcome_bind_Ok in Hsel as (h1 & Hh1 & Hsel).
      apply outcome_bind_Ok in Hsel as (h2 & Hh2 & Hsel).
      apply getitem_Ok in Hh1, Hh2.
      destruct (node_gt h1 h2) eqn:Egt; injection Hsel as <-.
      + exists h2. split; [right; lia|]. split; [done|].
        intros c b [->| ->] Hb.
        * rewrite Hh1 in Hb. injection Hb as <-. by apply node_gt_true.
        * replace (2 * i + 2) with (2 * i + 1 + 1) in Hb by lia.
          rewrite Hh2 in Hb. injection Hb as <-. apply nle_refl.
      + exists h1. split; [left; lia|]. split; [done|].
        intros c b [->| ->] Hb.
        * rewrite Hh1 in Hb. injection Hb as <-. apply nle_refl.
        * replace (2 * i + 2) with (2 * i + 1 + 1) in Hb by lia.
          rewrite Hh2 in Hb. injection Hb as <-. by apply node_gt_false.
    - injection Hsel as <-.
      destruct (getitem_lt heap (2 * i + 1)) as (h1 & _ & Hh1); [lia|].
      exists h1. split; [left; lia|]. split; [done|].
      intros c b [->| ->] Hb.
      + rewrite Hh1 in Hb. injection Hb as <-. apply nle_refl.
      + apply lookup_lt_Some in Hb. lia. }
  apply outcome_bind_Ok in Hrun as (hj' & Hhj' & Hrun).
  apply getitem_Ok in Hhj'. rewrite Hhj in Hhj'. injection Hhj' as <-.
  destruct (node_le xp hj) eqn:Ele.
  - injection Hrun as <- <- <-.
    apply ordered_except_down_settled; [done | | done].
    intros c b Hcc Hb. eapply nle_trans; [exact Ele|]. by eapply Hmin.
  - apply outcome_bind_Ok in Hrun as (heap1 & Hset1 & Hrun).
    apply outcome_bind_Ok in Hrun as (wh1 & Hset2 & Hrun).
    apply setitem_Ok in Hset1 as [_ ->].
    apply (IH j (<[i := hj]> heap) wh1 i' heap' wh').
    + rewrite length_insert. lia.
    + rewrite length_insert. by eapply lookup_lt_Some.
    + exact Hrun.
    + apply ordered_except_down_move; try done. by apply node_le_false.
Qed.

(** [shiftdown(s, heap, where)] on a heap whose only defect is an entry at
    [s] that may be too large. *)
Lemma shiftdown_spec (s : nat) heap wh :
  where_ok heap wh ->
  exists heap' wh',
    shiftdown s heap wh = Ok (heap', wh') /\
    heap' ≡ₚ heap /\ length wh' = length wh /\
    where_ok heap' wh' /\
    (ordered_except_down s heap -> heap_ordered heap').
Proof.
  intros Hok. unfold shiftdown.
  destruct (decide (length heap - 1 < 2 * s + 1)) as [Hleaf|Hin].
  { exists heap, wh. repeat split; try done.
    apply ordered_except_down_leaf. intros c Hc. unfold child in Hc. lia. }
  assert (Hs : s < length heap) by lia.
  destruct (getitem_lt heap s Hs) as (xp & -> & Hxp). rewrite outcome_bind_ret.
  pose proof (Hok s xp Hxp) as Hwxp.
  destruct (shiftdown_loop_where (length heap) (length heap - 1) xp s heap wh)
    as (i' & heap' & wh' & Hrun & Hi' & Hlen & Hlenw & Hok' & Hperm);
    [done | done | lia | by eapply lookup_lt_Some | by apply where_ok_but_of_ok |].
  rewrite Hrun, outcome_bind_ret.
  rewrite (setitem_lt heap' i' xp), outcome_bind_ret by done.
  rewrite (setitem_lt wh' (pid xp) i'), outcome_bind_ret.
  2: { rewrite Hlenw. by eapply lookup_lt_Some. }
  exists (<[i' := xp]> heap'), (<[pid xp := i']> wh').
  split; [done|]. split.
  { rewrite Hperm. by rewrite list_insert_id. }
  split; [by rewrite length_insert|]. split.
  { apply where_ok_but_fill; [done | | done]. rewrite Hlenw. by eapply lookup_lt_Some. }
  intros Hord. eapply shiftdown_loop_ordered; [| |exact Hrun|]; [done | done |].
  by rewrite list_insert_id.
Qed.

(** *** [shiftup] *)

Lemma parent_index (i : nat) :
  1 <= i ->
  (0 <= (Z.of_nat i + 1) / 2 - 1)%Z /\
  child (Z.to_nat ((Z.of_nat i + 1) / 2 - 1)) i.
Proof. intros Hi. unfold child. zify. Z.to_euclidean_division_equations. lia. Qed.

Lemma root_index (i : nat) : (0 <= (Z.of_nat i + 1) / 2 - 1)%Z -> 1 <= i.
Proof. zify. Z.to_euclidean_division_equations. lia. Qed.

Lemma shiftup_loop_where (fuel : nat) xp :
  forall (i : nat) heap wh,
  i < length heap -> i <= fuel ->
  pid xp < length wh ->
  where_ok_but i xp heap wh ->
  exists i' heap' wh',
    shiftup_loop fuel xp i ((Z.of_nat i + 1) / 2 - 1)%Z heap wh = Ok (i', heap', wh') /\
    i' < length heap' /\ length heap' = length heap /\ length wh' = length wh /\
    where_ok_but i' xp heap' wh' /\
    <[i' := xp]> heap' ≡ₚ <[i := xp]> heap.
Proof.
  induction fuel as [|fuel IH]; intros i heap wh Hi Hfuel Hp Hok; cbn [shiftup_loop].
  { destruct (decide (0 <= (Z.of_nat i + 1) / 2 - 1)%Z) as [Hj|Hj].
    - apply root_index in Hj. lia.
    - by exists i, heap, wh. }
  destruct (decide (0 <= (Z.of_nat i + 1) / 2 - 1)%Z) as [Hj|Hj];
    [|by exists i, heap, wh].
  pose proof (root_index i Hj) as Hi1.
  destruct (parent_index i Hi1) as [_ Hc].
  set (j := Z.to_nat ((Z.of_nat i + 1) / 2 - 1)) in *.
  assert (Hji : j < i) by (unfold child in Hc; lia).
  destruct (getitem_lt heap j) as (hj & -> & Hhj); [lia|].
  rewrite outcome_bind_ret.
  destruct (node_le hj xp); [by exists i, heap, wh|].
  destruct (Hok j hj) as [Hwj Hpj]; [lia | done |].
  rewrite (setitem_lt heap i hj), outcome_bind_ret by done.
  rewrite (setitem_lt wh (pid hj) i), outcome_bind_ret by (by eapply lookup_lt_Some).
  destruct (IH j (<[i := hj]> heap) (<[pid hj := i]> wh))
    as (i' & heap' & wh' & Hrun & Hi' & Hlen & Hlenw & Hok' & Hperm).
  - rewrite length_insert. lia.
  - lia.
  - by rewrite length_insert.
  - apply where_ok_but_move; [lia | done | done | done].
  - exists i', heap', wh'. split; [exact Hrun|].
    split; [done|]. split; [by rewrite Hlen, length_insert|].
    split; [by rewrite Hlenw, length_insert|]. split; [done|].
    rewrite Hperm.
    rewrite <- (list_insert_insert_eq heap i hj xp).
    apply insert_exchange; [lia | |].
    + by apply list_lookup_insert_eq.
    + rewrite list_lookup_insert_ne; [done | lia].
Qed.

Lemma ordered_except_up_move (i j : nat) xp hj heap :
  i < length heap -> child j i -> heap !! j = Some hj ->
  nle xp hj ->
  ordered_except_up i (<[i := xp]> heap) ->
  ordered_except_up j (<[j := xp]> (<[i := hj]> heap)).
Proof.
  intros Hi Hc Hj Hlt [Hedges Hgrand].
  assert (Hjl : j < length heap) by (by eapply lookup_lt_Some).
  assert (Hij : i <> j) by (unfold child in Hc; lia).
  assert (Hold : forall t, t <> i -> <[i := xp]> heap !! t = heap !! t).
  { intros t Ht. by rewrite list_lookup_insert_ne. }
  split.
  - intros p c a b Hcj Hpc. rewrite !lookup_insert2 by done.
    rewrite (decide_False (P := c = j)) by done.
    destruct (decide (c = i)) as [->|Hci].
    + assert (p = j) as -> by (unfold child in *; lia).
      rewrite decide_True by done. by intros [= <-] [= <-].
    + destruct (decide (p = j)) as [->|Hpj].
      * intros [= <-] Hb. eapply nle_trans; [exact Hlt|].
        apply (Hedges j c hj b Hci Hpc); by rewrite Hold.
      * destruct (decide (p = i)) as [->|Hpi].
        -- intros [= <-] Hb. apply (Hgrand j c hj b Hc Hpc); by rewrite Hold.
        -- intros Ha Hb. apply (Hedges p c a b Hci Hpc); by rewrite Hold.
  - intros g c a b Hg Hjc. rewrite !lookup_insert2 by done.
    rewrite (decide_False (P := g = j)) by (unfold child in *; lia).
    rewrite (decide_False (P := g = i)) by (unfold child in *; lia).
    rewrite (decide_False (P := c = j)) by (unfold child in *; lia).
    intros Ha.
    assert (Hgj : nle a hj).
    { apply (Hedges g j a hj); [done | done | |]; rewrite Hold; try done.
      unfold child in *; lia. }
    destruct (decide (c = i)) as [->|Hci].
    + by intros [= <-].
    + intros Hb. eapply nle_trans; [exact Hgj|].
      apply (Hedges j c hj b Hci Hjc); by rewrite Hold.
Qed.

Lemma ordered_except_up_root heap : ordered_except_up 0 heap -> heap_ordered heap.
Proof.
  intros [Hedges _] p c a b Hpc Ha Hb.
  apply (Hedges p c a b); [unfold child in Hpc; lia | done..].
Qed.

Lemma ordered_except_up_settled (i j : nat) xp hj heap :
  i < length heap -> child j i -> heap !! j = Some hj -> nle hj xp ->
  ordered_except_up i (<[i := xp]> heap) -> heap_ordered (<[i := xp]> heap).
Proof.
  intros Hi Hc Hj Hle [Hedges _] p c a b Hpc Ha Hb.
  destruct (decide (c = i)) as [->|Hci]; [|by eapply Hedges].
  assert (p = j) as -> by (unfold child in *; lia).
  rewrite list_lookup_insert_eq in Hb by done. injection Hb as <-.
  rewrite list_lookup_insert_ne in Ha by (unfold child in Hc; lia).
  rewrite Hj in Ha. by injection Ha as <-.
Qed.

Lemma shiftup_loop_ordered (fuel : nat) xp :
  forall (i : nat) heap wh (i' : nat) heap' wh',
  i < length heap ->
  shiftup_loop fuel xp i ((Z.of_nat i + 1) / 2 - 1)%Z heap wh = Ok (i', heap', wh') ->
  ordered_except_up i (<[i := xp]> heap) ->
  heap_ordered (<[i' := xp]> heap').
Proof.
  induction fuel as [|fuel IH]; intros i heap wh i' heap' wh' Hi Hrun Hord;
    cbn [shiftup_loop] in Hrun.
  { destruct (decide (0 <= (Z.of_nat i + 1) / 2 - 1)%Z) as [Hj|Hj]; [done|].
    injection Hrun as <- <- <-.
    assert (i = 0) as -> by (destruct (decide (1 <= i)) as [H1|]; [apply parent_index in H1|]; lia).
    by apply ordered_except_up_root. }
  destruct (decide (0 <= (Z.of_nat i + 1) / 2 - 1)%Z) as [Hj|Hj].
  2: { injection Hrun as <- <- <-.
       assert (i = 0) as -> by (destruct (decide (1 <= i)) as [H1|]; [apply parent_index in H1|]; lia).
       by apply ordered_except_up_root. }
  pose proof (root_index i Hj) as Hi1.
  destruct (parent_index i Hi1) as [_ Hc].
  set (j := Z.to_nat ((Z.of_nat i + 1) / 2 - 1)) in *.
  apply outcome_bind_Ok in Hrun as (hj & Hhj & Hrun). apply getitem_Ok in Hhj.
  destruct (node_le hj xp) eqn:Ele.
  - injection Hrun as <- <- <-. by eapply ordered_except_up_settled.
  - apply outcome_bind_Ok in Hrun as (heap1 & Hset1 & Hrun).
    apply outcome_bind_Ok in Hrun as (wh1 & Hset2 & Hrun).
    apply setitem_Ok in Hset1 as [_ ->].
    apply (IH j (<[i := hj]> heap) wh1 i' heap' wh').
    + rewrite length_insert. by eapply lookup_lt_Some.
    + exact Hrun.
    + apply ordered_except_up_move; try done. by apply node_le_false.
Qed.

(** [shiftup(s, heap, where)] on a heap whose only defect is an entry at [s]
    that may be too small. *)
Lemma shiftup_spec (s : nat) heap wh :
  where_ok heap wh -> s < length heap ->
  exists heap' wh',
    shiftup s heap wh = Ok (heap', wh') /\
    heap' ≡ₚ heap /\ length wh' = length wh /\
    where_ok heap' wh' /\
    (ordered_except_up s heap -> heap_ordered heap').
Proof.
  intros Hok Hs. unfold shiftup.
  destruct (decide ((Z.of_nat s + 1) / 2 - 1 < 0)%Z) as [Hroot|Hin].
  { exists heap, wh. repeat split; try done.
    assert (s = 0) as -> by (destruct (decide (1 <= s)) as [H1|]; [apply parent_index in H1|]; lia).
    apply ordered_except_up_root. }
  destruct (getitem_lt heap s Hs) as (xp & -> & Hxp). rewrite outcome_bind_ret.
  pose proof (Hok s xp Hxp) as Hwxp.
  destruct (shiftup_loop_where (length heap) xp s heap wh)
    as (i' & heap' & wh' & Hrun & Hi' & Hlen & Hlenw & Hok' & Hperm);
    [done | lia | by eapply lookup_lt_Some | by apply where_ok_but_of_ok |].
  rewrite Hrun, outcome_bind_ret.
  rewrite (setitem_lt heap' i' xp), outcome_bind_ret by done.
  rewrite (setitem_lt wh' (pid xp) i'), outcome_bind_ret.
  2: { rewrite Hlenw. by eapply lookup_lt_Some. }
  exists (<[i' := xp]> heap'), (<[pid xp := i']> wh').
  split; [done|]. split.
  { rewrite Hperm. by rewrite list_insert_id. }
  split; [by rewrite length_insert|]. split.
  { apply where_ok_but_fill; [done | | done]. rewrite Hlenw. by eapply lookup_lt_Some. }
  intros Hord. eapply shiftup_loop_ordered; [|exact Hrun|]; [done|].
  by rewrite list_insert_id.
Qed.

(** *** [update] and [remove] *)

Lemma update_spec (s : nat) xp heap wh (old : @node U) :
  where_ok heap wh -> heap !! s = Some old ->
  wh !! pid xp = Some s -> node_ne xp old = true ->
  exists heap' wh',
    update s xp heap wh = Ok (heap', wh') /\
    heap' ≡ₚ <[s := xp]> heap /\ length wh' = length wh /\
    where_ok heap' wh' /\
    (heap_ordered heap -> heap_ordered heap').
Proof.
  intros Hok Hold Hwxp Hne. unfold update.
  assert (Hs : s < length heap) by (by eapply lookup_lt_Some).
  rewrite (proj2 (getitem_Ok heap s old) Hold), outcome_bind_ret.
  rewrite Hne. cbn [negb].
  assert (Hok1 : where_ok (<[s := xp]> heap) wh).
  { intros t a. rewrite lookup_insert1 by done.
    destruct (decide (t = s)) as [->|]; [by intros [= <-] | apply Hok]. }
  assert (Hlook : forall t, t <> s -> <[s := xp]> heap !! t = heap !! t).
  { intros t Ht. by rewrite list_lookup_insert_ne. }
  assert (Hself : <[s := xp]> heap !! s = Some xp) by (by apply list_lookup_insert_eq).
  destruct (node_gt xp old) eqn:Egt.
  - rewrite (setitem_lt heap s xp), outcome_bind_ret by done.
    destruct (shiftdown_spec s (<[s := xp]> heap) wh Hok1)
      as (heap' & wh' & Hrun & Hperm & Hlen & Hok' & Hord).
    exists heap', wh'. repeat split; try done.
    intros Hheap. apply Hord. apply node_gt_true in Egt. split.
    + intros p c a b Hp Hpc. rewrite (Hlook p) by done.
      destruct (decide (c = s)) as [->|Hc].
      * rewrite Hself. intros Ha [= <-]. eapply nle_trans; [|exact Egt].
        by apply (Hheap p s).
      * rewrite (Hlook c) by done. by apply Hheap.
    + intros g c a b Hg Hc.
      rewrite (Hlook g), (Hlook c) by (unfold child in *; lia).
      intros Ha Hb. eapply nle_trans; [by apply (Hheap g s a old) | by apply (Hheap s c old b)].
  - rewrite (setitem_lt heap s xp), outcome_bind_ret by done.
    destruct (shiftup_spec s (<[s := xp]> heap) wh Hok1)
      as (heap' & wh' & Hrun & Hperm & Hlen & Hok' & Hord).
    { by rewrite length_insert. }
    exists heap', wh'. repeat split; try done.
    intros Hheap. apply Hord. apply node_gt_false in Egt. split.
    + intros p c a b Hc Hpc. rewrite (Hlook c) by done.
      destruct (decide (p = s)) as [->|Hp].
      * rewrite Hself. intros [= <-] Hb. eapply nle_trans; [exact Egt|].
        by apply (Hheap s c).
      * rewrite (Hlook p) by done. by apply Hheap.
    + intros g c a b Hg Hc.
      rewrite (Hlook g), (Hlook c) by (unfold child in *; lia).
      intros Ha Hb. eapply nle_trans; [by apply (Hheap g s a old) | by apply (Hheap s c old b)].
Qed.

Lemma drop_last_snoc heap (x : @node U) :
  heap !! (length heap - 1) = Some x -> heap = drop_last heap ++ [x].
Proof.
  intros Hx. unfold drop_last.
  assert (Hlen : 0 < length heap) by (apply lookup_lt_Some in Hx; lia).
  rewrite <- (take_drop (length heap - 1) heap) at 1. f_equal.
  apply list_eq. intros i. rewrite lookup_drop. destruct i as [|i].
  - by rewrite Nat.add_0_r.
  - simpl. apply lookup_ge_None. lia.
Qed.

Lemma heap_ordered_drop_last heap : heap_ordered heap -> heap_ordered (drop_last heap).
Proof.
  intros Hheap p c a b Hpc Ha Hb. unfold drop_last in *.
  apply lookup_take_Some in Ha as [Ha _]. apply lookup_take_Some in Hb as [Hb _].
  by eapply Hheap.
Qed.

Lemma remove_spec (s : nat) heap wh (a : @node U) :
  where_ok heap wh -> heap !! s = Some a ->
  exists heap' wh',
    remove s heap wh = Ok (heap', wh') /\
    a :: heap' ≡ₚ heap /\ length wh' = length wh /\
    where_ok heap' wh' /\
    (heap_ordered heap -> heap_ordered heap').
Proof.
  intros Hok Ha. unfold remove.
  assert (Hs : s < length heap) by (by eapply lookup_lt_Some).
  destruct (decide (Z.of_nat s = Z.of_nat (length heap) - 1)%Z) as [Hlast|Hlast].
  - assert (Hsl : s = length heap - 1) by lia.
    exists (drop_last heap), wh. split; [done|].
    rewrite Hsl in Ha. pose proof (drop_last_snoc heap a Ha) as Hh.
    split; [|split; [done|split]].
    + rewrite Hh at 2. by rewrite Permutation_app_comm.
    + intros t b Hb. apply Hok. unfold drop_last in Hb.
      by apply lookup_take_Some in Hb as [Hb _].
    + apply heap_ordered_drop_last.
  - destruct (lookup_lt_is_Some_2 heap (length heap - 1)) as [xl Hxl]; [lia|].
    rewrite last_lookup. replace (pred (length heap)) with (length heap - 1) by lia.
    rewrite Hxl, outcome_bind_ret.
    pose proof (Hok _ _ Hxl) as Hwl. pose proof (Hok _ _ Ha) as Hwa.
    rewrite (setitem_lt wh (pid xl) s), outcome_bind_ret by (by eapply lookup_lt_Some).
    pose proof (drop_last_snoc heap xl Hxl) as Hh.
    destruct (update_spec s xl (drop_last heap) (<[pid xl := s]> wh) a)
      as (heap' & wh' & Hrun & Hperm & Hlen & Hok' & Hord).
    + intros t b Hb. unfold drop_last in Hb. apply lookup_take_Some in Hb as [Hb Ht].
      pose proof (Hok _ _ Hb) as Hwb.
      rewrite list_lookup_insert_ne; [done|].
      intros E. rewrite E in Hwl. rewrite Hwl in Hwb. injection Hwb as Et. lia.
    + unfold drop_last. apply lookup_take_Some. split; [done | lia].
    + apply list_lookup_insert_eq. by eapply lookup_lt_Some.
    + apply node_ne_pid. intros E. rewrite E in Hwl. rewrite Hwl in Hwa.
      injection Hwa as Et. lia.
    + exists heap', wh'. split; [done|]. split; [|split; [|split]].
      * rewrite Hperm. rewrite Hh at 2. rewrite <- Permutation_cons_append.
        symmetry. apply insert_swap_out.
        unfold drop_last. apply lookup_take_Some. split; [done | lia].
      * by rewrite Hlen, length_insert.
      * done.
      * intros Hheap. by apply Hord, heap_ordered_drop_last.
Qed.

Lemma heap_ordered_except (s : nat) heap (old : @node U) :
  heap_ordered heap -> heap !! s = Some old ->
  ordered_except_down s heap /\ ordered_except_up s heap.
Proof.
  intros Hheap Hold.
  assert (Hgrand : forall g j a b, child g s -> child s j ->
            heap !! g = Some a -> heap !! j = Some b -> nle a b).
  { intros g j a b Hg Hj Ha Hb.
    eapply nle_trans; [by apply (Hheap g s a old) | by apply (Hheap s j old b)]. }
  split; (split; [|exact Hgrand]); intros p c a b _ Hpc Ha Hb; by eapply Hheap.
Qed.

End HeapFacts.

(** C10 (with the precondition of [update]).  On a heap that has the
    min-heap property and whose position index records the slot of every
    entry, each of [shiftdown],
    [shiftup] and [remove], called on a slot of the heap, returns and leaves
    both properties in place; so does [update], provided the position index
    already maps the identifier of the new entry to the updated slot (as
    [remove] arranges, and as holds where [reduce] keeps the identifier) and
    the new entry differs from the one it replaces. *)
Theorem heap_operations_keep_invariants {U : Type} (s : nat) (xp : @node U)
    (heap : list (@node U)) (wh : list nat) (old : @node U) :
  heap_ordered heap -> where_ok heap wh -> heap !! s = Some old ->
  (exists heap' wh', shiftdown s heap wh = Ok (heap', wh') /\
      heap_ordered heap' /\ where_ok heap' wh' /\ heap' ≡ₚ heap) /\
  (exists heap' wh', shiftup s heap wh = Ok (heap', wh') /\
      heap_ordered heap' /\ where_ok heap' wh' /\ heap' ≡ₚ heap) /\
  (exists heap' wh', remove s heap wh = Ok (heap', wh') /\
      heap_ordered heap' /\ where_ok heap' wh' /\ old :: heap' ≡ₚ heap) /\
  (wh !! pid xp = Some s -> node_ne xp old = true ->
   exists heap' wh', update s xp heap wh = Ok (heap', wh') /\
      heap_ordered heap' /\ where_ok heap' wh' /\ heap' ≡ₚ <[s := xp]> heap).
Proof.
  intros Hheap Hok Hold.
  assert (Hs : s < length heap) by (by eapply lookup_lt_Some).
  split; [|split; [|split]].
  - destruct (shiftdown_spec s heap wh Hok) as (heap' & wh' & Hrun & Hperm & _ & Hok' & Hord).
    exists heap', wh'. repeat split; try done. apply Hord.
    by apply (heap_ordered_except s heap old).
  - destruct (shiftup_spec s heap wh Hok Hs) as (heap' & wh' & Hrun & Hperm & _ & Hok' & Hord).
    exists heap', wh'. repeat split; try done. apply Hord.
    by apply (heap_ordered_except s heap old).
  - destruct (remove_spec s heap wh old Hok Hold)
      as (heap' & wh' & Hrun & Hperm & _ & Hok' & Hord).
    exists heap', wh'. repeat split; auto.
  - intros Hw Hne.
    destruct (update_spec s xp heap wh old Hok Hold Hw Hne)
      as (heap' & wh' & Hrun & Hperm & _ & Hok' & Hord).
    exists heap', wh'. repeat split; auto.
Qed.

Lemma heap_operations_keep_invariants_witness :
  (exists heap' wh', shiftdown 1 two_heap two_where = Ok (heap', wh') /\
      heap_ordered heap' /\ where_ok heap' wh' /\ heap' ≡ₚ two_heap) /\
  (exists heap' wh', shiftup 1 two_heap two_where = Ok (heap', wh') /\
      heap_ordered heap' /\ where_ok heap' wh' /\ heap' ≡ₚ two_heap) /\
  (exists heap' wh', remove 1 two_heap two_where = Ok (heap', wh') /\
      heap_ordered heap' /\ where_ok heap' wh' /\ (2%Q, 1, tt) :: heap' ≡ₚ two_heap) /\
  (exists heap' wh', update 1 (0%Q, 1, tt) two_heap two_where = Ok (heap', wh') /\
      heap_ordered heap' /\ where_ok heap' wh' /\ heap' ≡ₚ <[1 := (0%Q, 1, tt)]> two_heap).
Proof.
  destruct (heap_operations_keep_invariants 1 (0%Q, 1, tt) two_heap two_where (2%Q, 1, tt))
    as (Hdown & Hup & Hremove & Hupdate).
  - intros i j a b [-> | ->] Ha Hb.
    + destruct i as [|[|i]]; simpl in *; try discriminate.
      injection Ha as <-. injection Hb as <-. reflexivity.
    + destruct i as [|[|i]]; simpl in *; discriminate.
  - intros t a Ha. destruct t as [|[|t]]; simpl in *; try discriminate.
    + by injection Ha as <-.
    + by injection Ha as <-.
  - reflexivity.
  - split; [exact Hdown|]. split; [exact Hup|]. split; [exact Hremove|].
    apply Hupdate; reflexivity.
Defined.

(** C10 without that precondition fails for [update]: replacing the entry
    of a leaf by an entry with another identifier leaves the position index
    of that identifier as it was. *)
Lemma update_breaks_position_index :
  heap_ordered two_heap /\ where_ok two_heap two_where /\
  update 1 (3%Q, 2, tt) two_heap two_where = Ok ([(1%Q, 0, tt); (3%Q, 2, tt)], [0; 1; 0]) /\
  ~ where_ok [(1%Q, 0, tt); (3%Q, 2, tt)] [0; 1; 0].
Proof.
  split; [|split; [|split]].
  - intros i j a b [-> | ->] Ha Hb.
    + destruct i as [|[|i]]; simpl in *; try discriminate.
      injection Ha as <-. injection Hb as <-. reflexivity.
    + destruct i as [|[|i]]; simpl in *; discriminate.
  - intros t a Ha. destruct t as [|[|t]]; simpl in *; try discriminate.
    + by injection Ha as <-.
    + by injection Ha as <-.
  - reflexivity.
  - intros Hok. specialize (Hok 1 (3%Q, 2, tt) eq_refl). discriminate.
Qed.

(** ** The agglomerative engine *)

(** *** Pair identifiers *)

Lemma index_succ_row (i : nat) : _index (S i) 0 = _index i 0 + i.
Proof.
  unfold _index. rewrite !Nat.add_0_l.
  replace (S i - 1) with i by lia.
  destruct i as [|i]; [done|].
  replace (S i * S (S i)) with ((S i - 1) * S i + S i * 2) by lia.
  rewrite Nat.div_add by done. lia.
Qed.

Lemma index_row (i j : nat) : _index i j = j + _index i 0.
Proof. unfold _index. lia. Qed.

Lemma index_row_mono (i i' : nat) : i <= i' -> _index i 0 <= _index i' 0.
Proof.
  induction 1 as [|i' _ IH]; [done|]. rewrite index_succ_row. lia.
Qed.

Lemma index_inj (r s r' s' : nat) :
  s < r -> s' < r' -> _index r s = _index r' s' -> r = r' /\ s = s'.
Proof.
  intros Hs Hs' E. rewrite (index_row r s), (index_row r' s') in E.
  destruct (decide (r = r')) as [->|Hne]; [lia|]. exfalso.
  destruct (decide (r < r')).
  - pose proof (index_row_mono (S r) r'). rewrite index_succ_row in *. lia.
  - pose proof (index_row_mono (S r') r). rewrite index_succ_row in *. lia.
Qed.

Lemma bind_singleton_fmap {A B} (f : A -> B) (l : list A) :
  l ≫= (fun x => [f x]) = f <$> l.
Proof. induction l as [|x l IH]; [done|]. cbn. by f_equal. Qed.

Lemma lookup_table_succ (n : nat) :
  lookup_table (S n) = lookup_table n ++ ((fun j => (n, j)) <$> seq 0 n).
Proof.
  unfold lookup_table. rewrite seq_S. cbn [Nat.add].
  rewrite bind_app. f_equal.
  rewrite <- (bind_singleton_fmap (fun j => (n, j))).
  cbn [mbind list_bind app]. apply app_nil_r.
Qed.

Lemma lookup_table_length (n : nat) : length (lookup_table n) = _index n 0.
Proof.
  induction n as [|n IH]; [done|].
  rewrite lookup_table_succ, length_app, length_fmap, length_seq, IH.
  by rewrite index_succ_row.
Qed.

Lemma lookup_table_lookup (n p r s : nat) :
  lookup_table n !! p = Some (r, s) <-> s < r < n /\ p = _index r s.
Proof.
  induction n as [|n IH].
  - split; [done | lia].
  - rewrite lookup_table_succ.
    destruct (decide (p < _index n 0)) as [Hp|Hp].
    + rewrite lookup_app_l by (by rewrite lookup_table_length).
      rewrite IH. split; [intros [? ->]; lia|].
      intros [Hrs ->]. split; [|done]. split; [lia|].
      destruct (decide (r = n)) as [->|]; [|lia].
      rewrite (index_row n s) in Hp. lia.
    + rewrite lookup_app_r by (rewrite lookup_table_length; lia).
      rewrite lookup_table_length, list_lookup_fmap.
      destruct (decide (p - _index n 0 < n)) as [Hlt|Hge].
      * rewrite lookup_seq_lt by done. simpl. split.
        -- intros [= <- <-]. split; [lia|]. rewrite index_row. lia.
        -- intros [Hrs ->].
           destruct (decide (r = n)) as [->|Hrn].
           ++ rewrite (index_row n s). do 2 f_equal. lia.
           ++ exfalso. apply Hp. rewrite (index_row r s).
              pose proof (index_row_mono (S r) n). rewrite index_succ_row in *. lia.
      * rewrite lookup_seq_ge by lia. simpl. split; [done|].
        intros [Hrs ->]. exfalso.
        destruct (decide (r = n)) as [->|Hrn].
        -- rewrite (index_row n s) in Hge. lia.
        -- apply Hp. rewrite (index_row r s).
           pose proof (index_row_mono (S r) n). rewrite index_succ_row in *. lia.
Qed.

Lemma lookup_table_elem (n r s : nat) : (r, s) ∈ lookup_table n <-> s < r < n.
Proof.
  rewrite list_elem_of_lookup. split.
  - intros [p Hp]. by apply lookup_table_lookup in Hp as [? _].
  - intros Hrs. exists (_index r s). by apply lookup_table_lookup.
Qed.

(** *** Sorting *)

Lemma insert_by_perm {A} (key : A -> nat) (x : A) (l : list A) :
  insert_by key x l ≡ₚ x :: l.
Proof.
  induction l as [|y l IH]; [done|]. simpl.
  destruct (decide (key x <= key y)); [done|].
  rewrite IH. apply perm_swap.
Qed.

Lemma sorted_by_perm {A} (key : A -> nat) (l : list A) : sorted_by key l ≡ₚ l.
Proof.
  induction l as [|x l IH]; [done|]. unfold sorted_by in *. simpl.
  by rewrite insert_by_perm, IH.
Qed.

Lemma sorted_perm (l : list nat) : sorted l ≡ₚ l.
Proof. apply sorted_by_perm. Qed.

(** *** [_components] *)

Lemma for_each_setitem (v : nat) (c : list nat) : forall comps : list nat,
  Forall (fun j => j < length comps) c ->
  exists comps',
    for_each c (fun comps j => setitem comps j v) comps = Ok comps' /\
    length comps' = length comps /\
    (forall j, j ∈ c -> comps' !! j = Some v) /\
    (forall j, j ∉ c -> comps' !! j = comps !! j).
Proof.
  induction c as [|x c IH]; intros comps Hc.
  - exists comps. repeat split; try done. intros j Hj. by apply elem_of_nil in Hj.
  - apply Forall_cons in Hc as [Hx Hc]. cbn [for_each].
    rewrite (setitem_lt comps x v Hx), outcome_bind_ret.
    destruct (IH (<[x := v]> comps)) as (comps' & Hrun & Hlen & Hin & Hout).
    { by rewrite length_insert. }
    exists comps'. split; [done|]. split; [by rewrite Hlen, length_insert|]. split.
    + intros j Hj. destruct (decide (j ∈ c)) as [Hjc|Hjc]; [by apply Hin|].
      apply elem_of_cons in Hj as [->|]; [|done].
      rewrite Hout by done. by apply list_lookup_insert_eq.
    + intros j Hj. apply not_elem_of_cons in Hj as [Hjx Hjc].
      rewrite Hout by done. by apply list_lookup_insert_ne.
Qed.

Lemma components_from (cs : list (list nat)) : forall (off : nat) (comps : list nat),
  Forall (fun j => j < length comps) (concat cs) ->
  NoDup (concat cs) ->
  exists comps',
    for_each (imap (fun i c => (off + i, c)) cs)
      (fun components '(i, c) =>
         let component_index := i + 1 in
         for_each c (fun components j => setitem components j component_index) components)
      comps = Ok comps' /\
    length comps' = length comps /\
    (forall i c j, cs !! i = Some c -> j ∈ c -> comps' !! j = Some (off + i + 1)) /\
    (forall j, j ∉ concat cs -> comps' !! j = comps !! j).
Proof.
  induction cs as [|c cs IH]; intros off comps Hlt Hnd.
  - exists comps. repeat split; done.
  - simpl in Hlt, Hnd. apply Forall_app in Hlt as [Hc Hcs].
    apply NoDup_app in Hnd as (Hndc & Hdisj & Hndcs).
    cbn [imap for_each].
    destruct (for_each_setitem (off + 0 + 1) c comps Hc) as (comps1 & Hrun1 & Hlen1 & Hin1 & Hout1).
    rewrite Hrun1, outcome_bind_ret.
    destruct (IH (S off) comps1) as (comps' & Hrun & Hlen & Hin & Hout).
    { by rewrite Hlen1. }
    { done. }
    exists comps'. split.
    { rewrite <- Hrun. f_equal. apply imap_ext. intros i x _. simpl. f_equal. lia. }
    split; [by rewrite Hlen, Hlen1|]. split.
    + intros i c' j Hi Hj. destruct i as [|i]; simpl in Hi.
      * injection Hi as <-. rewrite Hout by (by apply Hdisj).
        rewrite (Hin1 j Hj); f_equal; lia.
      * rewrite (Hin i c' j Hi Hj); f_equal; lia.
    + intros j Hj. simpl in Hj. apply not_elem_of_app in Hj as [Hjc Hjcs].
      rewrite Hout by done. by apply Hout1.
Qed.

(** For clusters that partition [0, ..., n - 1], [_components] returns an
    array of length [n] giving each position the number of its cluster. *)
Lemma components_spec (cs : list (list nat)) (n : nat) :
  concat cs ≡ₚ seq 0 n ->
  exists comps,
    _components cs n = Ok comps /\ length comps = n /\
    forall i c j, cs !! i = Some c -> j ∈ c -> comps !! j = Some (i + 1).
Proof.
  intros Hperm. unfold _components.
  destruct (components_from cs 0 (replicate n 0)) as (comps & Hrun & Hlen & Hin & _).
  - rewrite length_replicate. apply Forall_forall. intros j Hj.
    rewrite Hperm in Hj. apply elem_of_seq in Hj. lia.
  - rewrite Hperm. apply NoDup_seq.
  - exists comps. split; [exact Hrun|]. split; [by rewrite Hlen, length_replicate|].
    intros i c j Hi Hj. by rewrite (Hin i c j Hi Hj).
Qed.

(** *** Clusters as a partition *)

Lemma live_lists_concat (clusters : list (option (list nat))) :
  concat (live_lists clusters) = flat clusters.
Proof.
  unfold live_lists, flat. induction clusters as [|c cs IH]; [done|].
  destruct c as [[|x l]|]; cbn in *; by rewrite <- ?IH.
Qed.

Lemma live_lists_nonempty (clusters : list (option (list nat))) :
  Forall (fun c => c <> []) (live_lists clusters).
Proof.
  unfold live_lists. induction clusters as [|c cs IH]; [constructor|].
  destruct c as [[|x l]|]; cbn in *; try done. by constructor.
Qed.

Lemma concat_perm {A} (l1 l2 : list (list A)) : l1 ≡ₚ l2 -> concat l1 ≡ₚ concat l2.
Proof.
  induction 1 as [|x l1 l2 _ IH|x y l|l1 l2 l3 _ IH1 _ IH2]; simpl.
  - done.
  - by rewrite IH.
  - rewrite !app_assoc. by rewrite (Permutation_app_comm y x).
  - by rewrite IH1.
Qed.

Lemma flat_insert (clusters : list (option (list nat))) (i : nat) (old new : option (list nat)) :
  clusters !! i = Some old ->
  default [] new ++ flat clusters ≡ₚ default [] old ++ flat (<[i := new]> clusters).
Proof.
  intros Hi. unfold flat. rewrite list_fmap_insert.
  change (default [] new ++ concat (default [] <$> clusters))
    with (concat (default [] new :: (default [] <$> clusters))).
  change (default [] old ++ concat (<[i := default [] new]> (default [] <$> clusters)))
    with (concat (default [] old :: <[i := default [] new]> (default [] <$> clusters))).
  apply concat_perm.
  apply insert_swap_out. by rewrite list_lookup_fmap, Hi.
Qed.

Lemma merge_clusters_spec (clusters clusters' : list (option (list nat))) (i j : nat) :
  merge_clusters clusters i j = Ok clusters' ->
  exists ci cj,
    clusters !! i = Some (Some ci) /\ clusters !! j = Some (Some cj) /\
    clusters' = <[j := None]> (<[i := Some (ci ++ cj)]> clusters).
Proof.
  unfold merge_clusters. intros H.
  apply outcome_bind_Ok in H as (oi & Hi & H). apply getitem_Ok in Hi.
  apply outcome_bind_Ok in H as (ci & Hci & H). destruct oi as [ci'|]; [|done].
  injection Hci as ->.
  apply outcome_bind_Ok in H as (oj & Hj & H). apply getitem_Ok in Hj.
  apply outcome_bind_Ok in H as (cj & Hcj & H). destruct oj as [cj'|]; [|done].
  injection Hcj as ->.
  apply outcome_bind_Ok in H as (c1 & H1 & H).
  apply setitem_Ok in H1 as [_ ->]. apply setitem_Ok in H as [_ ->].
  by exists ci, cj.
Qed.

Lemma merge_clusters_ok (n : nat) (clusters clusters' : list (option (list nat))) (i j : nat) :
  i <> j -> clusters_ok n clusters ->
  merge_clusters clusters i j = Ok clusters' ->
  clusters_ok n clusters'.
Proof.
  intros Hij (Hlen & Hne & Hflat) Hrun.
  apply merge_clusters_spec in Hrun as (ci & cj & Hi & Hj & ->).
  assert (Hil : i < length clusters) by (by eapply lookup_lt_Some).
  assert (Hjl : j < length clusters) by (by eapply lookup_lt_Some).
  split; [by rewrite !length_insert|]. split.
  - intros r. destruct (decide (r = j)) as [->|Hrj].
    + rewrite list_lookup_insert_eq by (by rewrite length_insert). done.
    + rewrite list_lookup_insert_ne by done.
      destruct (decide (r = i)) as [->|Hri].
      * rewrite list_lookup_insert_eq by done. intros [= E].
        apply app_eq_nil in E as [-> _]. by apply (Hne i).
      * rewrite list_lookup_insert_ne by done. apply Hne.
  - rewrite <- Hflat.
    pose proof (flat_insert clusters i (Some ci) (Some (ci ++ cj)) Hi) as H1.
    pose proof (flat_insert (<[i := Some (ci ++ cj)]> clusters) j (Some cj) None) as H2.
    rewrite list_lookup_insert_ne in H2 by done. specialize (H2 Hj).
    simpl in H1, H2. rewrite <- app_assoc in H1.
    apply Permutation_app_inv_l in H1.
    apply (Permutation_app_inv_l cj). by rewrite <- H2, H1.
Qed.

Lemma flat_singletons (l : list nat) : flat ((fun i => Some [i]) <$> l) = l.
Proof.
  unfold flat. induction l as [|x l IH]; [done|]. cbn in *. by f_equal.
Qed.

(** The clusters [reduce] starts from. *)
Lemma singletons_ok (n : nat) : clusters_ok n ((fun i => Some [i]) <$> seq 0 n).
Proof.
  split; [by rewrite length_fmap, length_seq|]. split.
  - intros r. rewrite list_lookup_fmap.
    destruct (seq 0 n !! r); simpl; congruence.
  - by rewrite flat_singletons.
Qed.

(** *** What the loop pops *)

Section Popped.
Context {Point : Type}.

Lemma popped_spec (n : nat) (heap : list (@node (Point * Point))) (d : Q) (p i j : nat) :
  popped (lookup_table n) heap = Ok (d, p, i, j) ->
  i < j < n /\ p = _index j i /\ exists u, heap !! 0 = Some (d, p, u).
Proof.
  unfold popped. intros H.
  apply outcome_bind_Ok in H as ([[d0 p0] u] & H0 & H). apply getitem_Ok in H0.
  apply outcome_bind_Ok in H as ([r s] & Hl & H). apply getitem_Ok in Hl.
  apply lookup_table_lookup in Hl as [Hrs ->].
  destruct (decide (s < r)); [|lia].
  injection H as <- <- <- <-. split; [lia|]. split; [done|]. by exists u.
Qed.

End Popped.

(** *** Merge criteria that keep a partition *)

Lemma no_criterion_sound (n : nat) : criterion_sound no_criterion n (fun _ => True).
Proof. split; intros []. Qed.

Lemma flat_Some (p : list (list nat)) : flat (Some <$> p) = concat p.
Proof.
  unfold flat. rewrite <- list_fmap_compose. f_equal.
  rewrite <- (list_fmap_id p) at 2. by apply list_fmap_ext.
Qed.

Lemma dunn_sound (n : nat) :
  criterion_sound DunnMergeCriterion.criterion n (dunn_keeps_partition n).
Proof.
  split.
  - intros c clusters i j d b c' Hc (_ & _ & Hflat).
    change DunnMergeCriterion.state in c, c'.
    cbn [mc_save_and_merge DunnMergeCriterion.criterion].
    unfold DunnMergeCriterion.save_and_merge.
    set (c1 := if _ : bool then _ else c). intros Hrun.
    assert (H1 : dunn_keeps_partition n c1).
    { subst c1. destruct (match DunnMergeCriterion._best_dunn c with
                          | Some b0 => _ | None => true end); [|done].
      intros p [= <-]. fold (live_lists clusters). by rewrite live_lists_concat. }
    clearbody c1.
    destruct (match DunnMergeCriterion._merge_limit c1 with
              | Some limit => _ | None => false end).
    { by injection Hrun as <- <-. }
    repeat match type of Hrun with
           | (mbind _ ?m = Ok _) =>
               let E := fresh "E" in destruct m eqn:E; simpl in Hrun; [|discriminate..]
           end.
    injection Hrun as <- <-. exact H1.
  - intros c result Hc. simpl. unfold DunnMergeCriterion.best.
    destruct (DunnMergeCriterion._best_partition c) as [p|] eqn:E; [|done].
    rewrite flat_Some. by apply Hc.
Qed.

Section AgglomeratePartial.
Context {Point : Type}.

Lemma consult_spec (C : MergeCriterion) (n : nat) (P : mc_state C -> Prop)
    (criterion criterion' : option (mc_state C)) clusters (i j : nat) (d : Q) (b : bool) :
  criterion_sound C n P ->
  (forall c, criterion = Some c -> P c) -> clusters_ok n clusters ->
  consult C criterion clusters i j d = Ok (b, criterion') ->
  (forall c, criterion' = Some c -> P c) /\
  (criterion = None -> criterion' = None /\ b = true).
Proof.
  intros Hsound HP Hok. unfold consult. destruct criterion as [c|].
  - intros H. apply outcome_bind_Ok in H as ([b0 c'] & Hrun & H).
    injection H as <- <-. split; [|done].
    intros c0 [= <-]. eapply (sound_step _ _ _ Hsound); eauto.
  - intros [= <- <-]. done.
Qed.

Lemma reduce_body_partial (C : MergeCriterion) (n : nat) (P : mc_state C -> Prop)
    (st st' : @reduce_state Point (mc_state C)) (b : bool) :
  criterion_sound C n P ->
  partial_inv C n P st ->
  reduce_body C n (lookup_table n) st = Ok (b, st') ->
  partial_inv C n P st'.
Proof.
  intros Hsound (Hok & Hdom & HP). unfold reduce_body. intros H.
  apply outcome_bind_Ok in H as ([[[d p] i] j] & Hpop & H).
  apply popped_spec in Hpop as (Hij & _ & _).
  apply outcome_bind_Ok in H as ([go_on crit] & Hcons & H).
  destruct (consult_spec C n P _ _ _ _ _ _ _ Hsound HP Hok Hcons) as [HP' _].
  destruct go_on; cbn [negb] in H.
  - apply outcome_bind_Ok in H as ([heap wh] & _ & H).
    apply outcome_bind_Ok in H as (dominant & Hd & H).
    apply outcome_bind_Ok in H as (clusters & Hc & H).
    injection H as <- <-. rewrite Hdom in Hd. injection Hd as <-.
    split; [|done]. simpl. eapply merge_clusters_ok; [|exact Hok|exact Hc]. lia.
  - injection H as <- <-. done.
Qed.

Lemma reduce_loop_partial (fuel : nat) (C : MergeCriterion) (n : nat) (target : Z)
    (P : mc_state C -> Prop) :
  criterion_sound C n P ->
  forall st st' : @reduce_state Point (mc_state C),
  partial_inv C n P st ->
  reduce_loop fuel C n (lookup_table n) target st = Ok st' ->
  partial_inv C n P st'.
Proof.
  intros Hsound. induction fuel as [|fuel IH]; intros st st' Hinv H; cbn [reduce_loop] in H.
  - destruct (decide _); [done|]. by injection H as <-.
  - destruct (decide _); [|by injection H as <-].
    destruct (reduce_body C n (lookup_table n) st) as [[[|] st1]| |] eqn:Hbody; try done.
    + eapply IH; [|exact H]. by eapply reduce_body_partial.
    + injection H as <-. by eapply reduce_body_partial.
Qed.

Lemma concat_sorted (l : list (list nat)) : concat (sorted <$> l) ≡ₚ concat l.
Proof.
  induction l as [|c l IH]; [done|]. simpl. by rewrite sorted_perm, IH.
Qed.

Lemma sorted_result_clusters (cs : list (option (list nat))) :
  exists res, sorted_result (PyClusters cs) = Ok res /\
    concat res ≡ₚ flat cs /\ Forall (fun c => c <> []) res /\
    length res = length (live_lists cs).
Proof.
  eexists. split; [reflexivity|]. fold (live_lists cs). split; [|split].
  - rewrite sorted_by_perm, concat_sorted. by rewrite live_lists_concat.
  - rewrite sorted_by_perm. apply Forall_fmap.
    eapply Forall_impl; [apply live_lists_nonempty|].
    intros c Hc E. simpl in E. apply Hc.
    apply Permutation_nil. rewrite <- E. apply sorted_perm.
  - by rewrite sorted_by_perm, length_fmap.
Qed.

Lemma collect_Forall2 {A B} (f : A -> outcome B) (l : list A) (l' : list B) :
  DunnMergeCriterion.collect f l = Ok l' -> Forall2 (fun x y => f x = Ok y) l l'.
Proof.
  revert l'. induction l as [|x l IH]; intros l' H; simpl in H.
  - injection H as <-. constructor.
  - apply outcome_bind_Ok in H as (y & Hy & H).
    apply outcome_bind_Ok in H as (ys & Hys & H). injection H as <-.
    constructor; [done | by apply IH].
Qed.

Lemma render_spec (points : list Point) (m : mode) (cs : list (list nat)) (out : output) :
  concat cs ≡ₚ seq 0 (length points) ->
  render points m (length points) cs = Ok out ->
  renders points m cs out.
Proof.
  intros Hperm. unfold render, renders. destruct m; try done.
  - intros H. apply outcome_bind_Ok in H as (pcs & Hpcs & H). injection H as <-.
    apply collect_Forall2 in Hpcs.
    eapply Forall2_impl; [exact Hpcs|]. intros c pc Hc. simpl in Hc.
    apply collect_Forall2 in Hc.
    eapply Forall2_impl; [exact Hc|]. intros i x Hi. by apply getitem_Ok.
  - intros H. apply outcome_bind_Ok in H as (comps & Hcomps & H). injection H as <-.
    destruct (components_spec cs (length points) Hperm) as (comps' & Hrun & Hlen & Hin).
    rewrite Hrun in Hcomps. injection Hcomps as <-. done.
Qed.

(** Whenever [reduce] returns in mode [clusters] or [components], with a
    sound criterion or none, its result presents a partition of the point
    indices. *)
Lemma reduce_run_partition (points : list Point) (m : mode) (C : MergeCriterion)
    (criterion : option (mc_state C)) (target : Z) (matrix : list Q)
    (P : mc_state C -> Prop) (out : output) :
  criterion_sound C (length points) P ->
  (forall c, criterion = Some c -> P c) ->
  reduce_run points m C criterion target matrix = Ok out ->
  exists cs, partitions (length points) cs /\ renders points m cs out.
Proof.
  intros Hsound HP. unfold reduce_run. intros H.
  apply outcome_bind_Ok in H as (pairs & _ & H).
  apply outcome_bind_Ok in H as ([heap wh] & _ & H).
  apply outcome_bind_Ok in H as (dominant & Hdom & H).
  apply outcome_bind_Ok in H as (st & Hloop & H).
  apply outcome_bind_Ok in H as (res & Hres & H).
  assert (Hd : dominant = None /\ (m = mode_clusters \/ m = mode_components)).
  { destruct m; cbn [initial_dominant render] in *; try done.
    - injection Hdom as <-. auto.
    - injection Hdom as <-. auto. }
  destruct Hd as [-> Hm].
  apply (reduce_loop_partial _ C (length points) target P Hsound) in Hloop.
  2: { split; [|done]. apply singletons_ok. }
  destruct Hloop as (Hok & Hdom' & HP').
  assert (Hflat : exists cs, final_result C st = PyClusters cs /\ flat cs ≡ₚ seq 0 (length points)).
  { unfold final_result in *. rewrite Hdom' in *.
    destruct (r_criterion st) as [c|] eqn:Ec.
    - pose proof (sound_best _ _ _ Hsound c (PyClusters (r_clusters st)) (HP' c eq_refl)) as Hb.
      destruct (mc_best C c (PyClusters (r_clusters st))) as [|cs|ds]; [done| |done].
      by exists cs.
    - exists (r_clusters st). split; [done|]. apply Hok. }
  destruct Hflat as (cs & Hfinal & Hflat). rewrite Hfinal in Hres.
  destruct (sorted_result_clusters cs) as (res' & Hres' & Hconcat & Hne & _).
  rewrite Hres' in Hres. injection Hres as <-.
  exists res'. split.
  - split; [by rewrite Hconcat|done].
  - apply render_spec; [by rewrite Hconcat | done].
Qed.

End AgglomeratePartial.

(** *** The pairs kept in the heap *)

Lemma pair_id_comm (x r : nat) : pair_id x r = pair_id r x.
Proof.
  unfold pair_id. repeat case_decide; try done; try lia.
  by replace x with r by lia.
Qed.

Lemma pair_id_inj (x r x' r' : nat) :
  x <> r -> x' <> r' -> pair_id x r = pair_id x' r' ->
  (x = x' /\ r = r') \/ (x = r' /\ r = x').
Proof.
  unfold pair_id. intros Hx Hx' E.
  repeat case_decide; apply index_inj in E; lia.
Qed.

Lemma pair_id_lookup (n x r : nat) :
  x <> r -> x < n -> r < n -> pair_id x r < _index n 0.
Proof.
  intros Hxr Hx Hr. rewrite <- lookup_table_length.
  unfold pair_id. case_decide.
  - eapply lookup_lt_Some. apply (lookup_table_lookup n _ x r). split; [lia|done].
  - eapply lookup_lt_Some. apply (lookup_table_lookup n _ r x). split; [lia|done].
Qed.

Lemma live_lt (clusters : list (option (list nat))) (r : nat) :
  live clusters r -> r < length clusters.
Proof.
  unfold live. intros H. apply lookup_lt_is_Some.
  destruct (clusters !! r); [by eexists | done].
Qed.

Lemma live_lookup (clusters : list (option (list nat))) (r : nat) :
  live clusters r <-> exists x l, clusters !! r = Some (Some (x :: l)).
Proof.
  unfold live. split.
  - destruct (clusters !! r) as [[[|x l]|]|]; try done. by exists x, l.
  - by intros (x & l & ->).
Qed.

Lemma fmap_filter_ext {A B} (P Q : A -> Prop)
    `{forall x, Decision (P x)} `{forall x, Decision (Q x)} (f g : A -> B) (l : list A) :
  (forall x, x ∈ l -> (P x <-> Q x) /\ f x = g x) ->
  f <$> filter P l = g <$> filter Q l.
Proof.
  induction l as [|a l IH]; intros Hl; [done|].
  destruct (Hl a) as [HPQ Hfg]; [by left|].
  rewrite !filter_cons.
  assert (IH' : f <$> filter P l = g <$> filter Q l).
  { apply IH. intros x Hx. apply Hl. by right. }
  destruct (decide (P a)) as [HP|HP], (decide (Q a)) as [HQ|HQ]; try tauto.
  cbn. by rewrite Hfg, IH'.
Qed.

Lemma zip_fmap_same {A B C} (f : A -> B) (g : A -> C) (l : list A) :
  zip (f <$> l) (g <$> l) = (fun x => (f x, g x)) <$> l.
Proof. induction l as [|x l IH]; [done|]. cbn. by f_equal. Qed.

Section Unmerged.
Context {Point : Type}.

Lemma unmerged_pairs_others (clusters : list (option (list nat))) (i j n : nat) :
  i < n ->
  @unmerged_pairs clusters i j n = pair_id i <$> others clusters i j n.
Proof.
  intros Hi. unfold unmerged_pairs, others.
  replace n with (i + (1 + (n - (i + 1)))) at 2 by lia.
  rewrite !seq_app, !filter_app, !fmap_app. cbn [seq Nat.add].
  rewrite (filter_cons_False _ i) by tauto. rewrite filter_nil. cbn [fmap list_fmap app].
  replace (i + 1) with (S i) by lia. f_equal.
  - apply fmap_filter_ext. intros r Hr. apply elem_of_seq in Hr. fold (live clusters r).
    split; [intuition lia|]. unfold pair_id. by rewrite decide_True by lia.
  - apply fmap_filter_ext. intros r Hr. apply elem_of_seq in Hr. fold (live clusters r).
    split; [intuition lia|]. unfold pair_id. by rewrite decide_False by lia.
Qed.

Lemma others_comm (clusters : list (option (list nat))) (i j n : nat) :
  others clusters i j n = others clusters j i n.
Proof. unfold others. apply list_filter_iff. tauto. Qed.

Lemma elem_of_others (clusters : list (option (list nat))) (i j n r : nat) :
  r ∈ others clusters i j n <-> r <> i /\ r <> j /\ live clusters r /\ r < n.
Proof.
  unfold others. rewrite list_elem_of_filter, elem_of_seq. intuition lia.
Qed.

Lemma NoDup_others (clusters : list (option (list nat))) (i j n : nat) :
  NoDup (others clusters i j n).
Proof. apply NoDup_filter, NoDup_seq. Qed.

(** The pairs the inner loop of a merge runs over. *)
Lemma merge_pairs (clusters : list (option (list nat))) (i j n : nat) :
  i < n -> j < n ->
  zip (@unmerged_pairs clusters i j n) (@unmerged_pairs clusters j i n)
  = (fun r => (pair_id i r, pair_id j r)) <$> others clusters i j n.
Proof.
  intros Hi Hj. rewrite !unmerged_pairs_others by done.
  rewrite (others_comm clusters j i). apply zip_fmap_same.
Qed.

End Unmerged.

(** *** The heap during a merge *)

Section MergeHeap.
Context {Point : Type}.
Implicit Types (heap : list (@node (Point * Point))) (wh : list nat).
Implicit Types (clusters : list (option (list nat))).

Lemma where_ok_NoDup heap wh : where_ok heap wh -> NoDup (pid <$> heap).
Proof.
  intros Hok. apply NoDup_alt. intros s t p.
  rewrite !list_lookup_fmap.
  destruct (heap !! s) as [a|] eqn:Ea; [|done].
  destruct (heap !! t) as [b|] eqn:Eb; [|done].
  intros [= <-] [= E]. pose proof (Hok _ _ Ea) as Ha. pose proof (Hok _ _ Eb) as Hb.
  rewrite E in Hb. congruence.
Qed.

Lemma where_ok_slot heap wh (p : nat) :
  where_ok heap wh -> p ∈ pid <$> heap ->
  exists s d u, wh !! p = Some s /\ heap !! s = Some (d, p, u).
Proof.
  intros Hok Hp. apply list_elem_of_fmap in Hp as ([[d p'] u] & -> & Ha).
  apply list_elem_of_lookup in Ha as [s Hs].
  exists s, d, u. split; [exact (Hok _ _ Hs) | done].
Qed.

Lemma removed_pids heap heap' wh (a : @node (Point * Point)) :
  where_ok heap wh -> a :: heap' ≡ₚ heap ->
  S (length heap') = length heap /\
  forall p, p ∈ pid <$> heap' <-> p ∈ pid <$> heap /\ p <> pid a.
Proof.
  intros Hok Hperm. split; [by apply Permutation_length in Hperm|].
  apply where_ok_NoDup in Hok. rewrite <- Hperm in Hok.
  rewrite fmap_cons in Hok. apply NoDup_cons in Hok as [Hnot _].
  intros p. rewrite <- Hperm, fmap_cons, elem_of_cons. split.
  - intros Hp. split; [by right|]. by intros ->.
  - intros [[->|Hp] Hne]; done.
Qed.

Lemma updated_pids heap heap' (s : nat) (xp old : @node (Point * Point)) :
  heap !! s = Some old -> pid xp = pid old -> heap' ≡ₚ <[s := xp]> heap ->
  length heap' = length heap /\ forall p, p ∈ pid <$> heap' <-> p ∈ pid <$> heap.
Proof.
  intros Hold Hpid Hperm. split; [apply Permutation_length in Hperm; by rewrite length_insert in Hperm|].
  intros p. rewrite Hperm, list_fmap_insert, Hpid.
  rewrite list_insert_id; [done|]. by rewrite list_lookup_fmap, Hold.
Qed.

Lemma merge_distances_spec clusters (i j r : nat) (done : list nat) heap wh :
  i <> j -> live clusters i -> live clusters j ->
  live clusters r -> r <> i -> r <> j -> r ∉ done ->
  merging clusters i j done heap wh ->
  exists heap' wh',
    merge_distances (heap, wh) (pair_id i r, pair_id j r) = Ok (heap', wh') /\
    merging clusters i j (r :: done) heap' wh' /\
    length heap' < length heap.
Proof.
  intros Hij Hi Hj Hr Hri Hrj Hdone (Hok & Hjd & Hp).
  assert (Hb : pair_id j r ∈ pid <$> heap).
  { apply Hp. split; [by exists j, r|]. split.
    - intros E. apply pair_id_inj in E; [lia|done..].
    - intros r' Hr' E. apply pair_id_inj in E; [|done|by intros ->].
      destruct E as [[_ ->]|[-> _]]; done. }
  destruct (where_ok_slot _ _ _ Hok Hb) as (t & y & u & Hwt & Hht).
  unfold merge_distances.
  rewrite (proj2 (getitem_Ok wh _ t) Hwt), outcome_bind_ret.
  rewrite (proj2 (getitem_Ok heap t _) Hht), outcome_bind_ret. cbv beta iota.
  rewrite outcome_bind_ret.
  destruct (remove_spec t heap wh _ Hok Hht) as (heap1 & wh1 & Hrem & Hperm1 & _ & Hok1 & _).
  rewrite Hrem, outcome_bind_ret. cbv beta iota.
  destruct (removed_pids _ _ _ _ Hok Hperm1) as [Hlen1 Hp1]. cbn [pid fst snd] in Hp1.
  assert (Ha : pair_id i r ∈ pid <$> heap1).
  { apply Hp1. split.
    - apply Hp. split; [by exists i, r|]. split.
      + intros E. rewrite (pair_id_comm j i) in E. apply pair_id_inj in E; [lia|done..].
      + intros r' Hr' E. apply pair_id_inj in E; [|done|by intros ->].
        destruct E as [[-> _]|[_ ->]]; done.
    - intros E. apply pair_id_inj in E; [lia|done..]. }
  destruct (where_ok_slot _ _ _ Hok1 Ha) as (ta & x & u' & Hwa & Hha).
  rewrite (proj2 (getitem_Ok wh1 _ ta) Hwa), outcome_bind_ret.
  rewrite (proj2 (getitem_Ok heap1 ta _) Hha), outcome_bind_ret. cbv beta iota.
  assert (Hrest : forall heap2 wh2,
            where_ok heap2 wh2 ->
            (forall p, p ∈ pid <$> heap2 <-> p ∈ pid <$> heap1) ->
            merging clusters i j (r :: done) heap2 wh2).
  { intros heap2 wh2 Hok2 Hp2. split; [done|]. split.
    - apply not_elem_of_cons. split; [done|done].
    - intros p. rewrite Hp2, Hp1, Hp. split.
      + intros [(Hl & Hne & Hd) Hpr]. split; [done|]. split; [done|].
        intros r' [->|Hr']%elem_of_cons; [done | by apply Hd].
      + intros (Hl & Hne & Hd). split; [|apply Hd; by left].
        split; [done|]. split; [done|]. intros r' Hr'. apply Hd. by right. }
  destruct (Qltb y x) eqn:Eyx.
  - rewrite outcome_bind_ret.
    destruct (update_spec ta (y, pair_id i r, u) heap1 wh1 _ Hok1 Hha)
      as (heap2 & wh2 & Hupd & Hperm2 & _ & Hok2 & _).
    { done. }
    { unfold node_ne, node_compare. cbn [dist pid fst snd].
      unfold Qltb in Eyx. by destruct (y ?= x)%Q. }
    exists heap2, wh2. split; [done|].
    destruct (updated_pids heap1 heap2 ta (y, pair_id i r, u) _ Hha eq_refl Hperm2)
      as [Hlen2 Hp2].
    split; [by apply Hrest | lia].
  - exists heap1, wh1. split; [done|]. split; [by apply Hrest | lia].
Qed.

Lemma merge_loop_spec clusters (i j : nat) :
  i <> j -> live clusters i -> live clusters j ->
  forall (todo done : list nat) heap wh,
  NoDup todo ->
  (forall r, r ∈ todo -> live clusters r /\ r <> i /\ r <> j /\ r ∉ done) ->
  merging clusters i j done heap wh ->
  exists heap' wh',
    for_each ((fun r => (pair_id i r, pair_id j r)) <$> todo) merge_distances (heap, wh)
      = Ok (heap', wh') /\
    merging clusters i j (reverse todo ++ done) heap' wh' /\
    length heap' <= length heap.
Proof.
  intros Hij Hi Hj. induction todo as [|r todo IH]; intros done heap wh Hnd Htodo Hm.
  - exists heap, wh. split; [done|]. split; [exact Hm | done].
  - apply NoDup_cons in Hnd as [Hr Hnd].
    destruct (Htodo r) as (Hlr & Hri & Hrj & Hrd); [by left|].
    destruct (merge_distances_spec clusters i j r done heap wh)
      as (heap1 & wh1 & Hrun1 & Hm1 & Hlen1); try done.
    cbn [fmap list_fmap for_each]. rewrite Hrun1, outcome_bind_ret.
    destruct (IH (r :: done) heap1 wh1) as (heap' & wh' & Hrun & Hm' & Hlen); try done.
    { intros r' Hr'. destruct (Htodo r') as (? & ? & ? & ?); [by right|].
      repeat split; try done. apply not_elem_of_cons. split; [|done]. by intros ->. }
    exists heap', wh'. split; [done|]. split; [|lia].
    rewrite reverse_cons. by rewrite <- app_assoc.
Qed.

End MergeHeap.

(** *** One merge, with no criterion *)

Lemma live_lists_cons (c : option (list nat)) (clusters : list (option (list nat))) :
  length (live_lists (c :: clusters))
  = (if truthy c then 1 else 0) + length (live_lists clusters).
Proof. unfold live_lists. cbn. by destruct c as [[|x l]|]. Qed.

Lemma live_lists_insert (clusters : list (option (list nat))) (i : nat)
    (old new : option (list nat)) :
  clusters !! i = Some old ->
  (if truthy old then 1 else 0) + length (live_lists (<[i := new]> clusters))
  = (if truthy new then 1 else 0) + length (live_lists clusters).
Proof.
  intros Hi. rewrite <- !live_lists_cons.
  apply Permutation_length. unfold live_lists. apply omap_Permutation.
  symmetry. by apply insert_swap_out.
Qed.

Lemma live_lists_one (clusters : list (option (list nat))) :
  1 <= length (live_lists clusters) -> exists r, live clusters r.
Proof.
  induction clusters as [|c clusters IH]; [cbn; lia|].
  rewrite live_lists_cons. destruct (truthy c) eqn:Ec.
  - intros _. by exists 0.
  - intros H. destruct (IH H) as [r Hr]. by exists (S r).
Qed.

Lemma live_lists_two (clusters : list (option (list nat))) :
  2 <= length (live_lists clusters) ->
  exists r s, r <> s /\ live clusters r /\ live clusters s.
Proof.
  induction clusters as [|c clusters IH]; [cbn; lia|].
  rewrite live_lists_cons. destruct (truthy c) eqn:Ec.
  - intros H. destruct (live_lists_one clusters) as [s Hs]; [lia|].
    exists 0, (S s). by repeat split.
  - intros H. destruct (IH H) as (r & s & Hrs & Hr & Hs).
    exists (S r), (S s). repeat split; [lia|done..].
Qed.

Lemma live_lists_singletons (l : list nat) :
  live_lists ((fun i => Some [i]) <$> l) = (fun i => [i]) <$> l.
Proof. unfold live_lists. induction l as [|x l IH]; [done|]. cbn in *. by f_equal. Qed.

Lemma merge_clusters_total (clusters : list (option (list nat))) (i j : nat)
    (ci cj : list nat) :
  clusters !! i = Some (Some ci) -> clusters !! j = Some (Some cj) ->
  merge_clusters clusters i j = Ok (<[j := None]> (<[i := Some (ci ++ cj)]> clusters)).
Proof.
  intros Hi Hj. unfold merge_clusters.
  rewrite (proj2 (getitem_Ok clusters i _) Hi), !outcome_bind_ret.
  rewrite (proj2 (getitem_Ok clusters j _) Hj), !outcome_bind_ret.
  rewrite setitem_lt by (by eapply lookup_lt_Some). rewrite outcome_bind_ret.
  apply setitem_lt. rewrite length_insert. by eapply lookup_lt_Some.
Qed.

Lemma live_merged (clusters : list (option (list nat))) (i j r x : nat) (l cj : list nat) :
  i <> j -> clusters !! i = Some (Some (x :: l)) -> j < length clusters ->
  live (<[j := None]> (<[i := Some ((x :: l) ++ cj)]> clusters)) r
  <-> live clusters r /\ r <> j.
Proof.
  intros Hij Hi Hj. unfold live.
  destruct (decide (r = j)) as [->|Hrj].
  - rewrite list_lookup_insert_eq by (by rewrite length_insert). cbn.
    split; [done|]. by intros [_ ?].
  - rewrite list_lookup_insert_ne by done.
    destruct (decide (r = i)) as [->|Hri].
    + rewrite list_lookup_insert_eq by (by eapply lookup_lt_Some). rewrite Hi. cbn. intuition.
    + rewrite list_lookup_insert_ne by done. intuition.
Qed.

Section ReduceTotal.
Context {Point : Type}.
Implicit Types (heap : list (@node (Point * Point))) (wh : list nat).
Implicit Types (clusters : list (option (list nat))).

Lemma merge_heap_spec clusters (n i j x : nat) (l cj : list nat) heap wh :
  length clusters = n -> i <> j ->
  clusters !! i = Some (Some (x :: l)) -> live clusters j ->
  heap_tracks clusters heap wh ->
  exists heap' wh',
    merge_heap clusters n i j (pair_id j i) heap wh = Ok (heap', wh') /\
    heap_tracks (<[j := None]> (<[i := Some ((x :: l) ++ cj)]> clusters)) heap' wh' /\
    length heap' < length heap.
Proof.
  intros Hn Hij Hci Hj [Hok Hp].
  assert (Hi : live clusters i) by (apply live_lookup; eauto).
  assert (Hin : i < n) by (rewrite <- Hn; by apply live_lt).
  assert (Hjn : j < n) by (rewrite <- Hn; by apply live_lt).
  assert (Hpop : pair_id j i ∈ pid <$> heap) by (apply Hp; by exists j, i).
  destruct (where_ok_slot _ _ _ Hok Hpop) as (t & d & u & Hwt & Hht).
  unfold merge_heap.
  rewrite (proj2 (getitem_Ok wh _ t) Hwt), outcome_bind_ret.
  destruct (remove_spec t heap wh _ Hok Hht) as (heap1 & wh1 & Hrem & Hperm1 & _ & Hok1 & _).
  rewrite Hrem, outcome_bind_ret. cbv beta iota.
  destruct (removed_pids _ _ _ _ Hok Hperm1) as [Hlen1 Hp1]. cbn [pid fst snd] in Hp1.
  rewrite merge_pairs by done.
  destruct (merge_loop_spec clusters i j Hij Hi Hj (others clusters i j n) [] heap1 wh1)
    as (heap' & wh' & Hrun & (Hok' & _ & Hp') & Hlen').
  { apply NoDup_others. }
  { intros r Hr. apply elem_of_others in Hr as (? & ? & ? & ?).
    repeat split; try done. apply not_elem_of_nil. }
  { split; [done|]. split; [apply not_elem_of_nil|].
    intros p. rewrite Hp1, Hp. split.
    - intros [Hl Hne]. split; [done|]. split; [done|]. intros r Hr. by apply elem_of_nil in Hr.
    - intros (Hl & Hne & _). done. }
  exists heap', wh'. split; [done|]. split; [|lia]. split; [done|].
  intros p. rewrite Hp'. rewrite app_nil_r.
  assert (Hlive : forall r, live (<[j := None]> (<[i := Some ((x :: l) ++ cj)]> clusters)) r
                            <-> live clusters r /\ r <> j).
  { intros r. apply live_merged; [done..|]. by rewrite Hn. }
  split.
  - intros ((a & b & Hab & Ha & Hb & ->) & Hne & Hd).
    assert (Hothers : forall r, r <> j -> live clusters r -> pair_id a b <> pair_id j r).
    { intros r Hrj Hr. destruct (decide (r = i)) as [->|Hri]; [done|].
      apply Hd. apply elem_of_reverse, elem_of_others.
      repeat split; try done. rewrite <- Hn. by apply live_lt. }
    exists a, b. split; [done|]. rewrite !Hlive. repeat split; try done.
    + intros ->. by apply (Hothers b).
    + intros ->. rewrite pair_id_comm in Hothers. by apply (Hothers a).
  - intros (a & b & Hab & Ha & Hb & ->). apply Hlive in Ha as [Ha Haj], Hb as [Hb Hbj].
    split; [by exists a, b|]. split.
    + intros E. apply pair_id_inj in E; [lia|done..].
    + intros r Hr E. apply elem_of_reverse, elem_of_others in Hr as (_ & Hrj & _).
      apply pair_id_inj in E; [lia|done|lia].
Qed.

Lemma reduce_body_total (n : nat) (st : @reduce_state Point (mc_state no_criterion)) :
  total_inv n st -> 0 < length (r_heap st) ->
  exists st',
    reduce_body no_criterion n (lookup_table n) st = Ok (true, st') /\
    total_inv n st' /\ length (r_heap st') < length (r_heap st) /\
    r_n_clusters st' = (r_n_clusters st - 1)%Z.
Proof.
  intros (Hcl & Hdom & Hcrit & Htr & Hnc) Hlen.
  destruct (lookup_lt_is_Some_2 (r_heap st) 0 Hlen) as [[[d p] u] Hroot].
  assert (Hp : live_pair (r_clusters st) p).
  { apply Htr. apply list_elem_of_fmap. exists (d, p, u).
    split; [done | by eapply list_elem_of_lookup_2]. }
  assert (Hij : exists i j, i < j /\ live (r_clusters st) i /\ live (r_clusters st) j /\
                            p = pair_id j i).
  { destruct Hp as (a & b & Hab & Ha & Hb & ->).
    destruct (decide (a < b)).
    - exists a, b. by rewrite (pair_id_comm b a).
    - exists b, a. repeat split; try done. lia. }
  destruct Hij as (i & j & Hlt & Hi & Hj & ->).
  pose proof Hcl as (Hn & Hne & Hflat).
  assert (Hjn : j < n) by (rewrite <- Hn; by apply live_lt).
  pose proof (proj1 (live_lookup _ _) Hi) as (x & l & Hci).
  pose proof (proj1 (live_lookup _ _) Hj) as (y & l' & Hcj).
  unfold reduce_body, popped.
  rewrite (proj2 (getitem_Ok (r_heap st) 0 _) Hroot), outcome_bind_ret. cbv beta iota.
  assert (Hlook : lookup_table n !! pair_id j i = Some (j, i)).
  { apply lookup_table_lookup. split; [lia|]. unfold pair_id. by rewrite decide_True by lia. }
  rewrite (proj2 (getitem_Ok (lookup_table n) _ _) Hlook), outcome_bind_ret. cbv beta iota.
  rewrite decide_True by done. rewrite outcome_bind_ret. cbv beta iota.
  rewrite Hcrit. cbn [consult]. rewrite outcome_bind_ret. cbv beta iota. cbn [negb].
  destruct (merge_heap_spec (r_clusters st) n i j x l (y :: l') (r_heap st) (r_where st))
    as (heap' & wh' & Hrun & Htr' & Hlen'); try done; [lia|].
  rewrite Hrun, outcome_bind_ret. cbv beta iota.
  rewrite Hdom. cbn [merge_dominant]. rewrite outcome_bind_ret.
  rewrite (merge_clusters_total _ i j _ _ Hci Hcj), outcome_bind_ret.
  eexists. split; [reflexivity|]. cbn [r_clusters r_heap r_where r_dominant r_n_clusters r_criterion].
  split; [|done]. split; [|split; [done|split; [done|split; [done|]]]].
  - eapply merge_clusters_ok; [|exact Hcl|by apply merge_clusters_total]. lia.
  - pose proof (live_lists_insert (r_clusters st) i _ (Some ((x :: l) ++ y :: l')) Hci) as H1.
    pose proof (live_lists_insert (<[i := Some ((x :: l) ++ y :: l')]> (r_clusters st)) j
                  (Some (y :: l')) None) as H2.
    rewrite list_lookup_insert_ne in H2 by lia. specialize (H2 Hcj).
    cbn [r_n_clusters r_clusters truthy app] in H1, H2 |- *. lia.
Qed.

Lemma reduce_loop_total (n : nat) (target : Z) :
  forall (fuel : nat) (st : @reduce_state Point (mc_state no_criterion)),
  total_inv n st -> length (r_heap st) < fuel ->
  (1 <= target <= r_n_clusters st)%Z ->
  exists st',
    reduce_loop fuel no_criterion n (lookup_table n) target st = Ok st' /\
    total_inv n st' /\ r_n_clusters st' = target.
Proof.
  induction fuel as [|fuel IH]; intros st Hinv Hfuel Htarget; [lia|].
  cbn [reduce_loop]. destruct (decide _) as [[Hlen Hgt]|Hstop].
  - destruct (reduce_body_total n st Hinv Hlen) as (st1 & Hbody & Hinv1 & Hlen1 & Hn1).
    rewrite Hbody. apply IH; [done|lia|lia].
  - exists st. split; [done|]. split; [done|].
    destruct (decide (target < r_n_clusters st)%Z) as [Hgt|]; [|lia].
    assert (Hempty : length (r_heap st) = 0) by lia.
    destruct Hinv as (_ & _ & _ & [_ Hp] & Hnc).
    destruct (live_lists_two (r_clusters st)) as (r & s & Hrs & Hr & Hs); [lia|].
    assert (Hin : pair_id r s ∈ pid <$> r_heap st) by (apply Hp; by exists r, s).
    apply length_zero_iff_nil in Hempty. rewrite Hempty in Hin. by apply elem_of_nil in Hin.
Qed.

End ReduceTotal.

(** *** The whole of [reduce] for a fixed number of clusters *)

Lemma collect_total {A B} (f : A -> outcome B) (l : list A) :
  (forall x, x ∈ l -> exists y, f x = Ok y) ->
  exists l', DunnMergeCriterion.collect f l = Ok l' /\ length l' = length l.
Proof.
  induction l as [|x l IH]; intros Hl.
  - by exists [].
  - destruct (Hl x) as [y Hy]; [by left|].
    destruct IH as (l' & Hrun & Hlen); [intros z Hz; apply Hl; by right|].
    exists (y :: l'). cbn [DunnMergeCriterion.collect].
    rewrite Hy, outcome_bind_ret, Hrun, outcome_bind_ret. split; [done|]. cbn. by rewrite Hlen.
Qed.

Lemma elem_of_concat {A} (x : A) (ls : list (list A)) :
  x ∈ concat ls <-> exists l, l ∈ ls /\ x ∈ l.
Proof.
  induction ls as [|l ls IH]; cbn.
  - split; [by intros ?%elem_of_nil | by intros (l & ?%elem_of_nil & _)].
  - rewrite elem_of_app, IH. split.
    + intros [Hx|(l' & Hl' & Hx)]; [exists l; split; [by left|done]|].
      exists l'. split; [by right|done].
    + intros (l' & [->|Hl']%elem_of_cons & Hx); [by left|]. right. by exists l'.
Qed.

Section ReduceRun.
Context {Point : Type}.
Implicit Types (heap : list (@node (Point * Point))) (wh : list nat).

Lemma heapify_from (l : list nat) : forall heap wh,
  where_ok heap wh ->
  exists heap' wh',
    for_each l (fun '(heap, where_) s => shiftdown s heap where_) (heap, wh) = Ok (heap', wh') /\
    heap' ≡ₚ heap /\ where_ok heap' wh'.
Proof.
  induction l as [|s l IH]; intros heap wh Hok.
  - by exists heap, wh.
  - destruct (shiftdown_spec s heap wh Hok) as (heap1 & wh1 & Hrun1 & Hperm1 & _ & Hok1 & _).
    destruct (IH heap1 wh1 Hok1) as (heap' & wh' & Hrun & Hperm & Hok').
    exists heap', wh'. cbn [for_each]. rewrite Hrun1, outcome_bind_ret.
    split; [done|]. split; [by rewrite Hperm | done].
Qed.

Lemma heapify_spec heap wh :
  where_ok heap wh ->
  exists heap' wh', heapify heap wh = Ok (heap', wh') /\ heap' ≡ₚ heap /\ where_ok heap' wh'.
Proof. apply heapify_from. Qed.

Lemma initial_pairs_total (points : list Point) :
  exists pairs, initial_pairs points (length points) = Ok pairs /\
    length pairs = _index (length points) 0.
Proof.
  unfold initial_pairs. rewrite <- lookup_table_length.
  apply collect_total. intros [i j] Hij. apply lookup_table_elem in Hij.
  destruct (getitem_lt points i) as (pi & -> & _); [lia|].
  destruct (getitem_lt points j) as (pj & -> & _); [lia|].
  by eexists.
Qed.

Lemma initial_heap_pids (matrix : list Q) (pairs : list (Point * Point)) :
  length pairs = length matrix ->
  pid <$> initial_heap matrix (seq 0 (length matrix)) pairs = seq 0 (length matrix).
Proof.
  intros Hlen. unfold initial_heap.
  transitivity ((zip (zip matrix (seq 0 (length matrix))) pairs).*1.*2).
  { by rewrite <- list_fmap_compose. }
  rewrite fst_zip by (rewrite length_zip_with, length_seq; lia).
  apply snd_zip. by rewrite length_seq.
Qed.

Lemma initial_heap_where (matrix : list Q) (pairs : list (Point * Point)) :
  length pairs = length matrix ->
  where_ok (initial_heap matrix (seq 0 (length matrix)) pairs) (seq 0 (length matrix)).
Proof.
  intros Hlen s a Hs.
  assert (H : (pid <$> initial_heap matrix (seq 0 (length matrix)) pairs) !! s = Some (pid a))
    by (by rewrite list_lookup_fmap, Hs).
  rewrite initial_heap_pids in H by done.
  apply lookup_seq in H as [-> Hlt]. by apply lookup_seq_lt.
Qed.

Lemma singletons_live (n r : nat) : live ((fun i => Some [i]) <$> seq 0 n) r <-> r < n.
Proof.
  split; [intros H; apply live_lt in H; by rewrite length_fmap, length_seq in H|].
  intros Hr. unfold live. rewrite list_lookup_fmap, lookup_seq_lt by done. done.
Qed.

Lemma singletons_pairs (n p : nat) :
  live_pair ((fun i => Some [i]) <$> seq 0 n) p <-> p < _index n 0.
Proof.
  split.
  - intros (x & r & Hxr & Hx & Hr & ->). apply singletons_live in Hx, Hr.
    by apply pair_id_lookup.
  - intros Hp. rewrite <- lookup_table_length in Hp.
    destruct (lookup_lt_is_Some_2 _ _ Hp) as [[r s] Hrs].
    apply lookup_table_lookup in Hrs as [Hlt ->].
    exists r, s. rewrite !singletons_live. repeat split; try lia.
    unfold pair_id. by rewrite decide_True by lia.
Qed.

Lemma render_total (points : list Point) (m : mode) (cs : list (list nat)) :
  m = mode_clusters \/ m = mode_components ->
  concat cs ≡ₚ seq 0 (length points) ->
  exists out, render points m (length points) cs = Ok out.
Proof.
  intros [-> | ->] Hperm; unfold render.
  - destruct (collect_total (fun c => DunnMergeCriterion.collect (getitem points) c) cs)
      as (pcs & -> & _); [|by eexists].
    intros c Hc.
    destruct (collect_total (getitem points) c) as (pc & Hpc & _); [|by eexists].
    intros i Hi. destruct (getitem_lt points i) as (x & Hx & _); [|by eexists].
    assert (Hin : i ∈ concat cs) by (apply elem_of_concat; eauto).
    rewrite Hperm in Hin. apply elem_of_seq in Hin. lia.
  - destruct (components_spec cs (length points) Hperm) as (comps & -> & _). by eexists.
Qed.

(** With an integer [k] between 1 and the number of points, and a table of
    all the pairwise distances, [reduce] returns [k] clusters that partition
    the point indices. *)
Lemma reduce_run_total (points : list Point) (m : mode) (k : Z) (matrix : list Q) :
  m = mode_clusters \/ m = mode_components ->
  (1 <= k <= Z.of_nat (length points))%Z ->
  length matrix = _index (length points) 0 ->
  exists out cs,
    reduce_run points m no_criterion None k matrix = Ok out /\
    partitions (length points) cs /\ length cs = Z.to_nat k /\
    renders points m cs out.
Proof.
  intros Hm Hk Hlen. unfold reduce_run.
  destruct (initial_pairs_total points) as (pairs & -> & Hpairs).
  rewrite outcome_bind_ret. cbv zeta.
  assert (Hpl : length pairs = length matrix) by lia.
  destruct (heapify_spec _ _ (initial_heap_where matrix pairs Hpl))
    as (heap & wh & -> & Hperm & Hok).
  rewrite outcome_bind_ret. cbv beta iota.
  assert (Hdom : initial_dominant m (length points) = Ok None) by (by destruct Hm as [-> | ->]).
  rewrite Hdom, outcome_bind_ret.
  destruct (reduce_loop_total (length points) k (S (length heap))
              {| r_clusters := (fun i => Some [i]) <$> seq 0 (length points);
                 r_heap := heap; r_where := wh; r_dominant := None;
                 r_n_clusters := Z.of_nat (length points);
                 r_criterion := (None : option (mc_state no_criterion)) |})
    as (st & -> & (Hcl & Hd & Hc & _ & Hnc) & Hn).
  { split; [apply singletons_ok|]. split; [done|]. split; [done|]. split.
    - split; [done|]. intros p. cbn [r_heap r_clusters]. rewrite Hperm, initial_heap_pids by done.
      rewrite singletons_pairs, elem_of_seq. lia.
    - cbn [r_n_clusters r_clusters].
      by rewrite live_lists_singletons, length_fmap, length_seq. }
  { cbn [r_heap]. lia. }
  { cbn [r_n_clusters]. lia. }
  rewrite outcome_bind_ret. unfold final_result. rewrite Hd, Hc.
  destruct (sorted_result_clusters (r_clusters st)) as (res & -> & Hconcat & Hne & Hres).
  rewrite outcome_bind_ret.
  destruct Hcl as (_ & _ & Hflat).
  assert (Hpart : concat res ≡ₚ seq 0 (length points)) by (by rewrite Hconcat).
  destruct (render_total points m res Hm Hpart) as [out Hout].
  exists out, res. split; [done|]. split; [done|]. split; [lia|].
  by apply render_spec.
Qed.

End ReduceRun.

(** C3.  For a list of [n] points, an integer [k] with [1 <= k <= n] and the
    table of all pairwise distances, [agglomerate] in mode [components]
    returns an array of length [n] whose values are exactly the cluster
    numbers [1, ..., k]: each entry is one of them, and each of them
    occurs. *)
Theorem agglomerate_fixed_k `{RM : RandomModule} {Point : Type}
    (points : list Point) (k : Z) (ds : list Q) :
  (1 <= k <= Z.of_nat (length points))%Z ->
  length ds = length points * (length points - 1) / 2 ->
  exists components,
    agglomerate points (KInt k) (Precomputed ds) mode_components
      = Ok (OutComponents components) /\
    length components = length points /\
    forall c, c ∈ components <-> 1 <= c <= Z.to_nat k.
Proof.
  intros Hk Hlen.
  destruct (reduce_run_total points mode_components k ds) as (out & cs & Hrun & Hpart & Hcs & Hout).
  { by right. }
  { done. }
  { rewrite Hlen. unfold _index. by rewrite Nat.add_0_l, Nat.mul_comm. }
  destruct out as [pcs|components]; [done|]. destruct Hout as [Hl Hin].
  destruct Hpart as [Hperm Hne].
  exists components. split; [exact Hrun|]. split; [done|].
  intros c. split.
  - intros Hc. apply list_elem_of_lookup in Hc as [j Hj].
    assert (Hjn : j ∈ concat cs).
    { rewrite Hperm. apply elem_of_seq. apply lookup_lt_Some in Hj. lia. }
    apply elem_of_concat in Hjn as (l & Hl' & Hjl).
    apply list_elem_of_lookup in Hl' as [i Hi].
    rewrite (Hin i l j Hi Hjl) in Hj. injection Hj as <-.
    apply lookup_lt_Some in Hi. lia.
  - intros Hc. destruct (lookup_lt_is_Some_2 cs (c - 1)) as [l Hl']; [lia|].
    rewrite Forall_forall in Hne.
    destruct l as [|j l]; [by destruct (Hne [] (list_elem_of_lookup_2 _ _ _ Hl'))|].
    apply (list_elem_of_lookup_2 _ j).
    replace c with (c - 1 + 1) by lia. apply (Hin (c - 1) (j :: l)); [done | by left].
Qed.

Lemma agglomerate_fixed_k_witness :
  exists components,
    @agglomerate lcg_random Z line_points (KInt 2) (Precomputed (line_matrix line_points))
      mode_components = Ok (OutComponents components) /\
    length components = length line_points /\
    forall c, c ∈ components <-> 1 <= c <= Z.to_nat 2.
Proof.
  apply (@agglomerate_fixed_k lcg_random Z line_points 2 (line_matrix line_points)).
  - cbn. lia.
  - reflexivity.
Defined.

(** ** The partitional engine *)

(** *** Ascending lists of medoids *)

Lemma ascending_NoDup (l : list nat) : ascending l -> NoDup l.
Proof.
  induction 1 as [|x l _ IH Hx]; constructor; [|done].
  intros Hin. rewrite Forall_forall in Hx. specialize (Hx x Hin). lia.
Qed.

Lemma insert_by_le (x : nat) (l : list nat) :
  StronglySorted le l -> StronglySorted le (insert_by (fun y => y) x l).
Proof.
  induction 1 as [|y l Hl IH Hy]; cbn.
  - by repeat constructor.
  - destruct (decide (x <= y)).
    + constructor; [by constructor|]. constructor; [done|].
      eapply Forall_impl; [exact Hy|]. intros z Hz. cbn in Hz. lia.
    + constructor; [done|]. rewrite insert_by_perm. constructor; [lia | done].
Qed.

Lemma sorted_le (l : list nat) : StronglySorted le (sorted l).
Proof.
  unfold sorted, sorted_by. induction l as [|x l IH]; cbn; [constructor|].
  by apply insert_by_le.
Qed.

Lemma le_NoDup_ascending (l : list nat) : StronglySorted le l -> NoDup l -> ascending l.
Proof.
  induction 1 as [|x l _ IH Hx]; intros Hnd; [constructor|].
  apply NoDup_cons in Hnd as [Hnot Hnd]. constructor; [by apply IH|].
  rewrite Forall_forall in Hx |- *. intros y Hy. specialize (Hx y Hy).
  assert (x <> y) by (by intros ->). lia.
Qed.

Lemma sorted_ascending (l : list nat) : NoDup l -> ascending (sorted l).
Proof.
  intros Hnd. apply le_NoDup_ascending; [apply sorted_le|]. by rewrite sorted_perm.
Qed.

Lemma insort_perm (x : nat) (l : list nat) : insort x l ≡ₚ x :: l.
Proof.
  induction l as [|y l IH]; [done|]. cbn. destruct (decide (x < y)); [done|].
  rewrite IH. apply perm_swap.
Qed.

Lemma insort_ascending (x : nat) (l : list nat) :
  ascending l -> x ∉ l -> ascending (insort x l).
Proof.
  induction 1 as [|y l Hl IH Hy]; intros Hx; cbn.
  - by repeat constructor.
  - apply not_elem_of_cons in Hx as [Hxy Hx]. destruct (decide (x < y)).
    + constructor; [by constructor|]. constructor; [done|].
      eapply Forall_impl; [exact Hy|]. intros z Hz. cbn in Hz. lia.
    + constructor; [by apply IH|]. rewrite insort_perm. constructor; [lia | done].
Qed.

Lemma del_first_spec (x : nat) (l l' : list nat) :
  del_first x l = Ok l' -> l ≡ₚ x :: l' /\ (ascending l -> ascending l').
Proof.
  revert l'. induction l as [|y l IH]; intros l' H; cbn in H; [done|].
  destruct (decide (x = y)) as [->|Hxy].
  - injection H as <-. split; [done|]. intros Hl. by inversion Hl.
  - apply outcome_bind_Ok in H as (l1 & H1 & H). injection H as <-.
    destruct (IH l1 H1) as [Hperm Hasc]. split.
    + rewrite Hperm. apply perm_swap.
    + intros Hl. inversion Hl as [|? ? Hl0 Hy]; subst. constructor; [by apply Hasc|].
      rewrite Hperm in Hy. by apply Forall_cons in Hy as [_ Hy].
Qed.

Lemma filter_ext_in {A} (P Q : A -> Prop)
    `{forall x, Decision (P x)} `{forall x, Decision (Q x)} (l : list A) :
  (forall x, x ∈ l -> P x <-> Q x) -> filter P l = filter Q l.
Proof.
  intros Hl. rewrite <- (list_fmap_id (filter P l)), <- (list_fmap_id (filter Q l)).
  apply fmap_filter_ext. intros x Hx. split; [by apply Hl | done].
Qed.

(** *** [_unselected] *)

Lemma unselected_loop (selected : list nat) (m : nat) :
  forall (t : nat) (z : Z) (k : nat) (acc rest : list nat),
  ahead selected z k rest -> (rest = [] -> z = (-1)%Z) ->
  ascending rest -> Forall (fun s => t <= s) rest ->
  exists z' k',
    for_each (seq t m)
      (fun '(z, k, acc) i =>
         if decide (Z.of_nat i = z) then
           if decide (k < length selected) then
             z ← getitem selected k; Ok (Z.of_nat z, k + 1, acc)
           else Ok ((-1)%Z, k, acc)
         else Ok (z, k, acc ++ [i]))
      (z, k, acc)
    = Ok (z', k', acc ++ filter (fun i => i ∉ rest) (seq t m)).
Proof.
  induction m as [|m IH]; intros t z k acc rest Hahead Hz Hasc Hge.
  - exists z, k. cbn. by rewrite app_nil_r.
  - cbn [seq for_each]. destruct (decide (Z.of_nat t = z)) as [Htz|Htz].
    + destruct rest as [|z' rest']; [specialize (Hz eq_refl); lia|].
      destruct Hahead as [Hzz' Hrest]. assert (z' = t) as -> by lia.
      inversion Hasc as [|? ? Hasc' Hlt]; subst z.
      assert (Hnext : Forall (fun s => S t <= s) rest').
      { eapply Forall_impl; [exact Hlt|]. intros s Hs. cbn in Hs. lia. }
      assert (Hfilter : filter (fun i => i ∉ t :: rest') (t :: seq (S t) m)
                        = filter (fun i => i ∉ rest') (seq (S t) m)).
      { rewrite filter_cons_False by (intros Hn; apply Hn; by left).
        apply filter_ext_in. intros i Hi. apply elem_of_seq in Hi.
        rewrite not_elem_of_cons. intuition lia. }
      rewrite Hfilter. destruct (decide (k < length selected)) as [Hk|Hk].
      * destruct (getitem_lt selected k Hk) as (s & Hs & Hsk).
        rewrite Hs, !outcome_bind_ret.
        rewrite (drop_S _ _ _ Hsk) in Hrest. subst rest'.
        apply (IH (S t) _ (k + 1) acc (s :: drop (S k) selected)); try done.
        cbn. split; [done|]. by rewrite Nat.add_1_r.
      * assert (rest' = []) as -> by (rewrite Hrest; apply drop_ge; lia).
        by apply (IH (S t) _ k acc []).
    + rewrite outcome_bind_ret.
      assert (Hnot : t ∉ rest).
      { intros Hin. destruct rest as [|z' rest']; [by apply elem_of_nil in Hin|].
        destruct Hahead as [-> _]. inversion Hasc as [|? ? _ Hlt]; subst.
        apply elem_of_cons in Hin as [->|Hin]; [lia|].
        rewrite Forall_forall in Hlt, Hge. specialize (Hlt t Hin).
        specialize (Hge z' ltac:(by left)). lia. }
      cbn [seq]. rewrite filter_cons_True by done.
      destruct (IH (S t) z k (acc ++ [t]) rest) as (z1 & k1 & Hrun); try done.
      { rewrite Forall_forall in Hge |- *. intros s Hs. specialize (Hge s Hs).
        assert (s <> t) by (by intros ->). lia. }
      exists z1, k1. rewrite Hrun. by rewrite <- app_assoc.
Qed.

(** [_unselected] yields the indices below [n] that are not selected, in
    ascending order. *)
Lemma unselected_spec (n : nat) (selected a : list nat) :
  ascending selected ->
  unselected n selected = Ok a ->
  a = filter (fun i => i ∉ selected) (seq 0 n).
Proof.
  intros Hasc. unfold unselected. intros H.
  apply outcome_bind_Ok in H as (z & Hz & H). apply getitem_Ok in Hz.
  destruct selected as [|z' selected']; [done|]. injection Hz as ->.
  destruct (unselected_loop (z :: selected') n 0 (Z.of_nat z) 1 [] (z :: selected'))
    as (z1 & k1 & Hrun); try done.
  { apply Forall_forall. intros; lia. }
  rewrite Hrun, outcome_bind_ret in H. by injection H as <-.
Qed.

Lemma unselected_total (n : nat) (selected : list nat) :
  ascending selected -> selected <> [] ->
  unselected n selected = Ok (filter (fun i => i ∉ selected) (seq 0 n)).
Proof.
  intros Hasc Hne. unfold unselected.
  destruct selected as [|z selected']; [done|]. cbn [getitem lookup list_lookup].
  rewrite outcome_bind_ret.
  destruct (unselected_loop (z :: selected') n 0 (Z.of_nat z) 1 [] (z :: selected'))
    as (z1 & k1 & Hrun); try done.
  { apply Forall_forall. intros; lia. }
  by rewrite Hrun, outcome_bind_ret.
Qed.

(** *** The medoids and their clusters *)

Section MedoidsFacts.
Context {RM : RandomModule} {MM : MathModule}.

Lemma shift_below (selected : list nat) (h : Z) :
  Forall (fun s => h < Z.of_nat s)%Z selected -> foldl shift h selected = h.
Proof.
  revert h. induction selected as [|s selected IH]; intros h Hall; [done|].
  apply Forall_cons in Hall as [Hs Hall]. cbn [foldl].
  replace (shift h s) with h by (unfold shift; by rewrite decide_False by lia).
  by apply IH.
Qed.

Lemma shift_bounds (selected : list nat) (h : Z) :
  (h <= foldl shift h selected <= h + Z.of_nat (length selected))%Z.
Proof.
  revert h. induction selected as [|s selected IH]; intros h; cbn [foldl length]; [lia|].
  specialize (IH (shift h s)).
  assert (h <= shift h s <= h + 1)%Z by (unfold shift; case_decide; lia).
  lia.
Qed.

Lemma shift_fresh (selected : list nat) :
  ascending selected ->
  forall (h : Z) (s : nat), s ∈ selected -> foldl shift h selected <> Z.of_nat s.
Proof.
  induction 1 as [|x selected Hasc IH Hx]; intros h s Hs; [by apply elem_of_nil in Hs|].
  cbn [foldl]. apply elem_of_cons in Hs as [->|Hs]; [|by apply IH].
  destruct (decide (Z.of_nat x <= h)%Z) as [Hle|Hgt].
  - replace (shift h x) with (h + 1)%Z by (unfold shift; by rewrite decide_True).
    pose proof (shift_bounds selected (h + 1)). lia.
  - replace (shift h x) with h by (unfold shift; by rewrite decide_False).
    rewrite shift_below; [lia|].
    eapply Forall_impl; [exact Hx|]. intros y Hy. cbn in Hy. lia.
Qed.

Lemma decode_pair (k r v : Z) (l : list Z) :
  decode [k; r] v = Ok l ->
  k <> 0%Z /\ r <> 0%Z /\ l = [(v mod k)%Z; ((v / k) mod r)%Z].
Proof.
  cbn. destruct (decide (k = 0)%Z); [done|]. destruct (decide (r = 0)%Z); [done|].
  cbn. by intros [= <-].
Qed.

Lemma tuples_next_spec (g g' : tuples_gen) (r : option (list Z)) (w w' : World) :
  tuples_next g w = (Ok (r, g'), w') ->
  st_t g' = st_t g /\ forall l, r = Some l -> exists v, decode (st_t g) v = Ok l.
Proof.
  unfold tuples_next. intros H. inv_bind H. destruct a as [[v|] indices]; cbn in H.
  - inv_bind H. apply lift_Ok in E0 as [Hdec ->]. apply ret_Ok in H as [[= -> ->] _].
    split; [done|]. intros l [= <-]. by exists v.
  - apply ret_Ok in H as [[= -> ->] _]. done.
Qed.

Lemma selected_length (n : nat) (selected : list nat) :
  NoDup selected -> Forall (fun i => i < n) selected -> length selected <= n.
Proof.
  intros Hnd Hlt. transitivity (length (seq 0 n)); [|by rewrite length_seq].
  apply submseteq_length.
  apply NoDup_submseteq; [done|]. intros x Hx. rewrite Forall_forall in Hlt.
  apply elem_of_seq. specialize (Hlt x Hx). lia.
Qed.

(** What [_next_random_swap] returns: the object is as before but for the
    sampler, and [h] is an unselected index. *)
Lemma next_random_swap_spec (self self1 : Medoids) (r : option (nat * nat)) (w w1 : World) :
  medoids_ok self ->
  next_random_swap self w = (Ok (r, self1), w1) ->
  medoids_ok self1 /\
  md_selected self1 = md_selected self /\ md_clusters self1 = md_clusters self /\
  md_n self1 = md_n self /\ md_k self1 = md_k self /\
  forall i h, r = Some (i, h) -> h < md_n self /\ h ∉ md_selected self.
Proof.
  intros (Hasc & Hlt & Hk & Ht & Hgood) H.
  pose proof (next_random_swap_cost _ _ _ _ _ H) as (_ & Hsel & Hcl & Hn & Hmk).
  unfold next_random_swap in H. inv_bind H. destruct a as [r0 gen].
  apply tuples_next_spec in E as [Hgen Hdec].
  assert (Hok1 : st_t gen = [md_k self; (Z.of_nat (md_n self) - md_k self)%Z])
    by (by rewrite Hgen).
  assert (Hself1 : md_random_swap self1 = gen).
  { destruct r0 as [[|n_i [|h [|? ?]]]|]; cbn in H; try discriminate.
    - inv_bind H. cbn in H. case_dec H; [|discriminate].
      by apply ret_Ok in H as [[= _ ->] _].
    - by apply ret_Ok in H as [[= _ ->] _]. }
  split.
  { split; [by rewrite Hsel|]. split; [by rewrite Hsel, Hn|]. split; [by rewrite Hsel, Hmk|].
    split; [by rewrite Hself1, Hn, Hmk|]. rewrite Hsel, Hcl, Hn. exact Hgood. }
  do 4 (split; [done|]). intros i h ->.
  destruct r0 as [[|n_i [|h0 [|? ?]]]|]; cbn in H; try discriminate.
  inv_bind H; cbn in H; case_dec H; [|discriminate].
  apply ret_Ok in H as [[= _ -> _] _].
  destruct (Hdec _ eq_refl) as [v Hv]; rewrite Ht in Hv.
  apply decode_pair in Hv as (_ & Hr & [= _ ->]).
  fold shift in *.
  pose proof (selected_length _ _ (ascending_NoDup _ Hasc) Hlt) as Hlen.
  pose proof (Z.mod_pos_bound (v / md_k self) (Z.of_nat (md_n self) - md_k self)) as Hb.
  pose proof (shift_bounds (md_selected self)
                ((v / md_k self) mod (Z.of_nat (md_n self) - md_k self))%Z) as Hs.
  split.
  - lia.
  - intros Hin. eapply shift_fresh in Hin; [|exact Hasc]. apply Hin. rewrite Z2Nat.id; [done|lia].
Qed.

End MedoidsFacts.

Section LoopFacts.
Context {RM : RandomModule}.

(** A loop in [M] that returns has kept every invariant its body keeps;
    [done] are the elements already visited. *)
Lemma forM_invariant {A S} (I : list A -> S -> Prop) (body : S -> A -> M S) (l : list A) :
  (forall done x s1 w1 s2 w2,
     I done s1 -> x ∈ l -> body s1 x w1 = (Ok s2, w2) -> I (done ++ [x]) s2) ->
  forall (s : S) (w : World) (s' : S) (w' : World),
  I [] s -> forM l body s w = (Ok s', w') -> I l s'.
Proof.
  intros Hstep.
  assert (Hgen : forall l2 l1 s w s' w',
            l = l1 ++ l2 -> I l1 s -> forM l2 body s w = (Ok s', w') -> I l s').
  { induction l2 as [|x l2 IH]; intros l1 s w s' w' Hl HI H.
    - apply ret_Ok in H as [-> _]. by rewrite Hl, app_nil_r.
    - cbn [forM] in H. inv_bind H.
      apply (IH (l1 ++ [x]) a w0 s' w'); [by rewrite <- app_assoc| |done].
      eapply Hstep; [done| |done]. rewrite Hl. apply elem_of_app. right. by left. }
  intros s w s' w' HI H. by apply (Hgen l [] s w s' w').
Qed.

Lemma mapM_tagged {A B} (f : A -> M B) (l : list A) (ys : list (B * A)) (w w' : World) :
  mapM (fun x => y ← f x; mret (y, x)) l w = (Ok ys, w') -> ys.*2 = l.
Proof.
  revert ys w. induction l as [|x l IH]; intros ys w H; cbn [mapM] in H.
  - by apply ret_Ok in H as [-> _].
  - inv_bind H. inv_bind E. apply ret_Ok in E as [-> _].
    inv_bind H. apply ret_Ok in H as [-> ->]. cbn. f_equal. by eapply IH.
Qed.

End LoopFacts.

Lemma insert_pair_perm (x : Q * nat) (l : list (Q * nat)) : insert_pair x l ≡ₚ x :: l.
Proof.
  induction l as [|y l IH]; [done|]. cbn. destruct (pair_lt y x); [|done].
  rewrite IH. apply perm_swap.
Qed.

Lemma nsmallest_elem (n : nat) (l : list (Q * nat)) (x : Q * nat) :
  x ∈ nsmallest n l -> x ∈ l.
Proof.
  unfold nsmallest. intros Hx. apply elem_of_take in Hx as (i & Hx & _).
  apply list_elem_of_lookup_2 in Hx. revert Hx.
  induction l as [|y l IH]; cbn; [done|].
  rewrite insert_pair_perm. intros [->|Hx]%elem_of_cons; [by left | right; by apply IH].
Qed.

Section SwapInvariant.
Context {RM : RandomModule} {MM : MathModule}.

Lemma update_clusters_spec (distance : nat -> nat -> M Q) (selected : list nat)
    (clusters clusters' : list (option (nat * nat))) (a : list nat) (ds : list Q)
    (w w' : World) :
  update_clusters distance selected clusters a w = (Ok (clusters', ds), w') ->
  (forall j, j ∈ a -> good selected (clusters' !! j)) /\
  (forall j, j ∉ a -> clusters' !! j = clusters !! j).
Proof.
  unfold update_clusters. intros H.
  apply (forM_invariant
           (fun done (st : list (option (nat * nat)) * list Q) =>
              (forall j, j ∈ done -> good selected (st.1 !! j)) /\
              (forall j, j ∉ done -> st.1 !! j = clusters !! j))) in H; [done| |].
  - intros done j [cl ds1] w1 [cl2 ds2] w2 [Hin Hout] Hj Hbody. cbn [fst] in *.
    inv_bind Hbody. apply mapM_tagged in E.
    destruct (nsmallest 2 a0) as [|[d1 i1] [|[d2 i2] [|? ?]]] eqn:En; try discriminate.
    case_dec Hbody; [discriminate|].
    inv_bind Hbody. apply lift_Ok in E0 as [Hset ->]. apply setitem_Ok in Hset as [Hlt ->].
    apply ret_Ok in Hbody as [[= -> ->] _].
    assert (Hi1 : i1 ∈ selected).
    { rewrite <- E. apply list_elem_of_fmap. exists (d1, i1). split; [done|].
      apply (nsmallest_elem 2). rewrite En. by left. }
    assert (Hi2 : i2 ∈ selected).
    { rewrite <- E. apply list_elem_of_fmap. exists (d2, i2). split; [done|].
      apply (nsmallest_elem 2). rewrite En. right. by left. }
    split.
    + intros j' Hj'. destruct (decide (j' = j)) as [->|Hne].
      * rewrite list_lookup_insert_eq by done. by exists i1, i2.
      * rewrite list_lookup_insert_ne by done. apply Hin.
        apply elem_of_app in Hj' as [Hj'|Hj']; [done|].
        apply list_elem_of_singleton in Hj'. done.
    + intros j' Hj'. apply not_elem_of_app in Hj' as [Hd Hs].
      rewrite list_lookup_insert_ne; [by apply Hout|].
      intros ->. apply Hs. by left.
  - split; [intros j Hj; by apply elem_of_nil in Hj | done].
Qed.

Lemma nearest_other_spec (distance : nat -> nat -> M Q) (selected : list nat) (m j : nat)
    (min_d : option Q) (min_k : nat) (w w' : World) :
  nearest_other distance selected m j w = (Ok (min_d, Some min_k), w') ->
  min_k ∈ selected.
Proof.
  unfold nearest_other. intros H.
  refine (forM_invariant
            (fun _ (st : option Q * option nat) => forall k, st.2 = Some k -> k ∈ selected)
            _ _ _ _ _ _ _ _ H min_k eq_refl); [|done].
  intros _ k [md mk] w1 [md2 mk2] w2 HI Hk Hbody. cbn [snd] in *.
  case_dec Hbody.
  - inv_bind Hbody. destruct (match md with Some _ => _ | None => _ end).
    + apply ret_Ok in Hbody as [[= -> ->] _]. by intros ? [= <-].
    + apply ret_Ok in Hbody as [[= -> ->] _]. done.
  - apply ret_Ok in Hbody as [[= -> ->] _]. done.
Qed.

End SwapInvariant.

Section SwapKeeps.
Context {RM : RandomModule} {MM : MathModule}.

(** The [fast_updates] of a swap name [h] or a selected medoid, and there is
    one for every unselected point other than [h]. *)
Lemma calculate_t_spec (distance : nat -> nat -> M Q) (self : Medoids) (i h : nat)
    (ts : list Q) (fast_updates : list (nat * nat)) (w w' : World) :
  medoids_ok self ->
  calculate_t distance self i h w = (Ok (ts, fast_updates), w') ->
  (forall j m, (j, m) ∈ fast_updates -> m = h \/ m ∈ md_selected self) /\
  (forall j, j < md_n self -> j ∉ md_selected self -> j <> h ->
     exists m, (j, m) ∈ fast_updates).
Proof.
  intros (Hasc & Hlt & Hk & Ht & Hgood) H. unfold calculate_t in H.
  apply bind_Ok in H as (ds & u1 & _ & H). apply bind_Ok in H as (t1 & u2 & _ & H).
  apply bind_Ok in H as (ch & u3 & _ & H). apply bind_Ok in H as (ch' & u4 & _ & H).
  apply bind_Ok in H as (dh & u5 & _ & H). apply bind_Ok in H as (a & u6 & Ea & H).
  apply lift_Ok in Ea as [Ha ->]. apply unselected_spec in Ha; [|done].
  set (I := fun (done : list nat) (st : list Q * list (nat * nat)) =>
              (forall j m, (j, m) ∈ st.2 -> m = h \/ m ∈ md_selected self) /\
              (forall j, j ∈ done -> j <> h -> exists m, (j, m) ∈ st.2)).
  assert (Hfinal : I a (ts, fast_updates)).
  { refine (forM_invariant I _ _ _ _ _ _ _ _ H).
    - intros done j [ts1 fu1] v1 [ts2 fu2] v2 [Hm Hall] Hj Hbody.
      unfold I. cbn [snd] in *.
      assert (Hstep : j = h /\ fu2 = fu1 \/
                      exists m, (m = h \/ m ∈ md_selected self) /\ fu2 = fu1 ++ [(j, m)]).
      { case_dec Hbody; [left; by apply ret_Ok in Hbody as [[= -> ->] _]|right].
        apply bind_Ok in Hbody as (cj & v3 & Ecj & Hbody).
        apply lift_Ok in Ecj as [Hcj ->]. apply getitem_Ok in Hcj.
        rewrite Ha in Hj. apply list_elem_of_filter in Hj as [Hnot Hjn].
        apply elem_of_seq in Hjn.
        destruct (Hgood j) as (n1 & n2 & Hc & Hn1 & Hn2); [lia|done|].
        rewrite Hcj in Hc. injection Hc as ->.
        apply bind_Ok in Hbody as (c & v4 & Ec & Hbody).
        apply ret_Ok in Ec as [-> _]. cbv beta iota in Hbody.
        apply bind_Ok in Hbody as (djh & v5 & _ & Hbody). case_dec Hbody.
        - apply bind_Ok in Hbody as (d2 & v6 & _ & Hbody). destruct (Qgeb djh d2).
          + apply bind_Ok in Hbody as (dji & v7 & _ & Hbody).
            apply ret_Ok in Hbody as [[= -> ->] _]. exists n2; auto.
          + apply bind_Ok in Hbody as (dji & v7 & _ & Hbody).
            apply ret_Ok in Hbody as [[= -> ->] _]. exists h; auto.
        - apply bind_Ok in Hbody as (d2 & v6 & _ & Hbody). destruct (Qgeb djh d2).
          + apply ret_Ok in Hbody as [[= -> ->] _]. exists n1; auto.
          + apply ret_Ok in Hbody as [[= -> ->] _]. exists h; auto. }
      destruct Hstep as [[-> ->]|(m & Hmh & ->)]; split.
      + done.
      + intros j [Hj'|Hj']%elem_of_app Hne; [by apply Hall|].
        apply list_elem_of_singleton in Hj'. done.
      + intros j' m' [Hin|Hin]%elem_of_app; [by eapply Hm|].
        apply list_elem_of_singleton in Hin. by injection Hin as -> ->.
      + intros j' [Hj'|Hj']%elem_of_app Hne.
        * destruct (Hall j' Hj' Hne) as [m' Hm']. exists m'. apply elem_of_app. by left.
        * apply list_elem_of_singleton in Hj' as ->. exists m. apply elem_of_app.
          right. by left.
    - split; [intros j m Hin; by apply elem_of_nil in Hin|].
      intros j Hj. by apply elem_of_nil in Hj. }
  destruct Hfinal as [Hm Hall]. split; [exact Hm|].
  intros j Hjn Hnot Hne. apply Hall; [|done].
  rewrite Ha. apply list_elem_of_filter. split; [done|]. apply elem_of_seq. lia.
Qed.

(** The loop over [fast_updates]: afterwards every point that had a fast
    update is either queued for a slow one or has a good entry. *)
Lemma fast_loop_spec (distance : nat -> nat -> M Q) (selected selected' : list nat)
    (i h : nat) (fast_updates : list (nat * nat))
    (clusters clusters1 : list (option (nat * nat))) (slow : list nat) (w w' : World) :
  (forall m, m = h \/ m ∈ selected -> m <> i -> m ∈ selected') ->
  (forall j m, (j, m) ∈ fast_updates -> m = h \/ m ∈ selected) ->
  forM fast_updates
    (fun '(clusters, slow_updates) '(j, m) =>
       if decide (m = i) then mret (clusters, slow_updates ++ [j])
       else
         '(_, min_k) ← nearest_other distance selected' m j;
         match min_k with
         | Some min_k =>
             if decide (m = min_k) then raise AssertionError
             else
               clusters ← lift (setitem clusters j (Some (m, min_k)));
               mret (clusters, slow_updates)
         | None => raise AssertionError
         end)
    (clusters, [i]) w = (Ok (clusters1, slow), w') ->
  i ∈ slow /\
  forall j m, (j, m) ∈ fast_updates -> j ∈ slow \/ good selected' (clusters1 !! j).
Proof.
  intros Hsel Hfu H.
  set (I := fun (done : list (nat * nat)) (st : list (option (nat * nat)) * list nat) =>
              i ∈ st.2 /\
              forall j m, (j, m) ∈ done -> j ∈ st.2 \/ good selected' (st.1 !! j)).
  refine (forM_invariant I _ _ _ _ _ _ _ _ H).
  - intros done [j m] [cl sl] v1 [cl2 sl2] v2 [Hi Hall] Hjm Hbody.
    unfold I. cbn [fst snd] in *.
    case_dec Hbody.
    + apply ret_Ok in Hbody as [[= -> ->] _]. split; [apply elem_of_app; by left|].
      intros j' m' [Hin|Hin]%elem_of_app.
      * destruct (Hall j' m' Hin) as [?|?]; [left; apply elem_of_app; by left | by right].
      * apply list_elem_of_singleton in Hin. injection Hin as -> ->.
        left. apply elem_of_app. right. by left.
    + apply bind_Ok in Hbody as ([min_d [min_k|]] & v3 & E & Hbody); [|discriminate].
      apply nearest_other_spec in E. case_dec Hbody; [discriminate|].
      apply bind_Ok in Hbody as (cl' & v4 & Eset & Hbody).
      apply lift_Ok in Eset as [Hset ->]. apply setitem_Ok in Hset as [Hlt ->].
      apply ret_Ok in Hbody as [[= -> ->] _]. split; [done|].
      assert (Hgood : good selected' (<[j := Some (m, min_k)]> cl !! j)).
      { rewrite list_lookup_insert_eq by done. exists m, min_k. split; [done|].
        split; [|done]. apply Hsel; [by eapply Hfu | done]. }
      intros j' m' [Hin|Hin]%elem_of_app.
      * destruct (decide (j' = j)) as [->|Hne]; [by right|].
        rewrite list_lookup_insert_ne by done. by eapply Hall.
      * apply list_elem_of_singleton in Hin. injection Hin as -> ->. by right.
  - split; [by left|]. intros j m Hin. by apply elem_of_nil in Hin.
Qed.

(** [swap] keeps the invariant of the medoids. *)
Lemma swap_ok (distance : nat -> nat -> M Q) (self self' : Medoids) (b : bool)
    (w w' : World) :
  medoids_ok self ->
  swap distance self w = (Ok (b, self'), w') ->
  medoids_ok self' /\ md_n self' = md_n self /\ md_k self' = md_k self.
Proof.
  intros Hok H. unfold swap in H.
  apply bind_Ok in H as ([ih self1] & u1 & E & H).
  destruct (next_random_swap_spec _ _ _ _ _ Hok E) as (Hok1 & Hsel & Hcl & Hn & Hmk & Hh).
  destruct ih as [[i h]|]; [|by apply ret_Ok in H as [[= _ ->] _]].
  destruct (Hh i h eq_refl) as [Hhn Hhsel]. clear Hh.
  apply bind_Ok in H as ([ts fast_updates] & u2 & Et & H).
  destruct (calculate_t_spec _ _ _ _ _ _ _ _ Hok1 Et) as [Hfu Hall].
  destruct (Qltb (fsum ts) 0); [|by apply ret_Ok in H as [[= _ ->] _]].
  apply bind_Ok in H as (a & u3 & Edel & H). apply lift_Ok in Edel as [Hdel ->].
  destruct Hok1 as (Hasc & Hlt & Hk & Ht & Hgood).
  apply del_first_spec in Hdel as [Hperm Hasc0]. specialize (Hasc0 Hasc).
  apply bind_Ok in H as ([clusters1 slow] & u4 & E1 & H).
  apply bind_Ok in H as ([clusters2 ds] & u5 & E2 & H).
  apply ret_Ok in H as [[= _ ->] _]. cbn [md_n md_k]. split; [|done].
  set (selected' := insort h a) in *.
  assert (Hin' : forall m, m ∈ selected' <-> m = h \/ m ∈ a).
  { intros m. unfold selected'. by rewrite insort_perm, elem_of_cons. }
  assert (Hin : forall m, m ∈ md_selected self1 <-> m = i \/ m ∈ a).
  { intros m. by rewrite Hperm, elem_of_cons. }
  apply fast_loop_spec with (selected := md_selected self1) (h := h) in E1
    as [Hslow Hfast]; [| |done].
  2: { intros m Hm Hmi. apply Hin'. destruct Hm as [->|Hm]; [by left|].
       right. apply Hin in Hm as [->|Hm]; done. }
  apply update_clusters_spec in E2 as [Hnew Hold].
  rewrite <- Hsel in Hhsel. rewrite <- Hn in Hhn.
  split; [|split; [|split; [|split]]]; cbn [md_selected md_n md_k md_clusters md_random_swap].
  - fold selected'. apply insort_ascending; [done|].
    intros Hha. apply Hhsel. apply Hin. by right.
  - fold selected'. apply Forall_forall. intros m Hm. apply Hin' in Hm as [->|Hm]; [done|].
    rewrite Forall_forall in Hlt. apply Hlt. apply Hin. by right.
  - fold selected'. rewrite <- Hk. f_equal.
    unfold selected'. by rewrite insort_perm, Hperm.
  - done.
  - fold selected'. intros j Hjn Hnot.
    destruct (decide (j ∈ slow)) as [Hjs|Hjs]; [by apply Hnew|].
    rewrite Hold by done.
    assert (Hji : j <> i) by (by intros ->).
    destruct (Hall j) as [m Hm]; [done| |..].
    + intros Hj. apply Hin in Hj as [->|Hj]; [done|]. apply Hnot, Hin'. by right.
    + intros ->. apply Hnot, Hin'. by left.
    + destruct (Hfast j m Hm) as [?|?]; done.
Qed.

End SwapKeeps.

(** *** The seed of the medoids *)

Lemma submseteq_NoDup {A} (l k : list A) : l ⊆+ k -> NoDup k -> NoDup l.
Proof.
  intros Hsub Hk. apply submseteq_Permutation in Hsub as [k' Hperm].
  rewrite Hperm in Hk. by apply NoDup_app in Hk as [Hl _].
Qed.

Lemma marked_sublist {A} (mapped : list bool) (v : list A) :
  (snd <$> filter (fun mv : bool * A => mv.1 = true) (zip mapped v)) `sublist_of` v.
Proof.
  revert mapped. induction v as [|x v IH]; intros [|b mapped]; try done.
  - apply sublist_nil_l.
  - cbn [zip_with]. rewrite filter_cons. destruct (decide _); cbn [fmap list_fmap snd].
    + by apply sublist_skip.
    + by apply sublist_cons.
Qed.

Section Seed.
Context {RM : RandomModule} {MM : MathModule}.

Lemma mapM_Forall {A B} (P : B -> Prop) (f : A -> M B) (l : list A) :
  (forall x w y w', f x w = (Ok y, w') -> P y) ->
  forall ys w w', mapM f l w = (Ok ys, w') -> Forall P ys.
Proof.
  intros Hf. induction l as [|x l IH]; intros ys w w' H; cbn [mapM] in H.
  - apply ret_Ok in H as [-> _]. constructor.
  - apply bind_Ok in H as (y & w1 & Ey & H). apply bind_Ok in H as (ys' & w2 & Eys & H).
    apply ret_Ok in H as [-> _]. constructor; [by eapply Hf | by eapply IH].
Qed.

Lemma sample_spec (p x : list nat) (k : Z) (w w' : World) :
  sample p k w = (Ok x, w') -> x ⊆+ p /\ Z.of_nat (length x) = k.
Proof.
  unfold sample. destruct (decide _) as [Hk|]; [|done].
  destruct (sample_raw p (Z.to_nat k) (w_random w)) as [x' g] eqn:E.
  intros [= <- _].
  pose proof (sample_sub p (Z.to_nat k) (w_random w) ltac:(lia)) as Hsub.
  pose proof (sample_length p (Z.to_nat k) (w_random w) ltac:(lia)) as Hlen.
  rewrite E in Hsub, Hlen. cbn in Hsub, Hlen. split; [done | lia].
Qed.

Lemma unmapped_spec (u v r : list nat) (distance : nat -> nat -> M Q) (w w' : World) :
  _unmapped u v distance w = (Ok r, w') -> r ⊆+ v.
Proof.
  unfold _unmapped. intros H. apply bind_Ok in H as (mapped & w1 & _ & H).
  apply ret_Ok in H as [-> _]. apply sublist_submseteq, marked_sublist.
Qed.

Lemma agoras_reduce_spec (distance : nat -> nat -> M Q) (k m : Z) (p : list nat)
    (range : list nat) :
  forall (s s' : list (list nat)) (r r' : Q) (w w' : World),
  agoras_reduce distance k m range s r w = (Ok (s', r'), w') ->
  Forall (fun x => x ⊆+ p) s -> Forall (fun x => x ⊆+ p) s'.
Proof.
  induction range as [|i range IH]; intros s s' r r' w w' H Hs; cbn [agoras_reduce] in H.
  - by apply ret_Ok in H as [[= -> _] _].
  - apply bind_Ok in H as (si & w1 & _ & H).
    apply bind_Ok in H as (si1 & w2 & Esi1 & H). apply lift_Ok in Esi1 as [Hsi1 ->].
    apply getitem_Ok in Hsi1.
    apply bind_Ok in H as (si1' & w3 & Eun & H). apply unmapped_spec in Eun.
    apply bind_Ok in H as (s1 & w4 & Eset & H). apply lift_Ok in Eset as [Hset ->].
    apply setitem_Ok in Hset as [_ ->].
    assert (Hs1 : Forall (fun x => x ⊆+ p) (<[i + 1 := si1']> s)).
    { apply Forall_insert; [done|]. etransitivity; [exact Eun|].
      exact (Forall_lookup_1 (fun x => x ⊆+ p) s (i + 1) si1 Hs Hsi1). }
    case_dec H.
    + by apply ret_Ok in H as [[= -> _] _].
    + by eapply IH.
Qed.

Lemma agoras_loop_spec (distance : nat -> nat -> M Q) (n : nat) (k m : Z) (p : list nat)
    (fuel : nat) :
  forall (r : Q) (selected : list nat) (w w' : World),
  agoras_loop fuel distance n k m p r w = (Ok selected, w') ->
  selected ⊆+ p /\ Z.of_nat (length selected) = k.
Proof.
  induction fuel as [|fuel IH]; intros r selected w w' H; cbn [agoras_loop] in H; [done|].
  apply bind_Ok in H as (s & w1 & Es & H).
  apply (mapM_Forall (fun x => x ⊆+ p)) in Es.
  2: { intros _ v1 y v2 Hy. by apply sample_spec in Hy as [? _]. }
  apply bind_Ok in H as ([s' r'] & w2 & Ered & H).
  eapply agoras_reduce_spec in Ered; [|exact Es].
  apply bind_Ok in H as (s_last & w3 & Elast & H). apply lift_Ok in Elast as [Hlast ->].
  destruct (last s') as [x|] eqn:El; [|done]. injection Hlast as ->.
  case_dec H; [by eapply IH|]. case_dec H; [|by eapply IH].
  apply ret_Ok in H as [-> _]. split; [|done].
  apply last_Some_elem_of in El. rewrite Forall_forall in Ered. by apply Ered.
Qed.

Lemma agoras_spec (fuel n : nat) (k : Z) (distance : nat -> nat -> M Q)
    (selected : list nat) (w w' : World) :
  _agoras fuel n k distance w = (Ok selected, w') ->
  selected ⊆+ seq 0 n /\ Z.of_nat (length selected) = k.
Proof.
  unfold _agoras. intros H.
  apply bind_Ok in H as (lk & w1 & _ & H). apply bind_Ok in H as (lk' & w2 & _ & H).
  destruct (Qgtb _ _).
  - by apply sample_spec in H.
  - by apply agoras_loop_spec in H.
Qed.

(** A new [_Medoids] object satisfies the invariant. *)
Lemma medoids_init_ok (fuel n : nat) (distance : nat -> nat -> M Q) (k : Z)
    (md : Medoids) (w w' : World) :
  medoids_init fuel n distance k w = (Ok md, w') ->
  medoids_ok md /\ md_n md = n /\ md_k md = k.
Proof.
  unfold medoids_init. intros H.
  apply bind_Ok in H as (sel & w1 & Eag & H). apply agoras_spec in Eag as [Hsub Hlen].
  apply bind_Ok in H as (a & w2 & Ea & H). apply lift_Ok in Ea as [Ha ->].
  assert (Hnd : NoDup sel) by (eapply submseteq_NoDup; [done | apply NoDup_seq]).
  pose proof (sorted_ascending sel Hnd) as Hasc.
  apply unselected_spec in Ha; [|done].
  apply bind_Ok in H as ([clusters ds] & w3 & Eup & H).
  apply update_clusters_spec in Eup as [Hnew _].
  apply ret_Ok in H as [-> _]. cbn [md_n md_k]. split; [|done].
  split; [|split; [|split; [|split]]]; cbn [md_selected md_n md_k md_clusters md_random_swap].
  - done.
  - apply Forall_forall. intros i Hi. rewrite sorted_perm in Hi.
    eapply elem_of_submseteq in Hi; [|exact Hsub]. apply elem_of_seq in Hi. lia.
  - by rewrite sorted_perm.
  - done.
  - intros j Hjn Hnot. apply Hnew. rewrite Ha. apply list_elem_of_filter.
    split; [done|]. apply elem_of_seq. lia.
Qed.

Lemma local_search_ok (distance : nat -> nat -> M Q) (max_neighbours : Q) (fuel : nat) :
  forall (j : Z) (md md' : Medoids) (w w' : World),
  medoids_ok md ->
  local_search fuel distance max_neighbours j md w = (Ok md', w') ->
  medoids_ok md' /\ md_n md' = md_n md /\ md_k md' = md_k md.
Proof.
  induction fuel as [|fuel IH]; intros j md md' w w' Hok H; cbn [local_search] in H.
  - destruct (Qleb _ _); [done|]. by apply ret_Ok in H as [-> _].
  - destruct (Qleb _ _); [|by apply ret_Ok in H as [-> _]].
    apply bind_Ok in H as ([accepted md1] & w1 & Eswap & H).
    apply swap_ok in Eswap as (Hok1 & Hn1 & Hk1); [|done].
    destruct accepted; apply IH in H as (Hok' & Hn' & Hk'); try done.
    all: split; [done|]; split; [by rewrite Hn' | by rewrite Hk'].
Qed.

End Seed.

(** *** The clusters of the medoids *)

Lemma members_loop (clusters : list (option (nat * nat))) (i : nat) (a : list nat) :
  forall ms ms' : list nat,
  for_each a
    (fun ms j =>
       cj ← getitem clusters j;
       match cj with
       | Some (n1, _) => Ok (if decide (n1 = i) then ms ++ [j] else ms)
       | None => Raise TypeError
       end) ms = Ok ms' ->
  ms' = ms ++ filter (fun j => nearest clusters j = i) a.
Proof.
  induction a as [|j a IH]; intros ms ms' H; cbn [for_each] in H.
  - injection H as <-. by rewrite app_nil_r.
  - apply outcome_bind_Ok in H as (ms1 & Hj & H).
    apply outcome_bind_Ok in Hj as (cj & Hcj & Hj). apply getitem_Ok in Hcj.
    destruct cj as [[n1 n2]|]; [|done]. injection Hj as <-.
    assert (Hn : nearest clusters j = n1) by (unfold nearest; by rewrite Hcj).
    apply IH in H as ->. rewrite filter_cons.
    destruct (decide (n1 = i)), (decide (nearest clusters j = i)); try congruence.
    by rewrite <- app_assoc.
Qed.

Lemma Forall2_fmap_eq {A B C} (f : B -> C) (g : A -> C) (l : list A) (k : list B) :
  Forall2 (fun x y => f y = g x) l k -> f <$> k = g <$> l.
Proof. induction 1 as [|x y l k Hxy _ IH]; [done|]. cbn. by rewrite Hxy, IH. Qed.

Lemma concat_insort (f : nat -> list nat) (l : list nat) :
  concat ((fun i => insort i (f i)) <$> l) ≡ₚ l ++ concat (f <$> l).
Proof.
  induction l as [|i l IH]; [done|]. cbn. rewrite IH, insort_perm. cbn.
  f_equiv. rewrite !app_assoc. f_equiv. apply Permutation_app_comm.
Qed.

(** Sorting the points by a label with values in [selected] loses none. *)
Lemma concat_classes (f : nat -> nat) (selected : list nat) :
  NoDup selected ->
  forall a : list nat,
  (forall j, j ∈ a -> f j ∈ selected) ->
  concat ((fun i => filter (fun j => f j = i) a) <$> selected) ≡ₚ a.
Proof.
  induction 1 as [|i selected Hi Hnd IH]; intros a Ha.
  - destruct a as [|j a]; [done|]. specialize (Ha j ltac:(by left)). by apply elem_of_nil in Ha.
  - cbn [fmap list_fmap concat].
    transitivity (filter (fun j => f j = i) a ++ filter (fun j => f j <> i) a);
      [|apply filter_app_complement].
    f_equiv. etransitivity; [|apply (IH (filter (fun j => f j <> i) a))].
    + match goal with |- ?x ≡ₚ ?y => replace x with y; [done|] end.
      f_equal. apply list_fmap_ext. intros t i' Hi'.
      apply list_elem_of_lookup_2 in Hi'.
      rewrite list_filter_filter. apply list_filter_iff. intros j. split; [tauto|].
      intros ->. split; [done|]. by intros ->.
    + intros j [Hne Hj]%list_elem_of_filter. specialize (Ha j Hj).
      apply elem_of_cons in Ha as [?|?]; done.
Qed.

Lemma selected_unselected (n : nat) (selected : list nat) :
  NoDup selected -> Forall (fun i => i < n) selected ->
  selected ++ filter (fun i => i ∉ selected) (seq 0 n) ≡ₚ seq 0 n.
Proof.
  intros Hnd Hlt.
  transitivity (filter (fun i => i ∈ selected) (seq 0 n)
                ++ filter (fun i => i ∉ selected) (seq 0 n));
    [|apply filter_app_complement].
  f_equiv. apply NoDup_Permutation; [done | apply NoDup_filter, NoDup_seq|].
  intros i. rewrite list_elem_of_filter, elem_of_seq. rewrite Forall_forall in Hlt.
  split; [|tauto]. intros Hi. specialize (Hlt i Hi). split; [done | lia].
Qed.

Section WithK.
Context {RM : RandomModule} {MM : MathModule}.

(** The clusters of medoids that satisfy the invariant partition the
    indices below [n]. *)
Lemma medoids_clusters_spec (md : Medoids) (cs : list Cluster) :
  medoids_ok md -> medoids_clusters md = Ok cs ->
  concat (members <$> cs) ≡ₚ seq 0 (md_n md).
Proof.
  intros (Hasc & Hlt & Hk & Ht & Hgood) H. unfold medoids_clusters in H.
  apply collect_Forall2 in H.
  set (a := filter (fun i => i ∉ md_selected md) (seq 0 (md_n md))).
  assert (Hmem : members <$> cs
                 = (fun i => insort i (filter (fun j => nearest (md_clusters md) j = i) a))
                     <$> md_selected md).
  { apply Forall2_fmap_eq. eapply Forall2_impl; [exact H|]. intros i c Hc. cbn beta in Hc.
    apply outcome_bind_Ok in Hc as (a' & Ha & Hc). apply unselected_spec in Ha; [|done].
    apply outcome_bind_Ok in Hc as (ms & Hms & Hc). injection Hc as <-.
    apply members_loop in Hms. cbn. by subst. }
  rewrite Hmem, concat_insort, concat_classes.
  - apply selected_unselected; [by apply ascending_NoDup | done].
  - by apply ascending_NoDup.
  - intros j [Hnot Hj]%list_elem_of_filter. apply elem_of_seq in Hj.
    destruct (Hgood j) as (n1 & n2 & Hc & Hn1 & _); [lia|done|].
    unfold nearest. by rewrite Hc.
Qed.

(** [with_k] returns clusters that partition the indices of the clusterer. *)
Lemma with_k_spec (fuel : nat) (self : Clusterer) (k : Z) (cs : list Cluster)
    (w w' : World) :
  with_k fuel self k w = (Ok cs, w') ->
  concat (members <$> cs) ≡ₚ seq 0 (c_n self).
Proof.
  unfold with_k. intros H. apply bind_Ok in H as (best & w1 & Eloop & H).
  assert (Hbest : forall md, best = Some md -> medoids_ok md /\ md_n md = c_n self).
  { refine (forM_invariant
              (fun _ (st : option Medoids) =>
                 forall md, st = Some md -> medoids_ok md /\ md_n md = c_n self)
              _ _ _ _ _ _ _ _ Eloop); [|done].
    intros _ _ st v1 st2 v2 Hst _ Hbody.
    apply bind_Ok in Hbody as (md0 & v3 & Einit & Hbody).
    apply medoids_init_ok in Einit as (Hok0 & Hn0 & _).
    apply bind_Ok in Hbody as (md1 & v4 & Esearch & Hbody).
    apply local_search_ok in Esearch as (Hok1 & Hn1 & _); [|done].
    apply ret_Ok in Hbody as [-> _]. intros md Hmd.
    destruct st as [old|]; [destruct (Qltb _ _)|]; injection Hmd as <-.
    - split; [done | congruence].
    - by apply Hst.
    - split; [done | congruence]. }
  destruct best as [md|]; [|done]. apply lift_Ok in H as [H _].
  destruct (Hbest md eq_refl) as [Hok <-]. by apply medoids_clusters_spec.
Qed.

End WithK.

(** *** Splitting without a given number of clusters *)

Lemma fmap_lookup_seq {A} (d : A) (l : list A) :
  (fun i => default d (l !! i)) <$> seq 0 (length l) = l.
Proof.
  apply list_eq. intros i. rewrite list_lookup_fmap.
  destruct (decide (i < length l)) as [Hi|Hi].
  - rewrite lookup_seq_lt by done. cbn.
    destruct (lookup_lt_is_Some_2 l i Hi) as [x Hx]. by rewrite Hx.
  - rewrite lookup_seq_ge by lia. cbn. symmetry. apply lookup_ge_None. lia.
Qed.

Lemma Forall2_lookup_fmap {A} (d : A) (l : list A) (ix : list nat) (xs : list A) :
  Forall2 (fun i x => l !! i = Some x) ix xs ->
  xs = (fun i => default d (l !! i)) <$> ix.
Proof. induction 1 as [|i x ix xs Hix _ IH]; [done|]. cbn. by rewrite Hix, IH. Qed.

Lemma Forall2_seq_lookup {A} (l : list A) :
  Forall2 (fun i x => l !! i = Some x) (seq 0 (length l)) l.
Proof.
  apply Forall2_same_length_lookup_2; [by rewrite length_seq|].
  intros i j x Hj Hx. by apply lookup_seq in Hj as [-> _].
Qed.

Lemma translate_spec (c c0 : Cluster) (i_to_i0 : list nat) :
  translate c i_to_i0 = Ok c0 ->
  members c0 = (fun i => default 0 (i_to_i0 !! i)) <$> members c.
Proof.
  unfold translate. intros H.
  apply outcome_bind_Ok in H as (m & _ & H). apply outcome_bind_Ok in H as (ms & Hms & H).
  injection H as <-. cbn. apply collect_Forall2 in Hms.
  apply Forall2_lookup_fmap. eapply Forall2_impl; [exact Hms|].
  intros i x Hx. by apply getitem_Ok.
Qed.

Lemma concat_translated (g : nat -> nat) (cs cs0 : list Cluster) :
  Forall2 (fun c c0 => members c0 = g <$> members c) cs cs0 ->
  concat (members <$> cs0) = g <$> concat (members <$> cs).
Proof.
  induction 1 as [|c c0 cs cs0 Hc _ IH]; [done|]. cbn. by rewrite fmap_app, Hc, IH.
Qed.

Section WithoutK.
Context {RM : RandomModule} {MM : MathModule}.

(** [without_k] returns clusters that partition the points of the
    clusterer, whatever the split criterion answers. *)
Lemma without_k_spec (SC : SplitCriterion) (fuel : nat) :
  forall (self : Clusterer) (criterion : option (sc_state SC)) (res : list (list nat))
         (w w' : World),
  c_n self = length (c_i_to_i0 self) ->
  without_k fuel SC self criterion w = (Ok res, w') ->
  concat res ≡ₚ c_i_to_i0 self.
Proof.
  induction fuel as [|fuel IH]; intros self criterion res w w' Hn H; [done|].
  cbn [without_k] in H. cbv zeta in H. destruct (decide (c_n self < 2)) as [Hsmall|Hbig].
  - apply bind_Ok in H as (x & w1 & Ex & H). apply lift_Ok in Ex as [Hx _].
    apply getitem_Ok in Hx. apply ret_Ok in H as [-> _].
    destruct (c_i_to_i0 self) as [|y [|z l]]; cbn in *; [done| |lia].
    by injection Hx as ->.
  - apply bind_Ok in H as (clusters & w1 & Ewith & H). apply with_k_spec in Ewith.
    apply bind_Ok in H as (clusters0 & w2 & Etr & H). apply lift_Ok in Etr as [Htr _].
    apply collect_Forall2 in Htr.
    set (g := fun i => default 0 (c_i_to_i0 self !! i)).
    assert (Hall : concat (members <$> clusters0) ≡ₚ c_i_to_i0 self).
    { rewrite (concat_translated g clusters clusters0).
      - rewrite Ewith, Hn. unfold g. by rewrite fmap_lookup_seq.
      - eapply Forall2_impl; [exact Htr|]. intros c c0 Hc. by apply translate_spec. }
    apply bind_Ok in H as (crit & w3 & _ & H).
    apply bind_Ok in H as ([split new_criterion] & w4 & _ & H).
    destruct split; cbn [negb] in H.
    + set (dflt := {| medoid := 0; members := [] |}).
      set (I := fun (done : list nat) (r : list (list nat)) =>
                  concat r ≡ₚ
                  concat (members <$> ((fun i => default dflt (clusters0 !! i)) <$> done))).
      assert (Hfinal : I (seq 0 (length clusters)) res).
      { refine (forM_invariant I _ _ _ _ _ _ _ _ H); [|by unfold I].
        intros done i r v1 r2 v2 Hr _ Hbody. unfold I in *.
        apply bind_Ok in Hbody as (ci & v3 & Eci & Hbody). apply lift_Ok in Eci as [Hci _].
        apply getitem_Ok in Hci.
        apply bind_Ok in Hbody as (d & v4 & _ & Hbody).
        apply bind_Ok in Hbody as (rs & v5 & Erec & Hbody).
        apply IH in Erec; [|done]. cbn [c_i_to_i0] in Erec.
        apply ret_Ok in Hbody as [-> _].
        rewrite !fmap_app, !concat_app, Hr, Erec. cbn. by rewrite Hci, app_nil_r. }
      unfold I in Hfinal. rewrite Hfinal.
      rewrite (Forall2_length _ _ _ Htr), fmap_lookup_seq. exact Hall.
    + apply bind_Ok in H as (xs & w5 & Exs & H). apply lift_Ok in Exs as [Hxs _].
      apply ret_Ok in H as [-> _]. apply collect_Forall2 in Hxs. cbn. rewrite app_nil_r.
      rewrite (Forall2_lookup_fmap 0 (c_i_to_i0 self) (seq 0 (c_n self)) xs).
      * by rewrite Hn, fmap_lookup_seq.
      * eapply Forall2_impl; [exact Hxs|]. intros i x Hx. by apply getitem_Ok.
Qed.

End WithoutK.

(** ** The partition invariant *)

Section Partition.
Context {RM : RandomModule} {MM : MathModule} {Point : Type}.

Lemma agglomerate_partition (points : list Point) (k : k_arg merge_factory)
    (distances : Distances) (m : mode) (out : output) :
  repository_criterion k ->
  agglomerate points k distances m = Ok out ->
  exists cs, partitions (length points) cs /\ renders points m cs out.
Proof.
  intros Hk H. unfold agglomerate, reduce in H.
  apply outcome_bind_Ok in H as (matrix & _ & H).
  destruct k as [f|k|]; [|..|done].
  - destruct Hk as [merge_limit ->]. cbn [mf_make mf_criterion dunn_factory] in H.
    rewrite outcome_bind_ret in H.
    eapply reduce_run_partition; [apply dunn_sound| |exact H].
    intros c [= <-] p Hp. done.
  - eapply reduce_run_partition; [apply no_criterion_sound| |exact H]. done.
Qed.

Lemma optimize_body_partition (fuel : nat) (points : list Point) (k : k_arg split_factory)
    (distances : Distances) (m : mode) (sd : Z) (w w' : World) (out : output) :
  optimize_body fuel points k distances m sd w = (Ok out, w') ->
  exists cs, concat cs ≡ₚ seq 0 (length points) /\ renders points m cs out.
Proof.
  unfold optimize_body. intros H.
  apply bind_Ok in H as (u & w1 & _ & H).
  apply bind_Ok in H as (clusters & w2 & Ecl & H).
  assert (Hcl : concat clusters ≡ₚ seq 0 (length points)).
  { destruct k as [f|k|]; [|..|done].
    - apply bind_Ok in Ecl as (criterion & w3 & _ & Ecl).
      apply without_k_spec in Ecl; [done|]. cbn. by rewrite length_seq.
    - apply bind_Ok in Ecl as (cs & w3 & Ecs & Ecl). apply ret_Ok in Ecl as [-> _].
      by apply with_k_spec in Ecs. }
  apply bind_Ok in H as (sorted_clusters & w3 & Es & H). apply lift_Ok in Es as [Hs _].
  unfold sorted_by_first in Hs. destruct (forallb _ clusters); [|done]. injection Hs as <-.
  set (cs := sorted_by _ clusters) in *.
  assert (Hcs : concat cs ≡ₚ seq 0 (length points)).
  { rewrite <- Hcl. apply concat_perm, sorted_by_perm. }
  exists cs. split; [done|]. apply render_spec; [done|].
  unfold render. destruct m; try done.
  - apply bind_Ok in H as (pcs & w4 & Ep & H). apply lift_Ok in Ep as [-> _].
    by apply ret_Ok in H as [-> _].
  - apply bind_Ok in H as (comps & w4 & Ec & H). apply lift_Ok in Ec as [-> _].
    by apply ret_Ok in H as [-> _].
Qed.

Lemma optimize_partition (fuel : nat) (points : list Point) (k : k_arg split_factory)
    (distances : Distances) (m : mode) (sd : Z) (w w' : World) (out : output) :
  (k = KInt 1 -> m = mode_clusters) ->
  optimize fuel points k distances m sd w = (Ok out, w') ->
  exists cs, concat cs ≡ₚ seq 0 (length points) /\ renders points m cs out.
Proof.
  intros Hone H. unfold optimize in H.
  destruct (match k with KInt 1 => true | _ => false end) eqn:Ek.
  - assert (k = KInt 1) as Hk by (by destruct k as [?|[|[?|?|]|?]|]).
    rewrite (Hone Hk). apply ret_Ok in H as [-> _].
    exists [seq 0 (length points)]. split; [cbn; by rewrite app_nil_r|].
    cbn. constructor; [apply Forall2_seq_lookup | constructor].
  - apply bind_Ok in H as (random_state & w1 & _ & H). unfold try_finally in H.
    destruct (optimize_body fuel points k distances m sd w1) as [[o|e|] w2] eqn:Ebody;
      cbn in H; try done.
    injection H as -> _. by eapply optimize_body_partition.
Qed.

End Partition.

(** C1.  In mode [clusters] or [components], every output of [agglomerate]
    (with an integer [k] or the Dunn criterion) and every output of
    [optimize] (except on the shortcut for [k = 1], which answers in mode
    [clusters] only) presents clusters in which every point index below [n]
    occurs exactly once; in mode [components] the array has length [n] and
    gives each position the number of its cluster. *)
Theorem outputs_partition `{RM : RandomModule} `{MM : MathModule} {Point : Type}
    (points : list Point) (m : mode) :
  (forall (k : k_arg merge_factory) (distances : Distances) (out : output),
     repository_criterion k ->
     agglomerate points k distances m = Ok out ->
     exists cs, concat cs ≡ₚ seq 0 (length points) /\ renders points m cs out) /\
  (forall (fuel : nat) (k : k_arg split_factory) (distances : Distances) (sd : Z)
          (w w' : World) (out : output),
     (k = KInt 1 -> m = mode_clusters) ->
     optimize fuel points k distances m sd w = (Ok out, w') ->
     exists cs, concat cs ≡ₚ seq 0 (length points) /\ renders points m cs out).
Proof.
  split.
  - intros k distances out Hk H.
    destruct (agglomerate_partition points k distances m out Hk H) as (cs & [Hcs _] & Hout).
    by exists cs.
  - intros fuel k distances sd w w' out Hone H. by eapply optimize_partition.
Qed.

Lemma outputs_partition_witness :
  (exists cs, concat cs ≡ₚ seq 0 (length line_points) /\
     renders line_points mode_components cs (OutComponents [1; 1; 1; 2; 2; 2])) /\
  (exists out w',
     @optimize lcg_random table_math Z 100 line_points (KInt 2)
       (Precomputed (line_matrix line_points)) mode_components 12345 (world_of 1)
     = (Ok out, w') /\
     exists cs, concat cs ≡ₚ seq 0 (length line_points) /\
       renders line_points mode_components cs out).
Proof.
  split.
  - apply (proj1 (@outputs_partition lcg_random table_math Z line_points mode_components)
             (KInt 2) (Precomputed (line_matrix line_points))).
    + exact I.
    + vm_compute. reflexivity.
  - destruct (@optimize lcg_random table_math Z 100 line_points (KInt 2)
                (Precomputed (line_matrix line_points)) mode_components 12345 (world_of 1))
      as [[out | e |] w'] eqn:E.
    + exists out, w'. split; [reflexivity|].
      apply (proj2 (@outputs_partition lcg_random table_math Z line_points mode_components)
               100 (KInt 2) (Precomputed (line_matrix line_points)) 12345%Z (world_of 1) w' out).
      * discriminate.
      * exact E.
    + assert (E1 : (@optimize lcg_random table_math Z 100 line_points (KInt 2)
                      (Precomputed (line_matrix line_points)) mode_components 12345
                      (world_of 1)).1 = Raise e) by (rewrite E; reflexivity).
      vm_compute in E1. discriminate.
    + assert (E1 : (@optimize lcg_random table_math Z 100 line_points (KInt 2)
                      (Precomputed (line_matrix line_points)) mode_components 12345
                      (world_of 1)).1 = OutOfFuel) by (rewrite E; reflexivity).
      vm_compute in E1. discriminate.
Defined.

(** * Further properties

    What the code shows beyond the statements above. *)

(** ** Module level helpers, continued *)

Lemma robust_min_from_minimum (l : list Q) : forall (m0 : Q),
  exists m, _robust_min_from (Some m0) l = Some m /\
    m ∈ m0 :: l /\ Forall (fun x => (m <= x)%Q) (m0 :: l).
Proof.
  induction l as [|x l IH]; intros m0; cbn [_robust_min_from].
  - exists m0. split; [done|]. split; [by left|]. constructor; [lra | constructor].
  - destruct (IH (if Qltb x m0 then x else m0)) as (m & Hrun & Hin & Hle).
    exists m. split; [done|].
    apply Forall_cons in Hle as [Hle0 Hle].
    destruct (Qltb x m0) eqn:E.
    + apply Qltb_lt in E. split.
      * apply elem_of_cons in Hin as [->|Hin]; [right; by left | by do 2 right].
      * constructor; [lra|]. by constructor.
    + apply Qltb_ge in E. split.
      * apply elem_of_cons in Hin as [->|Hin]; [by left | by do 2 right].
      * constructor; [done|]. constructor; [lra | done].
Qed.

(** X1.  [_robust_min] returns [None] on an empty iterable and on no other;
    on a non-empty one it returns one of its elements, and no element is
    below it. *)
Theorem robust_min_minimum (l : list Q) :
  match _robust_min l with
  | None => l = []
  | Some m => m ∈ l /\ Forall (fun x => (m <= x)%Q) l
  end.
Proof.
  destruct l as [|x l]; [done|]. unfold _robust_min. cbn [_robust_min_from].
  destruct (robust_min_from_minimum l x) as (m & -> & Hin & Hle). done.
Qed.

(** *** [_components] on arbitrary clusters *)

Lemma for_each_setitem_raises (v : nat) (c : list nat) : forall comps : list nat,
  Exists (fun j => length comps <= j) c ->
  for_each c (fun comps j => setitem comps j v) comps = Raise IndexError.
Proof.
  induction c as [|x c IH]; intros comps Hc; [by apply Exists_nil in Hc|].
  cbn [for_each].
  destruct (decide (x < length comps)) as [Hx|Hx].
  2: { assert (E : setitem comps x v = Raise IndexError)
         by (unfold setitem; by rewrite decide_False).
       by rewrite E. }
  rewrite (setitem_lt comps x v Hx), outcome_bind_ret. apply IH. rewrite length_insert.
  apply Exists_cons in Hc as [Hc|Hc]; [lia | done].
Qed.

Lemma components_labels_from (cs : list (list nat)) : forall (off : nat) (comps : list nat),
  Forall (Forall (fun j => j < length comps)) cs ->
  exists comps',
    for_each (imap (fun i c => (off + i, c)) cs)
      (fun components '(i, c) =>
         let component_index := i + 1 in
         for_each c (fun components j => setitem components j component_index) components)
      comps = Ok comps' /\
    length comps' = length comps /\
    (forall j, (forall c, c ∈ cs -> j ∉ c) -> comps' !! j = comps !! j) /\
    (forall i c j, cs !! i = Some c -> j ∈ c ->
       (forall i' c', i < i' -> cs !! i' = Some c' -> j ∉ c') ->
       comps' !! j = Some (off + i + 1)).
Proof.
  induction cs as [|c cs IH]; intros off comps Hlt.
  - exists comps. repeat split; done.
  - apply Forall_cons in Hlt as [Hc Hcs]. cbn [imap for_each].
    destruct (for_each_setitem (off + 0 + 1) c comps Hc) as (comps1 & Hrun1 & Hlen1 & Hin1 & Hout1).
    rewrite Hrun1, outcome_bind_ret.
    destruct (IH (S off) comps1) as (comps' & Hrun & Hlen & Hnone & Hlast).
    { by rewrite Hlen1. }
    exists comps'. split.
    { rewrite <- Hrun. f_equal. apply imap_ext. intros i x _. simpl. f_equal. lia. }
    split; [by rewrite Hlen, Hlen1|]. split.
    + intros j Hj. rewrite Hnone.
      * apply Hout1. apply Hj. by left.
      * intros c' Hc'. apply Hj. by right.
    + intros i c' j Hi Hj Hlater. destruct i as [|i]; simpl in Hi.
      * injection Hi as <-. rewrite Hnone.
        -- rewrite (Hin1 j Hj); f_equal; lia.
        -- intros c' Hc'. apply list_elem_of_lookup in Hc' as [i' Hi'].
           apply (Hlater (S i') c'); [lia | done].
      * rewrite (Hlast i c' j Hi Hj); [f_equal; lia|].
        intros i' c'' Hlt' Hi'. apply (Hlater (S i') c''); [lia | done].
Qed.

(** X2.  For clusters whose indices are all below [n], [_components]
    returns an array of length [n]: a position no cluster lists keeps the
    value 0, and a position [j] carries the number [i + 1] of the last
    cluster that lists it. *)
Theorem components_labels (cs : list (list nat)) (n : nat) :
  Forall (Forall (fun j => j < n)) cs ->
  exists comps,
    _components cs n = Ok comps /\ length comps = n /\
    (forall j, j < n -> (forall c, c ∈ cs -> j ∉ c) -> comps !! j = Some 0) /\
    (forall i c j, cs !! i = Some c -> j ∈ c ->
       (forall i' c', i < i' -> cs !! i' = Some c' -> j ∉ c') ->
       comps !! j = Some (i + 1)).
Proof.
  intros Hlt. unfold _components.
  destruct (components_labels_from cs 0 (replicate n 0)) as (comps & Hrun & Hlen & Hnone & Hlast).
  { by rewrite length_replicate. }
  exists comps. split; [exact Hrun|]. split; [by rewrite Hlen, length_replicate|]. split.
  - intros j Hj Hno. rewrite (Hnone j Hno). by apply lookup_replicate_2.
  - intros i c j Hi Hj Hlater. by rewrite (Hlast i c j Hi Hj Hlater).
Qed.

Lemma components_labels_witness :
  exists comps,
    _components [[0; 2]; [2; 3]] 5 = Ok comps /\ length comps = 5 /\
    comps !! 4 = Some 0 /\ comps !! 2 = Some 2 /\ comps !! 0 = Some 1.
Proof.
  destruct (components_labels [[0; 2]; [2; 3]] 5) as (comps & Hrun & Hlen & Hnone & Hlast).
  { repeat constructor. }
  exists comps. split; [exact Hrun|]. split; [exact Hlen|]. split; [|split].
  - apply Hnone; [lia|]. intros c Hc Hin.
    repeat (apply elem_of_cons in Hc as [->|Hc];
            [repeat (apply elem_of_cons in Hin as [Hin|Hin]; [lia|]);
             by apply elem_of_nil in Hin|]).
    by apply elem_of_nil in Hc.
  - apply (Hlast 1 [2; 3] 2); [reflexivity | by left |].
    intros i' c' Hi' Hc'. destruct i' as [|[|i']]; [lia | lia | discriminate Hc'].
  - apply (Hlast 0 [0; 2] 0); [reflexivity | by left |].
    intros i' c' Hi' Hc' Hin. destruct i' as [|[|i']]; [lia | | discriminate Hc'].
    injection Hc' as <-.
    repeat (apply elem_of_cons in Hin as [Hin|Hin]; [lia|]). by apply elem_of_nil in Hin.
Defined.

Lemma components_raises_from (cs : list (list nat)) : forall (off : nat) (comps : list nat),
  Exists (Exists (fun j => length comps <= j)) cs ->
  for_each (imap (fun i c => (off + i, c)) cs)
    (fun components '(i, c) =>
       let component_index := i + 1 in
       for_each c (fun components j => setitem components j component_index) components)
    comps = Raise IndexError.
Proof.
  induction cs as [|c cs IH]; intros off comps Hex; [by apply Exists_nil in Hex|].
  cbn [imap for_each].
  destruct (decide (Forall (fun j => j < length comps) c)) as [Hc|Hc].
  - destruct (for_each_setitem (off + 0 + 1) c comps Hc) as (comps1 & Hrun1 & Hlen1 & _).
    rewrite Hrun1, outcome_bind_ret.
    apply Exists_cons in Hex as [Hex|Hex].
    { exfalso. apply Exists_exists in Hex as (j & Hj & Hge).
      rewrite Forall_forall in Hc. specialize (Hc j Hj). lia. }
    rewrite <- (IH (S off) comps1); [|by rewrite Hlen1].
    f_equal. apply imap_ext. intros i x _. simpl. f_equal. lia.
  - rewrite for_each_setitem_raises; [done|].
    apply not_Forall_Exists in Hc; [|apply _].
    eapply Exists_impl; [exact Hc|]. intros j Hj. simpl in Hj. lia.
Qed.

(** X3.  When some cluster lists an index that is not below [n],
    [_components] raises [IndexError]. *)
Theorem components_index_error (cs : list (list nat)) (n : nat) :
  Exists (Exists (fun j => n <= j)) cs ->
  _components cs n = Raise IndexError.
Proof.
  intros Hex. unfold _components. apply (components_raises_from cs 0).
  by rewrite length_replicate.
Qed.

Lemma components_index_error_witness : _components [[0]; [1; 2]] 2 = Raise IndexError.
Proof.
  apply components_index_error. apply Exists_cons_tl, Exists_cons_hd.
  apply Exists_cons_tl, Exists_cons_hd. lia.
Defined.

(** *** Pair identifiers *)

(** X4.  [_index] numbers the pairs [(i, j)] with [j < i < n] by
    [0, ..., n (n - 1) / 2 - 1], each number once, and the table [lookup]
    of [reduce] inverts it. *)
Theorem index_lookup_round_trip (n : nat) :
  length (lookup_table n) = n * (n - 1) / 2 /\
  (forall i j, j < i < n ->
     _index i j < n * (n - 1) / 2 /\ lookup_table n !! _index i j = Some (i, j)) /\
  (forall p, p < n * (n - 1) / 2 ->
     exists i j, j < i < n /\ _index i j = p /\ lookup_table n !! p = Some (i, j)) /\
  (forall i j i' j', j < i -> j' < i' -> _index i j = _index i' j' -> i = i' /\ j = j').
Proof.
  assert (Hlen : length (lookup_table n) = n * (n - 1) / 2).
  { rewrite lookup_table_length. unfold _index. by rewrite Nat.add_0_l, Nat.mul_comm. }
  split; [done|]. split; [|split].
  - intros i j Hij.
    assert (H : lookup_table n !! _index i j = Some (i, j)) by (by apply lookup_table_lookup).
    split; [|done]. rewrite <- Hlen. by eapply lookup_lt_Some.
  - intros p Hp. rewrite <- Hlen in Hp.
    destruct (lookup_lt_is_Some_2 _ _ Hp) as [[i j] Hij].
    exists i, j. pose proof Hij as Hij'. apply lookup_table_lookup in Hij' as [Hlt ->]. done.
  - intros i j i' j'. apply index_inj.
Qed.

Lemma index_lookup_round_trip_witness :
  lookup_table 4 !! _index 3 1 = Some (3, 1) /\
  exists i j, j < i < 4 /\ _index i j = 5.
Proof.
  destruct (index_lookup_round_trip 4) as (_ & Hto & Hfrom & _). split.
  - apply Hto. lia.
  - destruct (Hfrom 5) as (i & j & Hij & E & _); [cbn; lia|]. by exists i, j.
Defined.

Section HeapifyFacts.
Context {U : Type}.
Implicit Types (a b xp hj : @node U) (heap : list (@node U)) (wh : list nat).

Lemma ordered_from_except_move (lo i j : nat) xp hj heap :
  i < length heap -> child i j -> heap !! j = Some hj ->
  (forall c b, child i c -> heap !! c = Some b -> nle hj b) ->
  nle hj xp ->
  ordered_from_except lo i (<[i := xp]> heap) ->
  ordered_from_except lo j (<[j := xp]> (<[i := hj]> heap)).
Proof.
  intros Hi Hc Hj Hmin Hlt [Hedges Hgrand].
  assert (Hjl : j < length heap) by (by eapply lookup_lt_Some).
  assert (Hij : i <> j) by (unfold child in Hc; lia).
  split.
  - intros p c a b Hlo Hp Hpc. rewrite !lookup_insert2 by done.
    destruct (decide (p = j)) as [|_]; [done|].
    destruct (decide (p = i)) as [->|Hpi].
    + intros [= <-]. destruct (decide (c = j)) as [->|Hcj]; [by intros [= <-]|].
      destruct (decide (c = i)) as [->|]; [unfold child in Hpc; lia|].
      by apply Hmin.
    + intros Ha. destruct (decide (c = j)) as [->|Hcj].
      { unfold child in *. lia. }
      destruct (decide (c = i)) as [->|Hci].
      * intros [= <-]. apply (Hgrand p j a hj Hlo Hpc Hc).
        -- by rewrite lookup_insert1, decide_False.
        -- by rewrite lookup_insert1, decide_False.
      * intros Hb. apply (Hedges p c a b Hlo Hpi Hpc).
        -- by rewrite lookup_insert1, decide_False.
        -- by rewrite lookup_insert1, decide_False.
  - intros g c a b Hlo Hg Hjc. rewrite !lookup_insert2 by done.
    assert (g = i) as -> by (unfold child in *; lia).
    rewrite decide_False by done. rewrite decide_True by done. intros [= <-].
    rewrite decide_False by (unfold child in *; lia).
    rewrite decide_False by (unfold child in *; lia).
    intros Hb. apply (Hedges j c hj b); [unfold child in *; lia | done | done | |].
    + by rewrite lookup_insert1, decide_False.
    + rewrite lookup_insert1 by done.
      rewrite decide_False by (unfold child in *; lia). done.
Qed.

Lemma ordered_from_except_leaf (lo i : nat) heap :
  (forall c, child i c -> length heap <= c) ->
  ordered_from_except lo i heap -> ordered_from lo heap.
Proof.
  intros Hleaf [Hedges _] p c a b Hlo Hpc Ha Hb.
  destruct (decide (p = i)) as [->|Hpi]; [|by eapply Hedges].
  apply lookup_lt_Some in Hb. specialize (Hleaf c Hpc). lia.
Qed.

Lemma ordered_from_except_settled (lo i : nat) xp heap :
  i < length heap ->
  (forall c b, child i c -> heap !! c = Some b -> nle xp b) ->
  ordered_from_except lo i (<[i := xp]> heap) -> ordered_from lo (<[i := xp]> heap).
Proof.
  intros Hi Hmin [Hedges _] p c a b Hlo Hpc Ha Hb.
  destruct (decide (p = i)) as [->|Hpi]; [|by eapply Hedges].
  rewrite list_lookup_insert_eq in Ha by done. injection Ha as <-.
  rewrite list_lookup_insert_ne in Hb by (unfold child in Hpc; lia).
  by eapply Hmin.
Qed.

Lemma shiftdown_loop_ordered_from (lo fuel : nat) (e : nat) xp :
  forall (i : nat) heap wh (i' : nat) heap' wh',
  e = length heap - 1 -> i < length heap ->
  shiftdown_loop fuel e xp i (2 * i + 1) heap wh = Ok (i', heap', wh') ->
  ordered_from_except lo i (<[i := xp]> heap) ->
  ordered_from lo (<[i' := xp]> heap').
Proof.
  induction fuel as [|fuel IH]; intros i heap wh i' heap' wh' He Hi Hrun Hord;
    cbn [shiftdown_loop] in Hrun.
  { destruct (decide (2 * i + 1 <= e)); [done|]. injection Hrun as <- <- <-.
    apply (ordered_from_except_leaf lo i); [|done].
    intros c Hc. rewrite length_insert. unfold child in Hc. lia. }
  destruct (decide (2 * i + 1 <= e)) as [Hj|Hj].
  2: { injection Hrun as <- <- <-.
       apply (ordered_from_except_leaf lo i); [|done].
       intros c Hc. rewrite length_insert. unfold child in Hc. lia. }
  apply outcome_bind_Ok in Hrun as (j & Hsel & Hrun).
  assert (exists hj, child i j /\ heap !! j = Some hj /\
            forall c b, child i c -> heap !! c = Some b -> nle hj b) as (hj & Hc & Hhj & Hmin).
  { destruct (decide (2 * i + 1 < e)) as [Hlt|Hlt].
    - apply outcome_bind_Ok in Hsel as (h1 & Hh1 & Hsel).
      apply outcome_bind_Ok in Hsel as (h2 & Hh2 & Hsel).
      apply getitem_Ok in Hh1, Hh2.
      destruct (node_gt h1 h2) eqn:Egt; injection Hsel as <-.
      + exists h2. split; [right; lia|]. split; [done|].
        intros c b [->| ->] Hb.
        * rewrite Hh1 in Hb. injection Hb as <-. by apply node_gt_true.
        * replace (2 * i + 2) with (2 * i + 1 + 1) in Hb by lia.
          rewrite Hh2 in Hb. injection Hb as <-. apply nle_refl.
      + exists h1. split; [left; lia|]. split; [done|].
        intros c b [->| ->] Hb.
        * rewrite Hh1 in Hb. injection Hb as <-. apply nle_refl.
        * replace (2 * i + 2) with (2 * i + 1 + 1) in Hb by lia.
          rewrite Hh2 in Hb. injection Hb as <-. by apply node_gt_false.
    - injection Hsel as <-.
      destruct (getitem_lt heap (2 * i + 1)) as (h1 & _ & Hh1); [lia|].
      exists h1. split; [left; lia|]. split; [done|].
      intros c b [->| ->] Hb.
      + rewrite Hh1 in Hb. injection Hb as <-. apply nle_refl.
      + apply lookup_lt_Some in Hb. lia. }
  apply outcome_bind_Ok in Hrun as (hj' & Hhj' & Hrun).
  apply getitem_Ok in Hhj'. rewrite Hhj in Hhj'. injection Hhj' as <-.
  destruct (node_le xp hj) eqn:Ele.
  - injection Hrun as <- <- <-.
    apply ordered_from_except_settled; [done | | done].
    intros c b Hcc Hb. eapply nle_trans; [exact Ele|]. by eapply Hmin.
  - apply outcome_bind_Ok in Hrun as (heap1 & Hset1 & Hrun).
    apply outcome_bind_Ok in Hrun as (wh1 & Hset2 & Hrun).
    apply setitem_Ok in Hset1 as [_ ->].
    apply (IH j (<[i := hj]> heap) wh1 i' heap' wh').
    + rewrite length_insert. lia.
    + rewrite length_insert. by eapply lookup_lt_Some.
    + exact Hrun.
    + apply ordered_from_except_move; try done. by apply node_le_false.
Qed.

(** [shiftdown(s, ...)] extends the ordered part of the heap by the slot
    [s]. *)
Lemma shiftdown_ordered_from (s : nat) heap wh heap' wh' :
  shiftdown s heap wh = Ok (heap', wh') ->
  ordered_from (S s) heap -> ordered_from s heap'.
Proof.
  unfold shiftdown. intros H Hord.
  assert (Hexc : ordered_from_except s s heap).
  { split.
    - intros i j a b Hlo Hne. apply Hord. lia.
    - intros g j a b Hlo Hg. unfold child in Hg. lia. }
  destruct (decide (length heap - 1 < 2 * s + 1)) as [Hleaf|Hin].
  { injection H as <- <-. apply (ordered_from_except_leaf s s); [|done].
    intros c Hc. unfold child in Hc. lia. }
  apply outcome_bind_Ok in H as (xp & Hxp & H). apply getitem_Ok in Hxp.
  apply outcome_bind_Ok in H as ([[i' heap1] wh1] & Hloop & H).
  apply outcome_bind_Ok in H as (heap2 & Hset & H).
  apply setitem_Ok in Hset as [_ ->].
  apply outcome_bind_Ok in H as (wh2 & _ & H). injection H as <- <-.
  eapply (shiftdown_loop_ordered_from s); [| |exact Hloop|]; [done | lia |].
  by rewrite list_insert_id.
Qed.

Lemma heapify_ordered_from (m : nat) : forall heap wh heap' wh',
  for_each (rev (seq 0 m)) (fun '(heap, where_) s => @shiftdown U s heap where_) (heap, wh)
    = Ok (heap', wh') ->
  ordered_from m heap -> ordered_from 0 heap'.
Proof.
  induction m as [|m IH]; intros heap wh heap' wh' H Hord.
  - cbn in H. by injection H as <- <-.
  - rewrite seq_S, rev_app_distr in H. cbn [rev app Nat.add for_each] in H.
    apply outcome_bind_Ok in H as ([heap1 wh1] & Hdown & H).
    apply (IH heap1 wh1 heap' wh' H). by eapply shiftdown_ordered_from.
Qed.

Lemma ordered_from_leaves heap : ordered_from (length heap / 2) heap.
Proof.
  intros i j a b Hlo Hc Ha Hb. apply lookup_lt_Some in Hb.
  pose proof (Nat.div_mod_eq (length heap) 2) as Hdiv.
  pose proof (Nat.mod_upper_bound (length heap) 2 ltac:(lia)) as Hmod.
  unfold child in Hc. lia.
Qed.

(** The root of a heap is below every entry. *)
Lemma heap_ordered_root heap a :
  heap_ordered heap -> heap !! 0 = Some a ->
  forall b, b ∈ heap -> nle a b.
Proof.
  intros Hord Ha b Hb. apply list_elem_of_lookup in Hb as [j Hj].
  revert b Hj. induction (lt_wf j) as [j _ IH]. intros b Hj.
  destruct j as [|j].
  - rewrite Ha in Hj. injection Hj as <-. apply nle_refl.
  - assert (Hp : j / 2 < length heap).
    { apply lookup_lt_Some in Hj. pose proof (Nat.div_mod_eq j 2). lia. }
    destruct (lookup_lt_is_Some_2 heap (j / 2) Hp) as [c Hc].
    apply (nle_trans a c b).
    + apply (IH (j / 2)); [|done]. pose proof (Nat.div_mod_eq j 2). lia.
    + apply (Hord (j / 2) (S j) c b); [|done..].
      pose proof (Nat.div_mod_eq j 2) as Hdiv.
      pose proof (Nat.mod_upper_bound j 2 ltac:(lia)) as Hmod.
      unfold child. lia.
Qed.

Lemma nle_dist a b : nle a b -> (dist a <= dist b)%Q.
Proof. intros [H|[H _]]%nle_spec; lra. Qed.

End HeapifyFacts.

Section HeapifyRun.
Context {Point : Type}.
Implicit Types (heap : list (@node (Point * Point))) (wh : list nat).

Lemma heapify_ordered heap wh :
  where_ok heap wh ->
  exists heap' wh',
    heapify heap wh = Ok (heap', wh') /\
    heap' ≡ₚ heap /\ where_ok heap' wh' /\ heap_ordered heap'.
Proof.
  intros Hok.
  destruct (heapify_spec heap wh Hok) as (heap' & wh' & Hrun & Hperm & Hok').
  exists heap', wh'. split; [done|]. split; [done|]. split; [done|].
  intros i j a b Hc. eapply (heapify_ordered_from (length heap / 2) heap wh heap' wh').
  - exact Hrun.
  - apply ordered_from_leaves.
  - lia.
  - done.
Qed.

End HeapifyRun.

(** X5.  The loop of [reduce] that calls [shiftdown] on the slots
    [len(heap) // 2 - 1, ..., 0] turns any list of entries whose position
    index is right into a min-heap of the same entries: the position index
    is right again, every entry is at most its children, and the entry at
    the root has the smallest distance of all. *)
Theorem heapify_builds_heap {Point : Type} (heap : list (@node (Point * Point)))
    (wh : list nat) :
  where_ok heap wh ->
  exists heap' wh',
    heapify heap wh = Ok (heap', wh') /\
    heap' ≡ₚ heap /\ where_ok heap' wh' /\ heap_ordered heap' /\
    forall a b, heap' !! 0 = Some a -> b ∈ heap -> (dist a <= dist b)%Q.
Proof.
  intros Hok.
  destruct (heapify_ordered heap wh Hok) as (heap' & wh' & Hrun & Hperm & Hok' & Hord).
  exists heap', wh'. split; [done|]. split; [done|]. split; [done|].
  split; [done|]. intros a b Ha Hb. apply nle_dist.
  apply (heap_ordered_root heap' a Hord Ha). by rewrite Hperm.
Qed.

Lemma heapify_builds_heap_witness :
  exists heap' wh',
    @heapify unit [(3%Q, 0, (tt, tt)); (2%Q, 1, (tt, tt)); (1%Q, 2, (tt, tt))] [0; 1; 2]
      = Ok (heap', wh') /\
    where_ok heap' wh' /\ heap_ordered heap' /\
    forall a, heap' !! 0 = Some a -> (dist a <= 2)%Q.
Proof.
  destruct (@heapify_builds_heap unit
              [(3%Q, 0, (tt, tt)); (2%Q, 1, (tt, tt)); (1%Q, 2, (tt, tt))] [0; 1; 2])
    as (heap' & wh' & Hrun & _ & Hok & Hord & Hroot).
  - intros s a Ha. destruct s as [|[|[|s]]]; simpl in Ha; try discriminate.
    all: by injection Ha as <-.
  - exists heap', wh'. split; [exact Hrun|]. split; [exact Hok|]. split; [exact Hord|].
    intros a Ha. apply (Hroot a (2%Q, 1, (tt, tt)) Ha). right. left.
Defined.

(** *** Single linkage *)

Lemma distance_pair_id (ds : list Q) (a b : nat) :
  PrecomputedDistances.distance ds a b = getitem ds (pair_id a b).
Proof.
  unfold PrecomputedDistances.distance, pair_id. case_decide.
  - by rewrite Nat.max_l, Nat.min_r by lia.
  - by rewrite Nat.max_r, Nat.min_l by lia.
Qed.

Lemma distance_comm (ds : list Q) (a b : nat) :
  PrecomputedDistances.distance ds a b = PrecomputedDistances.distance ds b a.
Proof. by rewrite !distance_pair_id, pair_id_comm. Qed.

Lemma closest_comm (ds : list Q) (cx cr : list nat) (d : Q) :
  closest ds cx cr d -> closest ds cr cx d.
Proof.
  intros [(a & b & Ha & Hb & Hd) Hmin]. split.
  - exists b, a. by rewrite distance_comm.
  - intros a' b' d' Ha' Hb' Hd'. apply (Hmin b' a'); [done..|]. by rewrite distance_comm.
Qed.

Lemma closest_app (ds : list Q) (c1 c2 cr : list nat) (x y : Q) :
  closest ds c1 cr x -> closest ds c2 cr y ->
  closest ds (c1 ++ c2) cr (if Qltb y x then y else x).
Proof.
  intros [(a1 & b1 & Ha1 & Hb1 & Hd1) Hmin1] [(a2 & b2 & Ha2 & Hb2 & Hd2) Hmin2].
  destruct (Qltb y x) eqn:E.
  - apply Qltb_lt in E. split.
    + exists a2, b2. rewrite elem_of_app. auto.
    + intros a b d' [Ha|Ha]%elem_of_app Hb Hd.
      * specialize (Hmin1 a b d' Ha Hb Hd). lra.
      * by apply (Hmin2 a b d').
  - apply Qltb_ge in E. split.
    + exists a1, b1. rewrite elem_of_app. auto.
    + intros a b d' [Ha|Ha]%elem_of_app Hb Hd.
      * by apply (Hmin1 a b d').
      * specialize (Hmin2 a b d' Ha Hb Hd). lra.
Qed.

Lemma side_of_other (clusters : list (option (list nat))) (i j r x0 r0 : nat)
    (done : list nat) :
  x0 <> r0 -> i <> r -> pair_id x0 r0 <> pair_id i r ->
  side_of clusters i j (r :: done) x0 r0 = side_of clusters i j done x0 r0.
Proof.
  intros Hx Hir Hne. unfold side_of.
  destruct (decide (x0 = i /\ r0 ∈ r :: done)) as [[-> Hin]|Hno].
  - apply elem_of_cons in Hin as [->|Hin]; [done|].
    by rewrite decide_True.
  - rewrite decide_False; [done|]. intros [-> Hin]. apply Hno. split; [done | by right].
Qed.

Lemma side_of_merged (ds : list Q) (clusters : list (option (list nat)))
    (i j r x0 r0 : nat) (done : list nat) (x y : Q) :
  i <> r -> x0 <> r0 -> pair_id x0 r0 = pair_id i r ->
  closest ds (members_at clusters i) (members_at clusters r) x ->
  closest ds (members_at clusters j) (members_at clusters r) y ->
  closest ds (side_of clusters i j (r :: done) x0 r0) (side_of clusters i j (r :: done) r0 x0)
    (if Qltb y x then y else x).
Proof.
  intros Hir Hx E Hi Hj.
  assert (H : closest ds (side_of clusters i j (r :: done) i r)
                (side_of clusters i j (r :: done) r i) (if Qltb y x then y else x)).
  { unfold side_of. rewrite decide_True by (split; [done | by left]).
    rewrite decide_False by (intros [-> _]; done). by apply closest_app. }
  apply pair_id_inj in E as [[-> ->]|[-> ->]]; [done | | done | done].
  by apply closest_comm.
Qed.

Lemma elem_of_insert_inv {A} (l : list A) (i : nat) (x e : A) :
  e ∈ <[i := x]> l -> e = x \/ exists k, k <> i /\ l !! k = Some e.
Proof.
  intros [k Hk]%list_elem_of_lookup.
  apply list_lookup_insert_Some in Hk as [(-> & -> & _)|[Hne Hk]]; [by left|].
  right. exists k. split; [done | done].
Qed.

Section Linkage.
Context {Point : Type}.
Implicit Types (heap : list (@node (Point * Point))) (wh : list nat).
Implicit Types (clusters : list (option (list nat))).

Lemma where_ok_unique heap wh (s : nat) (a e : @node (Point * Point)) :
  where_ok heap wh -> heap !! s = Some a -> e ∈ heap -> pid e = pid a -> e = a.
Proof.
  intros Hok Ha [k Hk]%list_elem_of_lookup Hpid.
  pose proof (Hok _ _ Ha) as H1. pose proof (Hok _ _ Hk) as H2.
  rewrite Hpid in H2. congruence.
Qed.

Lemma merge_distances_link ds clusters (i j r : nat) (done : list nat) (theta : Q) heap wh :
  i <> j -> live clusters i -> live clusters j ->
  live clusters r -> r <> i -> r <> j -> r ∉ done ->
  linking ds clusters i j done theta heap wh ->
  exists heap' wh',
    merge_distances (heap, wh) (pair_id i r, pair_id j r) = Ok (heap', wh') /\
    linking ds clusters i j (r :: done) theta heap' wh' /\
    length heap' < length heap.
Proof.
  intros Hij Hi Hj Hr Hri Hrj Hdone (Hm & Hord & Htheta & Hlink).
  destruct (merge_distances_spec clusters i j r done heap wh)
    as (heap' & wh' & Hrun & Hm' & Hlen); try done.
  exists heap', wh'. split; [done|]. split; [|done].
  destruct Hm as (Hok & Hjd & Hp).
  (* the run, step by step *)
  unfold merge_distances in Hrun.
  apply outcome_bind_Ok in Hrun as (t & Hwt & Hrun). apply getitem_Ok in Hwt.
  apply outcome_bind_Ok in Hrun as ([[y py] u] & Hht & Hrun). apply getitem_Ok in Hht.
  apply outcome_bind_Ok in Hrun as (t' & Hwt' & Hrun). apply getitem_Ok in Hwt'.
  rewrite Hwt in Hwt'. injection Hwt' as <-.
  apply outcome_bind_Ok in Hrun as ([heap1 wh1] & Hrem & Hrun).
  destruct (remove_spec t heap wh _ Hok Hht) as (heap1' & wh1' & Hrem' & Hperm1 & _ & Hok1 & Hord1).
  rewrite Hrem in Hrem'. injection Hrem' as <- <-.
  apply outcome_bind_Ok in Hrun as (ta & Hwa & Hrun). apply getitem_Ok in Hwa.
  apply outcome_bind_Ok in Hrun as ([[x px] u'] & Hha & Hrun). apply getitem_Ok in Hha.
  (* the identifiers of the two entries *)
  assert (Hpy : py = pair_id j r).
  { assert (Hb : pair_id j r ∈ pid <$> heap).
    { apply Hp. split; [by exists j, r|]. split.
      - intros E. apply pair_id_inj in E; [lia|done..].
      - intros r' Hr' E. apply pair_id_inj in E; [|done|by intros ->].
        destruct E as [[_ ->]|[-> _]]; done. }
    destruct (where_ok_slot _ _ _ Hok Hb) as (t2 & y2 & u2 & Hwt2 & Hht2).
    assert (t2 = t) as -> by congruence.
    assert (E : Some (y, py, u) = Some (y2, pair_id j r, u2)) by (rewrite <- Hht; exact Hht2).
    by injection E. }
  subst py.
  destruct (removed_pids _ _ _ _ Hok Hperm1) as [Hlen1 Hp1]. cbn [pid fst snd] in Hp1.
  assert (Hpx : px = pair_id i r).
  { assert (Ha : pair_id i r ∈ pid <$> heap1).
    { apply Hp1. split.
      - apply Hp. split; [by exists i, r|]. split.
        + intros E. rewrite (pair_id_comm j i) in E. apply pair_id_inj in E; [lia|done..].
        + intros r' Hr' E. apply pair_id_inj in E; [|done|by intros ->].
          destruct E as [[-> _]|[_ ->]]; done.
      - intros E. apply pair_id_inj in E; [lia|done..]. }
    destruct (where_ok_slot _ _ _ Hok1 Ha) as (t2 & x2 & u2 & Hwt2 & Hht2).
    assert (t2 = ta) as -> by congruence.
    assert (E : Some (x, px, u') = Some (x2, pair_id i r, u2)) by (rewrite <- Hha; exact Hht2).
    by injection E. }
  subst px.
  assert (Hsub : forall e, e ∈ heap1 -> e ∈ heap).
  { intros e He. rewrite <- Hperm1. by right. }
  assert (Hbin : (y, pair_id j r, u) ∈ heap) by (by eapply list_elem_of_lookup_2).
  assert (Hain : (x, pair_id i r, u') ∈ heap1) by (by eapply list_elem_of_lookup_2).
  (* what the two entries say *)
  assert (Hcy : closest ds (members_at clusters j) (members_at clusters r) y).
  { pose proof (Hlink y _ u j r Hbin ltac:(done) eq_refl) as H.
    unfold side_of in H. rewrite !decide_False in H; [done | | ].
    - intros [-> _]. done.
    - intros [-> _]. done. }
  assert (Hcx : closest ds (members_at clusters i) (members_at clusters r) x).
  { pose proof (Hlink x _ u' i r (Hsub _ Hain) ltac:(done) eq_refl) as H.
    unfold side_of in H. rewrite !decide_False in H; [done | | ].
    - intros [-> _]. done.
    - intros [_ ?]. done. }
  (* the entries of the heap after the step *)
  assert (Hafter : heap_ordered heap' /\
            forall e, e ∈ heap' ->
              (pid e = pair_id i r /\ dist e = if Qltb y x then y else x) \/
              (e ∈ heap1 /\ pid e <> pair_id i r)).
  { destruct (Qltb y x) eqn:Eyx.
    - apply outcome_bind_Ok in Hrun as (ta' & Hwa' & Hrun). apply getitem_Ok in Hwa'.
      rewrite Hwa in Hwa'. injection Hwa' as <-.
      destruct (update_spec ta (y, pair_id i r, u) heap1 wh1 _ Hok1 Hha)
        as (heap2 & wh2 & Hupd & Hperm2 & _ & Hok2 & Hord2).
      { done. }
      { unfold node_ne, node_compare. cbn [dist pid fst snd].
        unfold Qltb in Eyx. by destruct (y ?= x)%Q. }
      rewrite Hrun in Hupd. injection Hupd as <- <-.
      split; [auto|]. intros e He. rewrite Hperm2 in He.
      apply elem_of_insert_inv in He as [->|(k & Hk & He)]; [by left|].
      right. split; [by eapply list_elem_of_lookup_2|].
      intros E. pose proof (Hok1 _ _ He) as H1. rewrite E, Hwa in H1. congruence.
    - injection Hrun as <- <-. split; [auto|]. intros e He.
      destruct (decide (pid e = pair_id i r)) as [E|E]; [|by right].
      left. split; [done|].
      by rewrite (where_ok_unique heap1 wh1 ta (x, pair_id i r, u') e Hok1 Hha He E). }
  destruct Hafter as [Hord' Hafter].
  split; [done|]. split; [done|]. split.
  - apply Forall_forall. intros e He. rewrite Forall_forall in Htheta.
    destruct (Hafter e He) as [[_ ->]|[He1 _]].
    + pose proof (Htheta _ Hbin) as H1. pose proof (Htheta _ (Hsub _ Hain)) as H2.
      cbn [dist fst snd] in H1, H2. by destruct (Qltb y x).
    + apply Htheta. by apply Hsub.
  - intros d p u0 x0 r0 He Hx0 ->.
    destruct (Hafter _ He) as [[E Hd]|[He1 E]]; cbn [pid dist fst snd] in E.
    + cbn [dist fst snd] in Hd. rewrite Hd. by apply side_of_merged.
    + rewrite !side_of_other; try done.
      * by apply (Hlink d _ u0 x0 r0 (Hsub _ He1)).
      * by rewrite pair_id_comm.
Qed.

Lemma merge_loop_link ds clusters (i j : nat) (theta : Q) :
  i <> j -> live clusters i -> live clusters j ->
  forall (todo done : list nat) heap wh,
  NoDup todo ->
  (forall r, r ∈ todo -> live clusters r /\ r <> i /\ r <> j /\ r ∉ done) ->
  linking ds clusters i j done theta heap wh ->
  exists heap' wh',
    for_each ((fun r => (pair_id i r, pair_id j r)) <$> todo) merge_distances (heap, wh)
      = Ok (heap', wh') /\
    linking ds clusters i j (reverse todo ++ done) theta heap' wh' /\
    length heap' <= length heap.
Proof.
  intros Hij Hi Hj. induction todo as [|r todo IH]; intros done heap wh Hnd Htodo Hm.
  - exists heap, wh. split; [done|]. split; [exact Hm | done].
  - apply NoDup_cons in Hnd as [Hr Hnd].
    destruct (Htodo r) as (Hlr & Hri & Hrj & Hrd); [by left|].
    destruct (merge_distances_link ds clusters i j r done theta heap wh)
      as (heap1 & wh1 & Hrun1 & Hm1 & Hlen1); try done.
    cbn [fmap list_fmap for_each]. rewrite Hrun1, outcome_bind_ret.
    destruct (IH (r :: done) heap1 wh1) as (heap' & wh' & Hrun & Hm' & Hlen); try done.
    { intros r' Hr'. destruct (Htodo r') as (? & ? & ? & ?); [by right|].
      repeat split; try done. apply not_elem_of_cons. split; [|done]. by intros ->. }
    exists heap', wh'. split; [done|]. split; [|lia].
    rewrite reverse_cons. by rewrite <- app_assoc.
Qed.

End Linkage.

(** *** Chains of short steps *)

Lemma edge_mono (ds : list Q) (theta theta' : Q) (c c' : list nat) (a b : nat) :
  (theta <= theta')%Q -> (forall x, x ∈ c -> x ∈ c') ->
  edge ds theta c a b -> edge ds theta' c' a b.
Proof.
  intros Hle Hsub (Hne & Ha & Hb & d & Hd & Hdle).
  split; [done|]. split; [auto|]. split; [auto|]. exists d. split; [done | lra].
Qed.

Lemma connected_mono (ds : list Q) (theta theta' : Q) (c c' : list nat) :
  (theta <= theta')%Q -> (forall x, x ∈ c <-> x ∈ c') ->
  connected ds theta c -> connected ds theta' c'.
Proof.
  intros Hle Hsub Hc a b Ha Hb. apply Hsub in Ha, Hb.
  eapply rtc_subrel; [|by apply Hc]. intros x y. apply edge_mono; [done|].
  intros z. apply Hsub.
Qed.

Lemma connected_singleton (ds : list Q) (theta : Q) (x : nat) : connected ds theta [x].
Proof.
  intros a b Ha Hb. apply list_elem_of_singleton in Ha, Hb. subst. apply rtc_refl.
Qed.

Lemma connected_merge (ds : list Q) (theta theta' : Q) (ci cj : list nat) (a b : nat) (d : Q) :
  (theta <= theta')%Q -> connected ds theta ci -> connected ds theta cj ->
  a ∈ ci -> b ∈ cj -> a <> b ->
  PrecomputedDistances.distance ds a b = Ok d -> (d <= theta')%Q ->
  connected ds theta' (ci ++ cj).
Proof.
  intros Hle Hci Hcj Ha Hb Hab Hd Hdle.
  assert (Hi : forall u v, u ∈ ci -> v ∈ ci -> rtc (edge ds theta' (ci ++ cj)) u v).
  { intros u v Hu Hv. eapply rtc_subrel; [|by apply Hci].
    intros x y. apply edge_mono; [done|]. intros z Hz. apply elem_of_app. by left. }
  assert (Hj : forall u v, u ∈ cj -> v ∈ cj -> rtc (edge ds theta' (ci ++ cj)) u v).
  { intros u v Hu Hv. eapply rtc_subrel; [|by apply Hcj].
    intros x y. apply edge_mono; [done|]. intros z Hz. apply elem_of_app. by right. }
  assert (Hab' : edge ds theta' (ci ++ cj) a b).
  { split; [done|]. rewrite !elem_of_app. split; [by left|]. split; [by right|]. by exists d. }
  assert (Hba : edge ds theta' (ci ++ cj) b a).
  { split; [done|]. rewrite !elem_of_app. split; [by right|]. split; [by left|].
    exists d. by rewrite distance_comm. }
  intros u v [Hu|Hu]%elem_of_app [Hv|Hv]%elem_of_app.
  - by apply Hi.
  - transitivity a; [by apply Hi|]. eapply rtc_l; [exact Hab'|]. by apply Hj.
  - transitivity b; [by apply Hj|]. eapply rtc_l; [exact Hba|]. by apply Hi.
  - by apply Hj.
Qed.

(** *** The clusters during the loop *)

Lemma members_at_lookup (clusters : list (option (list nat))) (x : nat) (c : list nat) :
  clusters !! x = Some (Some c) -> members_at clusters x = c.
Proof. unfold members_at. by intros ->. Qed.

Lemma lookup_concat_split {A} (l : list (list A)) (i : nat) (c : list A) :
  l !! i = Some c -> exists l1 l2, concat l = l1 ++ c ++ l2.
Proof.
  intros Hi. exists (concat (take i l)), (concat (drop (S i) l)).
  rewrite <- (take_drop_middle l i c Hi) at 1. by rewrite concat_app, concat_cons.
Qed.

Lemma cluster_NoDup (n : nat) (clusters : list (option (list nat))) (x : nat) (c : list nat) :
  clusters_ok n clusters -> clusters !! x = Some (Some c) -> NoDup c.
Proof.
  intros (_ & _ & Hflat) Hx.
  assert (Hnd : NoDup (flat clusters)) by (rewrite Hflat; apply NoDup_seq).
  unfold flat in Hnd.
  destruct (lookup_concat_split (default [] <$> clusters) x c) as (l1 & l2 & E).
  { by rewrite list_lookup_fmap, Hx. }
  rewrite E in Hnd. apply NoDup_app in Hnd as (_ & _ & Hnd).
  by apply NoDup_app in Hnd as (Hnd & _ & _).
Qed.

Lemma live_lists_pos (clusters : list (option (list nat))) (r : nat) :
  live clusters r -> 1 <= length (live_lists clusters).
Proof.
  revert r. induction clusters as [|c clusters IH]; intros r Hr.
  - unfold live in Hr. by rewrite lookup_nil in Hr.
  - rewrite live_lists_cons. destruct r as [|r].
    + unfold live in Hr. cbn in Hr. rewrite Hr. lia.
    + specialize (IH r Hr). lia.
Qed.

Lemma elem_of_live_lists (clusters : list (option (list nat))) (c : list nat) :
  c ∈ live_lists clusters <-> c <> [] /\ exists x, clusters !! x = Some (Some c).
Proof.
  unfold live_lists. rewrite list_elem_of_omap. split.
  - intros (oc & Hoc & Hc). destruct oc as [[|y l]|]; cbn in Hc; try done.
    injection Hc as <-. split; [done|].
    by apply list_elem_of_lookup in Hoc as [x Hx]; exists x.
  - intros (Hne & x & Hx). exists (Some c). split; [by eapply list_elem_of_lookup_2|].
    by destruct c.
Qed.

Section LinkageLoop.
Context {Point : Type}.
Implicit Types (heap : list (@node (Point * Point))) (wh : list nat).
Implicit Types (clusters : list (option (list nat))).

Lemma side_of_final clusters (n i j x0 r0 : nat) (ci cj : list nat) :
  length clusters = n -> i <> j ->
  clusters !! i = Some (Some ci) -> clusters !! j = Some (Some cj) ->
  x0 <> j -> r0 <> j -> x0 <> r0 -> live clusters r0 ->
  side_of clusters i j (reverse (others clusters i j n) ++ []) x0 r0
  = members_at (<[j := None]> (<[i := Some (ci ++ cj)]> clusters)) x0.
Proof.
  intros Hn Hij Hi Hj Hx0 Hr0 Hne Hlive. unfold side_of.
  assert (Hil : i < length clusters) by (by eapply lookup_lt_Some).
  destruct (decide (x0 = i)) as [->|Hxi].
  - rewrite decide_True.
    + rewrite (members_at_lookup _ _ _ Hi), (members_at_lookup _ _ _ Hj).
      symmetry. apply members_at_lookup.
      rewrite list_lookup_insert_ne by done. by apply list_lookup_insert_eq.
    + split; [done|]. rewrite app_nil_r. apply elem_of_reverse, elem_of_others.
      split; [lia|]. split; [done|]. split; [done|]. rewrite <- Hn. by apply live_lt.
  - rewrite decide_False by (intros [? _]; done).
    unfold members_at. by rewrite !list_lookup_insert_ne by done.
Qed.

Lemma merge_heap_link ds clusters (n i j x : nat) (l cj : list nat) (theta : Q) heap wh :
  length clusters = n -> i <> j ->
  clusters !! i = Some (Some (x :: l)) -> clusters !! j = Some (Some cj) ->
  live clusters j ->
  heap_tracks clusters heap wh -> heap_ordered heap ->
  Forall (fun e => (theta <= dist e)%Q) heap ->
  heap_linkage ds (fun x' _ => members_at clusters x') heap ->
  exists heap' wh',
    merge_heap clusters n i j (pair_id j i) heap wh = Ok (heap', wh') /\
    heap_tracks (<[j := None]> (<[i := Some ((x :: l) ++ cj)]> clusters)) heap' wh' /\
    length heap' < length heap /\
    heap_ordered heap' /\
    Forall (fun e => (theta <= dist e)%Q) heap' /\
    heap_linkage ds
      (fun x' _ => members_at (<[j := None]> (<[i := Some ((x :: l) ++ cj)]> clusters)) x')
      heap'.
Proof.
  intros Hn Hij Hci Hcj Hj Htr Hord Htheta Hlink.
  destruct (merge_heap_spec clusters n i j x l cj heap wh Hn Hij Hci Hj Htr)
    as (heap' & wh' & Hrun & Htr' & Hlen).
  exists heap', wh'. split; [done|]. split; [done|]. split; [done|].
  destruct Htr as [Hok Hp].
  assert (Hi : live clusters i) by (apply live_lookup; eauto).
  assert (Hin : i < n) by (rewrite <- Hn; by apply live_lt).
  assert (Hjn : j < n) by (rewrite <- Hn; by apply live_lt).
  assert (Hpop : pair_id j i ∈ pid <$> heap) by (apply Hp; by exists j, i).
  destruct (where_ok_slot _ _ _ Hok Hpop) as (t & d & u & Hwt & Hht).
  unfold merge_heap in Hrun.
  rewrite (proj2 (getitem_Ok wh _ t) Hwt), outcome_bind_ret in Hrun.
  destruct (remove_spec t heap wh _ Hok Hht) as (heap1 & wh1 & Hrem & Hperm1 & _ & Hok1 & Hord1).
  rewrite Hrem, outcome_bind_ret in Hrun. cbv beta iota in Hrun.
  destruct (removed_pids _ _ _ _ Hok Hperm1) as [Hlen1 Hp1]. cbn [pid fst snd] in Hp1.
  rewrite merge_pairs in Hrun by done.
  assert (Hsub : forall e, e ∈ heap1 -> e ∈ heap).
  { intros e He. rewrite <- Hperm1. by right. }
  destruct (merge_loop_link ds clusters i j theta Hij Hi Hj (others clusters i j n) []
              heap1 wh1)
    as (heap2 & wh2 & Hrun2 & (_ & Hord2 & Htheta2 & Hlink2) & _).
  { apply NoDup_others. }
  { intros r Hr. apply elem_of_others in Hr as (? & ? & ? & ?).
    repeat split; try done. apply not_elem_of_nil. }
  { split; [|split; [auto|split]].
    - split; [done|]. split; [apply not_elem_of_nil|].
      intros p. rewrite Hp1, Hp. split.
      + intros [Hl Hne]. split; [done|]. split; [done|].
        intros r Hr. by apply elem_of_nil in Hr.
      + intros (Hl & Hne & _). done.
    - apply Forall_forall. intros e He. rewrite Forall_forall in Htheta.
      apply Htheta. by apply Hsub.
    - intros d0 p u0 x0 r0 He Hne ->. unfold side_of.
      rewrite !decide_False by (intros [_ H]; by apply elem_of_nil in H).
      by apply (Hlink d0 _ u0 x0 r0 (Hsub _ He)). }
  rewrite Hrun in Hrun2. injection Hrun2 as <- <-.
  split; [done|]. split; [done|].
  intros d0 p u0 x0 r0 He Hne ->.
  assert (Hlive : forall r, live (<[j := None]> (<[i := Some ((x :: l) ++ cj)]> clusters)) r
                            <-> live clusters r /\ r <> j).
  { intros r. apply live_merged; [done..|]. by rewrite Hn. }
  assert (Hboth : (live clusters x0 /\ x0 <> j) /\ (live clusters r0 /\ r0 <> j)).
  { destruct Htr' as [_ Hp'].
    assert (Hin' : pair_id x0 r0 ∈ pid <$> heap').
    { apply list_elem_of_fmap. exists (d0, pair_id x0 r0, u0). done. }
    apply Hp' in Hin' as (a & b & Hab & Ha & Hb & E).
    apply Hlive in Ha, Hb.
    apply pair_id_inj in E as [[-> ->]|[-> ->]]; done. }
  destruct Hboth as [[Hx0 Hx0j] [Hr0 Hr0j]].
  rewrite <- (side_of_final clusters n i j x0 r0 (x :: l) cj) by done.
  rewrite <- (side_of_final clusters n i j r0 x0 (x :: l) cj) by done.
  by apply (Hlink2 d0 (pair_id x0 r0) u0 x0 r0).
Qed.

Lemma reduce_body_link (ds : list Q) (n : nat) (theta : Q)
    (st : @reduce_state Point (mc_state no_criterion)) :
  linked_inv ds n theta st -> 0 < length (r_heap st) ->
  exists st' theta',
    reduce_body no_criterion n (lookup_table n) st = Ok (true, st') /\
    linked_inv ds n theta' st' /\
    length (r_heap st') < length (r_heap st) /\
    r_n_clusters st' = (r_n_clusters st - 1)%Z /\ (2 <= r_n_clusters st)%Z.
Proof.
  intros (Hinv & Hord & Htheta & Hlink & Hconn) Hlen.
  destruct (reduce_body_total n st Hinv Hlen) as (st' & Hbody & Hinv' & Hlen' & Hn').
  destruct Hinv as (Hcl & Hdom & Hcrit & Htr & Hnc).
  pose proof Hbody as Hrun. unfold reduce_body in Hrun.
  apply outcome_bind_Ok in Hrun as ([[[d p] i] j] & Hpop & Hrun).
  apply popped_spec in Hpop as (Hij & -> & u & Hroot).
  rewrite Hcrit in Hrun. cbn [consult] in Hrun. rewrite outcome_bind_ret in Hrun.
  cbv beta iota in Hrun. cbn [negb] in Hrun.
  apply outcome_bind_Ok in Hrun as ([heap' wh'] & Hheap & Hrun).
  apply outcome_bind_Ok in Hrun as (dominant & Hdominant & Hrun).
  apply outcome_bind_Ok in Hrun as (clusters' & Hmerge & Hrun).
  injection Hrun as <-.
  apply merge_clusters_spec in Hmerge as (ci & cj & Hci & Hcj & ->).
  assert (Hpid : _index j i = pair_id j i).
  { unfold pair_id. by rewrite decide_True by lia. }
  rewrite Hpid in *.
  assert (Hrootin : (d, pair_id j i, u) ∈ r_heap st) by (by eapply list_elem_of_lookup_2).
  (* the two clusters are live *)
  assert (Hlive : live (r_clusters st) i /\ live (r_clusters st) j).
  { destruct Htr as [_ Hp].
    assert (Hin : pair_id j i ∈ pid <$> r_heap st).
    { apply list_elem_of_fmap. by exists (d, pair_id j i, u). }
    apply Hp in Hin as (a & b & Hab & Ha & Hb & E).
    apply pair_id_inj in E as [[-> ->]|[-> ->]]; [done | done | lia | done]. }
  destruct Hlive as [Hi Hj].
  pose proof (proj1 (live_lookup _ _) Hi) as (x & l & Hci').
  rewrite Hci in Hci'. injection Hci' as ->.
  pose proof Hcl as (Hn & _ & _).
  (* the root is below every entry *)
  assert (Hmin : Forall (fun e => (d <= dist e)%Q) (r_heap st)).
  { apply Forall_forall. intros e He.
    by apply (nle_dist (d, pair_id j i, u) e), (heap_ordered_root (r_heap st)). }
  assert (Hle : (theta <= d)%Q).
  { rewrite Forall_forall in Htheta. by apply (Htheta _ Hrootin). }
  destruct (merge_heap_link ds (r_clusters st) n i j x l cj d (r_heap st) (r_where st))
    as (heap2 & wh2 & Hheap2 & _ & _ & Hord2 & Htheta2 & Hlink2); try done; [lia|].
  rewrite Hheap in Hheap2. injection Hheap2 as <- <-.
  eexists. exists d. split; [exact Hbody|]. split; [|split; [done|split; [done|]]].
  - split; [done|]. cbn [r_heap r_clusters]. split; [done|]. split; [done|]. split; [done|].
    intros x0 c Hx0.
    assert (Hil : i < length (r_clusters st)) by (by eapply lookup_lt_Some).
    destruct (decide (x0 = j)) as [->|Hx0j].
    { assert (Hjl : j < length (r_clusters st)) by (by eapply lookup_lt_Some).
      rewrite list_lookup_insert_eq in Hx0 by (by rewrite length_insert).
      discriminate Hx0. }
    rewrite list_lookup_insert_ne in Hx0 by done.
    destruct (decide (x0 = i)) as [->|Hx0i].
    + rewrite list_lookup_insert_eq in Hx0 by done. injection Hx0 as <-.
      pose proof (Hlink d _ u j i Hrootin ltac:(lia) eq_refl) as [(a & b & Ha & Hb & Hd) _].
      rewrite (members_at_lookup _ _ _ Hci) in Hb.
      rewrite (members_at_lookup _ _ _ Hcj) in Ha.
      apply (connected_merge ds theta d (x :: l) cj b a d); try done.
      * by apply (Hconn i).
      * by apply (Hconn j).
      * assert (Hnd : NoDup ((x :: l) ++ cj)).
        { apply (cluster_NoDup n (<[j := None]> (<[i := Some ((x :: l) ++ cj)]> (r_clusters st))) i);
            [apply Hinv'|].
          rewrite list_lookup_insert_ne by lia. by apply list_lookup_insert_eq. }
        apply NoDup_app in Hnd as (_ & Hdisj & _). intros ->. by apply (Hdisj a).
      * by rewrite distance_comm.
      * lra.
    + rewrite list_lookup_insert_ne in Hx0 by done.
      apply (connected_mono ds theta d c c); [done | done | by apply (Hconn x0)].
  - destruct Hinv' as (_ & _ & _ & _ & Hnc').
    assert (Hi' : live (<[j := None]> (<[i := Some ((x :: l) ++ cj)]> (r_clusters st))) i).
    { apply live_lookup. exists x, (l ++ cj).
      rewrite list_lookup_insert_ne by lia. apply list_lookup_insert_eq.
      by eapply lookup_lt_Some. }
    pose proof (live_lists_pos _ i Hi') as Hpos.
    cbn [r_clusters r_n_clusters] in Hnc', Hn'. lia.
Qed.

End LinkageLoop.

(** *** Sorting by a key *)

Lemma insert_by_sorted {A} (key : A -> nat) (x : A) (l : list A) :
  StronglySorted (fun a b => key a <= key b) l ->
  StronglySorted (fun a b => key a <= key b) (insert_by key x l).
Proof.
  induction 1 as [|y l Hl IH Hy]; cbn [insert_by].
  - repeat constructor.
  - destruct (decide (key x <= key y)) as [Hxy|Hxy].
    + constructor; [by constructor|]. constructor; [done|].
      eapply Forall_impl; [exact Hy|]. intros z Hz. simpl in Hz. lia.
    + constructor; [done|]. apply Forall_forall. intros z Hz.
      rewrite insert_by_perm in Hz. apply elem_of_cons in Hz as [->|Hz]; [lia|].
      rewrite Forall_forall in Hy. by apply Hy.
Qed.

Lemma sorted_by_sorted {A} (key : A -> nat) (l : list A) :
  StronglySorted (fun a b => key a <= key b) (sorted_by key l).
Proof.
  unfold sorted_by. induction l as [|x l IH]; cbn [foldr]; [constructor|].
  by apply insert_by_sorted.
Qed.

Lemma sorted_keys {A} (key : A -> nat) (l : list A) :
  StronglySorted (fun a b => key a <= key b) l -> StronglySorted le (key <$> l).
Proof.
  induction 1 as [|y l Hl IH Hy]; cbn; constructor; [done|]. by apply Forall_fmap.
Qed.

Lemma sorted_lookup_lt {A} (R : A -> A -> Prop) (l : list A) :
  StronglySorted R l ->
  forall (i j : nat) (x y : A), l !! i = Some x -> l !! j = Some y -> i < j -> R x y.
Proof.
  induction 1 as [|z l Hl IH Hz]; intros i j x y Hi Hj Hij; [done|].
  destruct j as [|j]; [lia|]. cbn in Hj. destruct i as [|i]; cbn in Hi.
  - injection Hi as <-. rewrite Forall_forall in Hz. apply Hz.
    by eapply list_elem_of_lookup_2.
  - apply (IH i j); [done | done | lia].
Qed.

Lemma firsts_NoDup (cs : list (list nat)) :
  Forall (fun c => c <> []) cs -> NoDup (concat cs) -> NoDup (first_of <$> cs).
Proof.
  induction cs as [|c cs IH]; intros Hne Hnd; [constructor|].
  apply Forall_cons in Hne as [Hc Hne]. cbn in Hnd |- *.
  apply NoDup_app in Hnd as (_ & Hdisj & Hnd).
  constructor; [|by apply IH].
  destruct c as [|h t]; [done|]. unfold first_of at 1. cbn.
  intros ([|h' t'] & E & Hc')%list_elem_of_fmap.
  - rewrite Forall_forall in Hne. by apply (Hne []).
  - unfold first_of in E. cbn in E. subst h'.
    apply (Hdisj h); [by left|]. apply elem_of_concat. exists (h :: t'). split; [done | by left].
Qed.

Lemma ascending_first (c : list nat) (j : nat) :
  ascending c -> j ∈ c -> first_of c <= j.
Proof.
  intros Hc Hj. destruct c as [|h t]; [by apply elem_of_nil in Hj|].
  unfold first_of. cbn. apply StronglySorted_inv in Hc as [_ Hh].
  apply elem_of_cons in Hj as [->|Hj]; [done|].
  rewrite Forall_forall in Hh. specialize (Hh j Hj). lia.
Qed.

Lemma first_of_elem (c : list nat) : c <> [] -> first_of c ∈ c.
Proof. destruct c as [|h t]; [done|]. intros _. by left. Qed.

(** *** The run of [reduce] with an integer [k] *)

Section LinkageRun.
Context {Point : Type}.
Implicit Types (heap : list (@node (Point * Point))) (wh : list nat).

Lemma reduce_loop_link (ds : list Q) (n : nat) (target : Z) :
  forall (fuel : nat) (st : @reduce_state Point (mc_state no_criterion)) (theta : Q),
  linked_inv ds n theta st -> length (r_heap st) < fuel ->
  exists st' theta',
    reduce_loop fuel no_criterion n (lookup_table n) target st = Ok st' /\
    linked_inv ds n theta' st' /\
    r_n_clusters st' = Z.min (r_n_clusters st) (Z.max 1 target).
Proof.
  induction fuel as [|fuel IH]; intros st theta Hinv Hfuel; [lia|].
  cbn [reduce_loop]. destruct (decide _) as [[Hlen Hgt]|Hstop].
  - destruct (reduce_body_link ds n theta st Hinv Hlen)
      as (st1 & theta1 & Hbody & Hinv1 & Hlen1 & Hn1 & Htwo).
    rewrite Hbody.
    destruct (IH st1 theta1 Hinv1 ltac:(lia)) as (st' & theta' & Hrun & Hinv' & Hn').
    exists st', theta'. split; [done|]. split; [done|]. lia.
  - exists st, theta. split; [done|]. split; [done|].
    destruct (decide (target < r_n_clusters st)%Z) as [Hgt|]; [|lia].
    assert (Hempty : length (r_heap st) = 0) by lia.
    destruct Hinv as ((_ & _ & _ & [_ Hp] & Hnc) & _).
    destruct (decide (2 <= length (live_lists (r_clusters st)))) as [Htwo|]; [|lia].
    destruct (live_lists_two (r_clusters st) Htwo) as (r & s & Hrs & Hr & Hs).
    assert (Hin : pair_id r s ∈ pid <$> r_heap st) by (apply Hp; by exists r, s).
    apply length_zero_iff_nil in Hempty. rewrite Hempty in Hin. by apply elem_of_nil in Hin.
Qed.

Lemma initial_heap_entries (ds : list Q) (pairs : list (Point * Point))
    (d : Q) (p : nat) (u : Point * Point) :
  (d, p, u) ∈ initial_heap ds (seq 0 (length ds)) pairs -> ds !! p = Some d.
Proof.
  unfold initial_heap. intros [k Hk]%list_elem_of_lookup.
  apply lookup_zip_with_Some in Hk as ([d1 p1] & u1 & E & Hk & _).
  injection E as -> -> ->.
  apply lookup_zip_with_Some in Hk as (d2 & p2 & E & Hd & Hp).
  injection E as -> ->. apply lookup_seq in Hp as [-> _]. done.
Qed.

Lemma singletons_members (n x : nat) :
  x < n -> members_at ((fun i => Some [i]) <$> seq 0 n) x = [x].
Proof.
  intros Hx. unfold members_at. by rewrite list_lookup_fmap, lookup_seq_lt.
Qed.

Lemma pair_id_below (n x r : nat) :
  x <> r -> pair_id x r < _index n 0 -> x < n /\ r < n.
Proof.
  intros Hxr Hp. rewrite <- lookup_table_length in Hp.
  destruct (lookup_lt_is_Some_2 _ _ Hp) as [[a b] Hab].
  apply lookup_table_lookup in Hab as [Hlt E].
  assert (E' : pair_id x r = pair_id a b).
  { rewrite E. symmetry. unfold pair_id. by rewrite decide_True by lia. }
  apply pair_id_inj in E' as [[-> ->]|[-> ->]]; lia.
Qed.

(** With an integer [k] and a table of all the pairwise distances, [reduce]
    returns; its clusters partition the point indices, are sorted, and form
    a single linkage clustering. *)
Lemma reduce_run_link (points : list Point) (m : mode) (k : Z) (ds : list Q) :
  m = mode_clusters \/ m = mode_components ->
  length ds = _index (length points) 0 ->
  exists out cs theta,
    reduce_run points m no_criterion None k ds = Ok out /\
    partitions (length points) cs /\ length cs = clamped (length points) k /\
    renders points m cs out /\
    Forall ascending cs /\ ascending (first_of <$> cs) /\
    (forall c c' a b d, c ∈ cs -> c' ∈ cs -> c <> c' -> a ∈ c -> b ∈ c' ->
       PrecomputedDistances.distance ds a b = Ok d -> (theta <= d)%Q) /\
    Forall (connected ds theta) cs.
Proof.
  intros Hm Hlen. unfold reduce_run.
  destruct (initial_pairs_total points) as (pairs & -> & Hpairs).
  rewrite outcome_bind_ret. cbv zeta.
  assert (Hpl : length pairs = length ds) by lia.
  destruct (heapify_ordered _ _ (initial_heap_where ds pairs Hpl))
    as (heap & wh & -> & Hperm & Hok & Hord).
  rewrite outcome_bind_ret. cbv beta iota.
  assert (Hdom : initial_dominant m (length points) = Ok None) by (by destruct Hm as [-> | ->]).
  rewrite Hdom, outcome_bind_ret.
  set (theta0 := match heap !! 0 with Some a => dist a | None => 0%Q end).
  destruct (reduce_loop_link ds (length points) k (S (length heap))
              {| r_clusters := (fun i => Some [i]) <$> seq 0 (length points);
                 r_heap := heap; r_where := wh; r_dominant := None;
                 r_n_clusters := Z.of_nat (length points);
                 r_criterion := (None : option (mc_state no_criterion)) |} theta0)
    as (st & theta & -> & ((Hcl & Hd & Hc & Htr & Hnc) & _ & Htheta & Hlink & Hconn) & Hn).
  { split; [|split; [done|split; [|split]]]; cbn [r_heap r_clusters].
    - split; [apply singletons_ok|]. split; [done|]. split; [done|]. split.
      + split; [done|]. intros p. cbn [r_heap r_clusters]. rewrite Hperm, initial_heap_pids by done.
        rewrite singletons_pairs, elem_of_seq. lia.
      + cbn [r_n_clusters r_clusters].
        by rewrite live_lists_singletons, length_fmap, length_seq.
    - apply Forall_forall. intros e He. unfold theta0.
      destruct (heap !! 0) as [a|] eqn:Ea.
      + by apply nle_dist, (heap_ordered_root heap).
      + apply lookup_ge_None in Ea. destruct heap; [by apply elem_of_nil in He | cbn in Ea; lia].
    - intros d p u x r He Hxr ->. rewrite Hperm in He.
      apply initial_heap_entries in He.
      destruct (pair_id_below (length points) x r Hxr) as [Hx Hr].
      { rewrite <- Hlen. by eapply lookup_lt_Some. }
      rewrite !singletons_members by done. split.
      + exists x, r. split; [by left|]. split; [by left|].
        rewrite distance_pair_id. by apply getitem_Ok.
      + intros a b d' ->%list_elem_of_singleton ->%list_elem_of_singleton Hd'.
        rewrite distance_pair_id in Hd'. apply getitem_Ok in Hd'.
        rewrite He in Hd'. injection Hd' as <-. lra.
    - intros x c Hx. rewrite list_lookup_fmap in Hx.
      destruct (seq 0 (length points) !! x) as [y|]; [|done].
      injection Hx as <-. apply connected_singleton. }
  { cbn [r_heap]. lia. }
  cbn [r_n_clusters] in Hn.
  rewrite outcome_bind_ret. unfold final_result. rewrite Hd, Hc.
  destruct (sorted_result_clusters (r_clusters st)) as (res & Hres & Hconcat & Hne & Hreslen).
  rewrite Hres, outcome_bind_ret.
  pose proof Hcl as (_ & _ & Hflat).
  assert (Hpart : concat res ≡ₚ seq 0 (length points)) by (by rewrite Hconcat).
  destruct (render_total points m res Hm Hpart) as [out Hout].
  (* the clusters of the result are the live clusters, sorted *)
  assert (Hres' : res = sorted_by first_of (sorted <$> live_lists (r_clusters st))).
  { cbn [sorted_result] in Hres. by injection Hres as <-. }
  assert (Hfrom : forall c, c ∈ res ->
            exists x c0, r_clusters st !! x = Some (Some c0) /\ c0 <> [] /\ c = sorted c0).
  { intros c Hc'. rewrite Hres', sorted_by_perm in Hc'.
    apply list_elem_of_fmap in Hc' as (c0 & -> & Hc0).
    apply elem_of_live_lists in Hc0 as (Hne0 & x & Hx). by exists x, c0. }
  exists out, res, theta. split; [done|]. split; [done|]. split.
  { unfold clamped. lia. }
  split; [by apply render_spec|]. split; [|split; [|split]].
  - apply Forall_forall. intros c Hc'.
    destruct (Hfrom c Hc') as (x & c0 & Hx & _ & ->).
    apply sorted_ascending. by apply (cluster_NoDup (length points) (r_clusters st) x).
  - apply le_NoDup_ascending.
    + apply sorted_keys. rewrite Hres'. apply sorted_by_sorted.
    + apply firsts_NoDup; [done|]. rewrite Hpart. apply NoDup_seq.
  - intros c c' a b d Hc1 Hc2 Hne' Ha Hb Hdist.
    destruct (Hfrom c Hc1) as (x & c0 & Hx & Hne0 & ->).
    destruct (Hfrom c' Hc2) as (x' & c0' & Hx' & Hne0' & ->).
    rewrite sorted_perm in Ha, Hb.
    assert (Hxx : x <> x') by (intros ->; congruence).
    assert (Hin : pair_id x x' ∈ pid <$> r_heap st).
    { apply Htr. exists x, x'. split; [done|]. split; [|split; [|done]].
      - apply live_lookup. destruct c0 as [|y l]; [done|]. eauto.
      - apply live_lookup. destruct c0' as [|y l]; [done|]. eauto. }
    apply list_elem_of_fmap in Hin as ([[d0 p0] u0] & Hp0 & He). cbn [pid fst snd] in Hp0.
    subst p0.
    pose proof (Hlink d0 _ u0 x x' He Hxx eq_refl) as [_ Hmin].
    rewrite (members_at_lookup _ _ _ Hx), (members_at_lookup _ _ _ Hx') in Hmin.
    rewrite Forall_forall in Htheta. pose proof (Htheta _ He) as Hle. cbn [dist fst snd] in Hle.
    specialize (Hmin a b d Ha Hb Hdist). lra.
  - apply Forall_forall. intros c Hc'.
    destruct (Hfrom c Hc') as (x & c0 & Hx & _ & ->).
    apply (connected_mono ds theta theta c0); [lra | | by apply (Hconn x)].
    intros z. by rewrite sorted_perm.
Qed.

End LinkageRun.

Lemma table_length (n : nat) : n * (n - 1) / 2 = _index n 0.
Proof. unfold _index. by rewrite Nat.add_0_l, Nat.mul_comm. Qed.

(** The cluster of an index in a partition the components array presents. *)
Lemma component_cluster (n : nat) (cs : list (list nat)) (comps : list nat) (a : nat) :
  concat cs ≡ₚ seq 0 n ->
  (forall i c j, cs !! i = Some c -> j ∈ c -> comps !! j = Some (i + 1)) ->
  a < n ->
  exists i c, cs !! i = Some c /\ a ∈ c /\ comps !! a = Some (i + 1).
Proof.
  intros Hperm Hin Ha.
  assert (Hc : a ∈ concat cs) by (rewrite Hperm; apply elem_of_seq; lia).
  apply elem_of_concat in Hc as (c & Hc & Hac).
  apply list_elem_of_lookup in Hc as [i Hi].
  exists i, c. split; [done|]. split; [done|]. by apply (Hin i c).
Qed.

(** X6.  For every integer [k], also one below 1 or above the number [n] of
    points, [agglomerate] in mode [components] returns an array of length
    [n] whose values are exactly the cluster numbers [1, ..., K], where [K]
    is [k] brought into the range from 1 to [n] (and 0 when there are no
    points). *)
Theorem agglomerate_any_k `{RM : RandomModule} {Point : Type}
    (points : list Point) (k : Z) (ds : list Q) :
  length ds = length points * (length points - 1) / 2 ->
  exists components,
    agglomerate points (KInt k) (Precomputed ds) mode_components
      = Ok (OutComponents components) /\
    length components = length points /\
    forall c, c ∈ components <->
      1 <= c <= Z.to_nat (Z.min (Z.of_nat (length points)) (Z.max 1 k)).
Proof.
  intros Hlen.
  destruct (reduce_run_link points mode_components k ds)
    as (out & cs & theta & Hrun & Hpart & Hcs & Hout & _); [by right | by rewrite Hlen, table_length |].
  destruct out as [pcs|components]; [done|]. destruct Hout as [Hl Hin].
  destruct Hpart as [Hperm Hne]. unfold clamped in Hcs.
  exists components. split; [exact Hrun|]. split; [done|].
  intros c. rewrite <- Hcs. split.
  - intros Hc. apply list_elem_of_lookup in Hc as [j Hj].
    destruct (component_cluster (length points) cs components j Hperm Hin)
      as (i & l & Hi & _ & Hj').
    { apply lookup_lt_Some in Hj. lia. }
    rewrite Hj' in Hj. injection Hj as <-. apply lookup_lt_Some in Hi. lia.
  - intros Hc. destruct (lookup_lt_is_Some_2 cs (c - 1)) as [l Hl']; [lia|].
    rewrite Forall_forall in Hne.
    destruct l as [|j l]; [by destruct (Hne [] (list_elem_of_lookup_2 _ _ _ Hl'))|].
    apply (list_elem_of_lookup_2 _ j).
    replace c with (c - 1 + 1) by lia. apply (Hin (c - 1) (j :: l)); [done | by left].
Qed.

Lemma agglomerate_any_k_witness :
  exists components,
    @agglomerate lcg_random Z line_points (KInt (-3)) (Precomputed (line_matrix line_points))
      mode_components = Ok (OutComponents components) /\
    length components = length line_points /\
    forall c, c ∈ components <-> 1 <= c <= 1.
Proof.
  apply (@agglomerate_any_k lcg_random Z line_points (-3) (line_matrix line_points)).
  reflexivity.
Defined.

(** X7.  [agglomerate] with an integer [k] forms a single linkage
    clustering: there is a threshold [theta] such that two points with
    different cluster numbers are at a distance of at least [theta], while
    two points with the same cluster number are joined by a chain of points
    of their cluster whose steps are at most [theta] long. *)
Theorem agglomerate_single_linkage `{RM : RandomModule} {Point : Type}
    (points : list Point) (k : Z) (ds : list Q) :
  length ds = length points * (length points - 1) / 2 ->
  exists components theta,
    agglomerate points (KInt k) (Precomputed ds) mode_components
      = Ok (OutComponents components) /\
    (forall a b ca cb d,
       components !! a = Some ca -> components !! b = Some cb -> ca <> cb ->
       PrecomputedDistances.distance ds a b = Ok d -> (theta <= d)%Q) /\
    (forall a b c,
       components !! a = Some c -> components !! b = Some c ->
       rtc (close_step ds theta components) a b).
Proof.
  intros Hlen.
  destruct (reduce_run_link points mode_components k ds)
    as (out & cs & theta & Hrun & [Hperm Hne] & _ & Hout & _ & _ & Hsep & Hconn);
    [by right | by rewrite Hlen, table_length |].
  destruct out as [pcs|components]; [done|]. destruct Hout as [Hl Hin].
  exists components, theta. split; [exact Hrun|]. split.
  - intros a b ca cb d Ha Hb Hne' Hd.
    destruct (component_cluster (length points) cs components a Hperm Hin)
      as (ia & la & Hia & Hala & Ha'); [apply lookup_lt_Some in Ha; lia|].
    destruct (component_cluster (length points) cs components b Hperm Hin)
      as (ib & lb & Hib & Hblb & Hb'); [apply lookup_lt_Some in Hb; lia|].
    apply (Hsep la lb a b d); try done.
    + by eapply list_elem_of_lookup_2.
    + by eapply list_elem_of_lookup_2.
    + intros ->. pose proof (Hin ib lb a Hib Hala) as Ha''. congruence.
  - intros a b c Ha Hb.
    destruct (component_cluster (length points) cs components a Hperm Hin)
      as (ia & la & Hia & Hala & Ha'); [apply lookup_lt_Some in Ha; lia|].
    destruct (component_cluster (length points) cs components b Hperm Hin)
      as (ib & lb & Hib & Hblb & Hb'); [apply lookup_lt_Some in Hb; lia|].
    assert (ib = ia) as -> by (rewrite Ha in Ha'; rewrite Hb in Hb'; simplify_eq; lia).
    rewrite Hia in Hib. injection Hib as <-.
    rewrite Forall_forall in Hconn.
    pose proof (Hconn la (list_elem_of_lookup_2 _ _ _ Hia) a b Hala Hblb) as Hchain.
    eapply rtc_subrel; [|exact Hchain].
    intros x y (Hxy & Hx & Hy & Hd). split; [done|]. split; [|done].
    exists (ia + 1). split; by apply (Hin ia la).
Qed.

Lemma agglomerate_single_linkage_witness :
  exists components theta,
    @agglomerate lcg_random Z line_points (KInt 2) (Precomputed (line_matrix line_points))
      mode_components = Ok (OutComponents components) /\
    (forall a b ca cb d,
       components !! a = Some ca -> components !! b = Some cb -> ca <> cb ->
       PrecomputedDistances.distance (line_matrix line_points) a b = Ok d -> (theta <= d)%Q) /\
    (forall a b c,
       components !! a = Some c -> components !! b = Some c ->
       rtc (close_step (line_matrix line_points) theta components) a b).
Proof.
  apply (@agglomerate_single_linkage lcg_random Z line_points 2 (line_matrix line_points)).
  reflexivity.
Defined.

(** X8.  In mode [clusters], with an integer [k], [agglomerate] returns the
    clusters as lists of points: every point is in exactly one of them, each
    cluster lists its points in their order in the input, and the clusters
    come in the order in which their first points stand in the input. *)
Theorem agglomerate_clusters_in_order `{RM : RandomModule} {Point : Type}
    (points : list Point) (k : Z) (ds : list Q) :
  length ds = length points * (length points - 1) / 2 ->
  exists pcs cs,
    agglomerate points (KInt k) (Precomputed ds) mode_clusters = Ok (OutClusters pcs) /\
    Forall2 (Forall2 (fun i x => points !! i = Some x)) cs pcs /\
    concat cs ≡ₚ seq 0 (length points) /\
    Forall ascending cs /\ ascending (first_of <$> cs).
Proof.
  intros Hlen.
  destruct (reduce_run_link points mode_clusters k ds)
    as (out & cs & theta & Hrun & [Hperm Hne] & _ & Hout & Hasc & Hfirst & _);
    [by left | by rewrite Hlen, table_length |].
  destruct out as [pcs|components]; [|done].
  exists pcs, cs. done.
Qed.

Lemma agglomerate_clusters_in_order_witness :
  exists pcs cs,
    @agglomerate lcg_random Z line_points (KInt 2) (Precomputed (line_matrix line_points))
      mode_clusters = Ok (OutClusters pcs) /\
    Forall2 (Forall2 (fun i x => line_points !! i = Some x)) cs pcs /\
    concat cs ≡ₚ seq 0 (length line_points) /\
    Forall ascending cs /\ ascending (first_of <$> cs).
Proof.
  apply (@agglomerate_clusters_in_order lcg_random Z line_points 2 (line_matrix line_points)).
  reflexivity.
Defined.

(** X9.  In mode [components], with an integer [k], [agglomerate] numbers
    the clusters in the order of their first points: the first point is in
    cluster 1, and wherever a number [c] above 1 stands, [c - 1] stands
    somewhere before it. *)
Theorem agglomerate_numbers_in_order `{RM : RandomModule} {Point : Type}
    (points : list Point) (k : Z) (ds : list Q) :
  length ds = length points * (length points - 1) / 2 ->
  exists components,
    agglomerate points (KInt k) (Precomputed ds) mode_components
      = Ok (OutComponents components) /\
    (forall c, components !! 0 = Some c -> c = 1) /\
    (forall j c, components !! j = Some c -> 2 <= c ->
       exists j', j' < j /\ components !! j' = Some (c - 1)).
Proof.
  intros Hlen.
  destruct (reduce_run_link points mode_components k ds)
    as (out & cs & theta & Hrun & [Hperm Hne] & _ & Hout & Hasc & Hfirst & _);
    [by right | by rewrite Hlen, table_length |].
  destruct out as [pcs|components]; [done|]. destruct Hout as [Hl Hin].
  assert (Hprev : forall j c, components !! j = Some c -> 2 <= c ->
            exists j', j' < j /\ components !! j' = Some (c - 1)).
  { intros j c Hj Hc.
    destruct (component_cluster (length points) cs components j Hperm Hin)
      as (i & l & Hi & Hjl & Hj'); [apply lookup_lt_Some in Hj; lia|].
    rewrite Hj in Hj'. injection Hj' as ->.
    destruct (lookup_lt_is_Some_2 cs (i - 1)) as [l' Hl'];
      [apply lookup_lt_Some in Hi; lia|].
    exists (first_of l'). split.
    - rewrite Forall_forall in Hasc.
      pose proof (ascending_first l j (Hasc l (list_elem_of_lookup_2 _ _ _ Hi)) Hjl) as Hle.
      assert (Hlt : first_of l' < first_of l); [|lia].
      apply (sorted_lookup_lt lt (first_of <$> cs) Hfirst (i - 1) i); [ | | lia].
      + by rewrite list_lookup_fmap, Hl'.
      + by rewrite list_lookup_fmap, Hi.
    - replace (i + 1 - 1) with (i - 1 + 1) by lia. apply (Hin (i - 1) l'); [done|].
      apply first_of_elem. rewrite Forall_forall in Hne.
      apply Hne. by eapply list_elem_of_lookup_2. }
  exists components. split; [exact Hrun|]. split; [|exact Hprev].
  intros c H0.
  destruct (component_cluster (length points) cs components 0 Hperm Hin)
    as (i & l & Hi & _ & H0'); [apply lookup_lt_Some in H0; lia|].
  rewrite H0 in H0'. injection H0' as ->.
  destruct (decide (2 <= i + 1)) as [Htwo|]; [|lia].
  destruct (Hprev 0 (i + 1) H0 Htwo) as (j' & Hj' & _). lia.
Qed.

Lemma agglomerate_numbers_in_order_witness :
  exists components,
    @agglomerate lcg_random Z line_points (KInt 3) (Precomputed (line_matrix line_points))
      mode_components = Ok (OutComponents components) /\
    (forall c, components !! 0 = Some c -> c = 1) /\
    (forall j c, components !! j = Some c -> 2 <= c ->
       exists j', j' < j /\ components !! j' = Some (c - 1)).
Proof.
  apply (@agglomerate_numbers_in_order lcg_random Z line_points 3 (line_matrix line_points)).
  reflexivity.
Defined.

(** X10.  The two enumerations [unmerged_pairs(i, j, n)] and
    [unmerged_pairs(j, i, n)] that a merge zips together are aligned: they
    have the same length, and at every position they name the pairs of [i]
    and of [j] with the same third cluster, one that is unmerged and is
    neither [i] nor [j]. *)
Theorem unmerged_pairs_aligned (clusters : list (option (list nat))) (i j n : nat) :
  i < n -> j < n ->
  length (@unmerged_pairs clusters i j n) = length (@unmerged_pairs clusters j i n) /\
  forall t a b,
    @unmerged_pairs clusters i j n !! t = Some a ->
    @unmerged_pairs clusters j i n !! t = Some b ->
    exists r, r < n /\ r <> i /\ r <> j /\ live clusters r /\
      a = pair_id i r /\ b = pair_id j r.
Proof.
  intros Hi Hj. rewrite !unmerged_pairs_others by done.
  rewrite (others_comm clusters j i). split; [by rewrite !length_fmap|].
  intros t a b Ha Hb. rewrite list_lookup_fmap in Ha, Hb.
  destruct (others clusters i j n !! t) as [r|] eqn:Er; [|done].
  injection Ha as <-. injection Hb as <-.
  apply list_elem_of_lookup_2, elem_of_others in Er as (? & ? & ? & ?).
  by exists r.
Qed.

Lemma unmerged_pairs_aligned_witness :
  length (@unmerged_pairs [Some [0]; Some [1]; Some [2]; Some [3]] 1 3 4)
  = length (@unmerged_pairs [Some [0]; Some [1]; Some [2]; Some [3]] 3 1 4) /\
  forall t a b,
    @unmerged_pairs [Some [0]; Some [1]; Some [2]; Some [3]] 1 3 4 !! t = Some a ->
    @unmerged_pairs [Some [0]; Some [1]; Some [2]; Some [3]] 3 1 4 !! t = Some b ->
    exists r, r < 4 /\ r <> 1 /\ r <> 3 /\
      live [Some [0]; Some [1]; Some [2]; Some [3]] r /\
      a = pair_id 1 r /\ b = pair_id 3 r.
Proof. apply (unmerged_pairs_aligned [Some [0]; Some [1]; Some [2]; Some [3]] 1 3 4); lia. Defined.

(** ** Termination of the agglomerative engine *)

Lemma halts_bind {A B} (m : outcome A) (f : A -> outcome B) :
  halts m -> (forall a, m = Ok a -> halts (f a)) -> halts (m ≫= f).
Proof. destruct m as [a|e|]; cbn; auto. Qed.

Lemma halts_Ok {A} (a : A) : halts (Ok a).
Proof. exact I. Qed.

Lemma halts_Raise {A} (e : exn) : halts (@Raise A e).
Proof. exact I. Qed.

Lemma halts_getitem {A} (l : list A) (i : nat) : halts (getitem l i).
Proof. unfold getitem. by destruct (l !! i). Qed.

Lemma halts_setitem {A} (l : list A) (i : nat) (x : A) : halts (setitem l i x).
Proof. unfold setitem. by destruct (decide _). Qed.

Lemma halts_for_each {A S} (l : list A) (body : S -> A -> outcome S) :
  (forall s x, halts (body s x)) -> forall s, halts (for_each l body s).
Proof.
  intros Hbody. induction l as [|x l IH]; intros s; cbn [for_each]; [done|].
  apply halts_bind; [apply Hbody | intros s' _; apply IH].
Qed.

Lemma halts_collect {A B} (f : A -> outcome B) (l : list A) :
  (forall x, halts (f x)) -> halts (DunnMergeCriterion.collect f l).
Proof.
  intros Hf. induction l as [|x l IH]; cbn [DunnMergeCriterion.collect]; [done|].
  apply halts_bind; [apply Hf|]. intros y _. apply halts_bind; [apply IH | done].
Qed.

Ltac halts_step :=
  repeat first
    [ apply halts_getitem | apply halts_setitem | exact I
    | apply halts_bind; [|intros ? ?] ].

Section HeapHalts.
Context {U : Type}.
Implicit Types (a b xp hj : @node U) (heap : list (@node U)) (wh : list nat).

Lemma shiftdown_loop_halts (fuel e : nat) xp :
  forall (i : nat) heap wh,
  e < fuel + i -> halts (shiftdown_loop fuel e xp i (2 * i + 1) heap wh).
Proof.
  induction fuel as [|fuel IH]; intros i heap wh He; cbn [shiftdown_loop].
  { destruct (decide (2 * i + 1 <= e)); [lia | done]. }
  destruct (decide (2 * i + 1 <= e)) as [Hj|Hj]; [|done].
  apply halts_bind.
  { destruct (decide (2 * i + 1 < e)); [|done]. halts_step. }
  intros j Hsel.
  assert (Hji : 2 * i + 1 <= j).
  { destruct (decide (2 * i + 1 < e)).
    - apply outcome_bind_Ok in Hsel as (h1 & _ & Hsel).
      apply outcome_bind_Ok in Hsel as (h2 & _ & Hsel).
      destruct (node_gt h1 h2); injection Hsel as <-; lia.
    - injection Hsel as <-. lia. }
  apply halts_bind; [apply halts_getitem|]. intros hj _.
  destruct (node_le xp hj); [done|].
  apply halts_bind; [apply halts_setitem|]. intros heap1 _.
  apply halts_bind; [apply halts_setitem|]. intros wh1 _.
  apply IH. lia.
Qed.

Lemma shiftdown_halts (s : nat) heap wh : halts (shiftdown s heap wh).
Proof.
  unfold shiftdown. destruct (decide (length heap - 1 < 2 * s + 1)) as [|Hin]; [done|].
  apply halts_bind; [apply halts_getitem|]. intros xp _.
  apply halts_bind.
  { apply shiftdown_loop_halts. lia. }
  intros [[i heap1] wh1] _. halts_step.
Qed.

Lemma shiftup_loop_halts (fuel : nat) xp :
  forall (i : nat) (j : Z) heap wh,
  (j < Z.of_nat fuel)%Z -> halts (shiftup_loop fuel xp i j heap wh).
Proof.
  induction fuel as [|fuel IH]; intros i j heap wh Hj; cbn [shiftup_loop].
  { destruct (decide (0 <= j)%Z); [lia | done]. }
  destruct (decide (0 <= j)%Z) as [Hpos|]; [|done].
  apply halts_bind; [apply halts_getitem|]. intros hj _.
  destruct (node_le hj xp); [done|].
  apply halts_bind; [apply halts_setitem|]. intros heap1 _.
  apply halts_bind; [apply halts_setitem|]. intros wh1 _.
  apply IH. rewrite Z2Nat.id by done.
  assert ((j + 1) / 2 < j + 1)%Z by (apply Z.div_lt_upper_bound; lia). lia.
Qed.

Lemma shiftup_halts (s : nat) heap wh : halts (shiftup s heap wh).
Proof.
  unfold shiftup. destruct (decide _) as [|Hj]; [done|].
  apply halts_bind; [apply halts_getitem|]. intros xp Hxp.
  apply getitem_Ok, lookup_lt_Some in Hxp.
  apply halts_bind.
  { apply shiftup_loop_halts.
    assert ((Z.of_nat s + 1) / 2 < Z.of_nat s + 1)%Z by (apply Z.div_lt_upper_bound; lia).
    lia. }
  intros [[i heap1] wh1] _. halts_step.
Qed.

Lemma update_halts (s : nat) xp heap wh : halts (update s xp heap wh).
Proof.
  unfold update. apply halts_bind; [apply halts_getitem|]. intros old _.
  destruct (negb _); [done|].
  destruct (node_gt xp old).
  - apply halts_bind; [apply halts_setitem|]. intros heap1 _. apply shiftdown_halts.
  - apply halts_bind; [apply halts_setitem|]. intros heap1 _. apply shiftup_halts.
Qed.

Lemma remove_halts (s : nat) heap wh : halts (remove s heap wh).
Proof.
  unfold remove. destruct (decide _); [done|].
  apply halts_bind; [by destruct (last heap)|]. intros x _.
  apply halts_bind; [apply halts_setitem|]. intros wh1 _. apply update_halts.
Qed.

(** *** The length of the heap *)

Lemma shiftdown_loop_length (fuel e : nat) xp :
  forall (i j : nat) heap wh (i' : nat) heap' wh',
  shiftdown_loop fuel e xp i j heap wh = Ok (i', heap', wh') ->
  length heap' = length heap.
Proof.
  induction fuel as [|fuel IH]; intros i j heap wh i' heap' wh' H; cbn [shiftdown_loop] in H.
  { destruct (decide (j <= e)); [done|]. by injection H as _ <- _. }
  destruct (decide (j <= e)); [|by injection H as _ <- _].
  apply outcome_bind_Ok in H as (j' & _ & H).
  apply outcome_bind_Ok in H as (hj & _ & H).
  destruct (node_le xp hj); [by injection H as _ <- _|].
  apply outcome_bind_Ok in H as (heap1 & Hset & H). apply setitem_Ok in Hset as [_ ->].
  apply outcome_bind_Ok in H as (wh1 & _ & H).
  apply IH in H. by rewrite H, length_insert.
Qed.

Lemma shiftdown_length (s : nat) heap wh heap' wh' :
  shiftdown s heap wh = Ok (heap', wh') -> length heap' = length heap.
Proof.
  unfold shiftdown. destruct (decide _); [by intros [= <- _]|]. intros H.
  apply outcome_bind_Ok in H as (xp & _ & H).
  apply outcome_bind_Ok in H as ([[i heap1] wh1] & Hloop & H).
  apply shiftdown_loop_length in Hloop.
  apply outcome_bind_Ok in H as (heap2 & Hset & H). apply setitem_Ok in Hset as [_ ->].
  apply outcome_bind_Ok in H as (wh2 & _ & H). injection H as <- _.
  by rewrite length_insert.
Qed.

Lemma shiftup_loop_length (fuel : nat) xp :
  forall (i : nat) (j : Z) heap wh (i' : nat) heap' wh',
  shiftup_loop fuel xp i j heap wh = Ok (i', heap', wh') ->
  length heap' = length heap.
Proof.
  induction fuel as [|fuel IH]; intros i j heap wh i' heap' wh' H; cbn [shiftup_loop] in H.
  { destruct (decide (0 <= j)%Z); [done|]. by injection H as _ <- _. }
  destruct (decide (0 <= j)%Z); [|by injection H as _ <- _].
  apply outcome_bind_Ok in H as (hj & _ & H).
  destruct (node_le hj xp); [by injection H as _ <- _|].
  apply outcome_bind_Ok in H as (heap1 & Hset & H). apply setitem_Ok in Hset as [_ ->].
  apply outcome_bind_Ok in H as (wh1 & _ & H).
  apply IH in H. by rewrite H, length_insert.
Qed.

Lemma shiftup_length (s : nat) heap wh heap' wh' :
  shiftup s heap wh = Ok (heap', wh') -> length heap' = length heap.
Proof.
  unfold shiftup. destruct (decide _); [by intros [= <- _]|]. intros H.
  apply outcome_bind_Ok in H as (xp & _ & H).
  apply outcome_bind_Ok in H as ([[i heap1] wh1] & Hloop & H).
  apply shiftup_loop_length in Hloop.
  apply outcome_bind_Ok in H as (heap2 & Hset & H). apply setitem_Ok in Hset as [_ ->].
  apply outcome_bind_Ok in H as (wh2 & _ & H). injection H as <- _.
  by rewrite length_insert.
Qed.

Lemma update_length (s : nat) xp heap wh heap' wh' :
  update s xp heap wh = Ok (heap', wh') -> length heap' = length heap.
Proof.
  unfold update. intros H. apply outcome_bind_Ok in H as (old & _ & H).
  destruct (negb _); [done|].
  destruct (node_gt xp old);
    apply outcome_bind_Ok in H as (heap1 & Hset & H); apply setitem_Ok in Hset as [_ ->].
  - apply shiftdown_length in H. by rewrite H, length_insert.
  - apply shiftup_length in H. by rewrite H, length_insert.
Qed.

Lemma drop_last_length heap : length (drop_last heap) = length heap - 1.
Proof. unfold drop_last. rewrite length_take. lia. Qed.

Lemma remove_length (s : nat) heap wh heap' wh' :
  remove s heap wh = Ok (heap', wh') -> S (length heap') = length heap.
Proof.
  unfold remove. destruct (decide _) as [Hlast|Hlast].
  - intros [= <- _]. rewrite drop_last_length. lia.
  - intros H. apply outcome_bind_Ok in H as (x & Hx & H).
    destruct (last heap) as [y|] eqn:Ey; [|done].
    apply outcome_bind_Ok in H as (wh1 & _ & H).
    apply update_length in H. rewrite H, drop_last_length.
    destruct heap; [done|]. cbn. lia.
Qed.

End HeapHalts.

Section ReduceHalts.
Context {Point : Type}.
Implicit Types (heap : list (@node (Point * Point))) (wh : list nat).

Lemma merge_distances_halts hw ab : halts (@merge_distances Point hw ab).
Proof.
  destruct hw as [heap wh], ab as [a b]. unfold merge_distances.
  apply halts_bind; [apply halts_getitem|]. intros wb _.
  apply halts_bind; [apply halts_getitem|]. intros [[y py] u] _.
  apply halts_bind; [apply halts_getitem|]. intros wb' _.
  apply halts_bind; [apply remove_halts|]. intros [heap1 wh1] _.
  apply halts_bind; [apply halts_getitem|]. intros wa _.
  apply halts_bind; [apply halts_getitem|]. intros [[x px] u'] _.
  destruct (Qltb y x); [|done].
  apply halts_bind; [apply halts_getitem|]. intros wa' _. apply update_halts.
Qed.

Lemma merge_distances_length heap wh ab heap' wh' :
  @merge_distances Point (heap, wh) ab = Ok (heap', wh') -> length heap' < length heap.
Proof.
  destruct ab as [a b]. unfold merge_distances. intros H.
  apply outcome_bind_Ok in H as (wb & _ & H).
  apply outcome_bind_Ok in H as ([[y py] u] & _ & H).
  apply outcome_bind_Ok in H as (wb' & _ & H).
  apply outcome_bind_Ok in H as ([heap1 wh1] & Hrem & H). apply remove_length in Hrem.
  apply outcome_bind_Ok in H as (wa & _ & H).
  apply outcome_bind_Ok in H as ([[x px] u'] & _ & H).
  destruct (Qltb y x).
  - apply outcome_bind_Ok in H as (wa' & _ & H). apply update_length in H. lia.
  - injection H as <- _. lia.
Qed.

Lemma merge_loop_length (l : list (nat * nat)) : forall heap wh heap' wh',
  for_each l (@merge_distances Point) (heap, wh) = Ok (heap', wh') ->
  length heap' <= length heap.
Proof.
  induction l as [|ab l IH]; intros heap wh heap' wh' H; cbn [for_each] in H.
  - by injection H as <- _.
  - apply outcome_bind_Ok in H as ([heap1 wh1] & Hstep & H).
    apply merge_distances_length in Hstep. apply IH in H. lia.
Qed.

Lemma merge_heap_halts clusters (n i j p : nat) heap wh :
  halts (merge_heap clusters n i j p heap wh).
Proof.
  unfold merge_heap. apply halts_bind; [apply halts_getitem|]. intros wp _.
  apply halts_bind; [apply remove_halts|]. intros [heap1 wh1] _.
  apply halts_for_each. apply merge_distances_halts.
Qed.

Lemma merge_heap_length clusters (n i j p : nat) heap wh heap' wh' :
  merge_heap clusters n i j p heap wh = Ok (heap', wh') -> length heap' < length heap.
Proof.
  unfold merge_heap. intros H. apply outcome_bind_Ok in H as (wp & _ & H).
  apply outcome_bind_Ok in H as ([heap1 wh1] & Hrem & H). apply remove_length in Hrem.
  apply merge_loop_length in H. lia.
Qed.

Lemma merge_dominant_halts dominant clusters (i j : nat) :
  halts (merge_dominant dominant clusters i j).
Proof.
  unfold merge_dominant. destruct dominant as [[|d0 dominant]|]; [done| |done].
  apply halts_bind; [apply halts_getitem|]. intros cj _.
  apply halts_bind; [by destruct cj|]. intros lj _.
  apply halts_bind; [apply halts_getitem|]. intros ci _.
  apply halts_bind; [by destruct ci|]. intros li _.
  apply halts_bind.
  { destruct (decide (li < lj)); [|done]. halts_step. }
  intros dominant' _. halts_step.
Qed.

Lemma merge_clusters_halts clusters (i j : nat) : halts (merge_clusters clusters i j).
Proof.
  unfold merge_clusters. apply halts_bind; [apply halts_getitem|]. intros ci _.
  apply halts_bind; [by destruct ci|]. intros li _.
  apply halts_bind; [apply halts_getitem|]. intros cj _.
  apply halts_bind; [by destruct cj|]. intros lj _. halts_step.
Qed.

Lemma popped_halts lookup heap : halts (@popped Point lookup heap).
Proof.
  unfold popped. apply halts_bind; [apply halts_getitem|]. intros [[d p] u] _.
  apply halts_bind; [apply halts_getitem|]. intros [i j] _. by destruct (decide _).
Qed.

Section WithCriterion.
Variable C : MergeCriterion.
Hypothesis save_and_merge_halts :
  forall c clusters i j d, halts (mc_save_and_merge C c clusters i j d).

Lemma reduce_body_halts (n : nat) lookup (st : @reduce_state Point (mc_state C)) :
  halts (reduce_body C n lookup st).
Proof.
  unfold reduce_body. apply halts_bind; [apply popped_halts|]. intros [[[d p] i] j] _.
  apply halts_bind.
  { unfold consult. destruct (r_criterion st) as [c|]; [|done].
    apply halts_bind; [apply save_and_merge_halts|]. by intros [b c'] _. }
  intros [go_on criterion] _. destruct (negb go_on); [done|].
  apply halts_bind; [apply merge_heap_halts|]. intros [heap wh] _.
  apply halts_bind; [apply merge_dominant_halts|]. intros dominant _.
  apply halts_bind; [apply merge_clusters_halts|]. by intros clusters _.
Qed.

Lemma reduce_body_length (n : nat) lookup (st st' : @reduce_state Point (mc_state C)) :
  reduce_body C n lookup st = Ok (true, st') -> length (r_heap st') < length (r_heap st).
Proof.
  unfold reduce_body. intros H.
  apply outcome_bind_Ok in H as ([[[d p] i] j] & _ & H).
  apply outcome_bind_Ok in H as ([go_on criterion] & _ & H).
  destruct (negb go_on); [done|].
  apply outcome_bind_Ok in H as ([heap wh] & Hheap & H). apply merge_heap_length in Hheap.
  apply outcome_bind_Ok in H as (dominant & _ & H).
  apply outcome_bind_Ok in H as (clusters & _ & H). by injection H as <-.
Qed.

Lemma reduce_loop_halts (n : nat) lookup (target : Z) :
  forall (fuel : nat) (st : @reduce_state Point (mc_state C)),
  length (r_heap st) < fuel -> halts (reduce_loop fuel C n lookup target st).
Proof.
  induction fuel as [|fuel IH]; intros st Hfuel; [lia|].
  cbn [reduce_loop]. destruct (decide _) as [_|]; [|done].
  pose proof (reduce_body_halts n lookup st) as Hbody.
  destruct (reduce_body C n lookup st) as [[[|] st']|e|] eqn:E; [|done..].
  apply IH. apply reduce_body_length in E. lia.
Qed.

Lemma heapify_halts heap wh : halts (@heapify Point heap wh).
Proof.
  unfold heapify. apply halts_for_each. intros [heap1 wh1] s. apply shiftdown_halts.
Qed.

Lemma heapify_length heap wh heap' wh' :
  @heapify Point heap wh = Ok (heap', wh') -> length heap' = length heap.
Proof.
  unfold heapify. generalize (rev (seq 0 (length heap / 2))). intros l. revert heap wh.
  induction l as [|s l IH]; intros heap wh H; cbn [for_each] in H.
  - by injection H as <- _.
  - apply outcome_bind_Ok in H as ([heap1 wh1] & Hdown & H).
    apply shiftdown_length in Hdown. apply IH in H. lia.
Qed.

Lemma components_halts (cs : list (list nat)) (n : nat) : halts (_components cs n).
Proof.
  unfold _components. apply halts_for_each. intros comps [i c].
  apply halts_for_each. intros comps' j. apply halts_setitem.
Qed.

Lemma render_halts (points : list Point) (m : mode) (n : nat) (cs : list (list nat)) :
  halts (render points m n cs).
Proof.
  unfold render. destruct m; try done.
  - apply halts_bind; [|done]. apply halts_collect. intros c.
    apply halts_collect. intros i. apply halts_getitem.
  - apply halts_bind; [apply components_halts | done].
Qed.

Lemma reduce_run_halts (points : list Point) (m : mode) (criterion : option (mc_state C))
    (target : Z) (ds : list Q) :
  halts (reduce_run points m C criterion target ds).
Proof.
  unfold reduce_run. apply halts_bind.
  { unfold initial_pairs. apply halts_collect. intros [i j]. halts_step. }
  intros pairs _. cbv zeta.
  apply halts_bind; [apply heapify_halts|]. intros [heap wh] Hheap.
  apply halts_bind; [by destruct m|]. intros dominant _.
  apply halts_bind.
  { apply reduce_loop_halts. cbn [r_heap]. lia. }
  intros st _. apply halts_bind.
  { unfold sorted_result. destruct (final_result C st); try done. by destruct (forallb _ _). }
  intros result _. apply render_halts.
Qed.

End WithCriterion.

Lemma dunn_save_and_merge_halts self clusters (i j : nat) (d : Q) :
  halts (DunnMergeCriterion.save_and_merge self clusters i j d).
Proof.
  unfold DunnMergeCriterion.save_and_merge. cbv zeta.
  match goal with |- halts (if ?b then _ else _) => destruct b end; [done|].
  apply halts_bind; [apply halts_getitem|]. intros ci _.
  apply halts_bind; [by destruct ci|]. intros li _.
  apply halts_bind.
  { apply halts_collect. intros x.
    apply halts_bind; [apply halts_getitem|]. intros cj _.
    apply halts_bind; [by destruct cj|]. intros lj _.
    apply halts_collect. intros y. apply halts_getitem. }
  intros dss _. apply halts_bind; [by destruct (concat dss)|]. intros nd _.
  apply halts_bind; [apply halts_getitem|]. intros di _.
  apply halts_bind; [apply halts_getitem|]. intros dj _.
  apply halts_bind; [by destruct di|]. intros qi _.
  apply halts_bind; [by destruct dj|]. intros qj _. halts_step.
Qed.

Lemma reduce_halts (points : list Point) (k : k_arg merge_factory)
    (matrix : outcome (list Q)) (m : mode) :
  repository_criterion k -> halts matrix -> halts (reduce points k matrix m).
Proof.
  intros Hk Hmatrix. unfold reduce. apply halts_bind; [done|]. intros ds _.
  destruct k as [f|k|]; [| |done].
  - destruct Hk as [merge_limit ->]. cbn [dunn_factory mf_make mf_criterion].
    rewrite outcome_bind_ret. apply reduce_run_halts. apply dunn_save_and_merge_halts.
  - apply reduce_run_halts. intros [].
Qed.

End ReduceHalts.

(** X11.  [agglomerate] always comes to an end: with an integer, the Dunn
    criterion or any other value for [k], and for every list of points,
    distance provider and mode, the call returns or raises; none of the
    loops of the heap operations or of [reduce] runs for ever. *)
Theorem agglomerate_halts `{RM : RandomModule} {Point : Type}
    (points : list Point) (k : k_arg merge_factory) (distances : Distances) (m : mode) :
  repository_criterion k ->
  (exists out, agglomerate points k distances m = Ok out) \/
  (exists e, agglomerate points k distances m = Raise e).
Proof.
  intros Hk.
  assert (H : halts (agglomerate points k distances m)).
  { unfold agglomerate. apply reduce_halts; [done|]. by destruct distances. }
  destruct (agglomerate points k distances m) as [out|e|]; [left | right | done]; by eexists.
Qed.

Lemma agglomerate_halts_witness :
  (exists out, @agglomerate lcg_random Z line_points (KTuple (dunn_factory None))
                 (Precomputed [1%Q; 2%Q]) mode_clusters = Ok out) \/
  (exists e, @agglomerate lcg_random Z line_points (KTuple (dunn_factory None))
               (Precomputed [1%Q; 2%Q]) mode_clusters = Raise e).
Proof.
  apply (@agglomerate_halts lcg_random Z line_points (KTuple (dunn_factory None))
           (Precomputed [1%Q; 2%Q]) mode_clusters).
  by exists None.
Defined.

(** X12.  In mode [dominant], [agglomerate] returns no result: whatever the
    points, [k] and the distances, the call ends in an exception. *)
Theorem agglomerate_dominant_raises `{RM : RandomModule} {Point : Type}
    (points : list Point) (k : k_arg merge_factory) (distances : Distances) :
  repository_criterion k ->
  exists e, agglomerate points k distances mode_dominant = Raise e.
Proof.
  intros Hk.
  assert (H : halts (agglomerate points k distances mode_dominant)).
  { unfold agglomerate. apply reduce_halts; [done|]. by destruct distances. }
  destruct (agglomerate points k distances mode_dominant) as [out|e|] eqn:E;
    [exfalso | by exists e | done].
  unfold agglomerate, reduce in E.
  apply outcome_bind_Ok in E as (ds & _ & E).
  assert (Hrun : forall C criterion target,
            @reduce_run Point points mode_dominant C criterion target ds <> Ok out).
  { intros C criterion target Hrun. unfold reduce_run in Hrun.
    apply outcome_bind_Ok in Hrun as (pairs & _ & Hrun).
    apply outcome_bind_Ok in Hrun as ([heap wh] & _ & Hrun).
    apply outcome_bind_Ok in Hrun as (dominant & _ & Hrun).
    apply outcome_bind_Ok in Hrun as (st & _ & Hrun).
    apply outcome_bind_Ok in Hrun as (result & _ & Hrun). done. }
  destruct k as [f|k|]; [| |done].
  - apply outcome_bind_Ok in E as (criterion & _ & E). by apply Hrun in E.
  - by apply Hrun in E.
Qed.

Lemma agglomerate_dominant_raises_witness :
  exists e, @agglomerate lcg_random Z line_points (KInt 2)
              (Precomputed (line_matrix line_points)) mode_dominant = Raise e.
Proof.
  apply (@agglomerate_dominant_raises lcg_random Z line_points (KInt 2)
           (Precomputed (line_matrix line_points))).
  exact I.
Defined.

(** ** The lazy distance provider *)

Section LazyFacts.
Context {RM : RandomModule}.

Lemma lazy_distance_stores (compute : nat -> nat -> rstate -> outcome Q * rstate)
    (i j : nat) (w w' : World) (d : Q) :
  lazy_distance compute i j w = (Ok d, w') ->
  w_computed w' !! _index (Nat.max i j) (Nat.min i j) = Some d.
Proof.
  unfold lazy_distance. cbv zeta.
  unfold mbind at 1, M_bind, computed_get.
  destruct (w_computed w !! _index (Nat.max i j) (Nat.min i j)) as [d0|] eqn:E.
  - cbn. by intros [= <- <-].
  - unfold mbind at 1, M_bind, getstate.
    unfold mbind at 1, M_bind, try_finally, call_compute.
    destruct (compute i j (w_random w)) as [[d0|e|] g]; cbn; [|done..].
    intros [= <- <-]. cbn. by rewrite lookup_insert_eq.
Qed.

(** X13.  A call of [LazyDistances.distance] leaves the random stream in
    the state it found, also when [_compute_distance] raises.  When it
    returns [d], the cache holds [d] for the pair and is otherwise as
    before; when it raises, the cache is as before. *)
Theorem lazy_distance_effect (compute : nat -> nat -> rstate -> outcome Q * rstate)
    (i j : nat) (w : World) :
  match lazy_distance compute i j w with
  | (Ok d, w') =>
      w_random w' = w_random w /\
      w_computed w' !! _index (Nat.max i j) (Nat.min i j) = Some d /\
      forall p, p <> _index (Nat.max i j) (Nat.min i j) ->
                w_computed w' !! p = w_computed w !! p
  | (Raise e, w') => w_random w' = w_random w /\ w_computed w' = w_computed w
  | (OutOfFuel, _) => True
  end.
Proof.
  unfold lazy_distance. cbv zeta.
  unfold mbind at 1, M_bind, computed_get.
  destruct (w_computed w !! _index (Nat.max i j) (Nat.min i j)) as [d|] eqn:E.
  - cbn. done.
  - unfold mbind at 1, M_bind, getstate.
    unfold mbind at 1, M_bind, try_finally, call_compute.
    destruct (compute i j (w_random w)) as [[d|e|] g]; cbn.
    + unfold mbind, M_bind, computed_set, mret, M_ret. cbn.
      split; [done|]. split; [by rewrite lookup_insert_eq|].
      intros p Hp. by rewrite lookup_insert_ne.
    + done.
    + done.
Qed.

(** X14.  Once a call of [LazyDistances.distance] has returned [d] for a
    pair, every later call for that pair, in either order of its arguments,
    returns [d] from the cache: it changes nothing and does not depend on
    [_compute_distance]. *)
Theorem lazy_distance_cached (compute compute' : nat -> nat -> rstate -> outcome Q * rstate)
    (i j : nat) (w : World) :
  match lazy_distance compute i j w with
  | (Ok d, w') =>
      lazy_distance compute' i j w' = (Ok d, w') /\
      lazy_distance compute' j i w' = (Ok d, w')
  | _ => True
  end.
Proof.
  destruct (lazy_distance compute i j w) as [[d|e|] w'] eqn:Erun; [|done..].
  apply lazy_distance_stores in Erun as H.
  assert (Hhit : forall a b, _index (Nat.max a b) (Nat.min a b)
                             = _index (Nat.max i j) (Nat.min i j) ->
                 lazy_distance compute' a b w' = (Ok d, w')).
  { intros a b E. unfold lazy_distance. cbv zeta.
    unfold mbind at 1, M_bind, computed_get. by rewrite E, H. }
  split; apply Hhit; [done|]. by rewrite Nat.max_comm, Nat.min_comm.
Qed.

End LazyFacts.

(** ** The approximate silhouette index *)

Lemma gap_distance_nonneg (i j : nat) : (0 <= gap_distance i j)%Q.
Proof. unfold gap_distance, Qle. simpl. lia. Qed.

Lemma silhouette_unit (a b : option Q) (s : Q) :
  (forall x, a = Some x -> (0 <= x)%Q) -> (forall y, b = Some y -> (0 <= y)%Q) ->
  _silhouette a b = Ok s -> (-1 <= s)%Q /\ (s <= 1)%Q.
Proof.
  intros Ha Hb. unfold _silhouette.
  destruct a as [x|]; [|intros [= <-]; split; by vm_compute].
  destruct b as [y|]; [|done].
  specialize (Ha x eq_refl). specialize (Hb y eq_refl).
  destruct (Qeq_bool (pymax x y) 0) eqn:Emax; [by destruct (Qeq_bool (y - x) 0)|].
  intros [= <-].
  apply Qeq_bool_neq in Emax.
  pose proof (pymax_ub_l x y) as Hl. pose proof (pymax_ub_r x y) as Hr.
  assert (Hpos : (0 < pymax x y)%Q).
  { destruct (Qlt_le_dec 0 (pymax x y)) as [|Hle]; [done|]. exfalso. apply Emax. lra. }
  split.
  - apply Qle_shift_div_l; [done|]. lra.
  - apply Qle_shift_div_r; [done|]. lra.
Qed.

Lemma fsum_unit (l : list Q) :
  Forall (fun s => (-1 <= s)%Q /\ (s <= 1)%Q) l ->
  (- inject_Z (Z.of_nat (length l)) <= fsum l)%Q /\
  (fsum l <= inject_Z (Z.of_nat (length l)))%Q.
Proof.
  induction 1 as [|s l [Hs1 Hs2] Hl [IH1 IH2]]; cbn [fsum foldr length].
  - split; by vm_compute.
  - fold (fsum l). rewrite Nat2Z.inj_succ. unfold Z.succ. rewrite inject_Z_plus.
    change (inject_Z 1) with 1%Q. split; lra.
Qed.

(** X15.  With non-negative distances the approximate global silhouette
    index, whenever it is computed, lies between -1 and 1. *)
Theorem silhouette_index_bounded {RM : RandomModule} (d : nat -> nat -> Q)
    (clusters : list Cluster) (w w' : World) (s : Q) :
  (forall x y, (0 <= d x y)%Q) ->
  approximate_global_silhouette_index clusters (pure_distance d) w = (Ok s, w') ->
  (-1 <= s)%Q /\ (s <= 1)%Q.
Proof.
  intros Hd. unfold approximate_global_silhouette_index.
  destruct (decide (length clusters <= 1)) as [|Hlen].
  { intros [= <- _]. split; by vm_compute. }
  intros H. apply bind_Ok in H as (ws & w1 & Hws & H).
  apply ret_Ok in H as [E _]. subst s.
  rewrite widths_pure in Hws. injection Hws as Hws _.
  apply collect_Forall2 in Hws.
  assert (Hall : Forall (fun s => (-1 <= s)%Q /\ (s <= 1)%Q) ws).
  { apply Forall_forall. intros y Hy.
    apply list_elem_of_lookup in Hy as [t Ht].
    destruct (Forall2_lookup_r _ _ _ _ _ Hws Ht) as ([i c] & _ & Hy). cbn in Hy.
    apply (silhouette_unit _ _ _ (within_mean_nonneg d Hd c) (nearest_between_nonneg d Hd clusters i c) Hy). }
  assert (Hl : length ws = length clusters).
  { apply Forall2_length in Hws. by rewrite length_imap in Hws. }
  destruct (fsum_unit ws Hall) as [H1 H2]. rewrite Hl in H1, H2.
  assert (Hpos : (0 < inject_Z (Z.of_nat (length clusters)))%Q).
  { unfold Qlt. simpl. lia. }
  split.
  - apply Qle_shift_div_l; [done|]. lra.
  - apply Qle_shift_div_r; [done|]. lra.
Qed.

Lemma silhouette_index_bounded_witness :
  exists s,
    @approximate_global_silhouette_index lcg_random
      [{| medoid := 0; members := [0; 1] |}; {| medoid := 5; members := [4; 5] |}]
      (pure_distance gap_distance) (world_of 7) = (Ok s, world_of 7) /\
    (-1 <= s)%Q /\ (s <= 1)%Q.
Proof.
  eexists. split; [reflexivity|].
  eapply (@silhouette_index_bounded lcg_random gap_distance
            [{| medoid := 0; members := [0; 1] |}; {| medoid := 5; members := [4; 5] |}]
            (world_of 7) (world_of 7)).
  - apply gap_distance_nonneg.
  - reflexivity.
Defined.

(** ** The tuples of [_shuffled_tuples] *)

Lemma foldl_mul (t : list Z) : forall a : Z, foldl Z.mul a t = (a * foldl Z.mul 1 t)%Z.
Proof.
  induction t as [|x t IH]; intros a; cbn [foldl]; [lia|].
  rewrite (IH (a * x)%Z), (IH (1 * x)%Z). lia.
Qed.

Lemma product_pos (t : list Z) :
  Forall (fun x => 0 < x)%Z t -> (0 < foldl Z.mul 1 t)%Z.
Proof.
  induction 1 as [|x t Hx Ht IH]; cbn [foldl]; [lia|].
  rewrite foldl_mul. lia.
Qed.

Lemma decode_in_ranges (t : list Z) :
  Forall (fun x => 0 < x)%Z t ->
  forall n, exists r, decode t n = Ok r /\ Forall2 (fun ri x => 0 <= ri < x)%Z r t.
Proof.
  induction 1 as [|x t Hx Ht IH]; intros n; cbn [decode].
  - exists []. split; [done | constructor].
  - destruct (decide (x = 0)%Z); [lia|].
    destruct (IH (n / x)%Z) as (r & -> & Hr). rewrite outcome_bind_ret.
    exists ((n mod x)%Z :: r). split; [done|]. constructor; [|done].
    apply Z.mod_pos_bound. lia.
Qed.

Lemma decode_inj (t : list Z) :
  Forall (fun x => 0 < x)%Z t ->
  forall n n', (0 <= n < foldl Z.mul 1 t)%Z -> (0 <= n' < foldl Z.mul 1 t)%Z ->
  decode t n = decode t n' -> n = n'.
Proof.
  induction 1 as [|x t Hx Ht IH]; intros n n' Hn Hn' E; cbn [decode foldl] in *; [lia|].
  rewrite foldl_mul in Hn, Hn'.
  destruct (decide (x = 0)%Z); [lia|].
  destruct (decode_in_ranges t Ht (n / x)%Z) as (r & Er & _).
  destruct (decode_in_ranges t Ht (n' / x)%Z) as (r' & Er' & _).
  rewrite Er, Er', !outcome_bind_ret in E. injection E as Emod Erest.
  assert (Hdiv : (n / x = n' / x)%Z).
  { apply IH.
    - split; [apply Z.div_pos; lia|]. apply Z.div_lt_upper_bound; lia.
    - split; [apply Z.div_pos; lia|]. apply Z.div_lt_upper_bound; lia.
    - by rewrite Er, Er', Erest. }
  rewrite (Z.div_mod n x), (Z.div_mod n' x) by lia. by rewrite Hdiv, Emod.
Qed.

(** X16.  The loop of [_shuffled_tuples] that turns a number into a tuple
    is a mixed radix decoding: for positive ranges [t] every number gives a
    tuple whose components lie in their ranges, and two different numbers
    below the product of the ranges give different tuples. *)
Theorem decode_mixed_radix (t : list Z) :
  Forall (fun x => 0 < x)%Z t ->
  (forall n, exists r, decode t n = Ok r /\ Forall2 (fun ri x => 0 <= ri < x)%Z r t) /\
  (forall n n', (0 <= n < foldl Z.mul 1 t)%Z -> (0 <= n' < foldl Z.mul 1 t)%Z ->
     decode t n = decode t n' -> n = n').
Proof.
  intros Ht. split; [by apply decode_in_ranges | by apply decode_inj].
Qed.

Lemma decode_mixed_radix_witness :
  (exists r, decode [2; 3]%Z 5 = Ok r /\ Forall2 (fun ri x => 0 <= ri < x)%Z r [2; 3]%Z) /\
  (decode [2; 3]%Z 4 = decode [2; 3]%Z 5 -> 4 = 5)%Z.
Proof.
  destruct (decode_mixed_radix [2; 3]%Z) as [Hrange Hinj].
  - repeat constructor.
  - split; [apply Hrange|]. apply Hinj; cbn; lia.
Defined.

(** ** The shuffled tuples and the swaps proposed *)

Lemma Forall2_NoDup {A B} (R : A -> B -> Prop) (l : list A) (xs : list B) :
  Forall2 R l xs -> NoDup xs ->
  (forall a x a' x', R a x -> R a' x' -> x ∈ xs -> x' ∈ xs -> a = a' -> x = x') ->
  NoDup l.
Proof.
  induction 1 as [|a x l xs Hax Hl IH]; intros Hnd Hinj; [constructor|].
  apply NoDup_cons in Hnd as [Hx Hnd]. constructor.
  - intros Ha. apply list_elem_of_lookup in Ha as [t Ht].
    destruct (Forall2_lookup_l _ _ _ _ _ Hl Ht) as (x' & Hx' & Hax').
    apply list_elem_of_lookup_2 in Hx'.
    assert (x' = x); [|by subst].
    apply (Hinj a x' a x); [done | done | by right | by left | done].
  - apply IH; [done|]. intros a1 x1 a2 x2 H1 H2 Hx1 Hx2.
    apply Hinj; [done | done | by right | by right].
Qed.

Section Sampler.
Context {RM : RandomModule}.

Lemma range_fresh (N : Z) : (1 <= N)%Z -> range_ok N (_shuffled_range N).
Proof.
  intros HN. unfold range_ok, pending, remaining. cbn.
  assert (E : nth_of ∅ <$> seqZ 0 (N - 0) = seqZ 0 N).
  { replace (N - 0)%Z with N by lia. rewrite <- (list_fmap_id (seqZ 0 N)) at 2.
    apply list_fmap_ext. intros k p _. apply nth_of_empty. }
  rewrite E. split; [done|]. split; [lia|]. split; [apply NoDup_seqZ|].
  apply Forall_forall. intros x Hx. apply elem_of_seqZ in Hx. lia.
Qed.

Lemma pending_fresh (N : Z) : (1 <= N)%Z -> length (pending (_shuffled_range N)) = Z.to_nat N.
Proof.
  intros HN. unfold pending, remaining. cbn. rewrite length_fmap, length_seqZ. lia.
Qed.

(** One call of [next] on a [_shuffled_range] generator takes one of the
    pending values. *)
Lemma range_next_run (N : Z) (g : range_gen) (w : World) :
  range_ok N g ->
  exists r g' w',
    range_next g w = (Ok (r, g'), w') /\ range_ok N g' /\
    match r with
    | Some x => x :: pending g' ≡ₚ pending g
    | None => pending g = [] /\ pending g' = []
    end.
Proof.
  intros (Hn & Hi & Hnd & Hall). unfold range_next.
  destruct (sr_done g) eqn:Hd.
  - exists None, g, w. split; [done|]. split.
    + unfold range_ok, pending. rewrite Hd.
      split; [done|]. split; [done|]. split; constructor.
    + unfold pending. by rewrite Hd.
  - specialize (Hi eq_refl). rewrite Hn.
    assert (Hpg : pending g = remaining g) by (unfold pending; by rewrite Hd).
    destruct (decide (sr_i g < N - 1)%Z) as [Hlt|Hlast].
    + destruct (randint_spec (sr_i g) (N - 1) w) as (j & rs & Hrand & Hj); [lia|].
      unfold mbind at 1, M_bind. rewrite Hrand. cbn.
      eexists _, _, _. split; [reflexivity|].
      assert (Hperm : nth_of (sr_a g) j ::
                pending {| sr_n := N; sr_a := <[j := nth_of (sr_a g) (sr_i g)]> (sr_a g);
                           sr_i := (sr_i g + 1)%Z; sr_done := false |}
                ≡ₚ pending g).
      { rewrite Hpg. unfold pending, remaining. cbn. rewrite Hn. by apply remaining_step. }
      split; [|exact Hperm].
      rewrite <- Hperm in Hnd, Hall.
      apply NoDup_cons in Hnd as [_ Hnd]. apply Forall_cons in Hall as [_ Hall].
      split; [done|]. split; [cbn; lia|]. done.
    + cbn. eexists _, _, _. split; [reflexivity|].
      assert (Hone : remaining g = [nth_of (sr_a g) (N - 1)]).
      { unfold remaining. rewrite Hn. replace (sr_i g) with (N - 1)%Z by lia.
        replace (N - (N - 1))%Z with 1%Z by lia. done. }
      split.
      * unfold range_ok, pending. cbn. split; [done|]. split; [done|].
        split; [constructor | constructor].
      * rewrite Hpg, Hone. unfold pending. cbn. done.
Qed.

(** One call of [next] on a [_shuffled_tuples] generator decodes one of the
    pending numbers. *)
Lemma tuples_next_run (t : list Z) (g : tuples_gen) (w : World) :
  Forall (fun x => 0 < x)%Z t -> tuples_ok t g ->
  exists r g' w',
    tuples_next g w = (Ok (r, g'), w') /\ tuples_ok t g' /\
    match r with
    | Some tup => exists x, decode t x = Ok tup /\ x :: pending_tuples g' ≡ₚ pending_tuples g
    | None => pending_tuples g = [] /\ pending_tuples g' = []
    end.
Proof.
  intros Ht [Hst Hix]. unfold tuples_next.
  set (indices := match st_indices g with
                  | Some indices => indices
                  | None => _shuffled_range (foldl Z.mul 1%Z (st_t g))
                  end).
  assert (Hok : range_ok (foldl Z.mul 1%Z t) indices).
  { unfold indices. destruct (st_indices g); [done|]. rewrite Hst.
    apply range_fresh. pose proof (product_pos t Ht). lia. }
  assert (Hpend : pending_tuples g = pending indices).
  { unfold pending_tuples, indices. by destruct (st_indices g). }
  destruct (range_next_run _ indices w Hok) as (r & ix' & w' & Hrun & Hok' & Hr).
  unfold mbind at 1, M_bind. rewrite Hrun. cbn.
  destruct r as [x|].
  - destruct (decode_in_ranges t Ht x) as (tup & Hdec & _).
    rewrite Hst. unfold mbind at 1, M_bind, lift. rewrite Hdec. cbn.
    eexists _, _, _. split; [reflexivity|]. split; [by split|].
    exists x. split; [done|]. by rewrite Hpend.
  - eexists _, _, _. split; [reflexivity|]. split; [by split|].
    rewrite Hpend. unfold pending_tuples. cbn. done.
Qed.

Lemma tuples_take_run (t : list Z) (m : nat) :
  Forall (fun x => 0 < x)%Z t ->
  forall (g : tuples_gen) (w : World),
  tuples_ok t g ->
  exists l g' w' xs,
    tuples_take m g w = (Ok (l, g'), w') /\ tuples_ok t g' /\
    Forall2 (fun tup x => decode t x = Ok tup) l xs /\
    xs ⊆+ pending_tuples g /\
    length l = Nat.min m (length (pending_tuples g)).
Proof.
  intros Ht. induction m as [|m IH]; intros g w Hok.
  - exists [], g, w, []. split; [done|]. split; [done|]. split; [constructor|].
    split; [apply submseteq_nil_l | done].
  - destruct (tuples_next_run t g w Ht Hok) as (r & g1 & w1 & Hrun & Hok1 & Hr).
    cbn [tuples_take]. unfold mbind at 1, M_bind. rewrite Hrun. cbn.
    destruct r as [tup|].
    + destruct Hr as (x & Hdec & Hperm).
      destruct (IH g1 w1 Hok1) as (l & g' & w' & xs & Hrun' & Hok' & Hl & Hsub & Hlen).
      unfold mbind at 1, M_bind. rewrite Hrun'. cbn.
      exists (tup :: l), g', w', (x :: xs). split; [done|]. split; [done|].
      split; [by constructor|]. split.
      * rewrite <- Hperm. by apply submseteq_skip.
      * apply Permutation_length in Hperm. rewrite <- Hperm. cbn. by rewrite Hlen.
    + destruct Hr as [Hnil _]. exists [], g1, w1, []. split; [done|]. split; [done|].
      split; [constructor|]. split; [apply submseteq_nil_l|]. rewrite Hnil. cbn. lia.
Qed.

End Sampler.

(** X17.  [_shuffled_tuples] never yields a tuple twice: for positive
    ranges [t], [m] calls of [next] on a new generator return the lesser of
    [m] and the product of the ranges many tuples, pairwise different, each
    with its components in their ranges. *)
Theorem shuffled_tuples_distinct {RM : RandomModule} (t : list Z) (m : nat) (w : World) :
  Forall (fun x => 0 < x)%Z t ->
  exists l g' w',
    tuples_take m (_shuffled_tuples t) w = (Ok (l, g'), w') /\
    length l = Nat.min m (Z.to_nat (foldl Z.mul 1%Z t)) /\
    NoDup l /\
    Forall (fun tup => Forall2 (fun ri x => 0 <= ri < x)%Z tup t) l.
Proof.
  intros Ht. pose proof (product_pos t Ht) as Hpos.
  destruct (tuples_take_run t m Ht (_shuffled_tuples t) w)
    as (l & g' & w' & xs & Hrun & _ & Hl & Hsub & Hlen); [done|].
  assert (Hfresh : range_ok (foldl Z.mul 1%Z t) (_shuffled_range (foldl Z.mul 1%Z t)))
    by (apply range_fresh; lia).
  destruct Hfresh as (_ & _ & Hnd & Hall).
  change (pending_tuples (_shuffled_tuples t))
    with (pending (_shuffled_range (foldl Z.mul 1%Z t))) in Hsub, Hlen.
  exists l, g', w'. split; [done|]. split; [|split].
  - rewrite Hlen, pending_fresh by lia. done.
  - apply (Forall2_NoDup _ l xs Hl).
    + by eapply submseteq_NoDup.
    + intros a x a' x' Ha Ha' Hx Hx' ->. rewrite Forall_forall in Hall.
      apply (decode_inj t Ht).
      * apply Hall. by eapply elem_of_submseteq.
      * apply Hall. by eapply elem_of_submseteq.
      * by rewrite Ha, Ha'.
  - apply Forall_forall. intros tup Htup.
    apply list_elem_of_lookup in Htup as [k Hk].
    destruct (Forall2_lookup_l _ _ _ _ _ Hl Hk) as (x & _ & Hdec).
    destruct (decode_in_ranges t Ht x) as (tup' & Hdec' & Hr). congruence.
Qed.

Lemma shuffled_tuples_distinct_witness :
  exists l g' w',
    @tuples_take lcg_random 7 (_shuffled_tuples [2; 3]%Z) (world_of 1) = (Ok (l, g'), w') /\
    length l = Nat.min 7 (Z.to_nat (foldl Z.mul 1%Z [2; 3]%Z)) /\
    NoDup l /\
    Forall (fun tup => Forall2 (fun ri x => 0 <= ri < x)%Z tup [2; 3]%Z) l.
Proof.
  apply (@shuffled_tuples_distinct lcg_random [2; 3]%Z 7 (world_of 1)).
  repeat constructor.
Defined.

(** *** The swaps proposed by [_next_random_swap] *)

Lemma shift_strict (selected : list nat) : forall h h' : Z,
  (h < h')%Z -> (foldl shift h selected < foldl shift h' selected)%Z.
Proof.
  induction selected as [|s selected IH]; intros h h' Hlt; cbn [foldl]; [done|].
  apply IH. unfold shift. repeat case_decide; lia.
Qed.

Lemma line_medoids_ok : medoids_ok line_medoids.
Proof.
  split; [|split; [|split; [|split]]]; cbn.
  - repeat constructor.
  - repeat constructor.
  - done.
  - done.
  - intros j Hj Hnot. unfold good.
    destruct j as [|[|[|[|[|[|j]]]]]]; cbn; try lia.
    + exfalso. apply Hnot. by left.
    + exists 0, 5. split; [done|]. split; [by left | right; by left].
    + exists 0, 5. split; [done|]. split; [by left | right; by left].
    + exists 5, 0. split; [done|]. split; [right; by left | by left].
    + exists 5, 0. split; [done|]. split; [right; by left | by left].
    + exfalso. apply Hnot. right. by left.
Qed.

Section Proposals.
Context {RM : RandomModule}.

(** What [_next_random_swap] makes of the number [x] its sampler decodes. *)
Lemma next_random_swap_run (self : Medoids) (w : World) :
  medoids_ok self -> (0 < md_k self < Z.of_nat (md_n self))%Z ->
  tuples_ok [md_k self; (Z.of_nat (md_n self) - md_k self)%Z] (md_random_swap self) ->
  exists r self' w',
    next_random_swap self w = (Ok (r, self'), w') /\
    medoids_ok self' /\ md_selected self' = md_selected self /\
    md_n self' = md_n self /\ md_k self' = md_k self /\
    tuples_ok [md_k self; (Z.of_nat (md_n self) - md_k self)%Z] (md_random_swap self') /\
    match r with
    | Some ih =>
        exists x,
          md_selected self !! Z.to_nat (x mod md_k self) = Some ih.1 /\
          Z.of_nat ih.2
          = foldl shift ((x / md_k self) mod (Z.of_nat (md_n self) - md_k self))%Z
              (md_selected self) /\
          x :: pending_tuples (md_random_swap self') ≡ₚ pending_tuples (md_random_swap self)
    | None => pending_tuples (md_random_swap self) = []
    end.
Proof.
  intros Hok Hk Htup. pose proof Hok as (Hasc & Hlt & Hlen & Ht & Hgood).
  assert (Hpos : Forall (fun x => 0 < x)%Z [md_k self; (Z.of_nat (md_n self) - md_k self)%Z]).
  { repeat constructor; lia. }
  destruct (tuples_next_run _ (md_random_swap self) w Hpos Htup)
    as (r & gen & w1 & Hrun & Htup1 & Hr).
  unfold next_random_swap. unfold mbind at 1, M_bind. rewrite Hrun. cbn.
  assert (Hok' : forall gen', st_t gen' = st_t (md_random_swap self) ->
            medoids_ok {| md_n := md_n self; md_k := md_k self; md_selected := md_selected self;
                          md_clusters := md_clusters self; md_cost := md_cost self;
                          md_random_swap := gen' |}).
  { intros gen' Hgen'. split; [done|]. split; [done|]. split; [done|]. split; [|done].
    cbn. by rewrite Hgen', Ht. }
  assert (Hgen : st_t gen = st_t (md_random_swap self)).
  { destruct Htup1 as [-> _]. by rewrite Ht. }
  destruct r as [tup|].
  - destruct Hr as (x & Hdec & Hperm).
    apply decode_pair in Hdec as (_ & _ & ->).
    fold shift.
    pose proof (Z.mod_pos_bound x (md_k self) ltac:(lia)) as Hni.
    pose proof (Z.mod_pos_bound (x / md_k self) (Z.of_nat (md_n self) - md_k self) ltac:(lia))
      as Hh.
    pose proof (shift_bounds (md_selected self)
                  ((x / md_k self) mod (Z.of_nat (md_n self) - md_k self))%Z) as Hs.
    destruct (lookup_lt_is_Some_2 (md_selected self) (Z.to_nat (x mod md_k self)))
      as [i Hi]; [lia|].
    unfold mbind at 1, M_bind, lift, getitemZ.
    rewrite decide_True by lia. rewrite (proj2 (getitem_Ok _ _ _) Hi). cbn.
    rewrite decide_True by lia. cbn.
    eexists _, _, _. split; [reflexivity|]. split; [by apply Hok'|].
    do 3 (split; [done|]). split; [done|].
    exists x. cbn. split; [done|]. split; [lia | done].
  - eexists _, _, _. split; [reflexivity|]. split; [by apply Hok'|].
    do 3 (split; [done|]). split; [done|]. apply Hr.
Qed.

Lemma proposals_run (sel : list nat) (n : nat) (k : Z) (m : nat) :
  (0 < k < Z.of_nat n)%Z ->
  forall (self : Medoids) (w : World),
  medoids_ok self -> md_selected self = sel -> md_n self = n -> md_k self = k ->
  tuples_ok [k; (Z.of_nat n - k)%Z] (md_random_swap self) ->
  exists l self' w' xs,
    proposals m self w = (Ok (l, self'), w') /\
    Forall2 (fun ih x =>
               sel !! Z.to_nat (x mod k) = Some ih.1 /\
               Z.of_nat ih.2 = foldl shift ((x / k) mod (Z.of_nat n - k))%Z sel) l xs /\
    xs ⊆+ pending_tuples (md_random_swap self) /\
    length l = Nat.min m (length (pending_tuples (md_random_swap self))).
Proof.
  intros Hk. induction m as [|m IH]; intros self w Hok Hsel Hn Hmk Htup.
  - exists [], self, w, []. split; [done|]. split; [constructor|].
    split; [apply submseteq_nil_l | done].
  - destruct (next_random_swap_run self w Hok) as
      (r & self1 & w1 & Hrun & Hok1 & Hsel1 & Hn1 & Hk1 & Htup1 & Hr);
      [by rewrite Hmk, Hn | by rewrite Hmk, Hn |].
    rewrite Hsel, Hn, Hmk in *.
    cbn [proposals]. unfold mbind at 1, M_bind. rewrite Hrun. cbn.
    destruct r as [ih|].
    + destruct Hr as (x & Hi & Hh & Hperm).
      destruct (IH self1 w1 Hok1 Hsel1 Hn1 Hk1 Htup1)
        as (l & self' & w' & xs & Hrun' & Hl & Hsub & Hlen).
      unfold mbind at 1, M_bind. rewrite Hrun'. cbn.
      exists (ih :: l), self', w', (x :: xs). split; [done|].
      split; [by constructor|]. split.
      * rewrite <- Hperm. by apply submseteq_skip.
      * apply Permutation_length in Hperm. rewrite <- Hperm. cbn. by rewrite Hlen.
    + exists [], self1, w1, []. split; [done|]. split; [constructor|].
      split; [apply submseteq_nil_l|]. rewrite Hr. cbn. lia.
Qed.

End Proposals.

(** X18.  [_next_random_swap] does not propose a swap twice: on a
    [_Medoids] object whose sampler is new, [m] calls return the lesser of
    [m] and [k (n - k)] many pairs [(i, h)], pairwise different, each of a
    selected medoid [i] and an unselected point [h] below [n]. *)
Theorem no_swap_proposed_twice {RM : RandomModule} (self : Medoids) (m : nat) (w : World) :
  medoids_ok self -> (0 < md_k self < Z.of_nat (md_n self))%Z ->
  md_random_swap self = reset_random_swap (md_k self) (md_n self) ->
  exists l self' w',
    proposals m self w = (Ok (l, self'), w') /\
    length l = Nat.min m (Z.to_nat (md_k self * (Z.of_nat (md_n self) - md_k self))) /\
    NoDup l /\
    Forall (fun ih => ih.1 ∈ md_selected self /\ (ih.2 ∉ md_selected self) /\ ih.2 < md_n self) l.
Proof.
  intros Hok Hk Hnew. pose proof Hok as (Hasc & Hlt & Hlen & _).
  set (t := [md_k self; (Z.of_nat (md_n self) - md_k self)%Z]).
  assert (Hpos : Forall (fun x => 0 < x)%Z t) by (repeat constructor; lia).
  assert (Hprod : foldl Z.mul 1%Z t = (md_k self * (Z.of_nat (md_n self) - md_k self))%Z).
  { unfold t. cbn. lia. }
  assert (Hfresh : range_ok (foldl Z.mul 1%Z t) (_shuffled_range (foldl Z.mul 1%Z t))).
  { apply range_fresh. pose proof (product_pos t Hpos). lia. }
  destruct (proposals_run (md_selected self) (md_n self) (md_k self) m Hk self w)
    as (l & self' & w' & xs & Hrun & Hl & Hsub & Hlenl); try done.
  { rewrite Hnew. by split. }
  rewrite Hnew in Hsub, Hlenl.
  change (pending_tuples (reset_random_swap (md_k self) (md_n self)))
    with (pending (_shuffled_range (foldl Z.mul 1%Z t))) in Hsub, Hlenl.
  destruct Hfresh as (_ & _ & Hnd & Hall). rewrite Forall_forall in Hall.
  exists l, self', w'. split; [done|]. split; [|split].
  - rewrite Hlenl, pending_fresh, Hprod; [done|].
    pose proof (product_pos t Hpos). lia.
  - apply (Forall2_NoDup _ l xs Hl).
    + by eapply submseteq_NoDup.
    + intros a x a' x' [Hi Hh] [Hi' Hh'] Hx Hx' <-.
      apply (decode_inj t Hpos).
      * apply Hall. by eapply elem_of_submseteq.
      * apply Hall. by eapply elem_of_submseteq.
      * pose proof (Z.mod_pos_bound x (md_k self) ltac:(lia)).
        pose proof (Z.mod_pos_bound x' (md_k self) ltac:(lia)).
        assert (E1 : (x mod md_k self = x' mod md_k self)%Z).
        { assert (E : Z.to_nat (x mod md_k self) = Z.to_nat (x' mod md_k self)); [|lia].
          eapply NoDup_lookup; [by apply ascending_NoDup | exact Hi | exact Hi']. }
        assert (E2 : ((x / md_k self) mod (Z.of_nat (md_n self) - md_k self)
                      = (x' / md_k self) mod (Z.of_nat (md_n self) - md_k self))%Z).
        { rewrite Hh in Hh'.
          set (h := ((x / md_k self) mod (Z.of_nat (md_n self) - md_k self))%Z) in *.
          set (h' := ((x' / md_k self) mod (Z.of_nat (md_n self) - md_k self))%Z) in *.
          destruct (Z.lt_trichotomy h h') as [Hlt'|[E|Hlt']]; [|done|].
          - pose proof (shift_strict (md_selected self) h h' Hlt'). lia.
          - pose proof (shift_strict (md_selected self) h' h Hlt'). lia. }
        unfold t. cbn [decode].
        rewrite !decide_False by lia. cbn. by rewrite E1, E2.
  - apply Forall_forall. intros ih Hih.
    apply list_elem_of_lookup in Hih as [q Hq].
    destruct (Forall2_lookup_l _ _ _ _ _ Hl Hq) as (x & _ & Hi & Hh).
    pose proof (Z.mod_pos_bound (x / md_k self) (Z.of_nat (md_n self) - md_k self) ltac:(lia))
      as Hb.
    pose proof (shift_bounds (md_selected self)
                  ((x / md_k self) mod (Z.of_nat (md_n self) - md_k self))%Z) as Hs.
    split; [by eapply list_elem_of_lookup_2|]. split; [|lia].
    intros Hin. eapply shift_fresh in Hin; [|exact Hasc]. apply Hin. by rewrite <- Hh.
Qed.

Lemma no_swap_proposed_twice_witness :
  exists l self' w',
    @proposals lcg_random 9 line_medoids (world_of 3) = (Ok (l, self'), w') /\
    length l = Nat.min 9 (Z.to_nat (2 * (Z.of_nat 6 - 2))) /\
    NoDup l /\
    Forall (fun ih => ih.1 ∈ [0; 5] /\ (ih.2 ∉ [0; 5]) /\ ih.2 < 6) l.
Proof.
  apply (@no_swap_proposed_twice lcg_random line_medoids 9 (world_of 3)).
  - apply line_medoids_ok.
  - cbn. lia.
  - reflexivity.
Defined.

(** ** The medoids and what is built from them *)

(** X19.  [_unselected] yields the points below [n] that are not medoids,
    in ascending order; with no medoid at all it raises [IndexError], also
    when there is no point. *)
Theorem unselected_complement (n : nat) (selected : list nat) :
  ascending selected ->
  unselected n selected
  = match selected with
    | [] => Raise IndexError
    | _ :: _ => Ok (filter (fun i => i ∉ selected) (seq 0 n))
    end.
Proof.
  intros Hasc. destruct selected as [|z l]; [done|]. by apply unselected_total.
Qed.

Lemma unselected_complement_witness :
  unselected 5 [1; 3] = Ok (filter (fun i => i ∉ [1; 3]) (seq 0 5)).
Proof.
  apply (unselected_complement 5 [1; 3]).
  repeat constructor.
Defined.

Lemma members_loop_total (clusters : list (option (nat * nat))) (i : nat) (a : list nat) :
  (forall j, j ∈ a -> exists n1 n2, clusters !! j = Some (Some (n1, n2))) ->
  forall ms : list nat,
  for_each a
    (fun ms j =>
       cj ← getitem clusters j;
       match cj with
       | Some (n1, _) => Ok (if decide (n1 = i) then ms ++ [j] else ms)
       | None => Raise TypeError
       end) ms
  = Ok (ms ++ filter (fun j => nearest clusters j = i) a).
Proof.
  induction a as [|j a IH]; intros Ha ms; cbn [for_each].
  - by rewrite app_nil_r.
  - destruct (Ha j) as (n1 & n2 & Hj); [by left|].
    rewrite (proj2 (getitem_Ok _ _ _) Hj), !outcome_bind_ret.
    rewrite IH by (intros j' Hj'; apply Ha; by right).
    assert (Hn : nearest clusters j = n1) by (unfold nearest; by rewrite Hj).
    rewrite filter_cons.
    destruct (decide (n1 = i)), (decide (nearest clusters j = i)); try congruence.
    by rewrite <- app_assoc.
Qed.

Lemma collect_fmap {A B} (f : A -> outcome B) (g : A -> B) (l : list A) :
  (forall x, x ∈ l -> f x = Ok (g x)) -> DunnMergeCriterion.collect f l = Ok (g <$> l).
Proof.
  induction l as [|x l IH]; intros Hl; [done|].
  cbn [DunnMergeCriterion.collect]. rewrite (Hl x) by (by left). rewrite outcome_bind_ret.
  rewrite IH by (intros y Hy; apply Hl; by right). by rewrite outcome_bind_ret.
Qed.

Lemma ascending_seq (t n : nat) : ascending (seq t n).
Proof.
  revert t. induction n as [|n IH]; intros t; cbn; constructor; [apply IH|].
  apply Forall_forall. intros x Hx. apply elem_of_seq in Hx. lia.
Qed.

Lemma ascending_filter (P : nat -> Prop) `{forall x, Decision (P x)} (l : list nat) :
  ascending l -> ascending (filter P l).
Proof.
  induction 1 as [|x l Hl IH Hx]; [constructor|].
  rewrite filter_cons. destruct (decide (P x)); [|done].
  constructor; [done|]. apply Forall_forall. intros y [_ Hy]%list_elem_of_filter.
  rewrite Forall_forall in Hx. by apply Hx.
Qed.

(** What [clusters()] returns on a consistent object. *)
Lemma medoids_clusters_run (md : Medoids) :
  medoids_ok md ->
  exists cs,
    medoids_clusters md = Ok cs /\
    medoid <$> cs = md_selected md /\
    Forall (fun c =>
              ascending (members c) /\
              forall j, j ∈ members c <->
                j = medoid c \/
                (j < md_n md /\ (j ∉ md_selected md) /\
                 nearest (md_clusters md) j = medoid c)) cs.
Proof.
  intros (Hasc & Hlt & Hk & Ht & Hgood).
  set (a := filter (fun i => i ∉ md_selected md) (seq 0 (md_n md))).
  set (g := fun i => {| medoid := i;
                        members := insort i (filter (fun j => nearest (md_clusters md) j = i) a) |}).
  exists (g <$> md_selected md). split; [|split].
  - unfold medoids_clusters. apply collect_fmap. intros i Hi.
    rewrite unselected_total; [|done|by intros E; rewrite E in Hi; apply elem_of_nil in Hi].
    rewrite outcome_bind_ret. fold a.
    rewrite members_loop_total; [by rewrite outcome_bind_ret|].
    intros j [Hnot Hj]%list_elem_of_filter. apply elem_of_seq in Hj.
    destruct (Hgood j) as (n1 & n2 & Hc & _); [lia|done|]. by exists n1, n2.
  - rewrite <- list_fmap_compose. apply list_fmap_id.
  - apply Forall_fmap, Forall_forall. intros i Hi. cbn. split.
    + apply insort_ascending.
      * apply ascending_filter. apply ascending_filter, ascending_seq.
      * intros [_ [Hnot _]%list_elem_of_filter]%list_elem_of_filter. done.
    + intros j. rewrite insort_perm, elem_of_cons, list_elem_of_filter.
      unfold a. rewrite list_elem_of_filter, elem_of_seq. intuition lia.
Qed.

(** X20.  On a consistent [_Medoids] object [clusters()] returns one
    cluster for each medoid, in the order of the medoids: its members, in
    ascending order, are the medoid and the points that are no medoids and
    have it recorded as their nearest medoid; the clusters together hold
    every point below [n] once. *)
Theorem medoids_clusters_shape (md : Medoids) :
  medoids_ok md ->
  exists cs,
    medoids_clusters md = Ok cs /\
    medoid <$> cs = md_selected md /\
    concat (members <$> cs) ≡ₚ seq 0 (md_n md) /\
    Forall (fun c =>
              ascending (members c) /\
              forall j, j ∈ members c <->
                j = medoid c \/
                (j < md_n md /\ (j ∉ md_selected md) /\
                 nearest (md_clusters md) j = medoid c)) cs.
Proof.
  intros Hok. destruct (medoids_clusters_run md Hok) as (cs & Hrun & Hmed & Hall).
  exists cs. split; [done|]. split; [done|]. split; [|done].
  by apply medoids_clusters_spec.
Qed.

Lemma medoids_clusters_shape_witness :
  exists cs,
    medoids_clusters line_medoids = Ok cs /\
    medoid <$> cs = [0; 5] /\
    concat (members <$> cs) ≡ₚ seq 0 6 /\
    Forall (fun c =>
              ascending (members c) /\
              forall j, j ∈ members c <->
                j = medoid c \/
                (j < 6 /\ (j ∉ [0; 5]) /\
                 nearest (md_clusters line_medoids) j = medoid c)) cs.
Proof.
  apply (medoids_clusters_shape line_medoids).
  apply line_medoids_ok.
Defined.

(** *** The seed [_agoras] and its reduction [_unmapped] *)

Lemma marked_count {A} (mapped : list bool) (v : list A) :
  length mapped = length v ->
  length (snd <$> filter (fun mv : bool * A => mv.1 = true) (zip mapped v))
  = length (filter (fun b : bool => b = true) mapped).
Proof.
  revert v. induction mapped as [|b mapped IH]; intros [|x v] Hlen; try done.
  cbn [zip_with]. rewrite !filter_cons. cbn [fst].
  injection Hlen as Hlen. specialize (IH v Hlen).
  destruct (decide (b = true)); cbn; by rewrite IH.
Qed.

Lemma marked_one_more (mapped : list bool) (i : nat) :
  length (filter (fun b : bool => b = true) (<[i := true]> mapped))
  <= S (length (filter (fun b : bool => b = true) mapped)).
Proof.
  revert i. induction mapped as [|b mapped IH]; intros i; [destruct i; cbn; lia|].
  destruct i as [|i]; cbn [insert list_insert]; rewrite !filter_cons.
  - rewrite decide_True by done. destruct (decide (b = true)); cbn [length]; lia.
  - specialize (IH i).
    destruct (decide (b = true)); cbn [length]; [apply le_n_S|]; exact IH.
Qed.

Lemma marked_some (mapped : list bool) (i : nat) :
  i < length mapped ->
  1 <= length (filter (fun b : bool => b = true) (<[i := true]> mapped)).
Proof.
  intros Hi.
  assert (Hin : true ∈ filter (fun b : bool => b = true) (<[i := true]> mapped)).
  { apply list_elem_of_filter. split; [done|].
    apply list_elem_of_lookup. exists i. by apply list_lookup_insert_eq. }
  destruct (filter _ _) as [|? ?]; [by apply elem_of_nil in Hin | cbn; lia].
Qed.

Lemma marked_none (n : nat) : filter (fun b : bool => b = true) (replicate n false) = [].
Proof. induction n as [|n IH]; [done|]. cbn [replicate]. by rewrite filter_cons_False. Qed.

Section Unmapped.
Context {RM : RandomModule}.

Lemma unmapped_marks (u v : list nat) (distance : nat -> nat -> M Q)
    (mapped : list bool) (w w' : World) :
  forM u
    (fun mapped uu =>
       '(_, min_i) ← nearest_position distance uu v;
       match min_i with
       | Some i => lift (setitem mapped i true)
       | None => raise TypeError
       end)
    (replicate (length v) false) w = (Ok mapped, w') ->
  length mapped = length v /\
  length (filter (fun b : bool => b = true) mapped) <= length u /\
  (u <> [] -> 1 <= length (filter (fun b : bool => b = true) mapped)).
Proof.
  intros H.
  refine (forM_invariant
            (fun (done : list nat) (mapped : list bool) =>
               length mapped = length v /\
               length (filter (fun b : bool => b = true) mapped) <= length done /\
               (done <> [] -> 1 <= length (filter (fun b : bool => b = true) mapped)))
            _ u _ _ _ _ _ _ H).
  - intros done uu s1 w1 s2 w2 (Hlen & Hcount & Hone) _ Hbody.
    inv_bind Hbody. destruct a as [min_d [i|]]; [|done].
    apply lift_Ok in Hbody as [Hset _]. apply setitem_Ok in Hset as [Hi ->].
    split; [by rewrite length_insert|]. split.
    + rewrite length_app. cbn [length].
      etransitivity; [apply marked_one_more|]. lia.
    + intros _. by apply marked_some.
  - split; [by rewrite length_replicate|]. split; [|done].
    by rewrite marked_none.
Qed.

End Unmapped.

(** X21.  [_unmapped(u, v, distance)] returns entries of [v] in the order
    they have in [v], at most one for each object of [u], and at least one
    when [u] is not empty. *)
Theorem unmapped_keeps {RM : RandomModule} (u v r : list nat)
    (distance : nat -> nat -> M Q) (w w' : World) :
  _unmapped u v distance w = (Ok r, w') ->
  r `sublist_of` v /\ length r <= length u /\ (u <> [] -> r <> []).
Proof.
  unfold _unmapped. intros H. inv_bind H.
  apply ret_Ok in H as [-> _].
  apply unmapped_marks in E as (Hlen & Hcount & Hone).
  split; [apply marked_sublist|]. rewrite <- (marked_count a v Hlen) in Hcount, Hone.
  split; [done|]. intros Hu E. specialize (Hone Hu). rewrite E in Hone. cbn in Hone. lia.
Qed.

Lemma unmapped_keeps_witness :
  exists r w',
    @_unmapped lcg_random [1; 4] [0; 2; 5] line_distance (world_of 1) = (Ok r, w') /\
    r `sublist_of` [0; 2; 5] /\ length r <= 2 /\ ([1; 4] <> [] -> r <> []).
Proof.
  destruct (@_unmapped lcg_random [1; 4] [0; 2; 5] line_distance (world_of 1))
    as [[r | e |] w'] eqn:E.
  - exists r, w'. split; [reflexivity|].
    exact (@unmapped_keeps lcg_random [1; 4] [0; 2; 5] r line_distance (world_of 1) w' E).
  - assert (E1 : (@_unmapped lcg_random [1; 4] [0; 2; 5] line_distance (world_of 1)).1
                 = Raise e) by (rewrite E; reflexivity).
    vm_compute in E1. discriminate.
  - assert (E1 : (@_unmapped lcg_random [1; 4] [0; 2; 5] line_distance (world_of 1)).1
                 = OutOfFuel) by (rewrite E; reflexivity).
    vm_compute in E1. discriminate.
Defined.

(** X22.  What [_agoras(n, k, distance)] returns are [k] different points
    below [n]; it returns nothing unless [0 < k <= n]. *)
Theorem agoras_selects {RM : RandomModule} {MM : MathModule} (fuel n : nat) (k : Z)
    (distance : nat -> nat -> M Q) (selected : list nat) (w w' : World) :
  _agoras fuel n k distance w = (Ok selected, w') ->
  (0 < k <= Z.of_nat n)%Z /\ Z.of_nat (length selected) = k /\
  NoDup selected /\ Forall (fun i => i < n) selected.
Proof.
  intros H. pose proof (agoras_spec _ _ _ _ _ _ _ H) as [Hsub Hlen].
  assert (Hk : (0 < k)%Z).
  { unfold _agoras in H. inv_bind H. unfold log_of in E. by case_dec E. }
  pose proof (submseteq_length _ _ Hsub) as Hle. rewrite length_seq in Hle.
  split; [lia|]. split; [done|]. split.
  - eapply submseteq_NoDup; [exact Hsub | apply NoDup_seq].
  - apply Forall_forall. intros i Hi.
    eapply elem_of_submseteq in Hi; [|exact Hsub]. apply elem_of_seq in Hi. lia.
Qed.

Lemma agoras_selects_witness :
  exists selected w',
    @_agoras lcg_random table_math 100 6 2 line_distance (world_of 1) = (Ok selected, w') /\
    (0 < 2 <= Z.of_nat 6)%Z /\ Z.of_nat (length selected) = 2%Z /\
    NoDup selected /\ Forall (fun i => i < 6) selected.
Proof.
  destruct (@_agoras lcg_random table_math 100 6 2 line_distance (world_of 1))
    as [[r | e |] w'] eqn:E.
  - exists r, w'. split; [reflexivity|].
    exact (@agoras_selects lcg_random table_math 100 6 2 line_distance r (world_of 1) w' E).
  - assert (E1 : (@_agoras lcg_random table_math 100 6 2 line_distance (world_of 1)).1
                 = Raise e) by (rewrite E; reflexivity).
    vm_compute in E1. discriminate.
  - assert (E1 : (@_agoras lcg_random table_math 100 6 2 line_distance (world_of 1)).1
                 = OutOfFuel) by (rewrite E; reflexivity).
    vm_compute in E1. discriminate.
Defined.

(** *** [with_k] and [optimize] with a number of clusters *)

Section WithKRun.
Context {RM : RandomModule} {MM : MathModule}.

(** The medoids [with_k] takes its clusters from. *)
Lemma with_k_medoids (fuel : nat) (self : Clusterer) (k : Z) (cs : list Cluster)
    (w w' : World) :
  with_k fuel self k w = (Ok cs, w') ->
  exists md, medoids_ok md /\ md_n md = c_n self /\ md_k md = k /\
             medoids_clusters md = Ok cs.
Proof.
  unfold with_k. intros H. apply bind_Ok in H as (best & w1 & Eloop & H).
  assert (Hbest : forall md, best = Some md ->
            medoids_ok md /\ md_n md = c_n self /\ md_k md = k).
  { refine (forM_invariant
              (fun _ (st : option Medoids) =>
                 forall md, st = Some md ->
                   medoids_ok md /\ md_n md = c_n self /\ md_k md = k)
              _ _ _ _ _ _ _ _ Eloop); [|done].
    intros _ _ st v1 st2 v2 Hst _ Hbody.
    apply bind_Ok in Hbody as (md0 & v3 & Einit & Hbody).
    apply medoids_init_ok in Einit as (Hok0 & Hn0 & Hk0).
    apply bind_Ok in Hbody as (md1 & v4 & Esearch & Hbody).
    apply local_search_ok in Esearch as (Hok1 & Hn1 & Hk1); [|done].
    apply ret_Ok in Hbody as [-> _]. intros md Hmd.
    destruct st as [old|]; [destruct (Qltb _ _)|]; injection Hmd as <-.
    - split; [done|]. split; congruence.
    - by apply Hst.
    - split; [done|]. split; congruence. }
  destruct best as [md|]; [|done]. apply lift_Ok in H as [H _].
  destruct (Hbest md eq_refl) as (Hok & Hn & Hk). by exists md.
Qed.

Lemma with_k_run (fuel : nat) (self : Clusterer) (k : Z) (cs : list Cluster)
    (w w' : World) :
  with_k fuel self k w = (Ok cs, w') ->
  Z.of_nat (length cs) = k /\
  ascending (medoid <$> cs) /\
  Forall (fun i => i < c_n self) (medoid <$> cs) /\
  concat (members <$> cs) ≡ₚ seq 0 (c_n self) /\
  Forall (fun c => medoid c ∈ members c /\ ascending (members c)) cs.
Proof.
  intros H. pose proof (with_k_spec _ _ _ _ _ _ H) as Hperm.
  apply with_k_medoids in H as (md & Hok & Hn & Hk & Hrun).
  destruct (medoids_clusters_run md Hok) as (cs' & Hrun' & Hmed & Hall).
  assert (cs' = cs) as -> by congruence.
  destruct Hok as (Hasc & Hlt & Hlen & _).
  split; [by rewrite <- Hk, <- Hlen, <- Hmed, length_fmap|].
  split; [by rewrite Hmed|]. split; [by rewrite Hmed, <- Hn|]. split; [done|].
  eapply Forall_impl; [exact Hall|]. intros c [Hc Hin]. split; [|done].
  apply Hin. by left.
Qed.

End WithKRun.

(** X23.  What [with_k(k)] returns are [k] clusters, in ascending order of
    their medoids, which are points of the clusterer; each cluster holds
    its medoid and lists its members in ascending order, and the clusters
    together hold every point once. *)
Theorem with_k_clusters {RM : RandomModule} {MM : MathModule}
    (fuel : nat) (self : Clusterer) (k : Z) (cs : list Cluster) (w w' : World) :
  with_k fuel self k w = (Ok cs, w') ->
  Z.of_nat (length cs) = k /\
  ascending (medoid <$> cs) /\
  Forall (fun i => i < c_n self) (medoid <$> cs) /\
  concat (members <$> cs) ≡ₚ seq 0 (c_n self) /\
  Forall (fun c => medoid c ∈ members c /\ ascending (members c)) cs.
Proof. apply with_k_run. Qed.

Lemma with_k_clusters_witness :
  exists cs w',
    @with_k lcg_random table_math 100 (root_clusterer 6 line_distance) 2 (world_of 1)
      = (Ok cs, w') /\
    Z.of_nat (length cs) = 2%Z /\
    ascending (medoid <$> cs) /\
    Forall (fun i => i < 6) (medoid <$> cs) /\
    concat (members <$> cs) ≡ₚ seq 0 6 /\
    Forall (fun c => medoid c ∈ members c /\ ascending (members c)) cs.
Proof.
  destruct (@with_k lcg_random table_math 100 (root_clusterer 6 line_distance) 2 (world_of 1))
    as [[cs | e |] w'] eqn:E.
  - exists cs, w'. split; [reflexivity|].
    exact (@with_k_clusters lcg_random table_math 100 (root_clusterer 6 line_distance) 2 cs
             (world_of 1) w' E).
  - assert (E1 : (@with_k lcg_random table_math 100 (root_clusterer 6 line_distance) 2
                    (world_of 1)).1 = Raise e) by (rewrite E; reflexivity).
    vm_compute in E1. discriminate.
  - assert (E1 : (@with_k lcg_random table_math 100 (root_clusterer 6 line_distance) 2
                    (world_of 1)).1 = OutOfFuel) by (rewrite E; reflexivity).
    vm_compute in E1. discriminate.
Defined.

(** X24.  With a number [k] other than [1], what [optimize] returns
    presents [k] clusters that hold every point once; each cluster lists
    its points in ascending order of their indices, and the clusters come
    in ascending order of their first points. *)
Theorem optimize_k_clusters {RM : RandomModule} {MM : MathModule} {Point : Type}
    (fuel : nat) (p : list Point) (k : Z) (distances : Distances) (m : mode) (sd : Z)
    (w w' : World) (out : output) :
  k <> 1%Z ->
  optimize fuel p (KInt k) distances m sd w = (Ok out, w') ->
  exists cs,
    renders p m cs out /\
    Z.of_nat (length cs) = k /\
    concat cs ≡ₚ seq 0 (length p) /\
    Forall ascending cs /\ ascending (first_of <$> cs).
Proof.
  intros Hk H. unfold optimize in H.
  assert (Eone : match k with 1%Z => true | _ => false end = false).
  { destruct k as [|[?|?|]|?]; done. }
  cbn match in H. rewrite Eone in H.
  apply bind_Ok in H as (random_state & w1 & _ & H). unfold try_finally in H.
  destruct (optimize_body fuel p (KInt k) distances m sd w1) as [[o|e|] w2] eqn:Ebody;
    cbn in H; try done.
  injection H as -> _. unfold optimize_body in Ebody.
  apply bind_Ok in Ebody as (u & w3 & _ & H).
  apply bind_Ok in H as (clusters & w4 & Ecl & H).
  apply bind_Ok in Ecl as (cs0 & w5 & Ecs & Ecl). apply ret_Ok in Ecl as [-> _].
  apply with_k_run in Ecs as (Hlen & _ & _ & Hperm & Hall). cbn [c_n] in Hperm.
  apply bind_Ok in H as (sorted_clusters & w6 & Es & H). apply lift_Ok in Es as [Hs _].
  unfold sorted_by_first in Hs. destruct (forallb _ (members <$> cs0)); [|done].
  injection Hs as <-.
  set (cs := sorted_by _ (members <$> cs0)) in *.
  assert (Hsort : cs ≡ₚ members <$> cs0) by apply sorted_by_perm.
  assert (Hcs : concat cs ≡ₚ seq 0 (length p)).
  { rewrite <- Hperm. by apply concat_perm. }
  assert (Hmem : Forall (fun c => c <> [] /\ ascending c) cs).
  { rewrite Hsort. apply Forall_fmap. eapply Forall_impl; [exact Hall|].
    intros c [Hin Hasc]. split; [|done]. cbn. intros E. rewrite E in Hin.
    by apply elem_of_nil in Hin. }
  exists cs. split; [|split; [|split; [done|split]]].
  - apply render_spec; [done|]. unfold render. destruct m; try done.
    + apply bind_Ok in H as (pcs & w7 & Ep & H). apply lift_Ok in Ep as [-> _].
      by apply ret_Ok in H as [-> _].
    + apply bind_Ok in H as (comps & w7 & Ec & H). apply lift_Ok in Ec as [-> _].
      by apply ret_Ok in H as [-> _].
  - by rewrite Hsort, length_fmap.
  - eapply Forall_impl; [exact Hmem|]. by intros c [_ Hc].
  - apply le_NoDup_ascending.
    + apply (sorted_keys first_of). apply sorted_by_sorted.
    + apply firsts_NoDup.
      * eapply Forall_impl; [exact Hmem|]. by intros c [Hc _].
      * rewrite Hcs. apply NoDup_seq.
Qed.

Lemma optimize_k_clusters_witness :
  exists out w',
    @optimize lcg_random table_math Z 100 line_points (KInt 2)
      (Precomputed (line_matrix line_points)) mode_clusters 12345 (world_of 1)
    = (Ok out, w') /\
    exists cs,
      renders line_points mode_clusters cs out /\
      Z.of_nat (length cs) = 2%Z /\
      concat cs ≡ₚ seq 0 (length line_points) /\
      Forall ascending cs /\ ascending (first_of <$> cs).
Proof.
  destruct (@optimize lcg_random table_math Z 100 line_points (KInt 2)
              (Precomputed (line_matrix line_points)) mode_clusters 12345 (world_of 1))
    as [[out | e |] w'] eqn:E.
  - exists out, w'. split; [reflexivity|].
    apply (@optimize_k_clusters lcg_random table_math Z 100 line_points 2
             (Precomputed (line_matrix line_points)) mode_clusters 12345%Z (world_of 1) w' out).
    + discriminate.
    + exact E.
  - assert (E1 : (@optimize lcg_random table_math Z 100 line_points (KInt 2)
                    (Precomputed (line_matrix line_points)) mode_clusters 12345
                    (world_of 1)).1 = Raise e) by (rewrite E; reflexivity).
    vm_compute in E1. discriminate.
  - assert (E1 : (@optimize lcg_random table_math Z 100 line_points (KInt 2)
                    (Precomputed (line_matrix line_points)) mode_clusters 12345
                    (world_of 1)).1 = OutOfFuel) by (rewrite E; reflexivity).
    vm_compute in E1. discriminate.
Defined.

(** ** The bookkeeping of the medoids *)

(** *** Sums *)

Lemma fsum_cons (x : Q) (l : list Q) : fsum (x :: l) = (x + fsum l)%Q.
Proof. reflexivity. Qed.

Lemma fsum_app (l l' : list Q) : (fsum (l ++ l') == fsum l + fsum l')%Q.
Proof.
  induction l as [|x l IH]; cbn [app]; rewrite ?fsum_cons; [cbn; lra|].
  rewrite IH. lra.
Qed.

Lemma fsum_perm (l l' : list Q) : l ≡ₚ l' -> (fsum l == fsum l')%Q.
Proof.
  induction 1 as [|x l l' _ IH|x y l|l1 l2 l3 _ IH1 _ IH2]; rewrite ?fsum_cons.
  - reflexivity.
  - rewrite IH. reflexivity.
  - lra.
  - by rewrite IH1.
Qed.

Lemma fsum_pointwise {A} (f g : A -> Q) (l : list A) :
  (forall x, x ∈ l -> (f x == g x)%Q) -> (fsum (f <$> l) == fsum (g <$> l))%Q.
Proof.
  induction l as [|x l IH]; intros Hl; [reflexivity|].
  cbn [fmap list_fmap]. rewrite !fsum_cons.
  rewrite (Hl x) by (by left). rewrite IH; [reflexivity|].
  intros y Hy. apply Hl. by right.
Qed.

Lemma fsum_sub {A} (f g : A -> Q) (l : list A) :
  (fsum ((fun x => f x - g x)%Q <$> l) == fsum (f <$> l) - fsum (g <$> l))%Q.
Proof.
  induction l as [|x l IH]; [cbn; lra|].
  cbn [fmap list_fmap]. rewrite !fsum_cons. rewrite IH. lra.
Qed.

(** *** The two smallest of [nsmallest] *)

Lemma pair_lt_true (a b : Q * nat) : pair_lt a b = true -> (a.1 <= b.1)%Q.
Proof.
  unfold pair_lt. destruct (a.1 ?= b.1)%Q eqn:E; [| |done]; intros _.
  - apply Qeq_alt in E. rewrite E. apply Qle_refl.
  - apply Qlt_alt in E. by apply Qlt_le_weak.
Qed.

Lemma pair_lt_false (a b : Q * nat) : pair_lt a b = false -> (b.1 <= a.1)%Q.
Proof.
  unfold pair_lt. destruct (a.1 ?= b.1)%Q eqn:E; [|done|]; intros _.
  - apply Qeq_alt in E. rewrite E. apply Qle_refl.
  - apply Qgt_alt in E. by apply Qlt_le_weak.
Qed.

Lemma insert_pair_sorted (x : Q * nat) (l : list (Q * nat)) :
  StronglySorted (fun a b => a.1 <= b.1)%Q l ->
  StronglySorted (fun a b => a.1 <= b.1)%Q (insert_pair x l).
Proof.
  induction 1 as [|y l Hl IH Hy]; cbn [insert_pair].
  - repeat constructor.
  - destruct (pair_lt y x) eqn:E.
    + apply pair_lt_true in E. constructor; [done|].
      apply Forall_forall. intros z Hz. rewrite insert_pair_perm in Hz.
      apply elem_of_cons in Hz as [->|Hz]; [exact E|].
      rewrite Forall_forall in Hy. by apply Hy.
    + apply pair_lt_false in E. constructor; [by constructor|].
      constructor; [done|]. eapply Forall_impl; [exact Hy|].
      intros z Hz. cbn beta in Hz. by eapply Qle_trans.
Qed.

Lemma nsmallest_two (l : list (Q * nat)) (a b : Q * nat) :
  nsmallest 2 l = [a; b] ->
  exists rest, l ≡ₚ a :: b :: rest /\ (a.1 <= b.1)%Q /\
               Forall (fun x => b.1 <= x.1)%Q rest.
Proof.
  unfold nsmallest. intros H.
  assert (Hperm : foldr insert_pair [] l ≡ₚ l).
  { clear H. induction l as [|x l IH]; [done|]. cbn [foldr]. rewrite insert_pair_perm.
    by apply Permutation_cons. }
  assert (Hsorted : StronglySorted (fun a b => a.1 <= b.1)%Q (foldr insert_pair [] l)).
  { clear. induction l as [|x l IH]; cbn [foldr]; [constructor|].
    by apply insert_pair_sorted. }
  destruct (foldr insert_pair [] l) as [|a' [|b' rest]]; try done.
  cbn in H. injection H as -> ->. exists rest. split; [done|].
  apply StronglySorted_inv in Hsorted as [Hs Ha]. apply StronglySorted_inv in Hs as [_ Hb].
  split; [|done]. by apply Forall_cons in Ha as [Ha _].
Qed.

(** *** What the distance function is asked *)

Section Exact.
Context {RM : RandomModule} {MM : MathModule}.
Variable distance : nat -> nat -> M Q.
Variable d : nat -> nat -> Q.
Hypothesis Hd : computes distance d.

Lemma mapM_values {A B} (f : A -> M B) (g : A -> B) (l : list A) :
  (forall x w y w', f x w = (Ok y, w') -> y = g x) ->
  forall ys w w', mapM f l w = (Ok ys, w') -> ys = g <$> l.
Proof.
  intros Hf. induction l as [|x l IH]; intros ys w w' H; cbn [mapM] in H.
  - by apply ret_Ok in H as [-> _].
  - inv_bind H. apply Hf in E as ->. inv_bind H. apply IH in E as ->.
    by apply ret_Ok in H as [-> _].
Qed.

(** *** [_update_clusters] *)

Lemma update_clusters_exact (selected : list nat)
    (clusters clusters' : list (option (nat * nat))) (a : list nat) (ds : list Q)
    (w w' : World) :
  update_clusters distance selected clusters a w = (Ok (clusters', ds), w') ->
  (forall j, j ∈ a -> nearest_two d selected j (clusters' !! j)) /\
  (forall j, j ∉ a -> clusters' !! j = clusters !! j) /\
  Forall2 (fun j q => (exists i, i ∈ selected /\ q = d i j) /\
                      forall i, i ∈ selected -> (q <= d i j)%Q) a ds.
Proof.
  unfold update_clusters. intros H.
  apply (forM_invariant
           (fun done (st : list (option (nat * nat)) * list Q) =>
              (forall j, j ∈ done -> nearest_two d selected j (st.1 !! j)) /\
              (forall j, j ∉ done -> st.1 !! j = clusters !! j) /\
              Forall2 (fun j q => (exists i, i ∈ selected /\ q = d i j) /\
                                  forall i, i ∈ selected -> (q <= d i j)%Q) done st.2))
    in H; [done| |].
  - intros done j [cl ds1] w1 [cl2 ds2] w2 (Hin & Hout & Hds) Hj Hbody. cbn [fst snd] in *.
    inv_bind Hbody.
    apply (mapM_values _ (fun i => (d i j, i))) in E.
    2: { intros i v1 y v2 Hy. inv_bind Hy. apply Hd in E0 as ->.
         by apply ret_Ok in Hy as [-> _]. }
    destruct (nsmallest 2 a0) as [|[d1 i1] [|[d2 i2] [|? ?]]] eqn:En; try discriminate.
    case_dec Hbody; [discriminate|].
    inv_bind Hbody. apply lift_Ok in E0 as [Hset ->]. apply setitem_Ok in Hset as [Hlt ->].
    apply ret_Ok in Hbody as [[= -> ->] _].
    apply nsmallest_two in En as (rest & Hperm & H12 & Hrest). cbn [fst] in H12, Hrest.
    assert (Hcand : forall i, i ∈ selected -> (d i j, i) ∈ (d1, i1) :: (d2, i2) :: rest).
    { intros i Hi. rewrite <- Hperm, E. apply list_elem_of_fmap. by exists i. }
    assert (Hsel : forall q i, (q, i) ∈ a0 -> q = d i j /\ i ∈ selected).
    { intros q i Hqi. rewrite E in Hqi.
      apply list_elem_of_fmap in Hqi as (i' & [= -> ->] & Hi'). done. }
    destruct (Hsel d1 i1) as [-> Hi1]; [rewrite Hperm; by left|].
    destruct (Hsel d2 i2) as [-> Hi2]; [rewrite Hperm; right; by left|].
    assert (Hfirst : forall i, i ∈ selected -> (d i1 j <= d i j)%Q).
    { intros i Hi. specialize (Hcand i Hi).
      apply elem_of_cons in Hcand as [[= E1 ->]|Hcand]; [apply Qle_refl|].
      apply elem_of_cons in Hcand as [[= E1 ->]|Hcand]; [done|].
      rewrite Forall_forall in Hrest. specialize (Hrest _ Hcand). cbn in Hrest.
      by eapply Qle_trans. }
    assert (Hsecond : forall i, i ∈ selected -> i <> i1 -> (d i2 j <= d i j)%Q).
    { intros i Hi Hne. specialize (Hcand i Hi).
      apply elem_of_cons in Hcand as [[= E1 ->]|Hcand]; [done|].
      apply elem_of_cons in Hcand as [[= E1 ->]|Hcand]; [apply Qle_refl|].
      rewrite Forall_forall in Hrest. by specialize (Hrest _ Hcand). }
    split; [|split].
    + intros j' Hj'. destruct (decide (j' = j)) as [->|Hne].
      * rewrite list_lookup_insert_eq by done. by exists i1, i2.
      * rewrite list_lookup_insert_ne by done. apply Hin.
        apply elem_of_app in Hj' as [Hj'|Hj']; [done|].
        apply list_elem_of_singleton in Hj'. done.
    + intros j' Hj'. apply not_elem_of_app in Hj' as [Hn Hs].
      rewrite list_lookup_insert_ne; [by apply Hout|].
      intros ->. apply Hs. by left.
    + apply Forall2_app; [done|]. constructor; [|constructor].
      split; [by exists i1 | done].
  - split; [intros j Hj; by apply elem_of_nil in Hj|]. split; [done | constructor].
Qed.

(** The distances [_update_clusters] yields add up to the recorded cost. *)
Lemma yielded_cost (selected : list nat) (clusters : list (option (nat * nat))) (a : list nat) :
  (forall j, j ∈ a -> nearest_two d selected j (clusters !! j)) ->
  forall ds : list Q,
  Forall2 (fun j q => (exists i, i ∈ selected /\ q = d i j) /\
                      forall i, i ∈ selected -> (q <= d i j)%Q) a ds ->
  (fsum ds == fsum ((fun j => d (nearest clusters j) j) <$> a))%Q.
Proof.
  intros Ha ds Hds. induction Hds as [|j q a ds [(i & Hi & ->) Hq] _ IH]; [reflexivity|].
  cbn [fmap list_fmap]. rewrite !fsum_cons.
  destruct (Ha j) as (n1 & n2 & Hc & Hn1 & _ & _ & Hfirst & _); [by left|].
  assert (Hn : nearest clusters j = n1) by (unfold nearest; by rewrite Hc). rewrite Hn.
  rewrite IH by (intros j' Hj'; apply Ha; by right).
  assert (d i j == d n1 j)%Q; [|lra].
  apply Qle_antisym; [by apply Hq | by apply Hfirst].
Qed.

(** *** A new [_Medoids] object *)

Lemma medoids_init_run (fuel n : nat) (k : Z) (md : Medoids) (w w' : World) :
  medoids_init fuel n distance k w = (Ok md, w') ->
  medoids_exact d md /\ md_n md = n /\ md_k md = k.
Proof.
  intros H. destruct (medoids_init_ok _ _ _ _ _ _ _ H) as (Hok & Hn & Hk).
  split; [|done]. split; [done|].
  unfold medoids_init in H.
  apply bind_Ok in H as (sel & w1 & Eag & H). apply agoras_spec in Eag as [Hsub Hlen].
  apply bind_Ok in H as (a & w2 & Ea & H). apply lift_Ok in Ea as [Ha ->].
  assert (Hnd : NoDup sel) by (eapply submseteq_NoDup; [done | apply NoDup_seq]).
  pose proof (sorted_ascending sel Hnd) as Hasc.
  apply unselected_spec in Ha; [|done].
  apply bind_Ok in H as ([clusters ds] & w3 & Eup & H).
  apply update_clusters_exact in Eup as (Hnew & _ & Hds).
  apply ret_Ok in H as [-> _]. unfold recorded_cost.
  cbn [md_selected md_n md_k md_clusters md_cost]. split.
  - intros j Hjn Hnot. apply Hnew. rewrite Ha. apply list_elem_of_filter.
    split; [done|]. apply elem_of_seq. lia.
  - rewrite <- Ha. by eapply yielded_cost.
Qed.

(** *** The cost delta of a swap *)

Lemma pymin_spec (x y : Q) :
  (pymin x y = x \/ pymin x y = y) /\ (pymin x y <= x)%Q /\ (pymin x y <= y)%Q.
Proof.
  unfold pymin. destruct (Qltb y x) eqn:E.
  - apply Qltb_lt in E. split; [by right|]. split; [by apply Qlt_le_weak | apply Qle_refl].
  - apply Qltb_ge in E. split; [by left|]. split; [apply Qle_refl | done].
Qed.

Lemma foldl_pymin (l : list Q) : forall x : Q,
  (foldl pymin x l = x \/ foldl pymin x l ∈ l) /\ (foldl pymin x l <= x)%Q /\
  forall y, y ∈ l -> (foldl pymin x l <= y)%Q.
Proof.
  induction l as [|y l IH]; intros x; cbn [foldl].
  - split; [by left|]. split; [apply Qle_refl|]. intros y Hy. by apply elem_of_nil in Hy.
  - destruct (IH (pymin x y)) as (Hin & Hle & Hall).
    destruct (pymin_spec x y) as (Hxy & Hx & Hy).
    split; [|split].
    + destruct Hin as [->|Hin]; [|right; by right].
      destruct Hxy as [->| ->]; [by left | right; by left].
    + by eapply Qle_trans.
    + intros z [->|Hz]%elem_of_cons; [by eapply Qle_trans | by apply Hall].
Qed.

Lemma min_of_spec (l : list Q) (t : Q) :
  min_of l = Ok t -> t ∈ l /\ forall x, x ∈ l -> (t <= x)%Q.
Proof.
  destruct l as [|x l]; [done|]. cbn [min_of]. intros [= <-].
  destruct (foldl_pymin l x) as (Hin & Hle & Hall). split.
  - destruct Hin as [->|Hin]; [by left | by right].
  - intros y [->|Hy]%elem_of_cons; [done | by apply Hall].
Qed.

Hypothesis Hsym : forall i j, (d i j == d j i)%Q.

Lemma calculate_t_exact (self : Medoids) (i h : nat)
    (ts : list Q) (fast_updates : list (nat * nat)) (w w' : World) :
  medoids_exact d self -> i ∈ md_selected self -> h ∉ md_selected self ->
  calculate_t distance self i h w = (Ok (ts, fast_updates), w') ->
  fast_updates.*1
  = filter (fun j => j <> h)
      (filter (fun j => j ∉ md_selected self) (seq 0 (md_n self))) /\
  Forall (fun jm => swapped (md_selected self) i h jm.2 /\
                    forall m, swapped (md_selected self) i h m ->
                              (d jm.2 jm.1 <= d m jm.1)%Q) fast_updates /\
  exists t1 : Q,
    (exists m, swapped (md_selected self) i h m /\ (t1 == d m i)%Q) /\
    (forall m, swapped (md_selected self) i h m -> (t1 <= d m i)%Q) /\
    (fsum ts == t1 - d (nearest (md_clusters self) h) h
                + fsum ((fun jm => d jm.2 jm.1 - d (nearest (md_clusters self) jm.1) jm.1)
                          <$> fast_updates))%Q.
Proof.
  intros ((Hasc & Hlt & Hk & Ht & Hgood) & Hnear & _) Hi Hnot H. unfold calculate_t in H.
  assert (Hih : h <> i) by (by intros ->).
  apply bind_Ok in H as (ds & u1 & Eds & H).
  apply (mapM_values _ (d i)) in Eds; [|intros x v1 y v2 Hy; by apply Hd in Hy].
  apply bind_Ok in H as (t1 & u2 & Et1 & H). apply lift_Ok in Et1 as [Ht1 _].
  apply min_of_spec in Ht1 as [Ht1 Hmin]. rewrite Eds in Ht1, Hmin.
  apply list_elem_of_fmap in Ht1 as (m0 & -> & Hm0).
  assert (Hsw : forall m, swapped (md_selected self) i h m
                          <-> m ∈ filter (fun j => j <> i) (md_selected self ++ [h])).
  { intros m. rewrite list_elem_of_filter, elem_of_app, list_elem_of_singleton.
    unfold swapped. split; [intros [->|[? ?]]; auto | intros [? [?|?]]; auto]. }
  apply bind_Ok in H as (ch & u3 & Ech & H). apply lift_Ok in Ech as [Hch _].
  apply getitem_Ok in Hch.
  apply bind_Ok in H as (ch' & u4 & Ech' & H).
  destruct ch as [[hn1 hn2]|]; [|done]. apply ret_Ok in Ech' as [-> _]. cbn [fst] in H.
  assert (Hnh : nearest (md_clusters self) h = hn1) by (unfold nearest; by rewrite Hch).
  apply bind_Ok in H as (dh & u5 & Edh & H). apply Hd in Edh as ->.
  apply bind_Ok in H as (a & u6 & Ea & H).
  apply lift_Ok in Ea as [Ha _]. apply unselected_spec in Ha; [|done].
  set (P := fun jm : nat * nat =>
              swapped (md_selected self) i h jm.2 /\
              forall m, swapped (md_selected self) i h m -> (d jm.2 jm.1 <= d m jm.1)%Q).
  set (term := fun jm : nat * nat =>
                 (d jm.2 jm.1 - d (nearest (md_clusters self) jm.1) jm.1)%Q).
  set (I := fun (done : list nat) (st : list Q * list (nat * nat)) =>
              st.2.*1 = filter (fun j => j <> h) done /\ Forall P st.2 /\
              (fsum st.1 == d i m0 - d h hn1 + fsum (term <$> st.2))%Q).
  assert (Hfinal : I a (ts, fast_updates)).
  { refine (forM_invariant I _ _ _ _ _ _ _ _ H).
    - intros done j [ts1 fu1] v1 [ts2 fu2] v2 (Hfst & HP & Hsum) Hj Hbody.
      unfold I. cbn [fst snd] in *. rewrite filter_app, filter_cons, filter_nil.
      case_dec Hbody.
      { apply ret_Ok in Hbody as [[= -> ->] _]. subst j.
        rewrite decide_False by (intros Hn; by apply Hn). by rewrite app_nil_r. }
      rewrite decide_True by done.
      apply bind_Ok in Hbody as (cj & v3 & Ecj & Hbody).
      apply lift_Ok in Ecj as [Hcj _]. apply getitem_Ok in Hcj.
      rewrite Ha in Hj. apply list_elem_of_filter in Hj as [Hjnot Hjn].
      apply elem_of_seq in Hjn.
      destruct (Hnear j) as (n1 & n2 & Hc & Hn1 & Hn2 & Hn12 & Hfirst & Hsecond); [lia|done|].
      rewrite Hcj in Hc. injection Hc as ->.
      assert (Hnj : nearest (md_clusters self) j = n1) by (unfold nearest; by rewrite Hcj).
      apply bind_Ok in Hbody as (c & v4 & Ec & Hbody).
      apply ret_Ok in Ec as [-> _]. cbv beta iota in Hbody.
      apply bind_Ok in Hbody as (djh & v5 & Edjh & Hbody). apply Hd in Edjh as ->.
      pose proof (Hsym j h) as Sjh. pose proof (Hsym j n1) as Sj1.
      pose proof (Hsym j n2) as Sj2. pose proof (Hsym j i) as Sji.
      assert (Hstep : exists m q, P (j, m) /\ (q == term (j, m))%Q /\
                        fu2 = fu1 ++ [(j, m)] /\ (fsum ts2 == fsum ts1 + q)%Q).
      { case_dec Hbody.
        - subst n1. apply bind_Ok in Hbody as (d2 & v6 & Ed2 & Hbody). apply Hd in Ed2 as ->.
          destruct (Qgeb (d j h) (d j n2)) eqn:Eg.
          + apply bind_Ok in Hbody as (dji & v7 & Edji & Hbody). apply Hd in Edji as ->.
            apply ret_Ok in Hbody as [[= -> ->] _].
            apply Qleb_le in Eg.
            exists n2, (d j n2 - d j i)%Q. split; [|split; [|split]].
            * unfold P. cbn [fst snd]. split; [right; split; [done|congruence]|].
              intros m [->|[Hm Hmi]]; [lra|]. by apply Hsecond.
            * unfold term. cbn [fst snd]. rewrite Hnj. lra.
            * done.
            * rewrite fsum_app. cbn. lra.
          + apply bind_Ok in Hbody as (dji & v7 & Edji & Hbody). apply Hd in Edji as ->.
            apply ret_Ok in Hbody as [[= -> ->] _].
            apply Qleb_gt in Eg.
            exists h, (d j h - d j i)%Q. split; [|split; [|split]].
            * unfold P. cbn [fst snd]. split; [by left|].
              intros m [->|[Hm Hmi]]; [apply Qle_refl|].
              specialize (Hsecond m Hm Hmi). lra.
            * unfold term. cbn [fst snd]. rewrite Hnj. lra.
            * done.
            * rewrite fsum_app. cbn. lra.
        - apply bind_Ok in Hbody as (d2 & v6 & Ed2 & Hbody). apply Hd in Ed2 as ->.
          destruct (Qgeb (d j h) (d j n1)) eqn:Eg.
          + apply ret_Ok in Hbody as [[= -> ->] _].
            apply Qleb_le in Eg.
            exists n1, 0%Q. split; [|split; [|split]].
            * unfold P. cbn [fst snd]. split; [right; split; [done|congruence]|].
              intros m [->|[Hm Hmi]]; [lra|]. by apply Hfirst.
            * unfold term. cbn [fst snd]. rewrite Hnj. lra.
            * done.
            * lra.
          + apply ret_Ok in Hbody as [[= -> ->] _].
            apply Qleb_gt in Eg.
            exists h, (d j h - d j n1)%Q. split; [|split; [|split]].
            * unfold P. cbn [fst snd]. split; [by left|].
              intros m [->|[Hm Hmi]]; [apply Qle_refl|].
              specialize (Hfirst m Hm). lra.
            * unfold term. cbn [fst snd]. rewrite Hnj. lra.
            * done.
            * rewrite fsum_app. cbn. lra. }
      destruct Hstep as (m & q & HPm & Hq & -> & Hts). split; [|split].
      + rewrite fmap_app. cbn. by rewrite Hfst.
      + apply Forall_app. split; [done|]. by constructor.
      + rewrite fmap_app, fsum_app. cbn [fmap list_fmap]. rewrite fsum_cons.
        rewrite Hts, Hsum, Hq. cbn. lra.
    - unfold I. cbn. split; [done|]. split; [constructor|]. lra. }
  destruct Hfinal as (Hfst & HP & Hsum). cbn [fst snd] in *.
  split; [by rewrite Hfst, Ha|]. split; [exact HP|].
  exists (d i m0). split; [|split].
  - exists m0. split; [by apply Hsw | apply Hsym].
  - intros m Hm. apply Hsw in Hm. rewrite <- (Hsym i m). apply Hmin.
    apply list_elem_of_fmap. by exists m.
  - rewrite Hsum, Hnh. pose proof (Hsym h hn1). fold term. lra.
Qed.

(** *** The entries after a swap *)

Lemma nearest_other_exact (selected : list nat) (m j : nat)
    (min_d : option Q) (min_k : nat) (w w' : World) :
  nearest_other distance selected m j w = (Ok (min_d, Some min_k), w') ->
  min_k ∈ selected /\ min_k <> m /\
  forall k, k ∈ selected -> k <> m -> (d min_k j <= d k j)%Q.
Proof.
  unfold nearest_other. intros H.
  set (I := fun (done : list nat) (st : option Q * option nat) =>
              match st with
              | (Some q, Some k0) =>
                  q = d k0 j /\ k0 ∈ selected /\ k0 <> m /\
                  forall k, k ∈ done -> k <> m -> (d k0 j <= d k j)%Q
              | (None, None) => forall k, k ∈ done -> k = m
              | _ => False
              end).
  assert (Hfinal : I selected (min_d, Some min_k)).
  { refine (forM_invariant I _ _ _ _ _ _ _ _ H).
    - intros done k [md mk] w1 [md2 mk2] w2 HI Hk Hbody.
      case_dec Hbody.
      + inv_bind Hbody. apply Hd in E as ->.
        destruct md as [q|], mk as [k0|]; cbn in HI; try done.
        * destruct HI as (-> & Hk0 & Hk0m & Hall).
          destruct (Qltb (d k j) (d k0 j)) eqn:El.
          -- apply ret_Ok in Hbody as [[= -> ->] _]. apply Qltb_lt in El. cbn.
             split; [done|]. split; [done|]. split; [done|].
             intros k' [Hk'|Hk']%elem_of_app Hne.
             ++ specialize (Hall k' Hk' Hne). lra.
             ++ apply list_elem_of_singleton in Hk' as ->. apply Qle_refl.
          -- apply ret_Ok in Hbody as [[= -> ->] _]. apply Qltb_ge in El. cbn.
             split; [done|]. split; [done|]. split; [done|].
             intros k' [Hk'|Hk']%elem_of_app Hne; [by apply Hall|].
             by apply list_elem_of_singleton in Hk' as ->.
        * apply ret_Ok in Hbody as [[= -> ->] _]. cbn.
          split; [done|]. split; [done|]. split; [done|].
          intros k' [Hk'|Hk']%elem_of_app Hne; [by specialize (HI k' Hk')|].
          apply list_elem_of_singleton in Hk' as ->. apply Qle_refl.
      + apply ret_Ok in Hbody as [[= -> ->] _].
        assert (Hkm : k = m) by (destruct (decide (k = m)); [done | tauto]). subst k.
        destruct md as [q|], mk as [k0|]; cbn in HI |- *; try done.
        * destruct HI as (-> & Hk0 & Hk0m & Hall).
          split; [done|]. split; [done|]. split; [done|].
          intros k' [Hk'|Hk']%elem_of_app Hne; [by apply Hall|].
          by apply list_elem_of_singleton in Hk'.
        * intros k' [Hk'|Hk']%elem_of_app; [by apply HI|].
          by apply list_elem_of_singleton in Hk'.
    - cbn. intros k Hk. by apply elem_of_nil in Hk. }
  cbn in Hfinal. destruct min_d as [q|]; [|done].
  destruct Hfinal as (_ & Hin & Hne & Hall). done.
Qed.

Lemma fast_loop_exact (selected' : list nat) (i : nat) :
  i ∉ selected' ->
  forall (fast_updates : list (nat * nat))
         (clusters clusters1 : list (option (nat * nat))) (slow : list nat) (w w' : World),
  NoDup fast_updates.*1 ->
  Forall (fun jm => jm.2 ∈ selected' /\
                    forall m, m ∈ selected' -> (d jm.2 jm.1 <= d m jm.1)%Q) fast_updates ->
  forM fast_updates
    (fun '(clusters, slow_updates) '(j, m) =>
       if decide (m = i) then mret (clusters, slow_updates ++ [j])
       else
         '(_, min_k) ← nearest_other distance selected' m j;
         match min_k with
         | Some min_k =>
             if decide (m = min_k) then raise AssertionError
             else
               clusters ← lift (setitem clusters j (Some (m, min_k)));
               mret (clusters, slow_updates)
         | None => raise AssertionError
         end)
    (clusters, [i]) w = (Ok (clusters1, slow), w') ->
  slow = [i] /\
  (forall j m, (j, m) ∈ fast_updates ->
     nearest_two d selected' j (clusters1 !! j) /\ nearest clusters1 j = m) /\
  (forall j, j ∉ fast_updates.*1 -> clusters1 !! j = clusters !! j).
Proof.
  intros Hi. induction fast_updates as [|[j m] fu IH];
    intros clusters clusters1 slow w w' Hnd HP H; cbn [forM] in H.
  - apply ret_Ok in H as [[= -> ->] _]. split; [done|]. split; [|done].
    intros j m Hjm. by apply elem_of_nil in Hjm.
  - cbn [fmap list_fmap fst] in Hnd. apply NoDup_cons in Hnd as [Hj Hnd].
    apply Forall_cons in HP as [[Hm Hmin] HP]. cbn [fst snd] in Hm, Hmin.
    inv_bind H. case_dec E; [by subst m|].
    apply bind_Ok in E as ([min_d [min_k|]] & v3 & Eo & E); [|discriminate].
    apply nearest_other_exact in Eo as (Hk & Hkm & Hkmin).
    case_dec E; [discriminate|].
    apply bind_Ok in E as (cl' & v4 & Eset & E).
    apply lift_Ok in Eset as [Hset _]. apply setitem_Ok in Hset as [Hlt ->].
    apply ret_Ok in E as [-> _].
    destruct (IH _ _ _ _ _ Hnd HP H) as (Hslow & Hall & Hout).
    split; [done|]. split.
    + intros j' m' [[= -> ->]|Hin]%elem_of_cons; [|by apply Hall].
      rewrite (Hout j Hj), list_lookup_insert_eq by done.
      split.
      * exists m, min_k. split; [done|]. split; [done|]. split; [done|].
        split; [congruence|]. split; [done|]. done.
      * unfold nearest. by rewrite (Hout j Hj), list_lookup_insert_eq.
    + intros j' Hj'. cbn [fmap list_fmap fst] in Hj'.
      apply not_elem_of_cons in Hj' as [Hne Hj']. rewrite (Hout j' Hj').
      by rewrite list_lookup_insert_ne.
Qed.

(** *** [swap] keeps the bookkeeping exact *)

Lemma swap_run (self self' : Medoids) (b : bool) (w w' : World) :
  medoids_exact d self ->
  swap distance self w = (Ok (b, self'), w') ->
  medoids_exact d self'.
Proof.
  intros Hex H. pose proof Hex as (Hok & Hnear & Hcost).
  destruct (swap_ok _ _ _ _ _ _ Hok H) as (Hok' & Hn' & Hk').
  unfold swap in H.
  apply bind_Ok in H as ([ih self1] & u1 & E & H).
  pose proof (next_random_swap_cost _ _ _ _ _ E) as (Hc1 & _).
  destruct (next_random_swap_spec _ _ _ _ _ Hok E) as (Hok1 & Hsel & Hcl & Hn & Hmk & Hh).
  assert (Hex1 : medoids_exact d self1).
  { split; [done|]. unfold recorded_cost. rewrite Hsel, Hcl, Hn, Hc1. by split. }
  destruct ih as [[i h]|]; [|by apply ret_Ok in H as [[= _ ->] _]].
  destruct (Hh i h eq_refl) as [Hhn Hhsel]. clear Hh.
  rewrite <- Hsel in Hhsel. rewrite <- Hn in Hhn.
  apply bind_Ok in H as ([ts fast_updates] & u2 & Et & H).
  destruct (Qltb (fsum ts) 0); [|by apply ret_Ok in H as [[= _ ->] _]].
  apply bind_Ok in H as (a & u3 & Edel & H). apply lift_Ok in Edel as [Hdel _].
  clear Hex Hok Hnear Hcost Hsel Hcl Hn Hmk Hc1 E.
  destruct Hex1 as (Hok1' & Hnear & Hcost).
  pose proof Hok1 as (Hasc & Hlt & Hk & Ht & Hgood).
  apply del_first_spec in Hdel as [Hperm Hasc0]. specialize (Hasc0 Hasc).
  pose proof (ascending_NoDup _ Hasc) as Hnd. rewrite Hperm in Hnd.
  apply NoDup_cons in Hnd as [Hia Hnda].
  assert (Hi : i ∈ md_selected self1) by (rewrite Hperm; by left).
  apply calculate_t_exact in Et as (Hfst & HP & t1 & (m0 & Hm0 & Ht1) & Hmin & Hsum);
    [|by split|done|done].
  set (selected' := insort h a) in *.
  assert (Hsw : forall m, m ∈ selected' <-> swapped (md_selected self1) i h m).
  { intros m. unfold selected', swapped. rewrite insort_perm, elem_of_cons, Hperm, elem_of_cons.
    split; [intros [->|Hm]; [by left|right] | intros [->|[[->|Hm] Hne]]; auto].
    - split; [by right|]. by intros ->.
    - done. }
  assert (Hi' : i ∉ selected').
  { intros [->|[_ Hne]]%Hsw; done. }
  set (a0 := filter (fun j => j ∉ md_selected self1) (seq 0 (md_n self1))) in *.
  assert (Hnda0 : NoDup a0) by apply NoDup_filter, NoDup_seq.
  apply bind_Ok in H as ([clusters1 slow] & u4 & E1 & H).
  apply (fast_loop_exact selected' i Hi') in E1 as (-> & Hfast & Hkeep).
  2: { rewrite Hfst. by apply NoDup_filter. }
  2: { eapply Forall_impl; [exact HP|]. intros [j m] [Hm Hall]. cbn [fst snd] in *.
       split; [by apply Hsw|]. intros m' Hm'. apply Hall. by apply Hsw. }
  apply bind_Ok in H as ([clusters2 ds] & u5 & E2 & H).
  apply update_clusters_exact in E2 as (Hnew & Hold & _).
  apply ret_Ok in H as [[= _ ->] _]. split; [done|].
  assert (Hrest : forall j, j < md_n self1 -> j ∉ selected' -> j <> i ->
            exists m, (j, m) ∈ fast_updates /\ clusters2 !! j = clusters1 !! j).
  { intros j Hjn Hnot Hji.
    assert (Hj : j ∈ fast_updates.*1).
    { rewrite Hfst. apply list_elem_of_filter. split.
      - intros ->. apply Hnot, Hsw. by left.
      - apply list_elem_of_filter. split; [|apply elem_of_seq; lia].
        intros Hj. apply Hnot, Hsw. right. by split. }
    apply list_elem_of_fmap in Hj as ([j' m] & -> & Hjm). exists m. split; [done|].
    apply Hold. intros Hj. by apply list_elem_of_singleton in Hj. }
  unfold recorded_cost. cbn [md_selected md_n md_clusters md_cost]. fold selected'. split.
  - intros j Hjn Hnot. destruct (decide (j = i)) as [->|Hji].
    + apply Hnew. by left.
    + destruct (Hrest j Hjn Hnot Hji) as (m & Hjm & ->). by apply (Hfast j m).
  - set (f0 := fun j => d (nearest (md_clusters self1) j) j).
    set (f2 := fun j => d (nearest clusters2 j) j).
    assert (Hh0 : h ∈ a0).
    { apply list_elem_of_filter. split; [done|]. apply elem_of_seq. lia. }
    assert (Hold0 : a0 ≡ₚ h :: fast_updates.*1).
    { rewrite Hfst. apply NoDup_Permutation; [done| |].
      - constructor; [|by apply NoDup_filter].
        intros [Hne _]%list_elem_of_filter. done.
      - intros j. rewrite elem_of_cons, list_elem_of_filter.
        destruct (decide (j = h)) as [->|Hne]; [tauto|]. tauto. }
    assert (Hnew0 : filter (fun j => j ∉ selected') (seq 0 (md_n self1))
                    ≡ₚ i :: fast_updates.*1).
    { rewrite Hfst. unfold a0. apply NoDup_Permutation.
      - apply NoDup_filter, NoDup_seq.
      - constructor; [|by apply NoDup_filter, NoDup_filter, NoDup_seq].
        intros [_ [Hne _]%list_elem_of_filter]%list_elem_of_filter. done.
      - intros j. rewrite elem_of_cons, !list_elem_of_filter, elem_of_seq.
        rewrite Forall_forall in Hlt. specialize (Hlt i Hi).
        rewrite (Hsw j). unfold swapped. split.
        + intros [Hnot Hj]. destruct (decide (j = i)) as [->|Hji]; [by left|right].
          split; [intros ->; apply Hnot; by left|].
          split; [|done]. intros Hj'. apply Hnot. right. by split.
        + intros [->|(Hjh & Hnot & Hj)].
          * split; [|lia]. intros [->|[_ Hne]]; done.
          * split; [|done]. intros [->|[Hj' _]]; done. }
    rewrite (fsum_perm _ _ (fmap_Permutation f2 _ _ Hnew0)).
    rewrite Hcost. unfold recorded_cost. fold a0. fold f0.
    rewrite (fsum_perm _ _ (fmap_Permutation f0 _ _ Hold0)).
    cbn [fmap list_fmap]. rewrite !fsum_cons, Hsum.
    assert (E2 : (fsum (f2 <$> fast_updates.*1)
                  == fsum ((fun jm : nat * nat => d jm.2 jm.1) <$> fast_updates))%Q).
    { rewrite <- list_fmap_compose. apply fsum_pointwise. intros [j m] Hjm. cbn.
      unfold f2. destruct (Hfast j m Hjm) as [_ Hn1].
      assert (Hc : clusters2 !! j = clusters1 !! j).
      { apply Hold. intros Hj. apply list_elem_of_singleton in Hj as ->.
        assert (Hif : i ∈ fast_updates.*1).
        { apply list_elem_of_fmap. by exists (i, m). }
        rewrite Hfst in Hif.
        apply list_elem_of_filter in Hif as [_ [Hif _]%list_elem_of_filter]. done. }
      unfold nearest in Hn1 |- *. rewrite Hc, Hn1. reflexivity. }
    assert (E0 : (fsum (f0 <$> fast_updates.*1)
                  == fsum ((fun jm : nat * nat => f0 jm.1) <$> fast_updates))%Q).
    { rewrite <- list_fmap_compose. reflexivity. }
    rewrite E2, E0.
    pose proof (fsum_sub (fun jm : nat * nat => d jm.2 jm.1)
                  (fun jm : nat * nat => d (nearest (md_clusters self1) jm.1) jm.1)
                  fast_updates) as Hsub.
    cbn beta in Hsub.
    assert (Ei : (f2 i == t1)%Q).
    { unfold f2.
      destruct (Hnew i) as (n1 & n2 & Hc & Hn1 & _ & _ & Hfirst & _); [by left|].
      assert (Hn : nearest clusters2 i = n1) by (unfold nearest; by rewrite Hc).
      rewrite Hn. apply Qle_antisym.
      - rewrite Ht1. apply Hfirst. by apply Hsw.
      - apply Hmin. by apply Hsw. }
    rewrite Ei. unfold f0 in *. lra.
Qed.

Lemma local_search_run (max_neighbours : Q) (fuel : nat) :
  forall (j : Z) (md md' : Medoids) (w w' : World),
  medoids_exact d md ->
  local_search fuel distance max_neighbours j md w = (Ok md', w') ->
  medoids_exact d md'.
Proof.
  induction fuel as [|fuel IH]; intros j md md' w w' Hex H; cbn [local_search] in H.
  - destruct (Qleb _ _); [done|]. by apply ret_Ok in H as [-> _].
  - destruct (Qleb _ _); [|by apply ret_Ok in H as [-> _]].
    apply bind_Ok in H as ([accepted md1] & w1 & Eswap & H).
    apply swap_run in Eswap; [|done].
    destruct accepted; by apply IH in H.
Qed.

End Exact.

(** *** From [with_k] to its clusters *)

Lemma with_k_exact {RM : RandomModule} {MM : MathModule} (d : nat -> nat -> Q)
    (fuel : nat) (self : Clusterer) (k : Z) (cs : list Cluster) (w w' : World) :
  computes (distance_lambda self) d -> (forall i j, (d i j == d j i)%Q) ->
  with_k fuel self k w = (Ok cs, w') ->
  exists md, medoids_exact d md /\ md_n md = c_n self /\ md_k md = k /\
             medoids_clusters md = Ok cs.
Proof.
  intros Hd Hsym. unfold with_k. intros H. apply bind_Ok in H as (best & w1 & Eloop & H).
  assert (Hbest : forall md, best = Some md ->
            medoids_exact d md /\ md_n md = c_n self /\ md_k md = k).
  { refine (forM_invariant
              (fun _ (st : option Medoids) =>
                 forall md, st = Some md ->
                   medoids_exact d md /\ md_n md = c_n self /\ md_k md = k)
              _ _ _ _ _ _ _ _ Eloop); [|done].
    intros _ _ st v1 st2 v2 Hst _ Hbody.
    apply bind_Ok in Hbody as (md0 & v3 & Einit & Hbody).
    apply (medoids_init_run _ d Hd) in Einit as (Hex0 & Hn0 & Hk0).
    apply bind_Ok in Hbody as (md1 & v4 & Esearch & Hbody).
    pose proof (local_search_ok _ _ _ _ _ _ _ _ (proj1 Hex0) Esearch) as (_ & Hn1 & Hk1).
    apply (local_search_run _ d Hd Hsym) in Esearch; [|done].
    apply ret_Ok in Hbody as [-> _]. intros md Hmd.
    destruct st as [old|]; [destruct (Qltb _ _)|]; injection Hmd as <-.
    - split; [done|]. split; congruence.
    - by apply Hst.
    - split; [done|]. split; congruence. }
  destruct best as [md|]; [|done]. apply lift_Ok in H as [H _].
  destruct (Hbest md eq_refl) as (Hex & Hn & Hk). by exists md.
Qed.

Lemma pure_computes {RM : RandomModule} (d : nat -> nat -> Q) :
  computes (pure_distance d) d.
Proof. intros i j w q w' H. by apply ret_Ok in H as [-> _]. Qed.

Lemma root_computes {RM : RandomModule} (n : nat) (d : nat -> nat -> Q) :
  computes (distance_lambda (root_clusterer n (pure_distance d))) d.
Proof.
  intros i j w q w' H. unfold distance_lambda in H. cbn [c_i_to_i0 c_d0 root_clusterer] in H.
  apply bind_Ok in H as (i0 & w1 & Ei & H). apply lift_Ok in Ei as [Hi _].
  apply getitem_Ok, lookup_seq in Hi as [-> _].
  apply bind_Ok in H as (j0 & w2 & Ej & H). apply lift_Ok in Ej as [Hj _].
  apply getitem_Ok, lookup_seq in Hj as [-> _].
  by apply ret_Ok in H as [-> _].
Qed.

Lemma gap_distance_sym (i j : nat) : (gap_distance i j == gap_distance j i)%Q.
Proof.
  unfold gap_distance.
  replace (Z.of_nat j - Z.of_nat i)%Z with (- (Z.of_nat i - Z.of_nat j))%Z by lia.
  by rewrite Z.abs_opp.
Qed.


(** X25.  A new [_Medoids] object is exact: for a distance function that
    returns the values of [d], every point that is no medoid has recorded a
    medoid nearest to it and a medoid nearest to it among the others, and
    the cost is the sum of the distances of these points to their nearest
    medoids. *)
Theorem medoids_init_exact {RM : RandomModule} {MM : MathModule}
    (distance : nat -> nat -> M Q) (d : nat -> nat -> Q)
    (fuel n : nat) (k : Z) (md : Medoids) (w w' : World) :
  computes distance d ->
  medoids_init fuel n distance k w = (Ok md, w') ->
  medoids_exact d md /\ md_n md = n /\ md_k md = k.
Proof. intros Hd. by apply medoids_init_run. Qed.

Lemma medoids_init_exact_witness :
  exists md w',
    @medoids_init lcg_random table_math 100 6 (pure_distance gap_distance) 2 (world_of 1)
      = (Ok md, w') /\
    medoids_exact gap_distance md /\ md_n md = 6 /\ md_k md = 2%Z.
Proof.
  destruct (@medoids_init lcg_random table_math 100 6 (pure_distance gap_distance) 2
              (world_of 1)) as [[md | e |] w'] eqn:E.
  - exists md, w'. split; [reflexivity|].
    apply (@medoids_init_exact lcg_random table_math (pure_distance gap_distance)
             gap_distance 100 6 2 md (world_of 1) w').
    + apply pure_computes.
    + exact E.
  - assert (E1 : (@medoids_init lcg_random table_math 100 6 (pure_distance gap_distance) 2
                    (world_of 1)).1 = Raise e) by (rewrite E; reflexivity).
    vm_compute in E1. discriminate.
  - assert (E1 : (@medoids_init lcg_random table_math 100 6 (pure_distance gap_distance) 2
                    (world_of 1)).1 = OutOfFuel) by (rewrite E; reflexivity).
    vm_compute in E1. discriminate.
Defined.



(** X27.  In the clusters [with_k] returns every point is with a medoid
    nearest to it: for a symmetric distance, a member of a cluster other
    than its medoid is no farther from that medoid than from the medoid of
    any cluster returned. *)
Theorem with_k_nearest_medoid {RM : RandomModule} {MM : MathModule} (d : nat -> nat -> Q)
    (fuel : nat) (self : Clusterer) (k : Z) (cs : list Cluster) (w w' : World) :
  computes (distance_lambda self) d -> (forall i j, (d i j == d j i)%Q) ->
  with_k fuel self k w = (Ok cs, w') ->
  Forall (fun c => forall j, j ∈ members c -> j <> medoid c ->
            forall c', c' ∈ cs -> (d (medoid c) j <= d (medoid c') j)%Q) cs.
Proof.
  intros Hd Hsym H.
  apply (with_k_exact d) in H as (md & (Hok & Hnear & _) & _ & _ & Hrun); [|done..].
  destruct (medoids_clusters_run md Hok) as (cs' & Hrun' & Hmed & Hall).
  assert (cs' = cs) as -> by congruence.
  apply Forall_forall. intros c Hc j Hj Hne c' Hc'.
  rewrite Forall_forall in Hall. destruct (Hall c Hc) as [_ Hin].
  apply Hin in Hj as [->|(Hjn & Hnot & Hn)]; [done|].
  destruct (Hnear j Hjn Hnot) as (n1 & n2 & Hcj & _ & _ & _ & Hfirst & _).
  assert (Hn1 : nearest (md_clusters md) j = n1) by (unfold nearest; by rewrite Hcj).
  rewrite <- Hn, Hn1. apply Hfirst. rewrite <- Hmed.
  apply list_elem_of_fmap. by exists c'.
Qed.

Lemma with_k_nearest_medoid_witness :
  exists cs w',
    @with_k lcg_random table_math 100 (root_clusterer 6 (pure_distance gap_distance)) 2
      (world_of 1) = (Ok cs, w') /\
    Forall (fun c => forall j, j ∈ members c -> j <> medoid c ->
              forall c', c' ∈ cs ->
                (gap_distance (medoid c) j <= gap_distance (medoid c') j)%Q) cs.
Proof.
  destruct (@with_k lcg_random table_math 100 (root_clusterer 6 (pure_distance gap_distance)) 2
              (world_of 1)) as [[cs | e |] w'] eqn:E.
  - exists cs, w'. split; [reflexivity|].
    apply (@with_k_nearest_medoid lcg_random table_math gap_distance 100
             (root_clusterer 6 (pure_distance gap_distance)) 2 cs (world_of 1) w').
    + apply root_computes.
    + apply gap_distance_sym.
    + exact E.
  - assert (E1 : (@with_k lcg_random table_math 100
                    (root_clusterer 6 (pure_distance gap_distance)) 2 (world_of 1)).1
                 = Raise e) by (rewrite E; reflexivity).
    vm_compute in E1. discriminate.
  - assert (E1 : (@with_k lcg_random table_math 100
                    (root_clusterer 6 (pure_distance gap_distance)) 2 (world_of 1)).1
                 = OutOfFuel) by (rewrite E; reflexivity).
    vm_compute in E1. discriminate.
Defined.

(** ** [optimize] with a split criterion *)

Lemma ascending_translated (l ix : list nat) :
  ascending l -> ascending ix -> Forall (fun i => i < length l) ix ->
  ascending ((fun i => default 0 (l !! i)) <$> ix).
Proof.
  intros Hl. induction 1 as [|x ix Hix IH Hx]; intros Hlt; [constructor|].
  apply Forall_cons in Hlt as [Hxl Hlt]. cbn [fmap list_fmap].
  constructor; [by apply IH|].
  apply Forall_fmap, Forall_forall. intros y Hy. cbn.
  rewrite Forall_forall in Hx, Hlt. specialize (Hx y Hy). specialize (Hlt y Hy).
  destruct (lookup_lt_is_Some_2 l x Hxl) as [a Ha].
  destruct (lookup_lt_is_Some_2 l y Hlt) as [b Hb]. rewrite Ha, Hb. cbn.
  by apply (sorted_lookup_lt lt l Hl x y).
Qed.

Section WithoutKRun.
Context {RM : RandomModule} {MM : MathModule}.

(** [without_k] answers with clusters that are not empty and list their
    points in the order of the clusterer. *)
Lemma without_k_ordered (SC : SplitCriterion) (fuel : nat) :
  forall (self : Clusterer) (criterion : option (sc_state SC)) (res : list (list nat))
         (w w' : World),
  c_n self = length (c_i_to_i0 self) -> ascending (c_i_to_i0 self) ->
  without_k fuel SC self criterion w = (Ok res, w') ->
  Forall (fun c => c <> [] /\ ascending c) res.
Proof.
  induction fuel as [|fuel IH]; intros self criterion res w w' Hn Hasc H; [done|].
  cbn [without_k] in H. cbv zeta in H. destruct (decide (c_n self < 2)) as [Hsmall|Hbig].
  - apply bind_Ok in H as (x & w1 & Ex & H). apply ret_Ok in H as [-> _].
    repeat constructor. done.
  - apply bind_Ok in H as (clusters & w1 & Ewith & H).
    apply with_k_run in Ewith as (_ & _ & _ & Hperm & Hall).
    apply bind_Ok in H as (clusters0 & w2 & Etr & H). apply lift_Ok in Etr as [Htr _].
    apply collect_Forall2 in Htr.
    apply bind_Ok in H as (crit & w3 & _ & H).
    apply bind_Ok in H as ([split new_criterion] & w4 & _ & H).
    destruct split; cbn [negb] in H.
    + refine (forM_invariant (fun _ (r : list (list nat)) =>
                                Forall (fun c => c <> [] /\ ascending c) r)
                _ _ _ _ _ _ _ _ H); [|constructor].
      intros done i r v1 r2 v2 Hr _ Hbody.
      apply bind_Ok in Hbody as (ci & v3 & Eci & Hbody). apply lift_Ok in Eci as [Hci _].
      apply getitem_Ok in Hci.
      apply bind_Ok in Hbody as (d0 & v4 & _ & Hbody).
      apply bind_Ok in Hbody as (rs & v5 & Erec & Hbody).
      apply ret_Ok in Hbody as [-> _]. apply Forall_app. split; [done|].
      apply IH in Erec; [done|done|]. cbn [c_i_to_i0].
      destruct (Forall2_lookup_r _ _ _ _ _ Htr Hci) as (c & Hc & Hcc).
      apply translate_spec in Hcc. rewrite Hcc.
      apply list_elem_of_lookup_2 in Hc. rewrite Forall_forall in Hall.
      destruct (Hall c Hc) as [_ Hcasc].
      apply ascending_translated; [done|done|].
      apply Forall_forall. intros x Hx.
      assert (Hin : x ∈ concat (members <$> clusters)).
      { apply elem_of_concat. exists (members c). split; [|done].
        apply list_elem_of_fmap. by exists c. }
      rewrite Hperm in Hin. apply elem_of_seq in Hin. lia.
    + apply bind_Ok in H as (xs & w5 & Exs & H). apply lift_Ok in Exs as [Hxs _].
      apply ret_Ok in H as [-> _]. apply collect_Forall2 in Hxs.
      assert (E : xs = c_i_to_i0 self).
      { rewrite (Forall2_lookup_fmap 0 (c_i_to_i0 self) (seq 0 (c_n self)) xs).
        - by rewrite Hn, fmap_lookup_seq.
        - eapply Forall2_impl; [exact Hxs|]. intros i x Hx. by apply getitem_Ok. }
      rewrite E. constructor; [|constructor]. split; [|done].
      intros E0. rewrite E0 in Hn. cbn in Hn. lia.
Qed.

End WithoutKRun.

(** X28.  With a split criterion, what [optimize] returns presents
    clusters that hold every point once; each cluster lists its points in
    ascending order of their indices, and the clusters come in ascending
    order of their first points. *)
Theorem optimize_criterion_in_order {RM : RandomModule} {MM : MathModule} {Point : Type}
    (fuel : nat) (p : list Point) (f : split_factory) (distances : Distances) (m : mode)
    (sd : Z) (w w' : World) (out : output) :
  optimize fuel p (KTuple f) distances m sd w = (Ok out, w') ->
  exists cs,
    renders p m cs out /\
    concat cs ≡ₚ seq 0 (length p) /\
    Forall ascending cs /\ ascending (first_of <$> cs).
Proof.
  intros H. unfold optimize in H. cbn match in H.
  apply bind_Ok in H as (random_state & w1 & _ & H). unfold try_finally in H.
  destruct (optimize_body fuel p (KTuple f) distances m sd w1) as [[o|e|] w2] eqn:Ebody;
    cbn in H; try done.
  injection H as -> _. unfold optimize_body in Ebody.
  apply bind_Ok in Ebody as (u & w3 & _ & H).
  apply bind_Ok in H as (clusters & w4 & Ecl & H).
  apply bind_Ok in Ecl as (criterion & w5 & _ & Ecl).
  pose proof Ecl as Hperm.
  apply without_k_spec in Hperm; [|cbn; by rewrite length_seq]. cbn [c_i_to_i0] in Hperm.
  apply without_k_ordered in Ecl; [|cbn; by rewrite length_seq | apply ascending_seq].
  apply bind_Ok in H as (sorted_clusters & w6 & Es & H). apply lift_Ok in Es as [Hs _].
  unfold sorted_by_first in Hs. destruct (forallb _ clusters); [|done].
  injection Hs as <-.
  set (cs := sorted_by _ clusters) in *.
  assert (Hsort : cs ≡ₚ clusters) by apply sorted_by_perm.
  assert (Hcs : concat cs ≡ₚ seq 0 (length p)).
  { rewrite <- Hperm. by apply concat_perm. }
  assert (Hmem : Forall (fun c => c <> [] /\ ascending c) cs) by (by rewrite Hsort).
  exists cs. split; [|split; [done|split]].
  - apply render_spec; [done|]. unfold render. destruct m; try done.
    + apply bind_Ok in H as (pcs & w7 & Ep & H). apply lift_Ok in Ep as [-> _].
      by apply ret_Ok in H as [-> _].
    + apply bind_Ok in H as (comps & w7 & Ec & H). apply lift_Ok in Ec as [-> _].
      by apply ret_Ok in H as [-> _].
  - eapply Forall_impl; [exact Hmem|]. by intros c [_ Hc].
  - apply le_NoDup_ascending.
    + apply (sorted_keys first_of). apply sorted_by_sorted.
    + apply firsts_NoDup.
      * eapply Forall_impl; [exact Hmem|]. by intros c [Hc _].
      * rewrite Hcs. apply NoDup_seq.
Qed.

Lemma optimize_criterion_in_order_witness :
  exists out w',
    @optimize lcg_random table_math Z 100 line_points (KTuple (silhouette_factory None))
      (Precomputed (line_matrix line_points)) mode_clusters 12345 (world_of 1)
    = (Ok out, w') /\
    exists cs,
      renders line_points mode_clusters cs out /\
      concat cs ≡ₚ seq 0 (length line_points) /\
      Forall ascending cs /\ ascending (first_of <$> cs).
Proof.
  destruct (@optimize lcg_random table_math Z 100 line_points (KTuple (silhouette_factory None))
              (Precomputed (line_matrix line_points)) mode_clusters 12345 (world_of 1))
    as [[out | e |] w'] eqn:E.
  - exists out, w'. split; [reflexivity|].
    exact (@optimize_criterion_in_order lcg_random table_math Z 100 line_points
             (silhouette_factory None) (Precomputed (line_matrix line_points)) mode_clusters
             12345%Z (world_of 1) w' out E).
  - assert (E1 : (@optimize lcg_random table_math Z 100 line_points
                    (KTuple (silhouette_factory None))
                    (Precomputed (line_matrix line_points)) mode_clusters 12345
                    (world_of 1)).1 = Raise e) by (rewrite E; reflexivity).
    vm_compute in E1. discriminate.
  - assert (E1 : (@optimize lcg_random table_math Z 100 line_points
                    (KTuple (silhouette_factory None))
                    (Precomputed (line_matrix line_points)) mode_clusters 12345
                    (world_of 1)).1 = OutOfFuel) by (rewrite E; reflexivity).
    vm_compute in E1. discriminate.
Defined.

(** ** [agglomerate] with the Dunn criterion *)

Lemma save_and_merge_two (c c' : DunnMergeCriterion.state)
    (clusters : list (option (list nat))) (i j : nat) (d : Q) (b : bool) :
  dunn_saved_two c -> 2 <= length (live_lists clusters) ->
  DunnMergeCriterion.save_and_merge c clusters i j d = Ok (b, c') ->
  dunn_saved_two c'.
Proof.
  intros Hc Hlive. unfold DunnMergeCriterion.save_and_merge.
  set (c1 := if _ : bool then _ else c). intros Hrun.
  assert (H1 : dunn_saved_two c1).
  { subst c1. destruct (match DunnMergeCriterion._best_dunn c with
                        | Some b0 => _ | None => true end); [|done].
    intros p [= <-]. fold (live_lists clusters). split; [done | apply live_lists_nonempty]. }
  clearbody c1.
  destruct (match DunnMergeCriterion._merge_limit c1 with
            | Some limit => _ | None => false end).
  { by injection Hrun as <- <-. }
  repeat match type of Hrun with
         | (mbind _ ?m = Ok _) =>
             let E := fresh "E" in destruct m eqn:E; simpl in Hrun; [|discriminate..]
         end.
  injection Hrun as <- <-. exact H1.
Qed.

Lemma merge_live_count (n : nat) (clusters clusters' : list (option (list nat))) (i j : nat) :
  clusters_ok n clusters -> i <> j ->
  merge_clusters clusters i j = Ok clusters' ->
  S (length (live_lists clusters')) = length (live_lists clusters).
Proof.
  intros (_ & Hne & _) Hij Hrun.
  apply merge_clusters_spec in Hrun as (ci & cj & Hi & Hj & ->).
  pose proof (live_lists_insert clusters i (Some ci) (Some (ci ++ cj)) Hi) as H1.
  pose proof (live_lists_insert (<[i := Some (ci ++ cj)]> clusters) j (Some cj) None) as H2.
  rewrite list_lookup_insert_ne in H2 by done. specialize (H2 Hj).
  destruct ci as [|x ci]; [by destruct (Hne i)|].
  destruct cj as [|y cj]; [by destruct (Hne j)|].
  cbn in H1, H2 |- *. lia.
Qed.

Lemma live_lists_Some (p : list (list nat)) :
  Forall (fun c => c <> []) p -> live_lists (Some <$> p) = p.
Proof.
  unfold live_lists. induction 1 as [|c p Hc _ IH]; [done|].
  destruct c as [|x c]; [done|]. cbn in *. by rewrite IH.
Qed.

Section DunnRun.
Context {Point : Type}.

Lemma reduce_body_dunn (n : nat)
    (st st' : @reduce_state Point (mc_state DunnMergeCriterion.criterion))
    (b : bool) :
  dunn_inv n st -> (1 < r_n_clusters st)%Z ->
  reduce_body DunnMergeCriterion.criterion n (lookup_table n) st = Ok (b, st') ->
  dunn_inv n st'.
Proof.
  intros (Hok & Hdom & Hcount & c & Hc & Hpart & Htwo) Hmany. unfold reduce_body. intros H.
  apply outcome_bind_Ok in H as ([[[d p] i] j] & Hpop & H).
  apply popped_spec in Hpop as (Hij & _ & _).
  apply outcome_bind_Ok in H as ([go_on crit] & Hcons & H).
  unfold consult in Hcons. rewrite Hc in Hcons.
  apply outcome_bind_Ok in Hcons as ([b0 c'] & Hrun & Hcons). injection Hcons as <- <-.
  assert (Hpart' : dunn_keeps_partition n c').
  { eapply (sound_step _ _ _ (dunn_sound n)); [exact Hpart | exact Hok | exact Hrun]. }
  assert (Htwo' : dunn_saved_two c').
  { eapply save_and_merge_two; [exact Htwo| |exact Hrun]. lia. }
  destruct b0; cbn [negb] in H.
  - apply outcome_bind_Ok in H as ([heap wh] & _ & H).
    apply outcome_bind_Ok in H as (dominant & Hd & H).
    apply outcome_bind_Ok in H as (clusters & Hcl & H).
    injection H as <- <-. rewrite Hdom in Hd. injection Hd as <-.
    pose proof (merge_live_count n _ _ i j Hok ltac:(lia) Hcl) as Hlive.
    split; [|split; [done|split]]; cbn [r_clusters r_dominant r_n_clusters r_criterion].
    + eapply merge_clusters_ok; [|exact Hok|exact Hcl]. lia.
    + change (@r_n_clusters Point DunnMergeCriterion.state st) with (r_n_clusters st). lia.
    + by exists c'.
  - injection H as <- <-. split; [done|]. split; [done|]. split; [done|]. by exists c'.
Qed.

Lemma reduce_loop_dunn (fuel n : nat) :
  forall st st' : @reduce_state Point (mc_state DunnMergeCriterion.criterion),
  dunn_inv n st ->
  reduce_loop fuel DunnMergeCriterion.criterion n (lookup_table n) 1 st = Ok st' ->
  dunn_inv n st'.
Proof.
  induction fuel as [|fuel IH]; intros st st' Hinv H; cbn [reduce_loop] in H.
  - destruct (decide _); [done|]. by injection H as <-.
  - destruct (decide _) as [[_ Hmany]|]; [|by injection H as <-].
    destruct (reduce_body DunnMergeCriterion.criterion n (lookup_table n) st)
      as [[[|] st1]| |] eqn:Hbody; try done.
    + eapply IH; [|exact H]. by eapply reduce_body_dunn.
    + injection H as <-. by eapply reduce_body_dunn.
Qed.

End DunnRun.

(** X29.  With the Dunn criterion [agglomerate] never answers with a
    single cluster: what it returns presents at least two clusters, none
    of them empty, that hold every point once. *)
Theorem agglomerate_dunn_two_clusters {RM : RandomModule} {Point : Type}
    (points : list Point) (merge_limit : option Q) (distances : Distances) (m : mode)
    (out : output) :
  agglomerate points (KTuple (dunn_factory merge_limit)) distances m = Ok out ->
  exists cs, partitions (length points) cs /\ renders points m cs out /\ 2 <= length cs.
Proof.
  unfold agglomerate, reduce. intros H.
  apply outcome_bind_Ok in H as (matrix & _ & H).
  cbn [mf_make mf_criterion dunn_factory] in H. rewrite outcome_bind_ret in H.
  unfold reduce_run in H.
  apply outcome_bind_Ok in H as (pairs & _ & H).
  apply outcome_bind_Ok in H as ([heap wh] & _ & H).
  apply outcome_bind_Ok in H as (dominant & Hdom & H).
  apply outcome_bind_Ok in H as (st & Hloop & H).
  apply outcome_bind_Ok in H as (res & Hres & H).
  assert (Hd : dominant = None).
  { destruct m; cbn [initial_dominant render] in *; try done.
    - by injection Hdom as <-.
    - by injection Hdom as <-. }
  subst dominant.
  apply (reduce_loop_dunn _ (length points)) in Hloop.
  2: { split; [apply singletons_ok|]. split; [done|]. split.
       - cbn. by rewrite live_lists_singletons, length_fmap, length_seq.
       - eexists. split; [reflexivity|]. split; intros p0 Hp0; discriminate. }
  destruct Hloop as (Hok & Hdom' & _ & c & Hc & Hpart & Htwo).
  unfold final_result in Hres. rewrite Hdom', Hc in Hres.
  cbn [mc_best DunnMergeCriterion.criterion] in Hres. unfold DunnMergeCriterion.best in Hres.
  destruct (DunnMergeCriterion._best_partition c) as [p|] eqn:Ep; [|done].
  destruct (Htwo p Ep) as [Hlen Hne]. specialize (Hpart p Ep).
  destruct (sorted_result_clusters (Some <$> p)) as (res' & Hres' & Hconcat & Hne' & Hlen').
  rewrite Hres' in Hres. injection Hres as <-.
  rewrite flat_Some in Hconcat. rewrite live_lists_Some in Hlen' by done.
  exists res'. split; [|split].
  - split; [by rewrite Hconcat | done].
  - apply render_spec; [by rewrite Hconcat | done].
  - lia.
Qed.

Lemma agglomerate_dunn_two_clusters_witness :
  exists cs,
    partitions (length line_points) cs /\
    renders line_points mode_components cs (OutComponents [1; 1; 1; 2; 2; 2]) /\
    2 <= length cs.
Proof.
  apply (@agglomerate_dunn_two_clusters lcg_random Z line_points None
           (Precomputed (line_matrix line_points)) mode_components).
  vm_compute. reflexivity.
Defined.

(** X30.  With the Dunn criterion and fewer than two points
    [agglomerate] raises [TypeError] in the modes [clusters] and
    [components]: no merge is tried, so no partition was saved. *)
Theorem agglomerate_dunn_few_points {RM : RandomModule} {Point : Type}
    (points : list Point) (merge_limit : option Q) (ds : list Q) (m : mode) :
  length points < 2 -> m = mode_clusters \/ m = mode_components ->
  agglomerate points (KTuple (dunn_factory merge_limit)) (Precomputed ds) m
  = Raise TypeError.
Proof.
  intros Hlen Hm.
  unfold agglomerate, reduce, reduce_run, matrix_of, PrecomputedDistances.matrix.
  rewrite outcome_bind_ret.
  cbn [mf_make mf_criterion dunn_factory]. rewrite outcome_bind_ret.
  assert (Hpairs : initial_pairs points (length points) = Ok []).
  { destruct points as [|x [|y l]]; [done|done|cbn in Hlen; lia]. }
  rewrite Hpairs, outcome_bind_ret.
  unfold initial_heap. rewrite zip_with_nil_r. cbn [heapify length Nat.div seq rev for_each].
  cbn. destruct Hm as [-> | ->]; reflexivity.
Qed.

Lemma agglomerate_dunn_few_points_witness :
  @agglomerate lcg_random Z [7%Z] (KTuple (dunn_factory None)) (Precomputed [])
    mode_clusters = Raise TypeError.
Proof.
  apply (@agglomerate_dunn_few_points lcg_random Z [7%Z] None [] mode_clusters).
  - cbn. lia.
  - by left.
Defined.
